(* ===== verification/_CoqProject ===== *)
-Q . S2P
Prelude.v
Platform.v
CInt.v
Table.v
Spec.v
Memory.v
Outcome.v
Loop.v
Hasher.v
Refine.v
Machine.v
Total.v
Conform.v
Uniform.v
Compose.v
Task.v
Pool.v
Concurrent.v
Global.v
Contents.v
Written.v
Reference.v
