(* ===== verification/Prelude.v ===== *)
(** * Pearson hashing (pearson-hashing.c): a verification development

    The program is one C file, [src/pearson-hashing.c]: a 256-entry
    permutation table [pearson_T] and four functions over NUL-terminated
    strings, [phash_rfc3074], [phash_original], [phash_wikipedia] and
    [phash16].  Every function folds the bytes of its key through the table
    with [h = pearson_T[h ^ byte]]; they differ in the seed, in the order in
    which the bytes are consumed and in what they allocate.  [phash16]
    calls [phash_wikipedia] twice on a private copy of the key.  The
    comments of the file quote two of the functions again in Ruby and Go.

    ** Files, in dependency order

    - [Prelude] (this file): the fault type, the result type, the monad
      [cm] of C computations over a state with its notation scope
      [cm_scope], the judgement [ends] on the outcome of a computation with
      its rules, byte-range facts about [Z.lxor] and [Z.lor], and the
      tactics and hint databases used everywhere.
    - [Platform]: the class [Platform] of what the C standard leaves to
      the implementation and the program depends on (whether plain [char]
      is signed, the widths of [int] and [size_t], which allocator bytes
      are readable below a block [malloc] returns, how much slack lies
      above it, what [malloc(0)] returns, how large the heap is), the
      well-formedness class
      [PlatformOk], and the machines the theorems are witnessed on:
      [strict_machine] (the abstract machine of the standard: no byte
      outside a block is accessible), [lp64] ([x86_64], [aarch64]: a
      boundary-tag allocator), [micro8] and [small16] (16-bit [int]),
      [poisoned] (fill bytes around every block).
    - [CInt]: conversions ([to_uchar], [char_val], [to_char], [to_ushort],
      [size_wrap]), pointer offsets in [size_t] arithmetic ([index_off])
      and the [int] operations that can be undefined ([int_shl],
      [int_add], [int_rem]), as functions on [Z] with the wrap-around
      written out.
    - [Table]: the table [pearson_T] (lines 15-33), the checked read
      [T_read] that models [pearson_T[e]] for an [int] index [e], and the
      interfaces [ByteTable] (256 entries, all bytes: the type of the
      array) and [PermTable] (a permutation of 0..255) with its instance
      for [pearson_T].  What indexing needs is proved of the first, what
      hashing needs of the second.
    - [Spec]: the abstract specification.  [pearson_step], [pearson_fold]
      and the four hashes of spec.md section 4.1 as pure functions on lists
      of bytes, over any table that satisfies [PermTable], with the algebra
      that makes Pearson hashing what it is: each step is a bijection of
      the byte range, so the fold is injective in its seed and changing one
      byte of a key always changes the digest, which is what the comment
      of lines 8-10 claims ([depends_on_every_byte]).
    - [Memory]: the memory of the C abstract machine.  A memory is the
      list of the blocks allocated so far, a block a run of cells from its
      lowest offset, a cell an initialised byte or an indeterminate one;
      pointers are a block and an offset, or NULL.  [load], [store],
      [malloc], [free], [strlen] and [memcpy] are computations in [cm] that
      fault where C is undefined; [malloc] returns NULL when the request
      does not fit what is left of the heap ([heap_used], [heap_full]),
      [memcpy] faults on objects that overlap.  [mem_wf] is the invariant
      (blocks lie within the address space and hold bytes), [cstring_at]
      says that a pointer designates a C string.
    - [Outcome]: every run of an access or a library call as a judgement
      [ends], faults included; the [shape] of a memory, which no store
      changes (extent and status of every block); the account of the
      heap through [malloc] and [free].
    - [Loop]: what the three loops of the file share.  A loop given by
      its condition, its body and the value at its exit, as a function
      bounded by fuel ([while]) and as a step relation on configurations
      without any bound ([step]); the two agree, and an invariant with a
      variant gives safety, termination of every execution and enough
      fuel at once.
    - [Hasher]: the four C functions (lines 37-42, 63-69, 74-78, 97-105),
      statement by statement, as computations in [cm]: one action per C
      operation, in the order the C code performs them.
    - [Refine]: the refinement theorems.  On a memory that holds the key
      as a C string each function either returns the value of its
      specification in [Spec] or faults, and which of the two is decided
      by the platform and the key; the faults are characterised exactly.
    - [Machine]: the loops of lines 40, 66 and 76 as instances of
      [Loop], each with its invariant and variant.  The loops of [Hasher]
      are these loops; every execution halts, and the functions
      compute the configuration in which the step relation ends.  For
      line 66 the invariant says what the buffer holds after [i]
      iterations ([original_state]: the first [i] intermediate hashes,
      each computed from its predecessor), and it holds of every
      configuration the loop reaches ([original_machine_safe]).
    - [Total]: every run ends.  For every pointer and every well-formed
      memory each function returns a value or ends in a genuine fault;
      the fuel of no loop is exhausted, and a call that returns has given
      back what it took from the heap.
    - [Conform]: the functions against spec.md: where the values agree
      with [hashRFC3074], [hashOriginal] and [hash16], where they do not,
      what the digest guarantees as a hash, what a run leaves in memory.
    - [Uniform]: how the digests are spread.  The C strings of a given
      length as a list ([ckeys]) and the number of them that a function
      takes to a given result ([digest_keys]), with the exact number of
      keys that the fold takes from a seed to a digest over any table
      that satisfies [PermTable].
    - [Compose]: calls in sequence.  A call leaves the blocks of its
      caller untouched and the heap as full as it was, so any sequence of
      calls computes what each call computes alone; and the one way the
      heap shows: when it is exhausted, the two functions that allocate
      dereference NULL.
    - [Task]: a call as a value that can be stopped after each action.
      A program ([prog]) is a tree of single actions ([op]: a load, a
      store, [malloc], [free], a read of the table) with their
      continuations; [exec] runs it to its end and is a morphism into
      [cm], [tstep] performs one action.  The discipline [confined] says
      which blocks a caller reads and writes before and after its
      allocation, whatever bytes its reads of the table return; a
      program that keeps it computes the same on memories that agree on
      what it sees.
    - [Pool]: callers that run at the same time (spec.md, section 5).
      A configuration is the program each caller has left and the memory
      they share, a step one action of one caller; a fault of any
      caller ends the program.  Every schedule ends, and callers that
      keep the discipline and return when run alone return the same
      values under every schedule, as long as the heap has room for all
      their requests at once.
    - [Concurrent]: the four functions as programs of [Task], action by
      action as in [Hasher], with [strlen] and [memcpy] unrolled into
      their reads and writes.  Run alone they are the functions of
      [Hasher]; run at the same time they are safe and compute the
      digests of the calls under every interleaving when the heap has
      room, and race for the heap when it has not.
    - [Global]: the table as what line 15 declares, a writable object
      of the memory.  [in_memory] turns every read of the table in a
      program of [Task] into a load from the block that holds it; the
      pools of [Pool] are used as they are.
    - [Contents]: the programs of [Global] run on a table that holds
      any 256 bytes, as it does after other code has written the array.
    - [Written]: callers at the same time on such a table, as callers
      of [Pool].
    - [Reference]: the Ruby and Go renditions of the comments (lines
      44-58, 80-93) on lists of bytes and on strings of characters of
      several bytes, and their comparison with the C functions.

    ** How the model corresponds to the code

    A C object of type [unsigned char] or [char] is a [Z] in [0, 256), its
    stored byte; the value of a plain [char] after integer promotion is
    [char_val] of its byte, negative for bytes above 127 where [char] is
    signed.  [int] expressions are unbounded [Z] with a range check where
    the standard makes overflow undefined; [size_t] expressions are reduced
    modulo [2 ^ size_bits], and a pointer offset wraps the way an address
    does, so that [hash[i - 1]] for [i = 0] is the byte below [hash].
    Where the standard calls a behaviour undefined the model faults
    ([fault]), and the platform parameters say which accesses outside the
    requested bytes of a [malloc] block a real machine lets through.  The
    operands of [hash[i - 1] ^ key[i]] are read from left to right; C
    leaves the order open, and [Machine] shows that the other order ends
    in the same value and memory, or in a fault as well.

    ** Fuel

    Loops are [Fixpoint]s on a fuel argument and test the loop condition
    of the source before they use it.  [phash_rfc3074] and
    [phash_original] pass the string length, which is the number of
    iterations of their [for] loops; [strlen] and [phash_wikipedia] pass
    the number of cells of the block the pointer lies in, because each
    iteration reads the next cell and a read outside the block faults.
    [Machine] gives each loop a variant (the value of [i], [len - i], the
    cells left in the block of [key]) that the fuel covers, and shows
    that with it the function computes the final configuration of the
    step relation, which has no fuel; [Total] concludes that the bounds
    are never exhausted, for arbitrary pointers; [Refine] proves it again
    on C strings by giving the result.  The programs of [Concurrent]
    carry the same bounds, so a program is a finite tree and every
    schedule of a pool ends; that no caller runs out of fuel under any
    schedule is part of [concurrent_callers], which gives the values.

    ** What the theorems show

    The refinement theorems of [Refine] are equations on the whole run:
    value, final memory and fault.  From them [Conform] derives agreement
    with spec.md under the conditions that are needed (plain bytes, first
    byte other than 254, readable allocator byte equal to 0, [int] wider
    than 16 bits, slack above the buffer), and the failures outside them:
    the write past the buffer in [phash16], the read below the block in
    [phash_original], the negative table index for bytes above 127 where
    [char] is signed, the truncated length in [phash_rfc3074], the signed
    overflow of [h1 << 8], the null pointer from a heap that is full.
    [Table] proves that [pearson_T] is a permutation, [Outcome] that the
    library calls keep [mem_wf] and the heap within its size, that a
    stored byte is read back and that freed blocks are inaccessible.
    [Machine] proves type safety and termination of the loops by rule
    induction on their step relations, [Compose] that calls in sequence
    do not interfere and leak nothing.  [Uniform] counts: since every
    fold step permutes the bytes, the number of keys of [n] bytes that
    reach a digest obeys a recurrence whose solution is a 256th of the
    [255 ^ n] keys rounded down or up, so [phash_wikipedia] and
    [phash_rfc3074] spread the keys as evenly as can be where [char] is
    unsigned ([phash_wikipedia_equidistributed],
    [phash_rfc3074_equidistributed]), and so does [phash_original] where
    in addition the byte below its block reads 0
    ([phash_original_equidistributed]); where it is signed all but
    [127 ^ n] of the keys end in the negative table index
    ([phash_wikipedia_signed_faults]).  The counts are over all keys of
    a length, by induction on the length; nothing is enumerated.
    [Concurrent] proves the claim
    of spec.md, section 5, in the form in which it holds for the code:
    callers whose keys are C strings that nobody writes, each of which
    returns when called alone, on a heap with room for the buffers of
    all of them, are safe under every interleaving of their single
    accesses and obtain the digests of the calls made alone
    ([concurrent_callers], [concurrent_complete]); the proof is an
    invariant of the pool that gives each caller the blocks it owns and
    each block one owner.  Both conditions are needed: a call that
    faults alone crashes the pool ([concurrent_fault]), and whenever
    the heap has no room for the buffers of two callers that allocate,
    one schedule lets both return and another makes the second
    dereference the null pointer of [malloc] ([heap_race]).  A pool of one caller is the sequential
    function, and calls in sequence are one of the schedules
    ([single_caller], [sequential_schedule]).  No two callers are ever
    about to access the same block with one of them writing
    ([concurrent_race_free]).  [Global] puts the table into the memory
    the callers share: they load from it and never write it, so the
    pool with the table in memory and the pool with the constant table
    reach the same configurations action for action
    ([table_in_memory]), the theorems of [Concurrent] carry over
    ([in_memory_callers], [in_memory_call]), and the one thing the
    missing [const] changes is that a caller that is not one of the four
    functions can store into the table and change the digests of the
    others (example [table_race]); each of the four functions hashes with
    whatever 256 bytes the table holds when it runs
    ([phash_reads_table] in [Contents]), and callers at the same time
    on such a table are as safe as on [pearson_T] and return the
    digests over what the table holds ([written_table_callers] in
    [Written]).  The claims of the comments are statements
    of their own: the digest is a single byte that depends on every
    byte of the input ([phash_depends_on_every_byte], lines 8-10);
    [phash_wikipedia] is equal to [phash_original] on the 64-bit
    machines and on no machine where the byte below the block is not 0
    ([wikipedia_is_original_lp64], [wikipedia_is_not_original], line
    71); the Ruby and Go renditions agree with the C functions on keys
    of at most 255 one-byte characters and part on longer keys and on
    characters of several bytes ([rfc3074_renditions_agree],
    [rfc3074_renditions_part], [ruby_rfc3074_multibyte]).

    ** What is not modelled

    Alignment and the representation of pointers as integers, which the
    four functions do not depend on.  Fragmentation of the heap: [malloc]
    fails when the bytes handed out and the request exceed the size of
    the heap, not earlier.  The table in the sequential
    functions of [Hasher], where it is a constant: [Global] justifies
    this for calls on C strings, and [Contents] and [Written] give
    the digests for any contents of the array that stay as they are
    while the calls run; for a table that is written during a call
    there is the example [table_race] only.  Memory orders
    weaker than sequential consistency: the steps of a pool are single
    accesses in program order.  [concurrent_race_free] shows that the
    callers have no data race; that a program without data races has
    the sequentially consistent executions only is a property of the
    C11 memory model that is taken for granted.  A [malloc] that is not
    safe to call from several threads.  The headers of lines 1-3 are
    present through the four library calls only; nothing of [stdio.h] is
    used.  Which byte sequences are valid UTF-8: a Ruby string is a
    list of characters with the bytes of each.  The
    distribution of the 16-bit digests of [phash16] is not counted. *)

From Stdlib Require Import ZArith Lia List.
From stdpp Require Import base tactics option list.

#[local] Open Scope Z_scope.

(** ** Faults and results *)

(** The ways in which a C computation of this program can go wrong. *)
Inductive fault : Type :=
| OutOfBounds     (* access outside the cells of a block *)
| Uninitialised   (* read of an indeterminate byte *)
| NullDeref       (* access through the null pointer *)
| Dangling        (* access to a freed or never allocated block *)
| TableIndex      (* pearson_T indexed outside 0..255 *)
| IntOverflow     (* signed arithmetic out of the range of int *)
| Overlap         (* memcpy between objects that overlap *)
| OutOfFuel.      (* a loop exceeded its iteration bound *)

Inductive result (A : Type) : Type :=
| Ok (a : A)
| Fault (f : fault).

Arguments Ok {A} a.
Arguments Fault {A} f.

#[export] Instance fault_eq_dec : EqDecision fault.
Proof. solve_decision. Defined.

#[export] Instance result_eq_dec {A} `{EqDecision A} : EqDecision (result A).
Proof. solve_decision. Defined.

Definition is_ok {A} (r : result A) : bool :=
  match r with Ok _ => true | Fault _ => false end.

Definition result_map {A B} (f : A -> B) (r : result A) : result B :=
  match r with Ok a => Ok (f a) | Fault e => Fault e end.

(** ** The monad of C computations over a state [S] *)

Definition cm (S A : Type) : Type := S -> result (A * S).

Definition ret {S A} (a : A) : cm S A := fun s => Ok (a, s).

Definition bind {S A B} (c : cm S A) (k : A -> cm S B) : cm S B :=
  fun s => match c s with
           | Ok (a, s') => k a s'
           | Fault f => Fault f
           end.

Definition fail {S A} (f : fault) : cm S A := fun _ => Fault f.

Definition lift {S A} (r : result A) : cm S A :=
  fun s => match r with Ok a => Ok (a, s) | Fault f => Fault f end.

Definition gets {S A} (f : S -> A) : cm S A := fun s => Ok (f s, s).

Definition modify {S} (f : S -> S) : cm S unit := fun s => Ok (tt, f s).

(** The value a computation returns, the final state forgotten. *)
Definition eval {S A} (c : cm S A) (s : S) : result A :=
  result_map fst (c s).

(** ** Outcomes

    [ends c s Q E]: the computation [c], run from the state [s], returns a
    value and a state related by [Q], or ends in a fault that satisfies
    [E].  The rules below compose such judgements along [bind]. *)
Definition ends {S A} (c : cm S A) (s : S) (Q : A -> S -> Prop) (E : fault -> Prop) : Prop :=
  match c s with
  | Ok (a, s') => Q a s'
  | Fault f => E f
  end.

(** Two runs that end alike: in the same value and state, or both in a
    fault. *)
Definition same_run {A} (r r' : result A) : Prop :=
  match r, r' with
  | Ok a, Ok a' => a = a'
  | Fault _, Fault _ => True
  | _, _ => False
  end.

(** The faults of the program proper: every fault but the exhaustion of
    the fuel of a loop, which is an artefact of the model. *)
Definition genuine (f : fault) : Prop := f <> OutOfFuel.

Declare Scope cm_scope.
Delimit Scope cm_scope with cm.

Notation "x <- c ;; k" := (bind c (fun x => k))
  (at level 100, c at next level, right associativity) : cm_scope.
Notation "c ;; k" := (bind c (fun _ => k))
  (at level 100, right associativity) : cm_scope.

(** ** Bytes *)

Definition is_byte (z : Z) : Prop := 0 <= z < 256.

#[export] Instance is_byte_dec z : Decision (is_byte z).
Proof. unfold is_byte. apply _. Defined.

(** A key is a list of bytes none of which is the terminator. *)
Definition is_key (bs : list Z) : Prop :=
  Forall (fun b => 1 <= b < 256) bs.

#[export] Instance is_key_dec bs : Decision (is_key bs).
Proof. unfold is_key. apply _. Defined.

(** The sum of a list of integers. *)
Definition zsum (l : list Z) : Z := foldr Z.add 0 l.

(** A sum does not depend on the order of its terms. *)
#[export] Instance zsum_perm : Proper ((≡ₚ) ==> (=)) zsum.
Proof. unfold zsum. induction 1; cbn; lia. Qed.

Create HintDb byte discriminated.
Create HintDb cm discriminated.
Create Rewrite HintDb cm.

(** ** Laws of the monad *)

Section monad_laws.
Context {S A B C : Type}.
Implicit Types (s : S) (c : cm S A) (k : A -> cm S B).

Lemma bind_ret_l (a : A) k s : bind (ret a) k s = k a s.
Proof. reflexivity. Qed.

Lemma bind_ret_r c s : bind c ret s = c s.
Proof. unfold bind, ret. destruct (c s) as [[a s']|f]; reflexivity. Qed.

Lemma bind_assoc c k (g : B -> cm S C) s :
  bind (bind c k) g s = bind c (fun a => bind (k a) g) s.
Proof. unfold bind. destruct (c s) as [[a s']|f]; reflexivity. Qed.

Lemma bind_ok c k s a s' : c s = Ok (a, s') -> bind c k s = k a s'.
Proof. unfold bind. intros ->. reflexivity. Qed.

Lemma bind_fault c k s f : c s = Fault f -> bind c k s = Fault f.
Proof. unfold bind. intros ->. reflexivity. Qed.

Lemma bind_inv_ok c k s b s2 :
  bind c k s = Ok (b, s2) ->
  exists a s1, c s = Ok (a, s1) /\ k a s1 = Ok (b, s2).
Proof. unfold bind. destruct (c s) as [[a s1]|f]; [eauto | discriminate]. Qed.

Lemma bind_inv_fault c k s f :
  bind c k s = Fault f ->
  c s = Fault f \/ exists a s1, c s = Ok (a, s1) /\ k a s1 = Fault f.
Proof. unfold bind. destruct (c s) as [[a s1]|f']; [eauto | intros [= ->]; auto]. Qed.

Lemma bind_lift_ok (r : result A) k s a : r = Ok a -> bind (lift r) k s = k a s.
Proof. intros ->. reflexivity. Qed.

Lemma bind_lift_fault (r : result A) k s f :
  r = Fault f -> bind (lift r) k s = Fault f.
Proof. intros ->. reflexivity. Qed.

Lemma bind_gets (f : S -> A) k s : bind (gets f) k s = k (f s) s.
Proof. reflexivity. Qed.

Lemma bind_fail (f : fault) k s : bind (fail f) k s = Fault f.
Proof. reflexivity. Qed.

End monad_laws.

(** ** Rules for outcomes *)

Section outcomes.
Context {S A B : Type}.
Implicit Types (s : S) (c : cm S A) (k : A -> cm S B) (E : fault -> Prop).

Lemma ends_ret (a : A) s (Q : A -> S -> Prop) E : Q a s -> ends (ret a) s Q E.
Proof. intros H. exact H. Qed.

Lemma ends_fail (f : fault) s (Q : A -> S -> Prop) E : E f -> ends (fail f) s Q E.
Proof. intros H. exact H. Qed.

Lemma ends_gets (g : S -> A) s (Q : A -> S -> Prop) E : Q (g s) s -> ends (gets g) s Q E.
Proof. intros H. exact H. Qed.

Lemma ends_lift (r : result A) s (Q : A -> S -> Prop) E :
  (forall a, r = Ok a -> Q a s) -> (forall f, r = Fault f -> E f) -> ends (lift r) s Q E.
Proof. unfold ends, lift. destruct r; auto. Qed.

Lemma ends_bind c k s (R : A -> S -> Prop) (Q : B -> S -> Prop) E :
  ends c s R E -> (forall a s', R a s' -> ends (k a) s' Q E) -> ends (bind c k) s Q E.
Proof.
  unfold ends, bind. destruct (c s) as [[a s']|f]; [|auto].
  intros HR Hk. exact (Hk a s' HR).
Qed.

Lemma ends_weaken c s (Q Q' : A -> S -> Prop) E E' :
  ends c s Q E -> (forall a s', Q a s' -> Q' a s') -> (forall f, E f -> E' f) ->
  ends c s Q' E'.
Proof. unfold ends. destruct (c s) as [[a s']|f]; auto. Qed.

Lemma ends_ok c s (Q : A -> S -> Prop) E a s' : ends c s Q E -> c s = Ok (a, s') -> Q a s'.
Proof. unfold ends. intros H E0. now rewrite E0 in H. Qed.

Lemma ends_fault c s (Q : A -> S -> Prop) E f : ends c s Q E -> c s = Fault f -> E f.
Proof. unfold ends. intros H E0. now rewrite E0 in H. Qed.

Lemma ends_intro c s (Q : A -> S -> Prop) E :
  (forall a s', c s = Ok (a, s') -> Q a s') -> (forall f, c s = Fault f -> E f) ->
  ends c s Q E.
Proof. unfold ends. destruct (c s) as [[a s']|f]; auto. Qed.

(** A judgement may keep the equation of the run it is about. *)
Lemma ends_keep c s (Q : A -> S -> Prop) E :
  ends c s Q E -> ends c s (fun a s' => Q a s' /\ c s = Ok (a, s')) E.
Proof. unfold ends. destruct (c s) as [[a s']|f]; auto. Qed.

(** What a judgement with [genuine] faults says in plain terms. *)
Lemma ends_genuine c s (Q : A -> S -> Prop) :
  ends c s Q genuine ->
  c s <> Fault OutOfFuel /\ forall a s', c s = Ok (a, s') -> Q a s'.
Proof.
  intros H. split.
  - intros E0. now apply (ends_fault _ _ _ _ _ H E0).
  - intros a s' E0. exact (ends_ok _ _ _ _ _ _ H E0).
Qed.

(** A pure step changes no state. *)
Lemma lift_ends (r : result A) s :
  (forall f, r = Fault f -> genuine f) ->
  ends (lift r) s (fun _ s' => s' = s) genuine.
Proof. intros H. apply ends_lift; [reflexivity|exact H]. Qed.

End outcomes.

Lemma eval_ok {S A} (c : cm S A) s a s' : c s = Ok (a, s') -> eval c s = Ok a.
Proof. unfold eval. intros ->. reflexivity. Qed.

Lemma eval_fault {S A} (c : cm S A) s f : c s = Fault f -> eval c s = Fault f.
Proof. unfold eval. intros ->. reflexivity. Qed.

(** ** Exclusive or on bytes *)

Lemma log2_lt_pow2_nonneg n a : 0 < n -> 0 <= a < 2 ^ n -> Z.log2 a < n.
Proof.
  intros Hn Ha. destruct (Z.eq_dec a 0) as [->|Hne].
  - rewrite Z.log2_nonpos; lia.
  - apply Z.log2_lt_pow2; lia.
Qed.

Lemma lxor_lt_pow2 n a b :
  0 <= n -> 0 <= a < 2 ^ n -> 0 <= b < 2 ^ n -> 0 <= Z.lxor a b < 2 ^ n.
Proof.
  intros Hn Ha Hb.
  assert (Hnn : 0 <= Z.lxor a b) by (apply Z.lxor_nonneg; lia).
  split; [exact Hnn|].
  destruct (Z.eq_dec n 0) as [->|Hn0].
  { assert (a = 0) as -> by lia. assert (b = 0) as -> by lia. reflexivity. }
  destruct (Z.eq_dec (Z.lxor a b) 0) as [->|Hne]; [lia|].
  apply Z.log2_lt_pow2; [lia|].
  eapply Z.le_lt_trans; [apply Z.log2_lxor; lia|].
  apply Z.max_lub_lt; apply log2_lt_pow2_nonneg; lia.
Qed.

Lemma lxor_byte a b : is_byte a -> is_byte b -> is_byte (Z.lxor a b).
Proof. unfold is_byte. intros. apply (lxor_lt_pow2 8); lia. Qed.

Lemma lxor_neg_r a b : 0 <= a -> b < 0 -> Z.lxor a b < 0.
Proof.
  intros Ha Hb. destruct (Z.lt_ge_cases (Z.lxor a b) 0) as [|H]; [assumption|].
  apply Z.lxor_nonneg in H. lia.
Qed.

Lemma lxor_cancel_l a b c : Z.lxor a b = Z.lxor a c -> b = c.
Proof.
  intros H. apply (f_equal (Z.lxor a)) in H.
  now rewrite <- !Z.lxor_assoc, Z.lxor_nilpotent, !Z.lxor_0_l in H.
Qed.

Lemma lxor_cancel_r a b c : Z.lxor a c = Z.lxor b c -> a = b.
Proof. rewrite !(Z.lxor_comm _ c). apply lxor_cancel_l. Qed.

Lemma lxor_involutive a b : Z.lxor (Z.lxor a b) b = a.
Proof. now rewrite Z.lxor_assoc, Z.lxor_nilpotent, Z.lxor_0_r. Qed.

(** A byte placed above another by a shift: [|] and [+] agree. *)
Lemma land_shifted_byte h l : is_byte l -> Z.land (h * 256) l = 0.
Proof.
  intros Hl. apply Z.bits_inj'; intros n Hn. rewrite Z.land_spec, Z.bits_0.
  change 256 with (2 ^ 8). destruct (Z.lt_ge_cases n 8) as [Hlt|Hge].
  - now rewrite Z.mul_pow2_bits_low by lia.
  - rewrite <- (Z.mod_small l (2 ^ 8)) by exact Hl.
    rewrite Z.mod_pow2_bits_high by lia. apply Bool.andb_false_r.
Qed.

Lemma lor_shiftl_byte h l :
  is_byte l -> Z.lor (Z.shiftl h 8) l = h * 256 + l.
Proof.
  intros Hl. rewrite Z.shiftl_mul_pow2 by lia. change (2 ^ 8) with 256.
  rewrite <- Z.lxor_lor, <- Z.add_nocarry_lxor by now apply land_shifted_byte.
  reflexivity.
Qed.

(** The two bytes of [h * 256 + l]. *)
Lemma bytes_split h l :
  is_byte l -> (h * 256 + l) / 256 = h /\ (h * 256 + l) mod 256 = l.
Proof. unfold is_byte. intros Hl. split; Z.div_mod_to_equations; lia. Qed.

Lemma is_key_bytes bs : is_key bs -> Forall is_byte bs.
Proof.
  intros H. eapply Forall_impl; [exact H|]. unfold is_byte. intros; lia.
Qed.

Lemma is_key_app bs cs : is_key (bs ++ cs) <-> is_key bs /\ is_key cs.
Proof. apply Forall_app. Qed.

Lemma is_key_cons b bs : is_key (b :: bs) <-> (1 <= b < 256) /\ is_key bs.
Proof. apply (Forall_cons (fun b => 1 <= b < 256)). Qed.

(** ** Sums *)

Lemma zsum_insert l (i : nat) x y :
  l !! i = Some x -> zsum (<[i := y]> l) = zsum l - x + y.
Proof.
  unfold zsum. revert i. induction l as [|z l IH]; intros [|i] H; try discriminate.
  - injection H as ->. change (<[0%nat := y]> (x :: l)) with (y :: l). cbn [foldr]. lia.
  - change (<[S i := y]> (z :: l)) with (z :: <[i := y]> l). cbn [foldr].
    rewrite (IH i H). lia.
Qed.

Lemma zsum_nonneg l : Forall (fun z => 0 <= z) l -> 0 <= zsum l.
Proof. unfold zsum. induction 1; cbn; lia. Qed.

Lemma zsum_lookup_le l (i : nat) x :
  Forall (fun z => 0 <= z) l -> l !! i = Some x -> x <= zsum l.
Proof.
  intros H. revert i. induction H as [|z l Hz Hl IH]; intros [|i]; cbn; try discriminate.
  - intros [= ->]. pose proof (zsum_nonneg l Hl). unfold zsum in *. lia.
  - intros Hi. specialize (IH i Hi). unfold zsum in *. lia.
Qed.

Lemma zsum_app l k : zsum (l ++ k) = zsum l + zsum k.
Proof. unfold zsum. induction l as [|z l IH]; cbn; lia. Qed.

Lemma zsum_fmap_ext {A} (f g : A -> Z) l :
  (forall x, x ∈ l -> f x = g x) -> zsum (f <$> l) = zsum (g <$> l).
Proof.
  unfold zsum. induction l as [|x l IH]; intros H; cbn; [reflexivity|].
  rewrite (H x) by left. rewrite IH; [reflexivity|]. intros y Hy. apply H. now right.
Qed.

Lemma zsum_fmap_linear {A} (f : A -> Z) a b l :
  zsum ((fun x => a * f x + b) <$> l) = a * zsum (f <$> l) + b * Z.of_nat (length l).
Proof. unfold zsum. induction l as [|x l IH]; cbn [fmap list_fmap foldr length]; lia. Qed.

Lemma zsum_bind {A B} (f : B -> Z) (g : A -> list B) l :
  zsum (f <$> (l ≫= g)) = zsum ((fun x => zsum (f <$> g x)) <$> l).
Proof.
  induction l as [|x l IH]; [reflexivity|].
  rewrite bind_cons, fmap_app, zsum_app, IH. reflexivity.
Qed.

#[export] Hint Resolve lxor_byte is_key_bytes : byte.
#[export] Hint Rewrite @bind_ret_l @bind_gets @bind_fail : cm.

(** ** Tactics *)

(** [cm_ok H] steps over the first action of a [bind] that is known, by
    [H] or by the tactic given, to succeed; [cm_fault] closes a goal whose
    first action is known to fault. *)
Ltac cm_ok_by tac := erewrite bind_ok by tac.
Ltac cm_fault_by tac := erewrite bind_fault by tac.
Ltac cm_auto :=
  repeat first
    [ progress autorewrite with cm
    | erewrite bind_ok by (eauto with cm)
    | erewrite bind_lift_ok by (eauto with cm) ].

(** [ends_step t as a s H] steps over the first action of a [bind] in a
    judgement [ends]: the tactic [t] shows how that action ends, [a] and
    [s] name the value and the state it leaves, and [H] what is known of
    them. *)
Tactic Notation "ends_step" tactic3(t) "as"
    simple_intropattern(a) simple_intropattern(s) simple_intropattern(H) :=
  eapply ends_bind; [t|]; intros a s H; cbv beta.

(** Close a decidable closed goal by evaluation. *)
Ltac by_compute := apply (bool_decide_unpack _); vm_compute; exact I.

(** Bounds on bytes: unfold the predicates and call [lia]. *)
Ltac byte_lia := unfold is_byte in *; lia.
