(* ===== verification/Platform.v ===== *)
(** * Platform: what the C implementation decides

    The program compiles on any hosted C implementation, and its behaviour
    depends on choices the standard leaves open.  The class [Platform]
    collects the ones the four functions are sensitive to (the signedness
    of [char], the widths of [int] and [size_t], what surrounds a block
    of the allocator, the size of the heap); every definition
    of the later files is stated over an arbitrary [Platform], and the
    instances at the end of the definitions are the concrete machines on
    which the theorems are witnessed. *)

From Stdlib Require Import ZArith Lia List.
From stdpp Require Import base tactics list.
From S2P Require Import Prelude.

#[local] Open Scope Z_scope.

Class Platform : Type := {
  (** plain [char] is a signed type (x86) or an unsigned one (ARM, PowerPC) *)
  char_signed : bool;
  (** width of [int] in bits *)
  int_bits : Z;
  (** width of [size_t] in bits *)
  size_bits : Z;
  (** the bytes that lie directly below a block [malloc] returns for a
      request of the given size and can be read on this machine (allocator
      bookkeeping); the empty list where such a read traps *)
  malloc_header : Z -> list Z;
  (** how many bytes past the requested size belong to the block *)
  malloc_slack : Z -> Z;
  (** [malloc(0)] returns the null pointer *)
  malloc0_null : bool;
  (** the number of bytes the allocator can have handed out at any one
      time, bookkeeping and slack included; a request that does not fit
      the rest returns the null pointer *)
  heap_size : Z
}.

Class PlatformOk (P : Platform) : Prop := {
  int_bits_min : 16 <= int_bits;
  size_bits_min : 16 <= size_bits;
  malloc_slack_nonneg : forall n, 0 <= malloc_slack n;
  malloc_header_bytes : forall n, Forall is_byte (malloc_header n)
}.

(** ** Instances *)

(** The abstract machine of the C standard: nothing is readable or writable
    outside the bytes that were asked for.  The signedness of [char]
    stays a parameter. *)
Definition strict_machine (signed : bool) : Platform := {|
  char_signed := signed;
  int_bits := 32;
  size_bits := 64;
  malloc_header := fun _ => [];
  malloc_slack := fun _ => 0;
  malloc0_null := false;
  heap_size := 2 ^ 62
|}.

(** The size of the chunk a boundary-tag allocator with 16-byte granules
    and an 8-byte size word hands out for a request of [n] bytes. *)
Definition chunk_size (n : Z) : Z :=
  Z.max 32 ((n + 8 + 15) / 16 * 16).

(** The 8 bytes of the size word, least significant first, lowest bit set
    (previous chunk in use). *)
Definition size_word (n : Z) : list Z :=
  map (fun i => Z.land (Z.shiftr (chunk_size n + 1) (8 * Z.of_nat i)) 255) (seq 0 8).

(** A 64-bit little-endian machine with a boundary-tag allocator: the size
    word lies below the block and the block extends to the end of its
    chunk. *)
Definition lp64 (signed : bool) : Platform := {|
  char_signed := signed;
  int_bits := 32;
  size_bits := 64;
  malloc_header := size_word;
  malloc_slack := fun n => chunk_size n - 8 - n;
  malloc0_null := false;
  heap_size := 2 ^ 47
|}.

(** x86-64 (plain [char] signed) and AArch64 (plain [char] unsigned). *)
Definition x86_64 : Platform := lp64 true.
Definition aarch64 : Platform := lp64 false.

(** An 8-bit microcontroller: [int] and [size_t] are 16 bits wide, the
    allocator keeps a 2-byte size below the block and rounds nothing. *)
Definition micro8 : Platform := {|
  char_signed := true;
  int_bits := 16;
  size_bits := 16;
  malloc_header := fun n => [Z.land n 255; Z.land (Z.shiftr n 8) 255];
  malloc_slack := fun _ => 0;
  malloc0_null := true;
  heap_size := 2048
|}.

(** A 16-bit machine whose allocator keeps a 2-byte size below the block
    and never hands out less than 2 bytes, so that the smallest requests
    have slack. *)
Definition small16 : Platform := {|
  char_signed := true;
  int_bits := 16;
  size_bits := 16;
  malloc_header := fun n => [Z.land (Z.max 2 n) 255; Z.land (Z.shiftr (Z.max 2 n) 8) 255];
  malloc_slack := fun n => Z.max 2 n - n;
  malloc0_null := false;
  heap_size := 4096
|}.

(** A debugging allocator on a 64-bit machine: every block lies between
    fill bytes 0xFD, one of which the program can reach on either side. *)
Definition poisoned (signed : bool) : Platform := {|
  char_signed := signed;
  int_bits := 32;
  size_bits := 64;
  malloc_header := fun _ => [253];
  malloc_slack := fun _ => 1;
  malloc0_null := false;
  heap_size := 2 ^ 47
|}.

(** ** Well-formedness of the instances *)

Lemma land_255_byte z : is_byte (Z.land z 255).
Proof.
  unfold is_byte. change 255 with (Z.ones 8).
  rewrite Z.land_ones by lia. apply Z.mod_pos_bound. lia.
Qed.

Lemma chunk_size_slack n : 0 <= chunk_size n - 8 - n.
Proof. unfold chunk_size. Z.div_mod_to_equations. lia. Qed.

Lemma size_word_bytes n : Forall is_byte (size_word n).
Proof.
  unfold size_word. apply Forall_map, Forall_forall. intros i _.
  apply land_255_byte.
Qed.

#[export] Instance strict_machine_ok signed : PlatformOk (strict_machine signed).
Proof. split; simpl; intros; try lia; constructor. Qed.

#[export] Instance micro8_ok : PlatformOk micro8.
Proof.
  split; simpl; intros; try lia.
  repeat constructor; apply land_255_byte.
Qed.

#[export] Instance lp64_ok signed : PlatformOk (lp64 signed).
Proof.
  split; simpl; intros; try lia.
  - apply chunk_size_slack.
  - apply size_word_bytes.
Qed.

#[export] Instance small16_ok : PlatformOk small16.
Proof.
  split; simpl; intros; try lia.
  repeat constructor; apply land_255_byte.
Qed.

#[export] Instance poisoned_ok signed : PlatformOk (poisoned signed).
Proof. split; simpl; intros; try lia. repeat constructor; lia. Qed.

(** The byte directly below a block of the LP64 allocator is the top byte
    of the size word: 0 for every size that can occur. *)
Lemma size_word_last n : 0 <= n < 2 ^ 48 -> last (size_word n) = Some 0.
Proof.
  intros Hn. unfold size_word. cbn [seq map last]. f_equal.
  rewrite Z.shiftr_div_pow2 by lia. rewrite Z.div_small; [reflexivity|].
  unfold chunk_size. change (8 * Z.of_nat 7) with 56.
  assert (2 ^ 48 < 2 ^ 56) by (apply Z.pow_lt_mono_r; lia).
  Z.div_mod_to_equations. lia.
Qed.
