(* ===== verification/CInt.v ===== *)
(** * CInt: the integer arithmetic of the program

    The conversions and operators that occur in [src/pearson-hashing.c],
    as functions on [Z].  An object of a character type is represented by
    its stored byte in [0, 256); [char_val] gives the value that byte has
    as a plain [char], which is what integer promotion yields.  Operations
    on [int] are exact on [Z] and fault with [IntOverflow] where the
    standard makes the result undefined. *)

From Stdlib Require Import ZArith Lia List.
From stdpp Require Import base tactics list.
From S2P Require Import Prelude Platform.

#[local] Open Scope Z_scope.

Section cint.
Context {P : Platform}.

(** Conversion to [unsigned char]: reduction modulo 256
    ([unsigned char hash = len], line 39). *)
Definition to_uchar (z : Z) : Z := z mod 256.

(** Conversion to [unsigned short] (16 bits): the return of [phash16]. *)
Definition to_ushort (z : Z) : Z := z mod 65536.

(** The value of a plain [char] whose stored byte is [b]. *)
Definition char_val (b : Z) : Z :=
  if char_signed then (if b <? 128 then b else b - 256) else b.

(** The byte stored when an [int] is converted to plain [char]
    ([buffer[0] = ...], line 102).  For a signed [char] and a value above
    127 the standard leaves the result to the implementation; every
    implementation this development considers wraps. *)
Definition to_char (z : Z) : Z := z mod 256.

(** Arithmetic on [size_t] wraps. *)
Definition size_wrap (z : Z) : Z := z mod 2 ^ size_bits.

Definition size_max : Z := 2 ^ size_bits - 1.

(** The offset reached from offset [o] by adding the [size_t] value [i]:
    addresses are [size_bits] wide, so the sum is taken modulo
    [2 ^ size_bits] and read as a signed displacement ([hash[i - 1]] with
    [i = 0] is one byte below [hash], line 66). *)
Definition index_off (o i : Z) : Z :=
  (o + i + 2 ^ (size_bits - 1)) mod 2 ^ size_bits - 2 ^ (size_bits - 1).

Definition int_min : Z := - 2 ^ (int_bits - 1).
Definition int_max : Z := 2 ^ (int_bits - 1) - 1.

Definition in_int (z : Z) : bool := (int_min <=? z) && (z <=? int_max).

(** [a ^ b] on [int]: bitwise on the two's complement representation,
    which [Z.lxor] is for every pair of values. *)
Definition int_xor (a b : Z) : Z := Z.lxor a b.

(** [a + b] on [int]. *)
Definition int_add (a b : Z) : result Z :=
  if in_int (a + b) then Ok (a + b) else Fault IntOverflow.

(** [a << n] on [int]: defined for a non-negative [a] and a shift below the
    width when [a * 2^n] is representable. *)
Definition int_shl (a n : Z) : result Z :=
  if (0 <=? a) && (0 <=? n) && (n <? int_bits) && in_int (a * 2 ^ n)
  then Ok (Z.shiftl a n) else Fault IntOverflow.

(** [a % b] on [int]: the remainder of the division that truncates toward
    zero. *)
Definition int_rem (a b : Z) : result Z :=
  if (b =? 0) || negb (in_int (Z.quot a b)) then Fault IntOverflow
  else Ok (Z.rem a b).

(** The byte [buffer[0] = (buffer[0] + 1) % 255] stores when the byte
    there was [b] (line 102): [buffer[0]] is promoted to [int] with its
    value as a plain [char], the remainder is the truncating one of C, and
    the result is converted back to [char]. *)
Definition c_bump (b : Z) : Z := to_char (Z.rem (char_val b + 1) 255).

(** A byte is [plain] when its value as a [char] is the byte itself: always
    where [char] is unsigned, below 128 where it is signed. *)
Definition plain (b : Z) : bool := negb char_signed || (b <? 128).

(** ** Ranges *)

Lemma to_uchar_byte z : is_byte (to_uchar z).
Proof. unfold to_uchar, is_byte. apply Z.mod_pos_bound. lia. Qed.

Lemma to_char_byte z : is_byte (to_char z).
Proof. apply to_uchar_byte. Qed.

Lemma to_uchar_id z : is_byte z -> to_uchar z = z.
Proof. unfold to_uchar, is_byte. intros. apply Z.mod_small. lia. Qed.

Lemma to_char_id z : is_byte z -> to_char z = z.
Proof. apply to_uchar_id. Qed.

Lemma to_ushort_range z : 0 <= to_ushort z < 65536.
Proof. unfold to_ushort. apply Z.mod_pos_bound. lia. Qed.

Lemma to_ushort_id z : 0 <= z < 65536 -> to_ushort z = z.
Proof. unfold to_ushort. intros. apply Z.mod_small. lia. Qed.

(** ** The value of a plain char *)

Lemma char_val_unsigned b : char_signed = false -> char_val b = b.
Proof. unfold char_val. intros ->. reflexivity. Qed.

Lemma char_val_ascii b : b < 128 -> char_val b = b.
Proof.
  unfold char_val. intros Hb. destruct char_signed; [|reflexivity].
  destruct (Z.ltb_spec b 128); [reflexivity | lia].
Qed.

Lemma char_val_high b : char_signed = true -> 128 <= b -> char_val b = b - 256.
Proof.
  unfold char_val. intros -> Hb. destruct (Z.ltb_spec b 128); [lia | reflexivity].
Qed.

Lemma char_val_range b : is_byte b -> -128 <= char_val b < 256.
Proof.
  unfold char_val, is_byte. intros Hb.
  destruct char_signed; [destruct (Z.ltb_spec b 128)|]; lia.
Qed.

Lemma char_val_zero b : is_byte b -> (char_val b = 0 <-> b = 0).
Proof.
  unfold char_val, is_byte. intros Hb.
  destruct char_signed; [destruct (Z.ltb_spec b 128)|]; lia.
Qed.

Lemma plain_char_val b : plain b = true -> char_val b = b.
Proof.
  unfold plain. intros H. apply orb_true_iff in H as [H|H].
  - apply char_val_unsigned. now destruct char_signed.
  - apply char_val_ascii. now apply Z.ltb_lt.
Qed.

Lemma not_plain_char_val b :
  plain b = false -> is_byte b -> char_val b = b - 256 /\ char_val b < 0.
Proof.
  unfold plain, is_byte. intros H Hb. apply orb_false_iff in H as [Hs Hh].
  apply negb_false_iff in Hs. apply Z.ltb_ge in Hh.
  rewrite char_val_high by assumption. lia.
Qed.

(** The index [hash ^ c] of a table read is a byte exactly when [c] comes
    from a plain byte. *)
Lemma xor_char_plain h b :
  is_byte h -> is_byte b -> plain b = true ->
  int_xor h (char_val b) = Z.lxor h b /\ is_byte (Z.lxor h b).
Proof.
  intros Hh Hb Hp. unfold int_xor. rewrite plain_char_val by assumption.
  split; [reflexivity | now apply lxor_byte].
Qed.

Lemma xor_char_not_plain h b :
  is_byte h -> is_byte b -> plain b = false -> int_xor h (char_val b) < 0.
Proof.
  intros Hh Hb Hp. unfold int_xor.
  apply lxor_neg_r; [byte_lia | now apply not_plain_char_val].
Qed.

(** ** Offsets *)

Lemma index_off_small o i :
  - 2 ^ (size_bits - 1) <= o + i < 2 ^ (size_bits - 1) ->
  0 < size_bits -> index_off o i = o + i.
Proof.
  intros H Hs. unfold index_off.
  replace (2 ^ size_bits) with (2 * 2 ^ (size_bits - 1)).
  - rewrite Z.mod_small; lia.
  - rewrite <- Z.pow_succ_r by lia. f_equal. lia.
Qed.

Lemma pow2_size_bits : 0 < size_bits -> 2 ^ size_bits = 2 * 2 ^ (size_bits - 1).
Proof. intros Hs. rewrite <- Z.pow_succ_r by lia. f_equal. lia. Qed.

Lemma size_pow_half `{!PlatformOk P} : 2 ^ size_bits = 2 * 2 ^ (size_bits - 1).
Proof. pose proof size_bits_min. apply pow2_size_bits. lia. Qed.

Lemma index_off_wrap o i :
  0 < size_bits -> - 2 ^ (size_bits - 1) <= o + i - 2 ^ size_bits < 2 ^ (size_bits - 1) ->
  index_off o i = o + i - 2 ^ size_bits.
Proof.
  intros Hs H. unfold index_off.
  pose proof (pow2_size_bits Hs) as E.
  replace (o + i + 2 ^ (size_bits - 1))
    with (o + i - 2 ^ size_bits + 2 ^ (size_bits - 1) + 1 * 2 ^ size_bits) by lia.
  rewrite Z.mod_add by lia. rewrite Z.mod_small; lia.
Qed.

(** Offsets compose: an offset from a pointer that was itself obtained by
    an offset of 0 is the offset from the original pointer. *)
Lemma index_off_idem o i : index_off (index_off o 0) i = index_off o i.
Proof.
  unfold index_off. f_equal.
  replace ((o + 0 + 2 ^ (size_bits - 1)) mod 2 ^ size_bits - 2 ^ (size_bits - 1) + i +
           2 ^ (size_bits - 1))
    with ((o + 2 ^ (size_bits - 1)) mod 2 ^ size_bits + i) by (rewrite Z.add_0_r; lia).
  rewrite Zplus_mod_idemp_l. f_equal. lia.
Qed.

(** [hash[i - 1]] for [i = 0]: the [size_t] value [0 - 1] is [size_max], and
    the element it designates lies one byte below the base. *)
Lemma index_off_size_max o :
  0 < size_bits -> - 2 ^ (size_bits - 1) < o <= 2 ^ (size_bits - 1) ->
  index_off o (size_wrap (0 - 1)) = o - 1.
Proof.
  intros Hs Ho. unfold size_wrap.
  assert (Hp : 0 < 2 ^ size_bits) by (apply Z.pow_pos_nonneg; lia).
  pose proof (pow2_size_bits Hs) as E.
  replace ((0 - 1) mod 2 ^ size_bits) with (2 ^ size_bits - 1).
  - rewrite index_off_wrap; lia.
  - apply Z.mod_unique with (q := -1); lia.
Qed.

Lemma size_wrap_small z : 0 <= z < 2 ^ size_bits -> size_wrap z = z.
Proof. unfold size_wrap. intros. apply Z.mod_small. lia. Qed.

(** ** Operations on int *)

Lemma int_add_ok a b : in_int (a + b) = true -> int_add a b = Ok (a + b).
Proof. unfold int_add. intros ->. reflexivity. Qed.

Lemma in_int_spec z : in_int z = true <-> int_min <= z <= int_max.
Proof. unfold in_int. rewrite andb_true_iff, !Z.leb_le. tauto. Qed.

Lemma int_max_ge `{!PlatformOk P} : 32767 <= int_max.
Proof.
  unfold int_max. pose proof int_bits_min.
  assert (2 ^ 15 <= 2 ^ (int_bits - 1)) by (apply Z.pow_le_mono_r; lia). lia.
Qed.

Lemma int_min_le `{!PlatformOk P} : int_min <= -32768.
Proof.
  unfold int_min. pose proof int_bits_min.
  assert (2 ^ 15 <= 2 ^ (int_bits - 1)) by (apply Z.pow_le_mono_r; lia). lia.
Qed.

Lemma in_int_small `{!PlatformOk P} z : -32768 <= z <= 32767 -> in_int z = true.
Proof.
  intros. apply in_int_spec. pose proof int_max_ge. pose proof int_min_le. lia.
Qed.

Lemma int_add_char `{!PlatformOk P} c : -128 <= c < 256 -> int_add c 1 = Ok (c + 1).
Proof. intros. apply int_add_ok, in_int_small. lia. Qed.

Lemma int_rem_255 `{!PlatformOk P} s :
  -127 <= s <= 256 -> int_rem s 255 = Ok (Z.rem s 255).
Proof.
  intros Hs. unfold int_rem. rewrite in_int_small; [reflexivity|].
  Z.to_euclidean_division_equations. lia.
Qed.

Lemma int_shl_byte `{!PlatformOk P} h :
  is_byte h -> int_shl h 8 = if in_int (h * 256) then Ok (h * 256) else Fault IntOverflow.
Proof.
  unfold int_shl, is_byte. intros Hh. pose proof int_bits_min.
  destruct (Z.leb_spec 0 h); [|lia]. destruct (Z.ltb_spec 8 int_bits); [|lia].
  change (2 ^ 8) with 256. rewrite Z.shiftl_mul_pow2 by lia. reflexivity.
Qed.

(** [(h1 << 8) + h2] for two bytes. *)
Lemma int_shl_add_bytes `{!PlatformOk P} h1 h2 :
  is_byte h1 -> is_byte h2 ->
  match int_shl h1 8 with
  | Ok hi => int_add hi h2
  | Fault f => Fault f
  end = if in_int (h1 * 256 + h2) then Ok (h1 * 256 + h2) else Fault IntOverflow.
Proof.
  intros H1 H2. rewrite int_shl_byte by assumption. unfold int_add, is_byte in *.
  pose proof int_min_le.
  destruct (in_int (h1 * 256 + h2)) eqn:E.
  - apply in_int_spec in E. rewrite (proj2 (in_int_spec (h1 * 256))) by lia.
    now rewrite (proj2 (in_int_spec _) E).
  - destruct (in_int (h1 * 256)); [|reflexivity]. now rewrite E.
Qed.

Lemma int_add_fault a b f : int_add a b = Fault f -> genuine f.
Proof. unfold int_add. destruct (in_int _); [discriminate|]. now intros [= <-]. Qed.

Lemma int_rem_fault a b f : int_rem a b = Fault f -> genuine f.
Proof. unfold int_rem. destruct (_ || _); [|discriminate]. now intros [= <-]. Qed.

Lemma int_shl_fault a n f : int_shl a n = Fault f -> genuine f.
Proof. unfold int_shl. destruct (_ && _); [discriminate|]. now intros [= <-]. Qed.

(** ** The perturbed byte *)

Lemma c_bump_byte b : is_byte (c_bump b).
Proof. apply to_char_byte. Qed.

Lemma c_bump_unsigned b :
  char_signed = false -> is_byte b -> c_bump b = (b + 1) mod 255.
Proof.
  unfold c_bump, to_char, is_byte. intros Hs Hb. rewrite char_val_unsigned by assumption.
  Z.to_euclidean_division_equations. lia.
Qed.

Lemma c_bump_signed b :
  char_signed = true -> is_byte b -> c_bump b = (b + 1) mod 256.
Proof.
  unfold c_bump, to_char, is_byte. intros Hs Hb.
  destruct (Z.lt_ge_cases b 128).
  - rewrite char_val_ascii by assumption. Z.to_euclidean_division_equations. lia.
  - rewrite char_val_high by assumption. Z.to_euclidean_division_equations. lia.
Qed.

Lemma c_bump_0 : c_bump 0 = 1.
Proof. unfold c_bump. rewrite char_val_ascii by lia. reflexivity. Qed.

Lemma c_bump_run `{!PlatformOk P} b :
  is_byte b ->
  int_add (char_val b) 1 = Ok (char_val b + 1) /\
  int_rem (char_val b + 1) 255 = Ok (Z.rem (char_val b + 1) 255).
Proof.
  intros Hb. pose proof (char_val_range b Hb). split.
  - apply int_add_char. lia.
  - apply int_rem_255. lia.
Qed.

(** ** What the expressions of the program compute *)

(** [(buffer[0] + 1) % 255] stored back into a [char] (line 102):
    where [char] is unsigned the byte becomes [(b + 1) mod 255]; where it
    is signed the remainder never applies and the byte becomes
    [(b + 1) mod 256]. *)
Theorem c_bump_cases b :
  is_byte b -> c_bump b = if char_signed then (b + 1) mod 256 else (b + 1) mod 255.
Proof.
  intros Hb. destruct char_signed eqn:Hs; [now apply c_bump_signed|now apply c_bump_unsigned].
Qed.

(** The index [i - 1] of [hash[i - 1]] (line 66), computed in
    [size_t], designates the cell before cell [i] also for [i = 0], where
    [i - 1] is the largest value of [size_t]. *)
Lemma index_pred o i :
  0 < size_bits -> 0 <= i < 2 ^ (size_bits - 1) -> - 2 ^ (size_bits - 1) < o <= 0 ->
  index_off o (size_wrap (i - 1)) = o + i - 1.
Proof.
  intros Hs Hi Ho. destruct (Z.eq_dec i 0) as [->|Hne].
  - rewrite index_off_size_max by lia. lia.
  - pose proof (pow2_size_bits Hs). rewrite size_wrap_small by lia.
    rewrite index_off_small by lia. lia.
Qed.

End cint.

Lemma c_bump_cases_witness :
  @c_bump (lp64 true) 254 = if @char_signed (lp64 true) then (254 + 1) mod 256 else (254 + 1) mod 255.
Proof. apply (@c_bump_cases (lp64 true) 254). by_compute. Defined.

#[export] Hint Resolve to_uchar_byte to_char_byte c_bump_byte : byte.
