(* ===== verification/Table.v ===== *)
(** * Table: the permutation table of RFC 3074

    [pearson_T] is the array of lines 15-33 of [src/pearson-hashing.c].
    [T_read] is the expression [pearson_T[e]] for an index [e] of type
    [int]: a read inside the array yields the entry, one outside it is a
    fault.  [PermTable] is the interface the hashing algebra of [Spec] is
    proved against; [pearson_T] implements it. *)

From Stdlib Require Import ZArith Lia List.
From stdpp Require Import base tactics list.
From S2P Require Import Prelude.

#[local] Open Scope Z_scope.

(** The table, entry by entry. *)
Definition pearson_T : list Z := [
    251; 175; 119; 215; 81; 14; 79; 191; 103; 49; 181; 143; 186; 157;  0;
    232; 31; 32; 55; 60; 152; 58; 17; 237; 174; 70; 160; 144; 220; 90; 57;
    223; 59;  3; 18; 140; 111; 166; 203; 196; 134; 243; 124; 95; 222; 179;
    197; 65; 180; 48; 36; 15; 107; 46; 233; 130; 165; 30; 123; 161; 209; 23;
    97; 16; 40; 91; 219; 61; 100; 10; 210; 109; 250; 127; 22; 138; 29; 108;
    244; 67; 207;  9; 178; 204; 74; 98; 126; 249; 167; 116; 34; 77; 193;
    200; 121;  5; 20; 113; 71; 35; 128; 13; 182; 94; 25; 226; 227; 199; 75;
    27; 41; 245; 230; 224; 43; 225; 177; 26; 155; 150; 212; 142; 218; 115;
    241; 73; 88; 105; 39; 114; 62; 255; 192; 201; 145; 214; 168; 158; 221;
    148; 154; 122; 12; 84; 82; 163; 44; 139; 228; 236; 205; 242; 217; 11;
    187; 146; 159; 64; 86; 239; 195; 42; 106; 198; 118; 112; 184; 172; 87;
    2; 173; 117; 176; 229; 247; 253; 137; 185; 99; 164; 102; 147; 45; 66;
    231; 52; 141; 211; 194; 206; 246; 238; 56; 110; 78; 248; 63; 240; 189;
    93; 92; 51; 53; 183; 19; 171; 72; 50; 33; 104; 101; 69; 8; 252; 83; 120;
    76; 135; 85; 54; 202; 125; 188; 213; 96; 235; 136; 208; 162; 129; 190;
    132; 156; 38; 47; 1; 7; 254; 24; 4; 216; 131; 89; 21; 28; 133; 37; 153;
    149; 80; 170; 68; 6; 169; 234; 151
].

(** The entry at index [i] of a table, 0 outside it. *)
Definition T_at (T : list Z) (i : Z) : Z := nth (Z.to_nat i) T 0.

(** [pearson_T[e]] for an [int] index [e] (lines 40, 66, 76). *)
Definition T_read (e : Z) : result Z :=
  if (0 <=? e) && (e <? 256) then Ok (T_at pearson_T e) else Fault TableIndex.

(** The position of the first occurrence of [v] in [l], [length l] when
    there is none. *)
Fixpoint index_of (v : Z) (l : list Z) : nat :=
  match l with
  | [] => O
  | x :: l' => if x =? v then O else S (index_of v l')
  end.

(** The index at which a table holds [v]. *)
Definition T_inv (T : list Z) (v : Z) : Z := Z.of_nat (index_of v T).

(** A table of bytes: 256 entries, all bytes.  This is what the array
    of line 15 is by its type, whatever it holds. *)
Class ByteTable (T : list Z) : Prop := {
  table_length : length T = 256%nat;
  table_bytes : Forall is_byte T
}.

(** A table is a permutation of the bytes: 256 entries, all bytes, no
    entry twice. *)
Class PermTable (T : list Z) : Prop := {
  perm_length : length T = 256%nat;
  perm_bytes : Forall is_byte T;
  perm_nodup : NoDup T
}.

#[export] Instance perm_byte_table T `{!PermTable T} : ByteTable T.
Proof. split; [apply perm_length|apply perm_bytes]. Qed.

(** ** The table of the program is a permutation *)

#[export] Instance pearson_T_perm : PermTable pearson_T.
Proof.
  split.
  - reflexivity.
  - apply (bool_decide_unpack _). vm_compute. exact I.
  - apply (bool_decide_unpack _). vm_compute. exact I.
Qed.

(** ** Reads *)

Lemma T_read_ok e : is_byte e -> T_read e = Ok (T_at pearson_T e).
Proof.
  unfold T_read, is_byte. intros He.
  destruct (Z.leb_spec 0 e); [|lia]. destruct (Z.ltb_spec e 256); [|lia].
  reflexivity.
Qed.

Lemma T_read_fault e : ~ is_byte e -> T_read e = Fault TableIndex.
Proof.
  unfold T_read, is_byte. intros He.
  destruct (Z.leb_spec 0 e); [|reflexivity].
  destruct (Z.ltb_spec e 256); [lia | reflexivity].
Qed.

Lemma T_read_neg e : e < 0 -> T_read e = Fault TableIndex.
Proof. intros. apply T_read_fault. unfold is_byte. lia. Qed.

Lemma T_read_inv e t : T_read e = Ok t -> is_byte e /\ t = T_at pearson_T e.
Proof.
  unfold T_read, is_byte. destruct (Z.leb_spec 0 e); [|discriminate].
  destruct (Z.ltb_spec e 256); [|discriminate]. intros [= <-]. split; [lia|reflexivity].
Qed.

Lemma T_read_fault_inv e f : T_read e = Fault f -> f = TableIndex.
Proof. unfold T_read. destruct (_ && _); [discriminate|]. now intros [= <-]. Qed.

(** ** Consequences of the interface *)

Section byte_table.
Context (T : list Z) `{!ByteTable T}.

Lemma T_at_byte i : is_byte i -> is_byte (T_at T i).
Proof.
  intros Hi. pose proof table_bytes as Hb. rewrite Forall_forall in Hb.
  apply Hb, list_elem_of_In, nth_In. rewrite table_length. unfold is_byte in Hi. lia.
Qed.

End byte_table.

Section perm_table.
Context (T : list Z) `{!PermTable T}.

Lemma index_of_bound v l : (index_of v l <= length l)%nat.
Proof.
  induction l as [|x l IH]; simpl; [lia|]. destruct (x =? v); simpl; lia.
Qed.

Lemma index_of_in v l : In v l -> (index_of v l < length l)%nat /\ nth (index_of v l) l 0 = v.
Proof.
  induction l as [|x l IH]; simpl; [tauto|]. intros Hin.
  destruct (Z.eqb_spec x v) as [->|Hne]; [simpl; split; [lia | reflexivity]|].
  destruct Hin as [?|Hin]; [contradiction|]. destruct (IH Hin). simpl. split; [lia | assumption].
Qed.

Lemma T_at_inj i j : is_byte i -> is_byte j -> T_at T i = T_at T j -> i = j.
Proof.
  unfold T_at, is_byte. intros Hi Hj E.
  assert (Z.to_nat i = Z.to_nat j); [|lia].
  pose proof (proj1 (List.NoDup_nth T 0) (proj1 (NoDup_ListNoDup _) perm_nodup)) as Hn.
  apply Hn; rewrite ?perm_length; first [lia | assumption].
Qed.

Lemma T_in_iff v : In v T <-> is_byte v.
Proof.
  split.
  - intros Hin. pose proof perm_bytes as Hb. rewrite Forall_forall in Hb.
    apply Hb, list_elem_of_In, Hin.
  - intros Hv.
    assert (Hincl : incl (map Z.of_nat (seq 0 256)) T).
    { apply List.NoDup_length_incl.
      - apply NoDup_ListNoDup, perm_nodup.
      - rewrite length_map, length_seq, perm_length. lia.
      - intros x Hx. apply in_map_iff. exists (Z.to_nat x).
        pose proof perm_bytes as Hb. rewrite Forall_forall in Hb.
        apply list_elem_of_In, Hb in Hx. unfold is_byte in Hx.
        split; [lia | apply in_seq; lia]. }
    apply Hincl, in_map_iff. exists (Z.to_nat v). unfold is_byte in Hv.
    split; [lia | apply in_seq; lia].
Qed.

Lemma T_inv_byte v : is_byte v -> is_byte (T_inv T v).
Proof.
  intros Hv. apply T_in_iff, index_of_in in Hv as [Hlt _].
  rewrite perm_length in Hlt. unfold T_inv, is_byte. lia.
Qed.

Lemma T_at_inv v : is_byte v -> T_at T (T_inv T v) = v.
Proof.
  intros Hv. apply T_in_iff, index_of_in in Hv as [_ E].
  unfold T_at, T_inv. now rewrite Nat2Z.id.
Qed.

Lemma T_inv_at i : is_byte i -> T_inv T (T_at T i) = i.
Proof.
  intros Hi. pose proof (T_at_byte T i Hi) as Hb.
  apply T_at_inj; [now apply T_inv_byte|assumption|now apply T_at_inv].
Qed.

End perm_table.

#[export] Hint Resolve T_at_byte T_inv_byte : byte.

Lemma T_read_byte e t : T_read e = Ok t -> is_byte t.
Proof. intros [He ->]%T_read_inv. now apply T_at_byte; [apply _|]. Qed.

(** A read of the table changes no state, yields a byte, and faults only
    on an index outside the table. *)
Lemma T_read_ends {M} e (m : M) :
  ends (lift (T_read e)) m (fun t m' => m' = m /\ is_byte t) genuine.
Proof.
  apply ends_lift.
  - intros t H. split; [reflexivity|]. exact (T_read_byte _ _ H).
  - intros f ->%T_read_fault_inv. discriminate.
Qed.

(** ** The table of the program *)

Lemma in_bytes_iff v : In v (map Z.of_nat (seq 0 256)) <-> is_byte v.
Proof.
  rewrite in_map_iff. unfold is_byte. split.
  - intros (k & <- & Hk%in_seq). lia.
  - intros Hv. exists (Z.to_nat v). split; [lia|apply in_seq; lia].
Qed.

(** C5: the table of lines 15-33 holds each of the values 0 to 255
    exactly once. *)
Theorem pearson_T_permutation : Permutation pearson_T (map Z.of_nat (seq 0 256)).
Proof.
  apply NoDup_Permutation; [apply perm_nodup|by_compute|].
  intros v. now rewrite !list_elem_of_In, (T_in_iff pearson_T), in_bytes_iff.
Qed.

(** [pearson_T[i]] is defined for every byte [i], and the table can
    be read backwards: [T_inv] finds the index of an entry, and the entry
    at the index [T_inv] finds for [i] is [i]. *)
Theorem pearson_T_roundtrip i :
  is_byte i ->
  T_read i = Ok (T_at pearson_T i) /\
  T_inv pearson_T (T_at pearson_T i) = i /\
  T_read (T_inv pearson_T i) = Ok i.
Proof.
  intros Hi. split; [now apply T_read_ok|split; [now apply T_inv_at; try apply _|]].
  rewrite T_read_ok by (apply T_inv_byte; [apply _|assumption]).
  f_equal. apply T_at_inv; [apply _|assumption].
Qed.

Lemma pearson_T_roundtrip_witness :
  T_read 97 = Ok (T_at pearson_T 97) /\
  T_inv pearson_T (T_at pearson_T 97) = 97 /\
  T_read (T_inv pearson_T 97) = Ok 97.
Proof. apply (pearson_T_roundtrip 97). by_compute. Defined.
