(* ===== verification/Spec.v ===== *)
(** * Spec: Pearson hashing as functions on lists of bytes

    The abstract specification of the four operations (spec.md, section
    4.1) over an arbitrary table [T], and the algebra that follows when [T]
    satisfies the interface [PermTable]: the fold step is a bijection of
    the byte range in each argument, hence the digest determines the seed,
    every byte of the key influences the digest, and a last byte reaching
    any wanted digest can be computed. *)

From Stdlib Require Import ZArith Lia List.
From stdpp Require Import base tactics list.
From S2P Require Import Prelude Table.

#[local] Open Scope Z_scope.

Section spec.
Context (T : list Z).

(** The fold step [h = T[h ^ b]]. *)
Definition pearson_step (h b : Z) : Z := T_at T (Z.lxor h b).

(** The running hash after the bytes [bs], from the seed [h]. *)
Definition pearson_fold (h : Z) (bs : list Z) : Z := fold_left pearson_step bs h.

(** The intermediate hash values [hash[0..len-1]] of the original
    algorithm, the seed standing for [hash[-1]]. *)
Fixpoint hash_array (h : Z) (bs : list Z) : list Z :=
  match bs with
  | [] => []
  | b :: bs' => pearson_step h b :: hash_array (pearson_step h b) bs'
  end.

(** [hashWikipedia]: seed 0, bytes in order. *)
Definition hashWikipedia (bs : list Z) : Z := pearson_fold 0 bs.

(** [hashRFC3074]: seed the length, bytes from the last to the first; keys
    longer than 255 bytes are outside the domain. *)
Definition hashRFC3074 (bs : list Z) : option Z :=
  if decide (length bs <= 255)%nat
  then Some (pearson_fold (Z.of_nat (length bs)) (rev bs))
  else None.

(** [hashOriginal]: the last of the intermediate values, with [hash[-1]]
    taken to be 0; the empty key is outside the domain. *)
Definition hashOriginal (bs : list Z) : option Z :=
  match bs with
  | [] => None
  | _ => Some (List.last (hash_array 0 bs) 0)
  end.

(** The perturbation of the first byte in [hash16]. *)
Definition bump (b : Z) : Z := (b + 1) mod 255.

(** [hash16]: the hash of the key in the high byte, the hash of the key
    with its first byte perturbed in the low byte; the empty key is
    outside the domain. *)
Definition hash16 (bs : list Z) : option Z :=
  match bs with
  | [] => None
  | b :: bs' =>
      Some (Z.lor (Z.shiftl (hashWikipedia bs) 8) (hashWikipedia (bump b :: bs')))
  end.

(** What the comment of lines 8-10 of the source says of a Pearson hash:
    from an input of any number of bytes it produces a single byte that
    depends on every byte of the input.  For a function [f] on keys: its
    value is a byte, and changing any one byte of a key changes it. *)
Definition depends_on_every_byte (f : list Z -> Z) : Prop :=
  forall pre a b suf,
    Forall is_byte pre -> is_byte a -> is_byte b -> Forall is_byte suf ->
    is_byte (f (pre ++ a :: suf)) /\
    (a <> b -> f (pre ++ a :: suf) <> f (pre ++ b :: suf)).

(** ** Equations of the fold *)

Lemma pearson_fold_nil h : pearson_fold h [] = h.
Proof. reflexivity. Qed.

Lemma pearson_fold_cons h b bs :
  pearson_fold h (b :: bs) = pearson_fold (pearson_step h b) bs.
Proof. reflexivity. Qed.

Lemma pearson_fold_app h bs cs :
  pearson_fold h (bs ++ cs) = pearson_fold (pearson_fold h bs) cs.
Proof. apply fold_left_app. Qed.

Lemma pearson_fold_snoc h bs b :
  pearson_fold h (bs ++ [b]) = pearson_step (pearson_fold h bs) b.
Proof. now rewrite pearson_fold_app. Qed.

Lemma hash_array_length h bs : length (hash_array h bs) = length bs.
Proof. revert h. induction bs as [|b bs IH]; intros h; simpl; [|rewrite IH]; reflexivity. Qed.

Lemma hash_array_snoc h bs b :
  hash_array h (bs ++ [b]) = hash_array h bs ++ [pearson_step (pearson_fold h bs) b].
Proof.
  revert h. induction bs as [|x bs IH]; intros h; [reflexivity|].
  cbn [app hash_array]. now rewrite IH.
Qed.

Lemma hash_array_last h bs d :
  bs <> [] -> List.last (hash_array h bs) d = pearson_fold h bs.
Proof.
  revert h. induction bs as [|b bs IH]; intros h Hne; [contradiction|].
  destruct bs as [|c bs]; [reflexivity|].
  change (List.last (hash_array (pearson_step h b) (c :: bs)) d =
          pearson_fold (pearson_step h b) (c :: bs)).
  now apply IH.
Qed.

Lemma hash_array_lookup h bs (i : nat) :
  (i < length bs)%nat ->
  nth i (hash_array h bs) 0 = pearson_fold h (firstn (S i) bs).
Proof.
  revert h i. induction bs as [|b bs IH]; intros h i Hi; simpl in Hi; [lia|].
  destruct i as [|i]; [reflexivity|].
  change (nth i (hash_array (pearson_step h b) bs) 0 =
          pearson_fold (pearson_step h b) (firstn (S i) bs)).
  apply IH. lia.
Qed.

Lemma hash_array_snoc_lookup h bs :
  (h :: hash_array h bs) !! length bs = Some (pearson_fold h bs).
Proof.
  revert h. induction bs as [|b bs IH]; intros h; [reflexivity|].
  cbn [length hash_array]. rewrite lookup_cons. apply IH.
Qed.

End spec.

(** ** Digests over a table of bytes *)

Section bytes.
Context (T : list Z) `{!ByteTable T}.

Lemma pearson_step_byte h b : is_byte h -> is_byte b -> is_byte (pearson_step T h b).
Proof. intros. apply T_at_byte; auto with byte. Qed.

Lemma pearson_fold_byte h bs :
  is_byte h -> Forall is_byte bs -> is_byte (pearson_fold T h bs).
Proof.
  intros Hh Hbs. revert h Hh. induction Hbs as [|b bs Hb _ IH]; intros h Hh; [exact Hh|].
  rewrite pearson_fold_cons. apply IH, pearson_step_byte; assumption.
Qed.

Lemma hash_array_bytes s bs :
  is_byte s -> Forall is_byte bs -> Forall is_byte (hash_array T s bs).
Proof.
  intros Hs Hbs. revert s Hs. induction Hbs as [|x bs Hx _ IH]; intros s Hs; [constructor|].
  cbn [hash_array]. constructor; [|apply IH]; now apply pearson_step_byte.
Qed.

End bytes.

(** ** The algebra of a permutation table *)

Section algebra.
Context (T : list Z) `{!PermTable T}.

#[local] Abbreviation step := (pearson_step T).
#[local] Abbreviation fold := (pearson_fold T).

Lemma pearson_step_inj_seed h1 h2 b :
  is_byte h1 -> is_byte h2 -> is_byte b -> step h1 b = step h2 b -> h1 = h2.
Proof.
  intros H1 H2 Hb E. apply (T_at_inj T) in E; auto with byte.
  eapply lxor_cancel_r, E.
Qed.

Lemma pearson_step_inj_byte h b1 b2 :
  is_byte h -> is_byte b1 -> is_byte b2 -> step h b1 = step h b2 -> b1 = b2.
Proof.
  intros Hh H1 H2 E. apply (T_at_inj T) in E; auto with byte.
  eapply lxor_cancel_l, E.
Qed.

Lemma pearson_fold_inj_seed h1 h2 bs :
  is_byte h1 -> is_byte h2 -> Forall is_byte bs -> fold h1 bs = fold h2 bs -> h1 = h2.
Proof.
  intros H1 H2 Hbs. revert h1 h2 H1 H2.
  induction Hbs as [|b bs Hb _ IH]; intros h1 h2 H1 H2 E; [exact E|].
  rewrite !pearson_fold_cons in E.
  apply IH in E; [|apply (pearson_step_byte T); assumption ..].
  apply (pearson_step_inj_seed h1 h2 b); assumption.
Qed.

(** The byte that takes the running hash [h] to the digest [d]. *)
Lemma pearson_step_reach h d :
  is_byte h -> is_byte d -> step h (Z.lxor h (T_inv T d)) = d.
Proof.
  intros Hh Hd. unfold pearson_step.
  rewrite <- Z.lxor_assoc, Z.lxor_nilpotent, Z.lxor_0_l. now apply T_at_inv.
Qed.

Lemma pearson_fold_differs h pre a b suf :
  is_byte h -> Forall is_byte pre -> is_byte a -> is_byte b -> Forall is_byte suf ->
  a <> b -> fold h (pre ++ a :: suf) <> fold h (pre ++ b :: suf).
Proof.
  intros Hh Hpre Ha Hb Hsuf Hne E.
  rewrite !pearson_fold_app, !pearson_fold_cons in E.
  assert (Hp : is_byte (fold h pre)) by now apply (pearson_fold_byte T).
  apply pearson_fold_inj_seed in E; try apply (pearson_step_byte T); auto.
  apply pearson_step_inj_byte in E; auto.
Qed.

(** The fold from a fixed seed depends on every byte, and so does the
    fold over the reversed key from a seed that is a function of the
    length. *)
Lemma fold_depends h : is_byte h -> depends_on_every_byte (fold h).
Proof.
  intros Hh pre a b suf Hpre Ha Hb Hsuf. split.
  - apply (pearson_fold_byte T); [assumption|]. apply Forall_app. split; [assumption|now constructor].
  - now apply pearson_fold_differs.
Qed.

Lemma fold_rev_depends (seed : nat -> Z) :
  (forall n, is_byte (seed n)) ->
  depends_on_every_byte (fun bs => fold (seed (length bs)) (rev bs)).
Proof.
  intros Hseed pre a b suf Hpre Ha Hb Hsuf.
  replace (length (pre ++ b :: suf)) with (length (pre ++ a :: suf)) by now rewrite !length_app.
  rewrite !rev_app_distr. cbn [rev]. rewrite <- !app_assoc.
  apply fold_depends; auto using Forall_rev.
Qed.

Lemma bump_byte b : is_byte b -> is_byte (bump b).
Proof. unfold bump, is_byte. intros. pose proof (Z.mod_pos_bound (b + 1) 255). lia. Qed.

Lemma bump_neq b : is_byte b -> bump b <> b.
Proof.
  unfold bump, is_byte. intros Hb E.
  destruct (Z.lt_ge_cases (b + 1) 255).
  - rewrite Z.mod_small in E; lia.
  - assert (b = 254 \/ b = 255) as [-> | ->] by lia; discriminate.
Qed.

End algebra.

#[export] Hint Resolve pearson_step_byte pearson_fold_byte bump_byte : byte.
