(* ===== verification/Memory.v ===== *)
(** * Memory: blocks, pointers and the library calls of the program

    The memory the four functions run on.  A memory is the list of the
    blocks allocated so far, a pointer is the index of a block and an
    offset into it (or NULL), and a block is a run of cells starting at
    [blk_lo]: offset 0 is the address [malloc] returned, cells at negative
    offsets are allocator bytes the machine lets the program read
    ([malloc_header]), cells past the requested size are the slack of the
    allocation ([malloc_slack]).  A cell holds a byte or is indeterminate.

    [load] and [store] are the accesses [*p], [p[i]] of the source; they
    fault outside the cells of a live block.  [malloc], [free], [strlen]
    and [memcpy] are the library calls of lines 38, 64-67 and 99-103.
    [malloc] returns NULL for a request that does not fit the address
    space or what is left of the heap ([heap_used] against [heap_size]),
    and for a request of 0 bytes where the platform says so; [memcpy]
    needs two valid pointers and objects that do not overlap.

    The lemmas give the cells after each access and call on the runs
    that succeed, and the well-formedness invariant [mem_wf]; the account
    of the heap and the outcome of every call, faults included, are in
    [Outcome]. *)

From Stdlib Require Import ZArith Lia List.
From stdpp Require Import base tactics option list.
From S2P Require Import Prelude Platform CInt.

#[local] Open Scope Z_scope.

(** ** Data *)

Record block : Type := Block {
  blk_live : bool;              (* allocated and not yet freed *)
  blk_heap : bool;              (* obtained from malloc *)
  blk_lo : Z;                   (* offset of the first cell *)
  blk_data : list (option Z)    (* the cells; None is an indeterminate byte *)
}.

Inductive ptr : Type :=
| Null
| Ptr (b : nat) (o : Z).

Abbreviation mem := (list block).

#[export] Instance block_eq_dec : EqDecision block.
Proof. solve_decision. Defined.

#[export] Instance ptr_eq_dec : EqDecision ptr.
Proof. solve_decision. Defined.

(** One past the offset of the last cell. *)
Definition blk_hi (blk : block) : Z :=
  blk_lo blk + Z.of_nat (length (blk_data blk)).

(** The cell of a block at an offset, if the block has one there. *)
Definition blk_cell (blk : block) (o : Z) : option (option Z) :=
  if o <? blk_lo blk then None else blk_data blk !! Z.to_nat (o - blk_lo blk).

Definition blk_set (blk : block) (o : Z) (c : option Z) : block :=
  Block (blk_live blk) (blk_heap blk) (blk_lo blk)
        (<[Z.to_nat (o - blk_lo blk) := c]> (blk_data blk)).

Definition blk_kill (blk : block) : block :=
  Block false (blk_heap blk) (blk_lo blk) (blk_data blk).

(** The cell a pointer designates in a memory: none when the block is not
    live or the offset is outside it. *)
Definition cell (m : mem) (b : nat) (o : Z) : option (option Z) :=
  match m !! b with
  | Some blk => if blk_live blk then blk_cell blk o else None
  | None => None
  end.

(** A static object that holds the string [bs] and its terminator: what a
    caller passes as [key]. *)
Definition string_block (bs : list Z) : block :=
  Block true false 0 (map Some (bs ++ [0])).

(** The number of cells of a block. *)
Definition blk_cells (blk : block) : Z := Z.of_nat (length (blk_data blk)).

(** The bytes of the heap that are handed out: the cells of the blocks
    that came from [malloc] and were not freed since. *)
Fixpoint heap_used (m : mem) : Z :=
  match m with
  | [] => 0
  | blk :: m' =>
      (if blk_live blk && blk_heap blk then blk_cells blk else 0) + heap_used m'
  end.

Section memory.
Context {P : Platform}.

(** ** Pointer arithmetic and accesses *)

(** [p + i] for an integer [i]. *)
Definition ptr_add (p : ptr) (i : Z) : ptr :=
  match p with
  | Null => Null
  | Ptr b o => Ptr b (index_off o i)
  end.

(** Reading the byte [*p]. *)
Definition load (p : ptr) : cm mem Z := fun m =>
  match p with
  | Null => Fault NullDeref
  | Ptr b o =>
      match m !! b with
      | None => Fault Dangling
      | Some blk =>
          if blk_live blk then
            match blk_cell blk o with
            | None => Fault OutOfBounds
            | Some None => Fault Uninitialised
            | Some (Some v) => Ok (v, m)
            end
          else Fault Dangling
      end
  end.

(** Writing the byte [v] to [*p]. *)
Definition store (p : ptr) (v : Z) : cm mem unit := fun m =>
  match p with
  | Null => Fault NullDeref
  | Ptr b o =>
      match m !! b with
      | None => Fault Dangling
      | Some blk =>
          if blk_live blk then
            match blk_cell blk o with
            | None => Fault OutOfBounds
            | Some _ => Ok (tt, <[b := blk_set blk o (Some v)]> m)
            end
          else Fault Dangling
      end
  end.

(** Reading [*p] as a plain [char]: the value of the byte. *)
Definition load_char (p : ptr) : cm mem Z :=
  (b <- load p ;; ret (char_val b))%cm.

(** ** Allocation *)

(** The block [malloc] creates for a request of [n] bytes: the header
    bytes below offset 0, then [n] bytes and the slack, indeterminate. *)
Definition fresh_block (n : Z) : block :=
  Block true true (- Z.of_nat (length (malloc_header n)))
        (map Some (malloc_header n) ++ replicate (Z.to_nat (n + malloc_slack n)) None).

(** A request fits the address space when the block with its header and
    slack lies within half of it, the largest object size. *)
Definition malloc_fits (n : Z) : bool :=
  (Z.of_nat (length (malloc_header n)) <? 2 ^ (size_bits - 1)) &&
  (n + malloc_slack n <? 2 ^ (size_bits - 1)).

(** The heap is exhausted for a request when the bytes that are handed out
    and the block of the request exceed [heap_size]. *)
Definition heap_full (m : mem) (n : Z) : bool :=
  heap_size <? heap_used m + blk_cells (fresh_block n).

(** [malloc] returns NULL for a request of size 0 where the platform says
    so, for a request that does not fit the address space, and when the
    heap is exhausted. *)
Definition malloc_null (m : mem) (n : Z) : bool :=
  ((n =? 0) && malloc0_null) || negb (malloc_fits n) || heap_full m n.

(** [malloc(n)]: NULL, or a pointer to the base of a fresh block. *)
Definition malloc (n : Z) : cm mem ptr := fun m =>
  if malloc_null m n then Ok (Null, m)
  else Ok (Ptr (length m) 0, m ++ [fresh_block n]).

(** [free(p)]: nothing for NULL, otherwise [p] must be what [malloc]
    returned for a block that is still live. *)
Definition free (p : ptr) : cm mem unit := fun m =>
  match p with
  | Null => Ok (tt, m)
  | Ptr b o =>
      match m !! b with
      | None => Fault Dangling
      | Some blk =>
          if blk_live blk && blk_heap blk && (o =? 0)
          then Ok (tt, <[b := blk_kill blk]> m)
          else Fault Dangling
      end
  end.

(** ** String functions *)

(** An upper bound on the number of bytes that can be read upward from
    [p]: the number of cells of its block. *)
Definition span (p : ptr) (m : mem) : nat :=
  match p with
  | Null => O
  | Ptr b _ => match m !! b with Some blk => length (blk_data blk) | None => O end
  end.

(** The loop of [strlen]: [n] bytes were read and none was 0. *)
Fixpoint strlen_from (fuel : nat) (p : ptr) (n : Z) : cm mem Z :=
  match fuel with
  | O => fail OutOfFuel
  | S fuel' =>
      (c <- load (ptr_add p n) ;;
       if c =? 0 then ret n else strlen_from fuel' p (n + 1))%cm
  end.

(** [strlen(p)]. *)
Definition strlen (p : ptr) : cm mem Z :=
  (fuel <- gets (span p) ;; strlen_from (S fuel) p 0)%cm.

(** The loop of [memcpy]: [k] bytes remain, [i] were copied. *)
Fixpoint memcpy_from (k : nat) (dst src : ptr) (i : Z) : cm mem unit :=
  match k with
  | O => ret tt
  | S k' =>
      (c <- load (ptr_add src i) ;;
       store (ptr_add dst i) c ;;
       memcpy_from k' dst src (i + 1))%cm
  end.

(** The [n] bytes at [dst] and the [n] bytes at [src] have a byte in
    common. *)
Definition overlap (dst src : ptr) (n : Z) : bool :=
  match dst, src with
  | Ptr db d, Ptr sb s =>
      bool_decide (db = sb) && (0 <? n) && (d <? s + n) && (s <? d + n)
  | _, _ => false
  end.

(** [memcpy(dst, src, n)]: both pointers must be valid even for [n = 0],
    and the two objects must not overlap. *)
Definition memcpy (dst src : ptr) (n : Z) : cm mem unit :=
  match dst, src with
  | Null, _ | _, Null => fail NullDeref
  | Ptr _ _, Ptr _ _ =>
      if overlap dst src n then fail Overlap
      else memcpy_from (Z.to_nat n) dst src 0
  end.

(** The memory after a store of [v] at offset [o] of block [b]. *)
Definition mem_set (m : mem) (b : nat) (o : Z) (v : Z) : mem :=
  match m !! b with
  | Some blk => <[b := blk_set blk o (Some v)]> m
  | None => m
  end.

(** The memory after block [b] was freed. *)
Definition mem_kill (m : mem) (b : nat) : mem :=
  match m !! b with
  | Some blk => <[b := blk_kill blk]> m
  | None => m
  end.

(** ** Well-formed memories and strings in memory *)

(** A block lies within the address space and its cells hold bytes. *)
Definition block_wf (blk : block) : Prop :=
  - 2 ^ (size_bits - 1) < blk_lo blk /\ blk_lo blk <= 0 /\
  blk_hi blk < 2 ^ (size_bits - 1) /\
  Forall (fun c => from_option is_byte True c) (blk_data blk).

Definition mem_wf (m : mem) : Prop := Forall block_wf m.

(** The cells of block [b] from offset [o] on hold the bytes [bs]. *)
Fixpoint bytes_at (m : mem) (b : nat) (o : Z) (bs : list Z) : Prop :=
  match bs with
  | [] => True
  | x :: bs' => cell m b o = Some (Some x) /\ bytes_at m b (o + 1) bs'
  end.

(** [p] points to the C string [bs]: the bytes of [bs], none of them 0,
    followed by the terminator. *)
Definition cstring_at (m : mem) (p : ptr) (bs : list Z) : Prop :=
  match p with
  | Null => False
  | Ptr b o => is_key bs /\ bytes_at m b o (bs ++ [0])
  end.

#[export] Instance cell_byte_dec (c : option Z) : Decision (from_option is_byte True c).
Proof. destruct c; simpl; apply _. Defined.

#[export] Instance block_wf_dec blk : Decision (block_wf blk).
Proof. unfold block_wf. apply _. Defined.

#[export] Instance mem_wf_dec m : Decision (mem_wf m).
Proof. unfold mem_wf. apply _. Defined.

#[export] Instance bytes_at_dec m b o bs : Decision (bytes_at m b o bs).
Proof. revert o. induction bs as [|x bs IH]; intros o; simpl; apply _. Defined.

#[export] Instance cstring_at_dec m p bs : Decision (cstring_at m p bs).
Proof. destruct p; simpl; apply _. Defined.

(** The memory after the bytes [bs] were stored from offset [o] of block
    [b] upward. *)
Fixpoint mem_write (m : mem) (b : nat) (o : Z) (bs : list Z) : mem :=
  match bs with
  | [] => m
  | x :: bs' => mem_write (mem_set m b o x) b (o + 1) bs'
  end.

(** ** Cells *)

Lemma blk_cell_range blk o c :
  blk_cell blk o = Some c -> blk_lo blk <= o < blk_hi blk.
Proof.
  unfold blk_cell, blk_hi. destruct (Z.ltb_spec o (blk_lo blk)) as [Hlt|Hge]; [discriminate|].
  intros Hc%lookup_lt_Some. lia.
Qed.

Lemma blk_cell_is_Some blk o :
  blk_lo blk <= o < blk_hi blk -> is_Some (blk_cell blk o).
Proof.
  unfold blk_cell, blk_hi. intros H.
  destruct (Z.ltb_spec o (blk_lo blk)); [lia|]. apply lookup_lt_is_Some. lia.
Qed.

Lemma blk_cell_None blk o :
  blk_cell blk o = None <-> o < blk_lo blk \/ blk_hi blk <= o.
Proof.
  unfold blk_cell, blk_hi. destruct (Z.ltb_spec o (blk_lo blk)).
  - split; [intros _; lia | reflexivity].
  - rewrite lookup_ge_None. lia.
Qed.

Lemma blk_cell_set_eq blk o c :
  is_Some (blk_cell blk o) -> blk_cell (blk_set blk o c) o = Some c.
Proof.
  intros [c' H]. pose proof (blk_cell_range _ _ _ H) as Hr.
  unfold blk_cell, blk_hi in *. simpl.
  destruct (Z.ltb_spec o (blk_lo blk)); [lia|].
  apply list_lookup_insert_eq. lia.
Qed.

Lemma blk_cell_set_ne blk o o' c :
  blk_lo blk <= o -> o <> o' -> blk_cell (blk_set blk o c) o' = blk_cell blk o'.
Proof.
  intros Hlo Hne. unfold blk_cell. simpl.
  destruct (Z.ltb_spec o' (blk_lo blk)); [reflexivity|].
  apply list_lookup_insert_ne. lia.
Qed.

Lemma blk_hi_set blk o c : blk_hi (blk_set blk o c) = blk_hi blk.
Proof. unfold blk_hi. simpl. now rewrite length_insert. Qed.

Lemma cell_Some m b o c :
  cell m b o = Some c <->
  exists blk, m !! b = Some blk /\ blk_live blk = true /\ blk_cell blk o = Some c.
Proof.
  unfold cell. split.
  - destruct (m !! b) as [blk|]; [|discriminate].
    destruct (blk_live blk) eqn:E; [eauto | discriminate].
  - intros (blk & -> & -> & H). exact H.
Qed.

Lemma cell_app_l m m' b o c : cell m b o = Some c -> cell (m ++ m') b o = Some c.
Proof.
  rewrite !cell_Some. intros (blk & H & ?). exists blk.
  split; [|assumption]. now apply lookup_app_l_Some.
Qed.

Lemma cell_app_r m blk o : cell (m ++ [blk]) (length m) o =
  if blk_live blk then blk_cell blk o else None.
Proof. unfold cell. now rewrite list_lookup_middle. Qed.

Lemma cell_mem_set_eq m b o v :
  is_Some (cell m b o) -> cell (mem_set m b o v) b o = Some (Some v).
Proof.
  intros [c (blk & Hb & Hl & Hc)%cell_Some]. unfold mem_set, cell. rewrite Hb.
  rewrite list_lookup_insert_eq by (eapply lookup_lt_Some; eauto). simpl.
  rewrite Hl. apply blk_cell_set_eq. eauto.
Qed.

Lemma cell_mem_set_ne m b o v b' o' :
  is_Some (cell m b o) -> (b, o) <> (b', o') ->
  cell (mem_set m b o v) b' o' = cell m b' o'.
Proof.
  intros [c (blk & Hb & Hl & Hc)%cell_Some] Hne. unfold mem_set, cell. rewrite Hb.
  destruct (decide (b = b')) as [<-|Hbb].
  - rewrite list_lookup_insert_eq by (eapply lookup_lt_Some; eauto). rewrite Hb. simpl.
    rewrite Hl. apply blk_cell_set_ne; [apply blk_cell_range in Hc; lia | congruence].
  - now rewrite list_lookup_insert_ne.
Qed.

Lemma length_mem_set m b o v : length (mem_set m b o v) = length m.
Proof. unfold mem_set. destruct (m !! b); [apply length_insert | reflexivity]. Qed.

Lemma length_mem_kill m b : length (mem_kill m b) = length m.
Proof. unfold mem_kill. destruct (m !! b); [apply length_insert | reflexivity]. Qed.

Lemma cell_mem_kill_ne m b b' o : b <> b' -> cell (mem_kill m b) b' o = cell m b' o.
Proof.
  intros Hne. unfold mem_kill, cell. destruct (m !! b); [|reflexivity].
  now rewrite list_lookup_insert_ne.
Qed.

(** ** Running the accesses *)

Lemma load_ok m b o v : cell m b o = Some (Some v) -> load (Ptr b o) m = Ok (v, m).
Proof. intros (blk & Hb & Hl & Hc)%cell_Some. unfold load. now rewrite Hb, Hl, Hc. Qed.

Lemma load_char_ok m b o v :
  cell m b o = Some (Some v) -> load_char (Ptr b o) m = Ok (char_val v, m).
Proof. intros H. unfold load_char. now erewrite bind_ok by (apply load_ok, H). Qed.

Lemma load_uninit m b o : cell m b o = Some None -> load (Ptr b o) m = Fault Uninitialised.
Proof. intros (blk & Hb & Hl & Hc)%cell_Some. unfold load. now rewrite Hb, Hl, Hc. Qed.

Lemma load_oob m b o blk :
  m !! b = Some blk -> blk_live blk = true -> blk_cell blk o = None ->
  load (Ptr b o) m = Fault OutOfBounds.
Proof. intros Hb Hl Hc. unfold load. now rewrite Hb, Hl, Hc. Qed.

Lemma load_inv p m v m' :
  load p m = Ok (v, m') -> m' = m /\ exists b o, p = Ptr b o /\ cell m b o = Some (Some v).
Proof.
  unfold load. destruct p as [|b o]; [discriminate|].
  destruct (m !! b) as [blk|] eqn:Hb; [|discriminate].
  destruct (blk_live blk) eqn:Hl; [|discriminate].
  destruct (blk_cell blk o) as [[x|]|] eqn:Hc; try discriminate.
  intros [= -> ->]. split; [reflexivity|]. exists b, o. split; [reflexivity|].
  apply cell_Some. eauto.
Qed.

Lemma load_fault p m f : load p m = Fault f -> f <> OutOfFuel /\ f <> TableIndex /\ f <> IntOverflow.
Proof.
  unfold load. destruct p as [|b o]; [intros [= <-]; done|].
  destruct (m !! b) as [blk|]; [|intros [= <-]; done].
  destruct (blk_live blk); [|intros [= <-]; done].
  destruct (blk_cell blk o) as [[x|]|]; intros [= <-]; done.
Qed.

Lemma load_char_inv p m c m' :
  load_char p m = Ok (c, m') ->
  m' = m /\ exists b o v, p = Ptr b o /\ cell m b o = Some (Some v) /\ c = char_val v.
Proof.
  unfold load_char. intros (v & m1 & Hl & [= <- <-])%bind_inv_ok.
  apply load_inv in Hl as (-> & b & o & -> & Hc). eauto 10.
Qed.

Lemma load_char_fault p m f :
  load_char p m = Fault f -> load p m = Fault f.
Proof.
  unfold load_char. intros [H|(v & m1 & _ & H)]%bind_inv_fault; [exact H | discriminate].
Qed.

Lemma store_ok m b o v :
  is_Some (cell m b o) -> store (Ptr b o) v m = Ok (tt, mem_set m b o v).
Proof.
  intros [c (blk & Hb & Hl & Hc)%cell_Some]. unfold store, mem_set.
  now rewrite Hb, Hl, Hc.
Qed.

Lemma store_oob m b o v blk :
  m !! b = Some blk -> blk_live blk = true -> blk_cell blk o = None ->
  store (Ptr b o) v m = Fault OutOfBounds.
Proof. intros Hb Hl Hc. unfold store. now rewrite Hb, Hl, Hc. Qed.

Lemma malloc_ok n m :
  malloc_null m n = false ->
  malloc n m = Ok (Ptr (length m) 0, m ++ [fresh_block n]).
Proof. unfold malloc. intros ->. reflexivity. Qed.

Lemma malloc_fail n m : malloc_null m n = true -> malloc n m = Ok (Null, m).
Proof. unfold malloc. intros ->. reflexivity. Qed.

Lemma malloc_null_false m n :
  malloc_null m n = false ->
  malloc_fits n = true /\ (n = 0 -> malloc0_null = false) /\ heap_full m n = false.
Proof.
  unfold malloc_null. intros [[H1 H2]%orb_false_iff H3]%orb_false_iff.
  apply negb_false_iff in H2. split; [assumption|split; [|assumption]].
  intros ->. now rewrite Z.eqb_refl in H1.
Qed.

Lemma malloc_exhausted m n : heap_full m n = true -> malloc n m = Ok (Null, m).
Proof. intros H. unfold malloc, malloc_null. now rewrite H, orb_true_r. Qed.

Lemma free_ok m b blk :
  m !! b = Some blk -> blk_live blk = true -> blk_heap blk = true ->
  free (Ptr b 0) m = Ok (tt, mem_kill m b).
Proof. intros Hb Hl Hh. unfold free, mem_kill. now rewrite Hb, Hl, Hh. Qed.

(** ** Bytes in memory *)

Lemma bytes_at_app m b o xs ys :
  bytes_at m b o (xs ++ ys) <->
  bytes_at m b o xs /\ bytes_at m b (o + Z.of_nat (length xs)) ys.
Proof.
  revert o. induction xs as [|x xs IH]; intros o; simpl.
  - rewrite Z.add_0_r. tauto.
  - rewrite IH. replace (o + 1 + Z.of_nat (length xs)) with (o + Z.pos (Pos.of_succ_nat (length xs))) by lia.
    tauto.
Qed.

Lemma bytes_at_lookup m b o bs (k : nat) x :
  bytes_at m b o bs -> bs !! k = Some x -> cell m b (o + Z.of_nat k) = Some (Some x).
Proof.
  revert o k. induction bs as [|y bs IH]; intros o k Hb Hk; [discriminate|].
  destruct Hb as [Hc Hbs]. destruct k as [|k]; simplify_eq /=.
  - now rewrite Z.add_0_r.
  - replace (o + Z.of_nat (S k)) with (o + 1 + Z.of_nat k) by lia. now apply IH.
Qed.

Lemma bytes_at_ext m m' b o bs :
  (forall o' c, cell m b o' = Some c -> cell m' b o' = Some c) ->
  bytes_at m b o bs -> bytes_at m' b o bs.
Proof.
  intros Hext. revert o. induction bs as [|x bs IH]; intros o; simpl; [tauto|].
  intros [Hc Hbs]. split; [now apply Hext | now apply IH].
Qed.

Lemma bytes_at_ext_from m m' b o bs :
  (forall o' c, o <= o' -> cell m b o' = Some c -> cell m' b o' = Some c) ->
  bytes_at m b o bs -> bytes_at m' b o bs.
Proof.
  revert o. induction bs as [|x bs IH]; intros o Hext; simpl; [tauto|].
  intros [Hc Hbs]. split; [apply Hext; [lia | assumption]|].
  apply IH; [|assumption]. intros o' c Ho. apply Hext. lia.
Qed.

Lemma bytes_at_grow m m' b o bs : bytes_at m b o bs -> bytes_at (m ++ m') b o bs.
Proof. apply bytes_at_ext. intros o' c. apply cell_app_l. Qed.

Lemma bytes_at_set_other m b o bs b' o' v :
  b <> b' -> is_Some (cell m b' o') -> bytes_at m b o bs ->
  bytes_at (mem_set m b' o' v) b o bs.
Proof.
  intros Hne Hs. apply bytes_at_ext. intros o1 c Hc.
  rewrite cell_mem_set_ne; [assumption.. | congruence].
Qed.

Lemma bytes_at_kill_other m b o bs b' :
  b <> b' -> bytes_at m b o bs -> bytes_at (mem_kill m b') b o bs.
Proof.
  intros Hne. apply bytes_at_ext. intros o1 c Hc. now rewrite cell_mem_kill_ne.
Qed.

(** The bytes of a block whose cells are known. *)
Lemma bytes_at_block m b blk pre bs post :
  m !! b = Some blk -> blk_live blk = true ->
  blk_data blk = pre ++ map Some bs ++ post ->
  bytes_at m b (blk_lo blk + Z.of_nat (length pre)) bs.
Proof.
  intros Hb Hl. revert pre. induction bs as [|x bs IH]; intros pre Hd; simpl; [exact I|].
  split.
  - apply cell_Some. exists blk. repeat split; try assumption.
    unfold blk_cell. destruct (Z.ltb_spec (blk_lo blk + Z.of_nat (length pre)) (blk_lo blk)); [lia|].
    replace (Z.to_nat _) with (length pre) by lia.
    rewrite Hd. simpl. now rewrite list_lookup_middle.
  - replace (blk_lo blk + Z.of_nat (length pre) + 1)
      with (blk_lo blk + Z.of_nat (length (pre ++ [Some x]))) by (rewrite length_app; simpl; lia).
    apply IH. rewrite Hd. simpl. now rewrite <- app_assoc.
Qed.

Lemma cstring_at_string_block m bs :
  is_key bs -> cstring_at (m ++ [string_block bs]) (Ptr (length m) 0) bs.
Proof.
  intros Hk. split; [exact Hk|].
  apply (bytes_at_block _ _ (string_block bs) [] (bs ++ [0]) []).
  - apply list_lookup_middle. reflexivity.
  - reflexivity.
  - simpl. now rewrite app_nil_r.
Qed.

(** ** Well-formed memories *)

Lemma mem_wf_lookup m b blk : mem_wf m -> m !! b = Some blk -> block_wf blk.
Proof. unfold mem_wf. rewrite Forall_lookup. eauto. Qed.

Lemma cell_wf_range m b o c :
  mem_wf m -> cell m b o = Some c -> - 2 ^ (size_bits - 1) < o < 2 ^ (size_bits - 1).
Proof.
  intros Hwf (blk & Hb & _ & Hc)%cell_Some.
  destruct (mem_wf_lookup _ _ _ Hwf Hb) as (? & ? & ? & _).
  apply blk_cell_range in Hc. lia.
Qed.

Lemma cell_wf_byte m b o v : mem_wf m -> cell m b o = Some (Some v) -> is_byte v.
Proof.
  intros Hwf (blk & Hb & _ & Hc)%cell_Some.
  destruct (mem_wf_lookup _ _ _ Hwf Hb) as (_ & _ & _ & Hby).
  unfold blk_cell in Hc. destruct (_ <? _); [discriminate|].
  rewrite Forall_lookup in Hby. apply (Hby _ _ Hc).
Qed.

Lemma bytes_at_bytes m b o bs : mem_wf m -> bytes_at m b o bs -> Forall is_byte bs.
Proof.
  intros Hwf. revert o. induction bs as [|x bs IH]; intros o; [constructor|].
  intros [Hx Hb]. constructor; [exact (cell_wf_byte _ _ _ _ Hwf Hx)|exact (IH _ Hb)].
Qed.

Lemma ptr_add_cell `{!PlatformOk P} m b o i c :
  mem_wf m -> cell m b (o + i) = Some c -> ptr_add (Ptr b o) i = Ptr b (o + i).
Proof.
  intros Hwf Hc. simpl. f_equal. pose proof size_bits_min.
  apply index_off_small; [|lia]. apply (cell_wf_range _ _ _ _ Hwf) in Hc. lia.
Qed.

Lemma ptr_add_succ `{!PlatformOk P} m b o c :
  mem_wf m -> cell m b o = Some c -> ptr_add (Ptr b o) 1 = Ptr b (o + 1).
Proof.
  intros Hwf (blk & Hb & _ & Hc)%cell_Some. simpl. f_equal. pose proof size_bits_min.
  destruct (mem_wf_lookup _ _ _ Hwf Hb) as (? & ? & ? & _).
  apply blk_cell_range in Hc. apply index_off_small; lia.
Qed.

Lemma ptr_add_0 `{!PlatformOk P} m b o c :
  mem_wf m -> cell m b o = Some c -> ptr_add (Ptr b o) 0 = Ptr b o.
Proof.
  intros Hwf Hc. rewrite <- (Z.add_0_r o) in Hc.
  rewrite (ptr_add_cell _ _ _ _ _ Hwf Hc). now rewrite Z.add_0_r.
Qed.

Lemma block_wf_set blk o v : block_wf blk -> is_byte v -> block_wf (blk_set blk o (Some v)).
Proof.
  intros (? & ? & ? & Hby) Hv. unfold block_wf. rewrite blk_hi_set. simpl.
  repeat split; try assumption.
  destruct (decide (Z.to_nat (o - blk_lo blk) < length (blk_data blk))%nat).
  - apply Forall_insert; assumption.
  - rewrite list_insert_ge by lia. assumption.
Qed.

Lemma mem_wf_set m b o v : mem_wf m -> is_byte v -> mem_wf (mem_set m b o v).
Proof.
  intros Hwf Hv. unfold mem_set. destruct (m !! b) as [blk|] eqn:Hb; [|assumption].
  apply Forall_insert; [assumption|]. apply block_wf_set; [|assumption].
  eapply mem_wf_lookup; eauto.
Qed.

Lemma mem_wf_kill m b : mem_wf m -> mem_wf (mem_kill m b).
Proof.
  intros Hwf. unfold mem_kill. destruct (m !! b) as [blk|] eqn:Hb; [|assumption].
  apply Forall_insert; [assumption|]. exact (mem_wf_lookup _ _ _ Hwf Hb).
Qed.

Lemma fresh_block_wf `{!PlatformOk P} n : malloc_fits n = true -> block_wf (fresh_block n).
Proof.
  unfold malloc_fits. rewrite andb_true_iff, !Z.ltb_lt. intros [Hh Hn].
  unfold block_wf, blk_hi, fresh_block. simpl.
  rewrite length_app, length_map, length_replicate.
  repeat split; try lia.
  apply Forall_app. split.
  - apply Forall_map. pose proof (malloc_header_bytes n) as Hb.
    eapply Forall_impl; [exact Hb|]. auto.
  - apply Forall_replicate. exact I.
Qed.

Lemma mem_wf_app m blk : mem_wf m -> block_wf blk -> mem_wf (m ++ [blk]).
Proof. intros. apply Forall_app. split; [assumption | now constructor]. Qed.

Lemma string_block_wf bs :
  is_key bs -> Z.of_nat (length bs) + 1 < 2 ^ (size_bits - 1) -> 0 < size_bits ->
  block_wf (string_block bs).
Proof.
  intros Hk Hlen Hs. unfold block_wf, blk_hi, string_block. simpl.
  rewrite length_map, length_app. simpl.
  assert (0 < 2 ^ (size_bits - 1)) by (apply Z.pow_pos_nonneg; lia).
  repeat split; try lia.
  apply Forall_map, Forall_app. split.
  - apply is_key_bytes in Hk. eapply Forall_impl; [exact Hk|]. auto.
  - repeat constructor; simpl; lia.
Qed.

(** ** Writing a run of bytes *)

Lemma length_mem_write m b o bs : length (mem_write m b o bs) = length m.
Proof.
  revert m o. induction bs as [|x bs IH]; intros m o; simpl; [reflexivity|].
  now rewrite IH, length_mem_set.
Qed.

Lemma cell_mem_write_other m b o bs b' o' :
  (forall k : nat, (k < length bs)%nat -> is_Some (cell m b (o + Z.of_nat k))) ->
  (b' <> b \/ o' < o \/ o + Z.of_nat (length bs) <= o') ->
  cell (mem_write m b o bs) b' o' = cell m b' o'.
Proof.
  revert m o. induction bs as [|x bs IH]; intros m o Hs Hout; simpl; [reflexivity|].
  assert (H0 : is_Some (cell m b o)).
  { specialize (Hs O). rewrite Z.add_0_r in Hs. apply Hs. simpl. lia. }
  rewrite IH.
  - apply cell_mem_set_ne; [assumption|]. simpl in Hout. intros [= -> ->]. lia.
  - intros k Hk. rewrite cell_mem_set_ne; [|assumption|intros [= ?]; lia].
    replace (o + 1 + Z.of_nat k) with (o + Z.of_nat (S k)) by lia. apply Hs. simpl. lia.
  - simpl in Hout. lia.
Qed.

Lemma bytes_at_mem_write m b o bs :
  (forall k : nat, (k < length bs)%nat -> is_Some (cell m b (o + Z.of_nat k))) ->
  bytes_at (mem_write m b o bs) b o bs.
Proof.
  revert m o. induction bs as [|x bs IH]; intros m o Hs; simpl; [exact I|].
  assert (H0 : is_Some (cell m b o)).
  { specialize (Hs O). rewrite Z.add_0_r in Hs. apply Hs. simpl. lia. }
  assert (Hs' : forall k : nat, (k < length bs)%nat ->
                 is_Some (cell (mem_set m b o x) b (o + 1 + Z.of_nat k))).
  { intros k Hk. rewrite cell_mem_set_ne; [|assumption|intros [= ?]; lia].
    replace (o + 1 + Z.of_nat k) with (o + Z.of_nat (S k)) by lia. apply Hs. simpl. lia. }
  split; [|now apply IH].
  rewrite cell_mem_write_other; [now apply cell_mem_set_eq | assumption | lia].
Qed.

Lemma mem_write_app m b o xs ys :
  mem_write m b o (xs ++ ys) =
  mem_write (mem_write m b o xs) b (o + Z.of_nat (length xs)) ys.
Proof.
  revert m o. induction xs as [|x xs IH]; intros m o; cbn [app mem_write length].
  - now rewrite Z.add_0_r.
  - rewrite IH. f_equal. lia.
Qed.

Lemma mem_wf_write m b o bs :
  mem_wf m -> Forall is_byte bs -> mem_wf (mem_write m b o bs).
Proof.
  intros Hwf Hbs. revert m o Hwf. induction Hbs as [|x bs Hx _ IH]; intros m o Hwf; simpl.
  - assumption.
  - apply IH, mem_wf_set; assumption.
Qed.

(** ** strlen *)

Lemma span_bytes_at m b o bs : bytes_at m b o bs -> (length bs <= span (Ptr b o) m)%nat.
Proof.
  intros Hb. destruct bs as [|x bs]; [simpl; lia|].
  pose proof (bytes_at_lookup _ _ _ _ O x Hb eq_refl) as H0.
  destruct (lookup_lt_is_Some_2 (x :: bs) (length bs)) as [y Hy]; [simpl; lia|].
  pose proof (bytes_at_lookup _ _ _ _ _ y Hb Hy) as H1.
  apply cell_Some in H0 as (blk & Hblk & _ & H0), H1 as (blk' & Hblk' & _ & H1).
  simplify_eq. apply blk_cell_range in H0, H1. unfold span. rewrite Hblk.
  unfold blk_hi in *. simpl. lia.
Qed.

Lemma strlen_from_ok `{!PlatformOk P} m b o n rest fuel :
  mem_wf m -> is_key rest -> bytes_at m b (o + n) (rest ++ [0]) ->
  (length rest < fuel)%nat ->
  strlen_from fuel (Ptr b o) n m = Ok (n + Z.of_nat (length rest), m).
Proof.
  intros Hwf. revert n fuel. induction rest as [|x rest IH]; intros n fuel Hk Hb Hf;
    (destruct fuel as [|fuel]; [simpl in Hf; lia|]); destruct Hb as [Hc Hb];
    cbn [strlen_from].
  - erewrite ptr_add_cell, bind_ok by eauto using load_ok.
    rewrite Z.eqb_refl. unfold ret. do 2 f_equal. simpl. lia.
  - erewrite ptr_add_cell, bind_ok by eauto using load_ok.
    apply is_key_cons in Hk as [Hx Hk]. destruct (Z.eqb_spec x 0); [lia|].
    rewrite IH; [do 2 f_equal; simpl; lia | assumption | | simpl in Hf; lia].
    now replace (o + (n + 1)) with (o + n + 1) by lia.
Qed.

Lemma strlen_ok `{!PlatformOk P} m b o bs :
  mem_wf m -> cstring_at m (Ptr b o) bs ->
  strlen (Ptr b o) m = Ok (Z.of_nat (length bs), m).
Proof.
  intros Hwf [Hk Hb]. unfold strlen. rewrite bind_gets.
  rewrite (strlen_from_ok m b o 0 bs); [reflexivity | assumption.. | |].
  - now rewrite Z.add_0_r.
  - apply span_bytes_at in Hb. rewrite length_app in Hb. cbn [length] in Hb. lia.
Qed.

(** ** memcpy *)

Lemma memcpy_from_ok `{!PlatformOk P} m sb so db d i bs :
  mem_wf m -> sb <> db -> Forall is_byte bs ->
  bytes_at m sb (so + i) bs ->
  (forall k : nat, (k < length bs)%nat -> is_Some (cell m db (d + i + Z.of_nat k))) ->
  memcpy_from (length bs) (Ptr db d) (Ptr sb so) i m =
    Ok (tt, mem_write m db (d + i) bs).
Proof.
  intros Hwf Hne Hby. revert m i Hwf.
  induction Hby as [|x bs Hx _ IH]; intros m i Hwf Hb Hs;
    cbn [memcpy_from mem_write length]; [reflexivity|].
  destruct Hb as [Hc Hb].
  assert (H0 : is_Some (cell m db (d + i))).
  { specialize (Hs O). rewrite Z.add_0_r in Hs. apply Hs. simpl. lia. }
  destruct H0 as [c0 H0].
  erewrite (ptr_add_cell m sb), bind_ok by eauto using load_ok.
  erewrite (ptr_add_cell m db), bind_ok by eauto using store_ok.
  rewrite IH.
  - now replace (d + (i + 1)) with (d + i + 1) by lia.
  - apply mem_wf_set; assumption.
  - apply bytes_at_set_other; [assumption | eauto |].
    now replace (so + (i + 1)) with (so + i + 1) by lia.
  - intros k Hk. rewrite cell_mem_set_ne; [|eauto|intros [= ?]; lia].
    replace (d + (i + 1) + Z.of_nat k) with (d + i + Z.of_nat (S k)) by lia.
    apply Hs. simpl. lia.
Qed.

Lemma memcpy_null dst src n m :
  dst = Null \/ src = Null -> memcpy dst src n m = Fault NullDeref.
Proof. intros [-> | ->]; [reflexivity|]. now destruct dst. Qed.

Lemma overlap_distinct db d sb s n : db <> sb -> overlap (Ptr db d) (Ptr sb s) n = false.
Proof. intros Hne. unfold overlap. now rewrite bool_decide_eq_false_2. Qed.

Lemma overlap_empty dst src : overlap dst src 0 = false.
Proof. destruct dst, src; try reflexivity. unfold overlap. now rewrite andb_false_r. Qed.

Lemma memcpy_ok `{!PlatformOk P} m sb so db d bs :
  mem_wf m -> sb <> db -> Forall is_byte bs ->
  bytes_at m sb so bs ->
  (forall k : nat, (k < length bs)%nat -> is_Some (cell m db (d + Z.of_nat k))) ->
  memcpy (Ptr db d) (Ptr sb so) (Z.of_nat (length bs)) m = Ok (tt, mem_write m db d bs).
Proof.
  intros Hwf Hne Hbs Hb Hc. unfold memcpy. rewrite overlap_distinct by congruence.
  rewrite Nat2Z.id, (memcpy_from_ok m sb so db d 0 bs); rewrite ?Z.add_0_r; auto.
Qed.

(** ** The block malloc returns *)

Lemma fresh_block_cell_data n o :
  0 <= o < n + malloc_slack n -> blk_cell (fresh_block n) o = Some None.
Proof.
  intros Ho. unfold blk_cell, fresh_block. simpl.
  destruct (Z.ltb_spec o (- Z.of_nat (length (malloc_header n)))); [lia|].
  rewrite lookup_app_r by (rewrite length_map; lia).
  apply lookup_replicate_2. rewrite length_map. lia.
Qed.

Lemma fresh_block_cell_pred n :
  blk_cell (fresh_block n) (-1) = Some <$> last (malloc_header n).
Proof.
  unfold blk_cell, fresh_block. simpl.
  destruct (malloc_header n) as [|x l] eqn:E using rev_ind; [reflexivity|].
  rewrite last_snoc, length_app. cbn [length fmap option_fmap option_map].
  destruct (Z.ltb_spec (-1) (- Z.of_nat (length l + 1))); [lia|].
  rewrite lookup_app_l by (rewrite length_map, length_app; simpl; lia).
  rewrite list_lookup_fmap.
  replace (Z.to_nat (-1 - - Z.of_nat (length l + 1))) with (length l) by lia.
  now rewrite list_lookup_middle.
Qed.

Lemma fresh_block_cell_end n :
  0 <= n + malloc_slack n -> blk_cell (fresh_block n) (n + malloc_slack n) = None.
Proof.
  intros Hn. apply blk_cell_None. right. unfold blk_hi, fresh_block. simpl.
  rewrite length_app, length_map, length_replicate. lia.
Qed.

Lemma lookup_fresh m n : (m ++ [fresh_block n]) !! length m = Some (fresh_block n).
Proof. now apply list_lookup_middle. Qed.

Lemma cell_fresh m n o : cell (m ++ [fresh_block n]) (length m) o = blk_cell (fresh_block n) o.
Proof. now rewrite cell_app_r. Qed.

(** [p[i - 1]] from the base of a block: the element below [p[i]], also
    for [i = 0], where the index wraps to [size_max]. *)
Lemma ptr_add_pred `{!PlatformOk P} b i :
  0 <= i < 2 ^ (size_bits - 1) ->
  ptr_add (Ptr b 0) (size_wrap (i - 1)) = Ptr b (i - 1).
Proof.
  intros Hi. simpl. f_equal. pose proof size_bits_min.
  pose proof size_pow_half as E2.
  destruct (Z.eq_dec i 0) as [->|Hne].
  - rewrite index_off_size_max; lia.
  - rewrite size_wrap_small by lia. apply index_off_small; lia.
Qed.

Lemma ptr_add_base `{!PlatformOk P} b i :
  0 <= i < 2 ^ (size_bits - 1) -> ptr_add (Ptr b 0) i = Ptr b i.
Proof.
  intros Hi. simpl. f_equal. pose proof size_bits_min. apply index_off_small; lia.
Qed.

(** ** Frame: blocks that an operation does not touch *)

Lemma lookup_mem_set_ne m b o v b' : b <> b' -> mem_set m b o v !! b' = m !! b'.
Proof.
  intros Hne. unfold mem_set. destruct (m !! b); [|reflexivity].
  now apply list_lookup_insert_ne.
Qed.

Lemma lookup_mem_kill_ne m b b' : b <> b' -> mem_kill m b !! b' = m !! b'.
Proof.
  intros Hne. unfold mem_kill. destruct (m !! b); [|reflexivity].
  now apply list_lookup_insert_ne.
Qed.

Lemma lookup_mem_write_ne m b o bs b' : b <> b' -> mem_write m b o bs !! b' = m !! b'.
Proof.
  intros Hne. revert m o. induction bs as [|x bs IH]; intros m o; simpl; [reflexivity|].
  now rewrite IH, lookup_mem_set_ne.
Qed.

Lemma lookup_mem_set_eq m b o v blk :
  m !! b = Some blk -> mem_set m b o v !! b = Some (blk_set blk o (Some v)).
Proof.
  intros Hb. unfold mem_set. rewrite Hb. apply list_lookup_insert_eq.
  eapply lookup_lt_Some; eauto.
Qed.

Lemma lookup_mem_set_live m b o v blk' :
  mem_set m b o v !! b = Some blk' ->
  exists blk, m !! b = Some blk /\ blk_live blk' = blk_live blk /\ blk_heap blk' = blk_heap blk.
Proof.
  unfold mem_set. destruct (m !! b) as [blk|] eqn:Hb; [|now rewrite Hb].
  rewrite list_lookup_insert_eq by (eapply lookup_lt_Some; eauto).
  intros [= <-]. eauto.
Qed.

Lemma lookup_mem_write_live m b o bs blk :
  m !! b = Some blk ->
  exists blk', mem_write m b o bs !! b = Some blk' /\
               blk_live blk' = blk_live blk /\ blk_heap blk' = blk_heap blk.
Proof.
  revert m o blk. induction bs as [|x bs IH]; intros m o blk Hb; simpl; [eauto|].
  assert (Hs : mem_set m b o x !! b = Some (blk_set blk o (Some x))).
  { unfold mem_set. rewrite Hb. apply list_lookup_insert_eq. eapply lookup_lt_Some; eauto. }
  destruct (IH _ (o + 1) _ Hs) as (blk' & H1 & H2 & H3). eauto.
Qed.

Lemma lookup_mem_kill m b blk :
  m !! b = Some blk -> mem_kill m b !! b = Some (blk_kill blk).
Proof.
  intros Hb. unfold mem_kill. rewrite Hb. apply list_lookup_insert_eq.
  eapply lookup_lt_Some; eauto.
Qed.

(** ** The blocks below the one that is written *)

Lemma take_mem_set m b o v (k : nat) : (k <= b)%nat -> take k (mem_set m b o v) = take k m.
Proof. intros Hk. unfold mem_set. destruct (m !! b); [now apply take_insert_ge|reflexivity]. Qed.

Lemma take_mem_kill m b (k : nat) : (k <= b)%nat -> take k (mem_kill m b) = take k m.
Proof. intros Hk. unfold mem_kill. destruct (m !! b); [now apply take_insert_ge|reflexivity]. Qed.

Lemma take_mem_write m b o bs (k : nat) :
  (k <= b)%nat -> take k (mem_write m b o bs) = take k m.
Proof.
  intros Hk. revert m o. induction bs as [|x bs IH]; intros m o; [reflexivity|].
  cbn [mem_write]. now rewrite IH, take_mem_set.
Qed.

End memory.
