(* ===== verification/Outcome.v ===== *)
(** * Outcome: what every access and library call leaves

    [Memory] gives the runs that succeed.  This file gives every run of
    an access or a library call as a judgement [ends]: what it returns,
    what it leaves of the memory, and that its faults are faults of the
    program.  Two quantities are followed through the calls: the [shape]
    of a memory (the extent and status of every block), which no store
    changes, and the bytes of the heap that are handed out
    ([heap_used]), which [malloc] raises by the size of the block, never
    beyond the size of the heap, and [free] lowers by the same. *)

From Stdlib Require Import ZArith Lia List.
From stdpp Require Import base tactics option list.
From S2P Require Import Prelude Platform CInt Memory.

#[local] Open Scope Z_scope.

(** What a store leaves of a block: whether it is live and from the heap,
    and its extent. *)
Definition blk_shape (blk : block) : bool * bool * Z * nat :=
  (blk_live blk, blk_heap blk, blk_lo blk, length (blk_data blk)).

Definition shape (m : mem) : list (bool * bool * Z * nat) := map blk_shape m.

Section outcome.
Context {P : Platform}.

(** ** The heap that is handed out *)

Lemma blk_cells_nonneg blk : 0 <= blk_cells blk.
Proof. unfold blk_cells. lia. Qed.

Lemma heap_used_nonneg m : 0 <= heap_used m.
Proof.
  induction m as [|blk m IH]; cbn [heap_used]; [lia|].
  pose proof (blk_cells_nonneg blk). destruct (_ && _); lia.
Qed.

Lemma heap_used_app m m' : heap_used (m ++ m') = heap_used m + heap_used m'.
Proof. induction m as [|blk m IH]; cbn [heap_used app]; [reflexivity|]. rewrite IH. lia. Qed.

(** Replacing a block by one that counts the same leaves the sum. *)
Lemma heap_used_dead m : Forall (fun blk => blk_live blk = false) m -> heap_used m = 0.
Proof. induction 1 as [|blk m Hd _ IH]; cbn; [reflexivity|]. rewrite Hd, IH. reflexivity. Qed.

Lemma heap_used_insert m b blk blk' :
  m !! b = Some blk ->
  heap_used (<[b := blk']> m) =
  heap_used m - (if blk_live blk && blk_heap blk then blk_cells blk else 0)
              + (if blk_live blk' && blk_heap blk' then blk_cells blk' else 0).
Proof.
  revert b. induction m as [|x m IH]; intros b Hb; [discriminate|].
  destruct b as [|b].
  - injection Hb as ->. change (<[0%nat := blk']> (blk :: m)) with (blk' :: m).
    cbn [heap_used]. lia.
  - change (<[S b := blk']> (x :: m)) with (x :: <[b := blk']> m).
    cbn [heap_used]. rewrite (IH b Hb). lia.
Qed.

Lemma heap_used_kill m b blk :
  m !! b = Some blk -> blk_live blk = true -> blk_heap blk = true ->
  heap_used (mem_kill m b) = heap_used m - blk_cells blk.
Proof.
  intros Hb Hl Hh. unfold mem_kill. rewrite Hb, (heap_used_insert m b blk _ Hb), Hl, Hh.
  cbn. lia.
Qed.

(** ** The shape of a memory *)

Lemma shape_length m m' : shape m' = shape m -> length m' = length m.
Proof. intros H. apply (f_equal length) in H. unfold shape in H. now rewrite !length_map in H. Qed.

Lemma shape_lookup m m' b blk :
  shape m' = shape m -> m !! b = Some blk ->
  exists blk', m' !! b = Some blk' /\ blk_shape blk' = blk_shape blk.
Proof.
  intros H Hb. apply (f_equal (fun l => l !! b)) in H. unfold shape in H.
  rewrite !list_lookup_fmap, Hb in H. destruct (m' !! b) as [blk'|]; [|discriminate].
  exists blk'. split; [reflexivity|]. cbn in H. congruence.
Qed.

Lemma shape_heap_used m m' : shape m' = shape m -> heap_used m' = heap_used m.
Proof.
  revert m'. induction m as [|blk m IH]; intros [|blk' m']; try discriminate; [reflexivity|].
  unfold shape. cbn [map heap_used]. intros [= Hl Hh _ Hd Hm].
  unfold blk_cells. rewrite Hl, Hh, Hd. f_equal. now apply IH.
Qed.

Lemma shape_set m b o v : shape (mem_set m b o v) = shape m.
Proof.
  unfold mem_set, shape. destruct (m !! b) as [blk|] eqn:Hb; [|reflexivity].
  rewrite list_fmap_insert. apply list_insert_id. rewrite list_lookup_fmap, Hb.
  unfold blk_shape. cbn. now rewrite length_insert.
Qed.

Lemma shape_write m b o bs : shape (mem_write m b o bs) = shape m.
Proof.
  revert m o. induction bs as [|x bs IH]; intros m o; [reflexivity|].
  cbn [mem_write]. now rewrite IH, shape_set.
Qed.

Lemma heap_used_set m b o v : heap_used (mem_set m b o v) = heap_used m.
Proof. apply shape_heap_used, shape_set. Qed.

Lemma heap_used_write m b o bs : heap_used (mem_write m b o bs) = heap_used m.
Proof. apply shape_heap_used, shape_write. Qed.

Lemma shape_cells blk blk' : blk_shape blk' = blk_shape blk -> blk_cells blk' = blk_cells blk.
Proof. unfold blk_cells. now intros [= _ _ _ ->]. Qed.

Lemma fresh_block_cells n :
  0 <= n + malloc_slack n ->
  blk_cells (fresh_block n) = Z.of_nat (length (malloc_header n)) + n + malloc_slack n.
Proof.
  intros Hn. unfold blk_cells, fresh_block. cbn.
  rewrite length_app, length_map, length_replicate. lia.
Qed.

Lemma heap_used_fresh m n :
  heap_used (m ++ [fresh_block n]) = heap_used m + blk_cells (fresh_block n).
Proof. rewrite heap_used_app. cbn. lia. Qed.

(** ** Outcomes of the accesses and of the library calls *)

Lemma load_ends p m :
  ends (load p) m
    (fun v m' => m' = m /\ exists b o, p = Ptr b o /\ cell m b o = Some (Some v)) genuine.
Proof.
  apply ends_intro; [intros v m' H; now apply load_inv|].
  intros f H. now apply load_fault in H.
Qed.

Lemma load_char_ends p m :
  ends (load_char p) m
    (fun c m' => m' = m /\
       exists b o v, p = Ptr b o /\ cell m b o = Some (Some v) /\ c = char_val v) genuine.
Proof.
  apply ends_intro; [intros c m' H; now apply load_char_inv|].
  intros f H. now apply load_char_fault, load_fault in H.
Qed.

Lemma store_inv p v m u m' :
  store p v m = Ok (u, m') ->
  exists b o, p = Ptr b o /\ is_Some (cell m b o) /\ m' = mem_set m b o v.
Proof.
  unfold store. destruct p as [|b o]; [discriminate|].
  destruct (m !! b) as [blk|] eqn:Hb; [|discriminate].
  destruct (blk_live blk) eqn:Hl; [|discriminate].
  destruct (blk_cell blk o) as [c|] eqn:Hc; [|discriminate].
  intros [= <- <-]. exists b, o. split; [reflexivity|split].
  - exists c. apply cell_Some. eauto.
  - unfold mem_set. now rewrite Hb.
Qed.

Lemma store_fault p v m f : store p v m = Fault f -> genuine f.
Proof.
  unfold store. destruct p as [|b o]; [intros [= <-]; done|].
  destruct (m !! b) as [blk|]; [|intros [= <-]; done].
  destruct (blk_live blk); [|intros [= <-]; done].
  destruct (blk_cell blk o); [discriminate|intros [= <-]; done].
Qed.

Lemma store_wf p v m :
  mem_wf m -> is_byte v ->
  ends (store p v) m (fun _ m' => mem_wf m' /\ shape m' = shape m) genuine.
Proof.
  intros Hwf Hv. apply ends_intro; [|intros f; apply store_fault].
  intros u m' (b & o & _ & _ & ->)%store_inv.
  split; [now apply mem_wf_set|apply shape_set].
Qed.

Lemma malloc_wf `{!PlatformOk P} n m :
  mem_wf m ->
  ends (malloc n) m
    (fun p m' => mem_wf m' /\
       (p = Null /\ m' = m \/
        malloc_null m n = false /\ p = Ptr (length m) 0 /\ m' = m ++ [fresh_block n])) genuine.
Proof.
  intros Hwf. unfold ends, malloc. destruct (malloc_null m n) eqn:Hn; [auto|].
  split; [|auto]. apply mem_wf_app; [assumption|].
  now apply fresh_block_wf, (malloc_null_false m).
Qed.

Lemma free_inv p m u m' :
  free p m = Ok (u, m') ->
  p = Null /\ m' = m \/
  exists b blk, p = Ptr b 0 /\ m !! b = Some blk /\ blk_live blk = true /\
                blk_heap blk = true /\ m' = mem_kill m b.
Proof.
  unfold free. destruct p as [|b o]; [intros [= <- <-]; auto|].
  destruct (m !! b) as [blk|] eqn:Hb; [|discriminate].
  destruct (blk_live blk) eqn:Hl, (blk_heap blk) eqn:Hh, (Z.eqb_spec o 0) as [->|];
    try discriminate.
  intros [= <- <-]. right. exists b, blk. unfold mem_kill. rewrite Hb. auto.
Qed.

Lemma free_fault p m f : free p m = Fault f -> f = Dangling.
Proof.
  unfold free. destruct p as [|b o]; [discriminate|].
  destruct (m !! b) as [blk|]; [|now intros [= <-]].
  destruct (_ && _); [discriminate|now intros [= <-]].
Qed.

Lemma free_wf p m :
  mem_wf m -> ends (free p) m (fun _ m' => mem_wf m' /\ length m' = length m) genuine.
Proof.
  intros Hwf. apply ends_intro; [|intros f ->%free_fault; done].
  intros u m' [[_ ->]|(b & blk & _ & _ & _ & _ & ->)]%free_inv; [auto|].
  split; [now apply mem_wf_kill|apply length_mem_kill].
Qed.

(** Freeing what [malloc] returned gives back what it took, whatever was
    stored in between. *)
Lemma malloc_free_heap n p m m1 m2 u m3 :
  p = Null /\ m1 = m \/ p = Ptr (length m) 0 /\ m1 = m ++ [fresh_block n] ->
  shape m2 = shape m1 -> free p m2 = Ok (u, m3) ->
  heap_used m3 = heap_used m.
Proof.
  intros Hm Hs Hf. pose proof (shape_heap_used _ _ Hs) as Hu.
  apply free_inv in Hf as [[-> ->]|(b & blk & -> & Hb & Hl & Hh & ->)].
  - now destruct Hm as [[_ ->]|[[=] _]].
  - destruct Hm as [[[=] _]|[[= ->] ->]].
    rewrite (heap_used_kill _ _ _ Hb Hl Hh), Hu, heap_used_fresh.
    destruct (shape_lookup _ _ _ _ (eq_sym Hs) Hb) as (blk' & Hb' & Hsh).
    rewrite lookup_fresh in Hb'. injection Hb' as <-.
    rewrite (shape_cells _ _ Hsh). lia.
Qed.

Lemma malloc_free_ends n p m m1 m2 :
  p = Null /\ m1 = m \/ p = Ptr (length m) 0 /\ m1 = m ++ [fresh_block n] ->
  mem_wf m2 -> shape m2 = shape m1 ->
  ends (free p) m2
    (fun _ m3 => mem_wf m3 /\ (length m <= length m3 <= S (length m))%nat /\
                 heap_used m3 = heap_used m) genuine.
Proof.
  intros Hm Hwf Hs. pose proof (free_wf p m2 Hwf) as Hf. unfold ends in *.
  destruct (free p m2) as [[u m3]|f] eqn:E; [|assumption].
  destruct Hf as [Hwf3 Hl3]. split; [assumption|]. split.
  - rewrite Hl3, (shape_length _ _ Hs).
    destruct Hm as [[_ ->]|[_ ->]]; [lia|]. rewrite length_app. simpl. lia.
  - exact (malloc_free_heap n p m m1 m2 u m3 Hm Hs E).
Qed.

(** [malloc] hands out no more than the heap holds, and [free] takes
    nothing. *)
Lemma malloc_heap n m p m' :
  heap_used m <= heap_size -> malloc n m = Ok (p, m') ->
  heap_used m <= heap_used m' <= heap_size.
Proof.
  intros Hu. unfold malloc. destruct (malloc_null m n) eqn:Hn; intros [= _ <-]; [lia|].
  apply malloc_null_false in Hn as (_ & _ & Hf%Z.ltb_ge).
  rewrite heap_used_fresh. pose proof (blk_cells_nonneg (fresh_block n)). lia.
Qed.

Lemma free_heap p m u m' : free p m = Ok (u, m') -> heap_used m' <= heap_used m.
Proof.
  intros [[_ ->]|(b & blk & _ & Hb & Hl & Hh & ->)]%free_inv; [lia|].
  rewrite (heap_used_kill _ _ _ Hb Hl Hh). pose proof (blk_cells_nonneg blk). lia.
Qed.

Lemma memcpy_from_wf k dst src i m :
  mem_wf m ->
  ends (memcpy_from k dst src i) m (fun _ m' => mem_wf m' /\ shape m' = shape m) genuine.
Proof.
  revert i m. induction k as [|k IH]; intros i m Hwf; [now apply ends_ret|].
  cbn [memcpy_from]. ends_step (apply load_ends) as c m1 (-> & b & o & _ & Hc).
  ends_step (apply store_wf; [assumption|eapply cell_wf_byte; eauto]) as _ m2 [Hwf2 Hl2].
  eapply ends_weaken; [apply IH, Hwf2| |auto].
  intros _ m3 [Hwf3 Hl3]. split; [assumption|congruence].
Qed.

Lemma memcpy_wf dst src n m :
  mem_wf m ->
  ends (memcpy dst src n) m (fun _ m' => mem_wf m' /\ shape m' = shape m) genuine.
Proof.
  intros Hwf. unfold memcpy. destruct dst as [|db d], src as [|sb s]; try done.
  destruct (overlap _ _ _); [done|]. now apply memcpy_from_wf.
Qed.

(** The offsets [strlen] reads are consecutive cells of one block. *)
Lemma strlen_offset `{!PlatformOk P} blk o n :
  block_wf blk -> 0 <= n ->
  (0 < n -> blk_lo blk <= index_off o 0 /\ index_off o 0 + n <= blk_hi blk) ->
  index_off o n = index_off o 0 + n.
Proof.
  intros (Hlo & _ & Hhi & _) Hn Hr. pose proof size_bits_min.
  destruct (Z.eq_dec n 0) as [->|]; [lia|].
  rewrite <- index_off_idem. apply index_off_small; lia.
Qed.

Lemma strlen_from_ends `{!PlatformOk P} m b blk o fuel n :
  mem_wf m -> m !! b = Some blk -> 0 <= n ->
  (0 < n -> blk_lo blk <= index_off o 0 /\ index_off o 0 + n <= blk_hi blk) ->
  (length (blk_data blk) - Z.to_nat n < fuel)%nat ->
  ends (strlen_from fuel (Ptr b o) n) m
    (fun r m' => m' = m /\ n <= r < Z.of_nat (length (blk_data blk))) genuine.
Proof.
  intros Hwf Hb. revert n. induction fuel as [|fuel IH]; intros n Hn Hr Hf; [lia|].
  cbn [strlen_from ptr_add].
  ends_step (apply load_ends) as c m' (-> & b' & o' & [= <- <-] & Hc).
  rewrite (strlen_offset blk o n (mem_wf_lookup _ _ _ Hwf Hb) Hn Hr) in Hc.
  apply cell_Some in Hc as (blk' & Hb' & _ & Hc). rewrite Hb in Hb'. injection Hb' as <-.
  apply blk_cell_range in Hc. unfold blk_hi in *.
  destruct (c =? 0); [apply ends_ret; split; [reflexivity|lia]|].
  eapply ends_weaken; [apply (IH (n + 1)); lia| |auto].
  intros r m' [-> Hr']. split; [reflexivity|lia].
Qed.

Lemma strlen_ends `{!PlatformOk P} p m :
  mem_wf m ->
  ends (strlen p) m (fun r m' => m' = m /\ 0 <= r < 2 ^ size_bits) genuine.
Proof.
  intros Hwf. change (ends (strlen_from (S (span p m)) p 0) m
                        (fun r m' => m' = m /\ 0 <= r < 2 ^ size_bits) genuine).
  destruct p as [|b o]; [done|]. destruct (m !! b) as [blk|] eqn:Hb.
  - eapply ends_weaken; [apply (strlen_from_ends m b blk o _ 0 Hwf Hb); try lia| |auto].
    + cbn [span]. rewrite Hb. lia.
    + intros r m' [-> Hr]. split; [reflexivity|].
      destruct (mem_wf_lookup _ _ _ Hwf Hb) as (? & ? & ? & _). unfold blk_hi in *.
      pose proof size_bits_min. rewrite pow2_size_bits by lia. lia.
  - cbn [strlen_from ptr_add]. eapply ends_bind; [apply load_ends|].
    intros c m' (_ & b' & o' & [= <- <-] & (blk & Hb' & _)%cell_Some). congruence.
Qed.

(** ** The guarantees of the memory *)

(** A byte that was stored is the byte a load from the same pointer
    returns. *)
Theorem store_load p v m u m' :
  store p v m = Ok (u, m') -> load p m' = Ok (v, m').
Proof.
  intros (b & o & -> & Hc & ->)%store_inv. apply load_ok. now apply cell_mem_set_eq.
Qed.

(** The accesses and the library calls keep the memory well
    formed and the heap within its size: a store and [memcpy] change no
    block's extent or status, [malloc] hands out no more than the heap
    holds, [free] hands out nothing. *)
Theorem memory_calls_preserve_wf `{!PlatformOk P} m m' :
  mem_wf m -> heap_used m <= heap_size ->
  (forall p v u, is_byte v -> store p v m = Ok (u, m') ->
     mem_wf m' /\ heap_used m' = heap_used m) /\
  (forall n p, malloc n m = Ok (p, m') ->
     mem_wf m' /\ heap_used m <= heap_used m' <= heap_size) /\
  (forall p u, free p m = Ok (u, m') ->
     mem_wf m' /\ heap_used m' <= heap_used m) /\
  (forall dst src n u, memcpy dst src n m = Ok (u, m') ->
     mem_wf m' /\ heap_used m' = heap_used m).
Proof.
  intros Hwf Hu. split; [|split; [|split]].
  - intros p v u Hv E.
    destruct (ends_ok _ _ _ _ _ _ (store_wf p v m Hwf Hv) E) as [? ?%shape_heap_used]. auto.
  - intros n p E. split; [|exact (malloc_heap n m p m' Hu E)].
    exact (proj1 (ends_ok _ _ _ _ _ _ (malloc_wf n m Hwf) E)).
  - intros p u E. split; [|exact (free_heap p m u m' E)].
    exact (proj1 (ends_ok _ _ _ _ _ _ (free_wf p m Hwf) E)).
  - intros dst src n u E.
    destruct (ends_ok _ _ _ _ _ _ (memcpy_wf dst src n m Hwf) E) as [? ?%shape_heap_used]. auto.
Qed.

(** After [free(p)] every access through a pointer into the block
    faults, and so does a second [free(p)]. *)
Theorem use_after_free b o m u m' :
  free (Ptr b o) m = Ok (u, m') ->
  (forall o', load (Ptr b o') m' = Fault Dangling) /\
  (forall o' v, store (Ptr b o') v m' = Fault Dangling) /\
  free (Ptr b o) m' = Fault Dangling.
Proof.
  intros [[[=] _]|(b' & blk & [= <- ->] & Hb & _ & _ & ->)]%free_inv.
  pose proof (lookup_mem_kill m b blk Hb) as Hk.
  unfold load, store, free. rewrite Hk. cbn. auto.
Qed.

(** On every well-formed memory and for every pointer, [strlen]
    ends within its bound; the length it returns fits [size_t] and the
    memory is unchanged. *)
Theorem strlen_total `{!PlatformOk P} p m :
  mem_wf m ->
  strlen p m <> Fault OutOfFuel /\
  forall r m', strlen p m = Ok (r, m') -> m' = m /\ 0 <= r < 2 ^ size_bits.
Proof. intros Hwf. now apply ends_genuine, strlen_ends. Qed.

End outcome.


Lemma store_load_witness :
  load (Ptr 0 1) [string_block [97; 7; 99]] = Ok (7, [string_block [97; 7; 99]]).
Proof.
  apply (store_load (Ptr 0 1) 7 [string_block [97; 98; 99]] tt).
  reflexivity.
Defined.

Lemma memory_calls_preserve_wf_witness :
  let m := [string_block [97]] in
  let m' := [string_block [97]; @fresh_block micro8 3] in
  (forall p v u, is_byte v -> store p v m = Ok (u, m') ->
     @mem_wf micro8 m' /\ heap_used m' = heap_used m) /\
  (forall n p, @malloc micro8 n m = Ok (p, m') ->
     @mem_wf micro8 m' /\ heap_used m <= heap_used m' <= 2048) /\
  (forall p u, free p m = Ok (u, m') ->
     @mem_wf micro8 m' /\ heap_used m' <= heap_used m) /\
  (forall dst src n u, @memcpy micro8 dst src n m = Ok (u, m') ->
     @mem_wf micro8 m' /\ heap_used m' = heap_used m).
Proof.
  intros m m'. apply (@memory_calls_preserve_wf micro8 _ m m'); [by_compute|].
  vm_compute. discriminate.
Defined.

Lemma use_after_free_witness :
  (forall o', load (Ptr 0 o') [Block false true 0 [Some 1]] = Fault Dangling) /\
  (forall o' v, store (Ptr 0 o') v [Block false true 0 [Some 1]] = Fault Dangling) /\
  free (Ptr 0 0) [Block false true 0 [Some 1]] = Fault Dangling.
Proof.
  apply (use_after_free 0%nat 0 [Block true true 0 [Some 1]] tt). reflexivity.
Defined.

Lemma strlen_total_witness :
  @strlen x86_64 (Ptr 0 9) [string_block [97; 98; 99]] <> Fault OutOfFuel /\
  forall r m', @strlen x86_64 (Ptr 0 9) [string_block [97; 98; 99]] = Ok (r, m') ->
    m' = [string_block [97; 98; 99]] /\ 0 <= r < 2 ^ @size_bits x86_64.
Proof. apply (@strlen_total x86_64 _ (Ptr 0 9) [string_block [97; 98; 99]]). by_compute. Defined.
