(* ===== verification/Loop.v ===== *)
(** * Loop: a C loop as a bounded function and as a step relation

    The three loops of [src/pearson-hashing.c] have the same shape: a
    condition on the local variables, tested first, and a body that may
    read and write memory or fault.  This file holds the theory they
    share, for any type [St] of local variables and any state [M]:

    - [while]: the loop as a function, bounded by fuel;
    - [step]: the loop as a relation between configurations, one rule for
      an iteration, one for a fault in the body and one for the exit;
      [next] is the same as a function;
    - the two agree ([while_rtc], [steps_while]): fuel decides only
      whether the function gets to the end, never what the end is;
    - the rule for a loop with an invariant and a variant: configurations
      that satisfy the invariant step to configurations that satisfy it
      ([step_preserves]), every execution from them is finite
      ([while_sn]) and reaches a final configuration ([while_halts]),
      and fuel equal to the variant is enough for the function
      ([while_ends], [while_adequate]);
    - a loop does not tell apart two bodies that end alike, whatever the
      fault ([while_same_run]): the order in which C evaluates the
      operands of an operator is not specified. *)

From Stdlib Require Import ZArith Lia List.
From stdpp Require Import base tactics option relations.
From S2P Require Import Prelude.

Section loop.
Context {M St A : Type}.
Variable cond : St -> bool.
Variable body : St -> cm M St.
Variable exit : St -> A.

(** [for (...; cond; ) body] followed by the value the function takes from
    the variables at the exit. *)
Fixpoint while (fuel : nat) (st : St) : cm M A :=
  if cond st then
    match fuel with
    | O => fail OutOfFuel
    | S fuel' => bind (body st) (while fuel')
    end
  else ret (exit st).

(** A loop in progress, a loop that was left, a loop that went wrong. *)
Inductive conf : Type :=
| Run (st : St) (m : M)
| Done (a : A) (m : M)
| Stop (f : fault).

Inductive step : relation conf :=
| step_iter st m st' m' :
    cond st = true -> body st m = Ok (st', m') -> step (Run st m) (Run st' m')
| step_stop st m f :
    cond st = true -> body st m = Fault f -> step (Run st m) (Stop f)
| step_exit st m :
    cond st = false -> step (Run st m) (Done (exit st) m).

Definition next (c : conf) : option conf :=
  match c with
  | Run st m =>
      Some (if cond st then
              match body st m with
              | Ok (st', m') => Run st' m'
              | Fault f => Stop f
              end
            else Done (exit st) m)
  | Done _ _ | Stop _ => None
  end.

Definition final (c : conf) : bool :=
  match c with Run _ _ => false | Done _ _ | Stop _ => true end.

(** The configuration a run of the function stands for. *)
Definition outcome (r : result (A * M)) : conf :=
  match r with Ok (a, m) => Done a m | Fault f => Stop f end.

(** A configuration within an invariant [Inv] of the loop, a result
    within [Q], a fault within [E]. *)
Definition conf_ok (Inv : St -> M -> Prop) (Q : A -> M -> Prop) (E : fault -> Prop)
    (c : conf) : Prop :=
  match c with
  | Run st m => Inv st m
  | Done a m => Q a m
  | Stop f => E f
  end.

(** ** The relation is a function *)

Lemma step_next c c' : step c c' <-> next c = Some c'.
Proof.
  split.
  - intros [st m st' m' Hc Hb|st m f Hc Hb|st m Hc]; cbn; rewrite Hc, ?Hb; reflexivity.
  - destruct c as [st m| |]; [|discriminate ..]. cbn. intros [= <-].
    destruct (cond st) eqn:Hc; [|now constructor].
    destruct (body st m) as [[st' m']|f] eqn:Hb; now econstructor.
Qed.

Lemma step_deterministic : deterministic step.
Proof. intros c c1 c2 H1%step_next H2%step_next. congruence. Qed.

Lemma step_progress c : final c = false -> red step c.
Proof.
  destruct c as [st m| |]; [intros _|discriminate ..].
  destruct (next (Run st m)) as [c'|] eqn:Hn; [|discriminate].
  exists c'. now apply step_next.
Qed.

Lemma final_nf c : final c = true <-> nf step c.
Proof.
  split.
  - intros Hf [c' Hs]. destruct Hs; discriminate.
  - intros Hnf. destruct (final c) eqn:Hf; [reflexivity|].
    now destruct Hnf; apply step_progress.
Qed.

Lemma step_final c c' : step c c' -> final c = false.
Proof. now intros []. Qed.

(** Two executions from the same configuration that both end, end in the
    same configuration. *)
Lemma rtc_final_unique c c1 c2 :
  rtc step c c1 -> rtc step c c2 -> final c1 = true -> final c2 = true -> c1 = c2.
Proof.
  intros H1 H2 F1%final_nf F2%final_nf.
  destruct (deterministic_confluent step_deterministic c c1 c2 H1 H2) as (c3 & H13 & H23).
  apply rtc_nf in H13; [|exact F1]. apply rtc_nf in H23; [|exact F2]. congruence.
Qed.

(** ** Fuel and steps *)

Lemma while_exit fuel st m : cond st = false -> while fuel st m = Ok (exit st, m).
Proof. intros Hc. destruct fuel; cbn; now rewrite Hc. Qed.

Lemma while_iter fuel st m st' m' :
  cond st = true -> body st m = Ok (st', m') -> while (S fuel) st m = while fuel st' m'.
Proof. intros Hc Hb. cbn. rewrite Hc. now apply bind_ok. Qed.

Lemma while_stop fuel st m f :
  cond st = true -> body st m = Fault f -> while (S fuel) st m = Fault f.
Proof. intros Hc Hb. cbn. rewrite Hc. now apply bind_fault. Qed.

(** The function follows the relation, unless it runs out of fuel. *)
Lemma while_rtc fuel st m :
  while fuel st m <> Fault OutOfFuel ->
  rtc step (Run st m) (outcome (while fuel st m)).
Proof.
  revert st m. induction fuel as [|fuel IH]; intros st m Hne;
    destruct (cond st) eqn:Hc;
    try (rewrite while_exit in * by assumption; apply rtc_once; now constructor).
  { cbn in Hne. now rewrite Hc in Hne. }
  destruct (body st m) as [[st' m']|f] eqn:Hb.
  - rewrite (while_iter _ _ _ _ _ Hc Hb) in *.
    eapply rtc_l; [exact (step_iter _ _ _ _ Hc Hb)|now apply IH].
  - rewrite (while_stop _ _ _ _ Hc Hb). apply rtc_once. now constructor.
Qed.

(** An execution of [n] steps that ends is what the function computes
    with fuel [n] or more. *)
Lemma steps_while n st m c fuel :
  nsteps step n (Run st m) c -> final c = true -> (n <= fuel)%nat ->
  outcome (while fuel st m) = c.
Proof.
  revert st m fuel. induction n as [|n IH]; intros st m fuel Hs Hf Hn.
  { inversion Hs; subst. discriminate. }
  inversion Hs as [|? ? c1 ? H1 Hrest]; subst. destruct fuel as [|fuel]; [lia|].
  inversion H1 as [? ? st' m' Hc Hb|? ? f Hc Hb|? ? Hc]; subst.
  - rewrite (while_iter _ _ _ _ _ Hc Hb). apply (IH _ _ _ Hrest Hf). lia.
  - rewrite (while_stop _ _ _ _ Hc Hb).
    inversion Hrest as [|? ? ? ? H2]; subst; [reflexivity|inversion H2].
  - rewrite (while_exit _ _ _ Hc).
    inversion Hrest as [|? ? ? ? H2]; subst; [reflexivity|inversion H2].
Qed.

(** ** Invariant and variant *)

Lemma red_step_dec c : Decision (red step c).
Proof.
  destruct (final c) eqn:Hf.
  - right. now apply final_nf.
  - left. now apply step_progress.
Qed.

Section rules.
Variable Inv : St -> M -> Prop.
Variable Q : A -> M -> Prop.
Variable E : fault -> Prop.
Variable mu : St -> M -> nat.

Hypothesis body_ok : forall st m,
  Inv st m -> cond st = true ->
  ends (body st) m (fun st' m' => Inv st' m' /\ (mu st' m' < mu st m)%nat) E.
Hypothesis exit_ok : forall st m,
  Inv st m -> cond st = false -> Q (exit st) m.
Hypothesis variant_positive : forall st m,
  Inv st m -> cond st = true -> (0 < mu st m)%nat.

Lemma step_preserves c c' : conf_ok Inv Q E c -> step c c' -> conf_ok Inv Q E c'.
Proof.
  intros Hok Hs. destruct Hs as [st m st' m' Hc Hb|st m f Hc Hb|st m Hc]; cbn in *.
  - exact (proj1 (ends_ok _ _ _ _ _ _ (body_ok _ _ Hok Hc) Hb)).
  - exact (ends_fault _ _ _ _ _ (body_ok _ _ Hok Hc) Hb).
  - now apply exit_ok.
Qed.

Lemma rtc_preserves c c' : conf_ok Inv Q E c -> rtc step c c' -> conf_ok Inv Q E c'.
Proof. intros Hok Hs. induction Hs; eauto using step_preserves. Qed.

(** Every execution from a configuration within the invariant is finite. *)
Lemma while_sn st m : Inv st m -> sn step (Run st m).
Proof.
  remember (mu st m) as n eqn:Hn. revert st m Hn.
  induction (lt_wf n) as [n _ IH]. intros st m -> Hi.
  constructor. intros c' Hs. unfold flip in Hs.
  pose proof (step_preserves (Run st m) _ Hi Hs) as Hok.
  inversion Hs as [? ? st' m' Hc Hb|? ? f Hc Hb|? ? Hc]; subst.
  - eapply IH; [|reflexivity|exact Hok].
    exact (proj2 (ends_ok _ _ _ _ _ _ (body_ok _ _ Hi Hc) Hb)).
  - now apply nf_sn, final_nf.
  - now apply nf_sn, final_nf.
Qed.

(** Some execution reaches a configuration that is final, and that one is
    within the postcondition. *)
Lemma while_halts st m :
  Inv st m -> exists c, rtc step (Run st m) c /\ final c = true /\ conf_ok Inv Q E c.
Proof.
  intros Hi. destruct (@sn_wn _ step red_step_dec _ (while_sn _ _ Hi)) as (c & Hs & Hnf).
  exists c. split; [assumption|]. split; [now apply final_nf|].
  now apply (rtc_preserves (Run st m)).
Qed.

(** Fuel equal to the variant is enough. *)
Lemma while_ends fuel st m :
  Inv st m -> (mu st m <= fuel)%nat -> ends (while fuel st) m Q E.
Proof.
  revert st m. induction fuel as [|fuel IH]; intros st m Hi Hmu;
    destruct (cond st) eqn:Hc;
    try (unfold ends; rewrite while_exit by assumption; now apply exit_ok).
  { pose proof (variant_positive _ _ Hi Hc). lia. }
  pose proof (body_ok _ _ Hi Hc) as Hb. unfold ends in Hb |- *.
  destruct (body st m) as [[st' m']|f] eqn:Eb.
  - rewrite (while_iter _ _ _ _ _ Hc Eb). apply IH; [tauto|lia].
  - now rewrite (while_stop _ _ _ _ Hc Eb).
Qed.

(** With that fuel the function computes the one configuration in which
    the executions of the relation end. *)
Lemma while_adequate fuel st m c :
  (forall f, E f -> genuine f) -> Inv st m -> (mu st m <= fuel)%nat ->
  rtc step (Run st m) c /\ final c = true <-> c = outcome (while fuel st m).
Proof.
  intros HE Hi Hmu. pose proof (while_ends fuel st m Hi Hmu) as He.
  assert (Hne : while fuel st m <> Fault OutOfFuel).
  { intros Hw. unfold ends in He. rewrite Hw in He. now apply (HE _ He). }
  assert (Hf : final (outcome (while fuel st m)) = true)
    by now destruct (while fuel st m) as [[]|].
  split; [|intros ->; split; [now apply while_rtc|assumption]].
  intros [Hs Hfc]. exact (rtc_final_unique _ _ _ Hs (while_rtc _ _ _ Hne) Hfc Hf).
Qed.

End rules.
End loop.

(** ** Bodies that end alike *)

Section order.
Context {M St A : Type}.
Variable cond : St -> bool.
Variables body body' : St -> cm M St.
Variable exit : St -> A.

Hypothesis bodies : forall st m, same_run (body st m) (body' st m).

(** A loop does not tell apart two bodies that end alike. *)
Lemma while_same_run fuel st m :
  same_run (while cond body exit fuel st m) (while cond body' exit fuel st m).
Proof.
  revert st m. induction fuel as [|fuel IH]; intros st m; cbn [while];
    destruct (cond st); try easy.
  unfold bind. pose proof (bodies st m) as H.
  destruct (body st m) as [[st1 m1]|f], (body' st m) as [[st2 m2]|f']; try easy.
  injection H as -> ->. apply IH.
Qed.

End order.
