(* ===== verification/Hasher.v ===== *)
(** * Hasher: the four functions of pearson-hashing.c

    Each function of [src/pearson-hashing.c] as a computation in [cm] over
    the memory of [Memory], one action per C operation and in the order
    the C code performs them.  A variable of a character type holds its
    value ([char_val] of the byte for a plain [char]); [size_t] variables
    hold values reduced by [size_wrap].  A loop is a [Fixpoint] on its
    fuel whose body tests the loop condition of the source first; the fuel
    each function passes is the bound its loop has by construction, and
    [Total] proves that it is never exhausted. *)

From Stdlib Require Import ZArith Lia List.
From stdpp Require Import base tactics option list.
From S2P Require Import Prelude Platform CInt Table Memory.

#[local] Open Scope Z_scope.
#[local] Open Scope cm_scope.

Section hasher.
Context {P : Platform}.

(** ** phash_rfc3074 (lines 37-42) *)

(** [for (size_t i = len; i > 0;) hash = pearson_T[hash ^ key[--i]];] *)
Fixpoint rfc3074_loop (fuel : nat) (key : ptr) (i hash : Z) : cm mem Z :=
  if 0 <? i then
    match fuel with
    | O => fail OutOfFuel
    | S fuel' =>
        let i' := size_wrap (i - 1) in
        c <- load_char (ptr_add key i') ;;
        t <- lift (T_read (int_xor hash c)) ;;
        rfc3074_loop fuel' key i' t
    end
  else ret hash.

Definition phash_rfc3074 (key : ptr) : cm mem Z :=
  len <- strlen key ;;
  let hash := to_uchar len in
  rfc3074_loop (Z.to_nat len) key len hash.

(** ** phash_wikipedia (lines 74-78) *)

(** [for (char c = *key++; c; c = *key++) hash = pearson_T[hash ^ c];]
    with [key] already advanced past the byte that gave [c]. *)
Fixpoint wikipedia_loop (fuel : nat) (key : ptr) (c hash : Z) : cm mem Z :=
  if c =? 0 then ret hash
  else
    match fuel with
    | O => fail OutOfFuel
    | S fuel' =>
        t <- lift (T_read (int_xor hash c)) ;;
        c' <- load_char key ;;
        wikipedia_loop fuel' (ptr_add key 1) c' t
    end.

Definition phash_wikipedia (key : ptr) : cm mem Z :=
  let hash := 0 in
  c <- load_char key ;;
  fuel <- gets (span key) ;;
  wikipedia_loop fuel (ptr_add key 1) c hash.

(** ** phash_original (lines 63-69) *)

(** [for (size_t i = 0; i < len; i++)
       hash[i] = pearson_T[hash[i - 1] ^ key[i]];] *)
Fixpoint original_loop (fuel : nat) (key hash : ptr) (i len : Z) : cm mem unit :=
  if i <? len then
    match fuel with
    | O => fail OutOfFuel
    | S fuel' =>
        h <- load (ptr_add hash (size_wrap (i - 1))) ;;
        c <- load_char (ptr_add key i) ;;
        t <- lift (T_read (int_xor h c)) ;;
        store (ptr_add hash i) t ;;
        original_loop fuel' key hash (size_wrap (i + 1)) len
    end
  else ret tt.

Definition phash_original (key : ptr) : cm mem Z :=
  len <- strlen key ;;
  hash <- malloc (size_wrap (1 * len)) ;;
  original_loop (Z.to_nat len) key hash 0 len ;;
  result <- load (ptr_add hash (size_wrap (len - 1))) ;;
  free hash ;;
  ret result.

(** ** phash16 (lines 97-105) *)

Definition phash16 (key : ptr) : cm mem Z :=
  length <- strlen key ;;
  buffer <- malloc (size_wrap (1 * length)) ;;
  memcpy buffer key length ;;
  store (ptr_add buffer length) (to_char 0) ;;
  h1 <- phash_wikipedia buffer ;;
  c <- load_char (ptr_add buffer 0) ;;
  s <- lift (int_add c 1) ;;
  r <- lift (int_rem s 255) ;;
  store (ptr_add buffer 0) (to_char r) ;;
  h2 <- phash_wikipedia buffer ;;
  free buffer ;;
  hi <- lift (int_shl h1 8) ;;
  sum <- lift (int_add hi h2) ;;
  ret (to_ushort sum).

End hasher.
