(* ===== verification/Refine.v ===== *)
(** * Refine: the C functions implement the specification

    For each function of [Hasher], what it returns on a well-formed memory
    in which [key] points to a C string: the value of the specification in
    [Spec] where the run is defined, and the fault it ends in where it is
    not.  The statements are equations on the whole run, so they also say
    what the memory is afterwards and that no loop runs out of fuel. *)

From Stdlib Require Import ZArith Lia List.
From stdpp Require Import base tactics option list.
From S2P Require Import Prelude Platform CInt Table Spec Memory Hasher.

#[local] Open Scope Z_scope.

Section refine.
Context {P : Platform} `{!PlatformOk P}.

#[local] Abbreviation fold := (pearson_fold pearson_T).
#[local] Abbreviation step := (pearson_step pearson_T).

(** Every byte of a key is plain on this platform. *)
Definition all_plain (bs : list Z) : bool := forallb plain bs.

(** The key the second call of [phash_wikipedia] in [phash16] reads (line
    103): the first byte perturbed, and nothing at all when the perturbed
    byte is the terminator. *)
Definition second_key (bs : list Z) : list Z :=
  match bs with
  | [] => []
  | b :: rest => if c_bump b =? 0 then [] else c_bump b :: rest
  end.

(** What [phash_original] does after [malloc] (lines 66-68). *)
#[local] Abbreviation original_rest key hash len :=
  (bind (original_loop (Z.to_nat len) key hash 0 len)
     (fun _ => bind (load (ptr_add hash (size_wrap (len - 1))))
        (fun result => bind (free hash) (fun _ => ret result)))).

(** The stages of [phash16]: after the second hash (lines 103-104), after
    the first hash (lines 102-104), after [malloc] (lines 101-104). *)
#[local] Abbreviation phash16_finish buffer h1 h2 :=
  (bind (free buffer)
     (fun _ => bind (lift (int_shl h1 8))
        (fun hi => bind (lift (int_add hi h2)) (fun sum => ret (to_ushort sum))))).

#[local] Abbreviation phash16_second buffer h1 :=
  (bind (load_char (ptr_add buffer 0))
     (fun c => bind (lift (int_add c 1))
        (fun s => bind (lift (int_rem s 255))
           (fun r => bind (store (ptr_add buffer 0) (to_char r))
              (fun _ => bind (phash_wikipedia buffer)
                 (fun h2 => phash16_finish buffer h1 h2)))))).

#[local] Abbreviation phash16_first key buffer len :=
  (bind (memcpy buffer key len)
     (fun _ => bind (store (ptr_add buffer len) (to_char 0))
        (fun _ => bind (phash_wikipedia buffer)
           (fun h1 => phash16_second buffer h1)))).

(** ** One fold step in C *)

Lemma T_read_step h x :
  is_byte h -> is_byte x -> plain x = true ->
  T_read (int_xor h (char_val x)) = Ok (step h x).
Proof.
  intros Hh Hx Hp. destruct (xor_char_plain h x Hh Hx Hp) as [-> Hb].
  now apply T_read_ok.
Qed.

Lemma T_read_not_plain h x :
  is_byte h -> is_byte x -> plain x = false ->
  T_read (int_xor h (char_val x)) = Fault TableIndex.
Proof. intros. apply T_read_neg. now apply xor_char_not_plain. Qed.

Lemma all_plain_cons x bs : all_plain (x :: bs) = plain x && all_plain bs.
Proof. reflexivity. Qed.

Lemma all_plain_snoc bs x : all_plain (bs ++ [x]) = all_plain bs && plain x.
Proof. unfold all_plain. rewrite forallb_app. simpl. now rewrite andb_true_r. Qed.

Lemma step_byte h x : is_byte h -> is_byte x -> is_byte (step h x).
Proof. apply pearson_step_byte, _. Qed.

Lemma fold_byte h bs : is_byte h -> Forall is_byte bs -> is_byte (fold h bs).
Proof. apply pearson_fold_byte, _. Qed.

(** ** phash_wikipedia *)

(** One iteration of the loop of line 76 on a byte that is not the
    terminator. *)
Lemma wikipedia_loop_step m b o y x' h fuel :
  mem_wf m -> is_byte h -> 1 <= y < 256 -> plain y = true ->
  cell m b o = Some (Some x') ->
  wikipedia_loop (S fuel) (Ptr b o) (char_val y) h m =
  wikipedia_loop fuel (Ptr b (o + 1)) (char_val x') (step h y) m.
Proof.
  intros Hwf Hh Hy Hp Hc. cbn [wikipedia_loop].
  destruct (Z.eqb_spec (char_val y) 0) as [E0|_];
    [rewrite plain_char_val in E0 by assumption; lia|].
  erewrite bind_lift_ok by (apply T_read_step; [assumption | byte_lia | assumption]).
  erewrite bind_ok by (apply load_char_ok, Hc).
  now erewrite ptr_add_succ by eassumption.
Qed.

Lemma wikipedia_loop_stuck y h fuel key m :
  is_byte h -> 1 <= y < 256 -> plain y = false ->
  wikipedia_loop (S fuel) key (char_val y) h m = Fault TableIndex.
Proof.
  intros Hh Hy Hp. cbn [wikipedia_loop].
  destruct (not_plain_char_val y Hp) as [_ Hneg]; [byte_lia|].
  destruct (Z.eqb_spec (char_val y) 0) as [E0|_]; [lia|].
  now erewrite bind_lift_fault by (apply T_read_not_plain; [assumption | byte_lia | assumption]).
Qed.

Lemma wikipedia_loop_run m b o s x tl h fuel :
  mem_wf m -> is_byte h -> is_key s ->
  s ++ [0] = x :: tl -> bytes_at m b o tl -> (length s <= fuel)%nat ->
  wikipedia_loop fuel (Ptr b o) (char_val x) h m =
  if all_plain s then Ok (fold h s, m) else Fault TableIndex.
Proof.
  intros Hwf. revert x tl o h fuel.
  induction s as [|y s IH]; intros x tl o h fuel Hh Hk E Hb Hf; injection E as <- <-.
  - rewrite char_val_ascii by lia. destruct fuel; reflexivity.
  - apply is_key_cons in Hk as [Hy Hk]. rewrite all_plain_cons.
    destruct fuel as [|fuel]; [simpl in Hf; lia|].
    destruct (plain y) eqn:Hpy; [|now apply wikipedia_loop_stuck].
    destruct (s ++ [0]) as [|x' tl'] eqn:E'; [destruct s; discriminate|].
    destruct Hb as [Hc Hb].
    rewrite (wikipedia_loop_step m b o y x') by assumption.
    apply (IH x' tl' (o + 1) (step h y) fuel); try assumption; try reflexivity.
    + apply step_byte; [assumption | byte_lia].
    + simpl in Hf. lia.
Qed.

Lemma phash_wikipedia_run m b o bs :
  mem_wf m -> cstring_at m (Ptr b o) bs ->
  phash_wikipedia (Ptr b o) m =
  if all_plain bs then Ok (hashWikipedia pearson_T bs, m) else Fault TableIndex.
Proof.
  intros Hwf [Hk Hb]. unfold phash_wikipedia.
  pose proof (span_bytes_at _ _ _ _ Hb) as Hspan.
  rewrite length_app in Hspan. cbn [length] in Hspan.
  destruct (bs ++ [0]) as [|x tl] eqn:E; [destruct bs; discriminate|].
  destruct Hb as [Hc Hb].
  erewrite bind_ok by (apply load_char_ok, Hc). rewrite bind_gets.
  erewrite ptr_add_succ by eassumption.
  apply (wikipedia_loop_run m b (o + 1) bs x tl); try assumption; [byte_lia | lia].
Qed.

(** ** phash_rfc3074 *)

(** The index [--i] and the element [key[i]] it selects (line 40). *)
Lemma rfc3074_loop_unfold m b o pre x h fuel :
  mem_wf m -> bytes_at m b o (pre ++ [x]) ->
  rfc3074_loop (S fuel) (Ptr b o) (Z.of_nat (length (pre ++ [x]))) h m =
  bind (lift (T_read (int_xor h (char_val x))))
       (fun t => rfc3074_loop fuel (Ptr b o) (Z.of_nat (length pre)) t) m.
Proof.
  intros Hwf Hb. cbn [rfc3074_loop].
  rewrite length_app. cbn [length].
  destruct (Z.ltb_spec 0 (Z.of_nat (length pre + 1))); [|lia].
  pose proof (bytes_at_lookup _ _ _ _ (length pre) x Hb) as Hc.
  rewrite list_lookup_middle in Hc by reflexivity. specialize (Hc eq_refl).
  assert (H0 : is_Some (cell m b o)) by (destruct pre; destruct Hb as [H0 _]; eauto).
  destruct H0 as [c0 H0].
  replace (Z.of_nat (length pre + 1)%nat - 1) with (Z.of_nat (length pre)) by lia.
  apply (cell_wf_range _ _ _ _ Hwf) in H0 as Ho.
  apply (cell_wf_range _ _ _ _ Hwf) in Hc as Hx.
  pose proof size_bits_min.
  pose proof size_pow_half as E2.
  rewrite size_wrap_small by lia.
  erewrite ptr_add_cell by eassumption.
  now erewrite bind_ok by (apply load_char_ok, Hc).
Qed.

Lemma rfc3074_loop_run m b o bs h fuel :
  mem_wf m -> is_byte h -> Forall is_byte bs -> bytes_at m b o bs ->
  (length bs <= fuel)%nat ->
  rfc3074_loop fuel (Ptr b o) (Z.of_nat (length bs)) h m =
  if all_plain bs then Ok (fold h (rev bs), m) else Fault TableIndex.
Proof.
  intros Hwf. revert h fuel. induction bs as [|x bs IH] using rev_ind;
    intros h fuel Hh Hby Hb Hf.
  - destruct fuel; reflexivity.
  - rewrite length_app in Hf. cbn [length] in Hf.
    destruct fuel as [|fuel]; [lia|].
    apply Forall_app in Hby as [Hby Hx]. apply Forall_inv in Hx.
    rewrite rfc3074_loop_unfold by assumption.
    rewrite all_plain_snoc, rev_unit, pearson_fold_cons.
    destruct (plain x) eqn:Hp.
    + erewrite bind_lift_ok by (apply T_read_step; assumption).
      rewrite andb_true_r. apply IH; try assumption.
      * now apply step_byte.
      * now apply bytes_at_app in Hb as [Hb _].
      * lia.
    + erewrite bind_lift_fault by (apply T_read_not_plain; assumption).
      now rewrite andb_false_r.
Qed.

Lemma phash_rfc3074_run m b o bs :
  mem_wf m -> cstring_at m (Ptr b o) bs ->
  phash_rfc3074 (Ptr b o) m =
  if all_plain bs
  then Ok (fold (to_uchar (Z.of_nat (length bs))) (rev bs), m)
  else Fault TableIndex.
Proof.
  intros Hwf Hs. unfold phash_rfc3074.
  rewrite (bind_ok _ _ _ _ _ (strlen_ok m b o bs Hwf Hs)).
  destruct Hs as [Hk Hb]. rewrite Nat2Z.id.
  apply rfc3074_loop_run; try assumption.
  - apply to_uchar_byte.
  - now apply is_key_bytes.
  - now apply bytes_at_app in Hb as [Hb _].
  - lia.
Qed.

(** ** phash_original *)

(** One iteration of the loop of line 66 on a plain byte. *)
Lemma original_loop_step m kb ko hb i len x h fuel :
  mem_wf m -> 0 <= i < len ->
  cell m hb (i - 1) = Some (Some h) -> cell m kb (ko + i) = Some (Some x) ->
  plain x = true -> is_Some (cell m hb i) ->
  original_loop (S fuel) (Ptr kb ko) (Ptr hb 0) i len m =
  original_loop fuel (Ptr kb ko) (Ptr hb 0) (i + 1) len (mem_set m hb i (step h x)).
Proof.
  intros Hwf Hi Hh Hx Hp [c Hc]. cbn [original_loop].
  destruct (Z.ltb_spec i len); [|lia].
  pose proof (cell_wf_range _ _ _ _ Hwf Hc) as Hr. pose proof size_bits_min.
  pose proof size_pow_half as E2.
  rewrite ptr_add_pred by lia. rewrite (bind_ok _ _ _ _ _ (load_ok _ _ _ _ Hh)).
  erewrite ptr_add_cell by eassumption.
  rewrite (bind_ok _ _ _ _ _ (load_char_ok _ _ _ _ Hx)).
  erewrite bind_lift_ok by
    (apply T_read_step; eauto using cell_wf_byte).
  rewrite ptr_add_base by lia.
  erewrite bind_ok by (apply store_ok; eauto).
  now rewrite size_wrap_small by lia.
Qed.

Lemma original_loop_stuck m kb ko hb i len x h fuel :
  mem_wf m -> 0 <= i < len -> i < 2 ^ (size_bits - 1) ->
  cell m hb (i - 1) = Some (Some h) -> cell m kb (ko + i) = Some (Some x) ->
  plain x = false ->
  original_loop (S fuel) (Ptr kb ko) (Ptr hb 0) i len m = Fault TableIndex.
Proof.
  intros Hwf Hi Hr Hh Hx Hp. cbn [original_loop].
  destruct (Z.ltb_spec i len); [|lia].
  rewrite ptr_add_pred by lia. rewrite (bind_ok _ _ _ _ _ (load_ok _ _ _ _ Hh)).
  erewrite ptr_add_cell by eassumption.
  rewrite (bind_ok _ _ _ _ _ (load_char_ok _ _ _ _ Hx)).
  now erewrite bind_lift_fault by
    (apply T_read_not_plain; eauto using cell_wf_byte).
Qed.

Lemma original_loop_run m kb ko hb i suf h fuel :
  mem_wf m -> kb <> hb -> 0 <= i ->
  bytes_at m kb (ko + i) suf ->
  cell m hb (i - 1) = Some (Some h) ->
  (forall k : nat, (k < length suf)%nat -> is_Some (cell m hb (i + Z.of_nat k))) ->
  (length suf <= fuel)%nat ->
  original_loop fuel (Ptr kb ko) (Ptr hb 0) i (i + Z.of_nat (length suf)) m =
  if all_plain suf
  then Ok (tt, mem_write m hb i (hash_array pearson_T h suf))
  else Fault TableIndex.
Proof.
  revert m i h fuel. induction suf as [|x suf IH]; intros m i h fuel Hwf Hne Hi Hb Hh Hs Hf.
  - cbn [length]. rewrite Z.add_0_r. destruct fuel; cbn [original_loop];
      (destruct (Z.ltb_spec i i); [lia | reflexivity]).
  - destruct fuel as [|fuel]; [simpl in Hf; lia|]. destruct Hb as [Hx Hb].
    assert (H0 : is_Some (cell m hb i)).
    { specialize (Hs O). rewrite Z.add_0_r in Hs. apply Hs. simpl. lia. }
    pose proof (cell_wf_byte _ _ _ _ Hwf Hh) as Hhb.
    pose proof (cell_wf_byte _ _ _ _ Hwf Hx) as Hxb.
    destruct H0 as [c0 H0]. pose proof (cell_wf_range _ _ _ _ Hwf H0) as Hr.
    rewrite all_plain_cons. cbn [length].
    destruct (plain x) eqn:Hp;
      [|apply (original_loop_stuck m kb ko hb i _ x h); try assumption; lia].
    rewrite (original_loop_step m kb ko hb i _ x h) by (eauto; lia).
    replace (i + Z.of_nat (S (length suf))) with (i + 1 + Z.of_nat (length suf)) by lia.
    rewrite (IH (mem_set m hb i (step h x)) (i + 1) (step h x) fuel);
      [reflexivity | | assumption | lia | | | | simpl in Hf; lia].
    + apply mem_wf_set; [assumption | now apply step_byte].
    + apply bytes_at_set_other; [assumption | eauto |].
      now replace (ko + (i + 1)) with (ko + i + 1) by lia.
    + replace (i + 1 - 1) with i by lia. apply cell_mem_set_eq. eauto.
    + intros k Hk. rewrite cell_mem_set_ne; [|eauto|intros [= ?]; lia].
      replace (i + 1 + Z.of_nat k) with (i + Z.of_nat (S k)) by lia. apply Hs. simpl. lia.
Qed.

Lemma original_rest_null key len m :
  0 <= len -> original_rest key Null len m = Fault NullDeref.
Proof.
  intros Hlen. destruct (Z.to_nat len) as [|fuel] eqn:E; cbn [original_loop].
  - destruct (Z.ltb_spec 0 len); [lia | reflexivity].
  - destruct (Z.ltb_spec 0 len); [reflexivity | lia].
Qed.

Lemma original_rest_oob m key hb blk len :
  0 <= len < 2 ^ (size_bits - 1) ->
  m !! hb = Some blk -> blk_live blk = true -> blk_cell blk (-1) = None ->
  original_rest key (Ptr hb 0) len m = Fault OutOfBounds.
Proof.
  intros Hlen Hb Hl Hc.
  assert (Hld : load (Ptr hb (-1)) m = Fault OutOfBounds) by now apply (load_oob m hb (-1) blk).
  destruct (Z.to_nat len) as [|fuel] eqn:E; cbn [original_loop].
  - destruct (Z.ltb_spec 0 len); [lia|]. assert (len = 0) as -> by lia.
    rewrite bind_ret_l, ptr_add_pred by lia. now rewrite (bind_fault _ _ _ _ Hld).
  - destruct (Z.ltb_spec 0 len); [|lia].
    rewrite ptr_add_pred by lia. rewrite bind_assoc. now rewrite (bind_fault _ _ _ _ Hld).
Qed.

(** The last hash the loop stored, or the byte below the block for the
    empty key: what line 67 reads, for any table. *)
Lemma hash_array_last_cell T m hb s bs :
  cell m hb (-1) = Some (Some s) ->
  (forall k : nat, (k < length bs)%nat -> is_Some (cell m hb (Z.of_nat k))) ->
  cell (mem_write m hb 0 (hash_array T s bs)) hb (Z.of_nat (length bs) - 1) =
  Some (Some (pearson_fold T s bs)).
Proof.
  intros Hs Hcells. set (m2 := mem_write m hb 0 (hash_array T s bs)).
  assert (Hext : bytes_at m2 hb (-1) (s :: hash_array T s bs)).
  { split; [|apply bytes_at_mem_write; rewrite hash_array_length; assumption].
    unfold m2. rewrite cell_mem_write_other; [assumption | | lia].
    rewrite hash_array_length. assumption. }
  pose proof (bytes_at_lookup _ _ _ _ _ _ Hext (hash_array_snoc_lookup T s bs)) as H.
  now replace (Z.of_nat (length bs) - 1) with (-1 + Z.of_nat (length bs)) by lia.
Qed.

Lemma original_rest_ok m kb ko hb blk bs s :
  mem_wf m -> kb <> hb -> bytes_at m kb ko bs ->
  m !! hb = Some blk -> blk_live blk = true -> blk_heap blk = true ->
  cell m hb (-1) = Some (Some s) ->
  (forall k : nat, (k < length bs)%nat -> is_Some (cell m hb (Z.of_nat k))) ->
  Z.of_nat (length bs) < 2 ^ (size_bits - 1) ->
  original_rest (Ptr kb ko) (Ptr hb 0) (Z.of_nat (length bs)) m =
  if all_plain bs
  then Ok (fold s bs, mem_kill (mem_write m hb 0 (hash_array pearson_T s bs)) hb)
  else Fault TableIndex.
Proof.
  intros Hwf Hne Hb Hblk Hl Hh Hs Hcells Hlen. rewrite Nat2Z.id.
  rewrite <- (Z.add_0_l (Z.of_nat (length bs))) at 1.
  unfold bind at 1.
  rewrite (original_loop_run m kb ko hb 0 bs s); try assumption; try lia;
    [|now rewrite Z.add_0_r].
  destruct (all_plain bs); [|reflexivity].
  pose proof (hash_array_last_cell pearson_T m hb s bs Hs Hcells) as Hlast.
  rewrite ptr_add_pred by lia. rewrite (bind_ok _ _ _ _ _ (load_ok _ _ _ _ Hlast)).
  destruct (lookup_mem_write_live m hb 0 (hash_array pearson_T s bs) blk Hblk)
    as (blk' & Hb' & Hl' & Hh').
  erewrite bind_ok by (eapply free_ok; [exact Hb' | congruence | congruence]).
  reflexivity.
Qed.

Lemma cstring_length_bound m b o bs :
  mem_wf m -> cstring_at m (Ptr b o) bs ->
  (b < length m)%nat /\ 0 <= Z.of_nat (length bs) < 2 ^ size_bits - 1.
Proof.
  intros Hwf [_ Hb]. pose proof size_bits_min.
  pose proof size_pow_half as E2.
  pose proof (bytes_at_lookup _ _ _ _ (length bs) 0 Hb) as Hc.
  rewrite list_lookup_middle in Hc by reflexivity. specialize (Hc eq_refl).
  assert (H0 : is_Some (cell m b o)) by (destruct bs; destruct Hb as [H0 _]; eauto).
  destruct H0 as [c0 H0]. apply (cell_wf_range _ _ _ _ Hwf) in Hc as Hr.
  apply (cell_wf_range _ _ _ _ Hwf) in H0 as Hr0.
  apply cell_Some in H0 as (blk & Hblk%lookup_lt_Some & _). lia.
Qed.

Lemma phash_original_run m b o bs :
  mem_wf m -> cstring_at m (Ptr b o) bs ->
  phash_original (Ptr b o) m =
  let n := Z.of_nat (length bs) in
  if malloc_null m n then Fault NullDeref
  else match last (malloc_header n) with
       | None => Fault OutOfBounds
       | Some s =>
           if all_plain bs
           then Ok (fold s bs,
                    mem_kill (mem_write (m ++ [fresh_block n]) (length m) 0
                                        (hash_array pearson_T s bs)) (length m))
           else Fault TableIndex
       end.
Proof.
  intros Hwf Hs. destruct (cstring_length_bound m b o bs Hwf Hs) as [Hlt Hn].
  unfold phash_original. rewrite (bind_ok _ _ _ _ _ (strlen_ok m b o bs Hwf Hs)).
  rewrite Z.mul_1_l, size_wrap_small by lia. cbv zeta.
  set (n := Z.of_nat (length bs)) in *.
  destruct (malloc_null m n) eqn:Hnull.
  { rewrite (bind_ok _ _ _ _ _ (malloc_fail n m Hnull)). apply original_rest_null. lia. }
  rewrite (bind_ok _ _ _ _ _ (malloc_ok n m Hnull)).
  apply malloc_null_false in Hnull as [Hfit _].
  pose proof (fresh_block_wf n Hfit) as Hfw. pose proof (malloc_slack_nonneg n) as Hsl.
  assert (Hn' : n < 2 ^ (size_bits - 1)).
  { unfold malloc_fits in Hfit. apply andb_true_iff in Hfit as [_ Hfit%Z.ltb_lt]. lia. }
  pose proof (fresh_block_cell_pred n) as Hpred.
  destruct (last (malloc_header n)) as [s|].
  - apply (original_rest_ok (m ++ [fresh_block n]) b o (length m) (fresh_block n) bs s);
      try reflexivity; try assumption.
    + now apply mem_wf_app.
    + lia.
    + destruct Hs as [_ Hb]. apply bytes_at_app in Hb as [Hb _]. now apply bytes_at_grow.
    + apply lookup_fresh.
    + now rewrite cell_fresh.
    + intros k Hk. rewrite cell_fresh, fresh_block_cell_data; [eauto | lia].
  - apply (original_rest_oob _ _ (length m) (fresh_block n)); try reflexivity; try assumption.
    + lia.
    + apply lookup_fresh.
Qed.

(** ** phash16 *)

Lemma hashWikipedia_byte bs : Forall is_byte bs -> is_byte (hashWikipedia pearson_T bs).
Proof. intros. apply fold_byte; [byte_lia | assumption]. Qed.

Lemma phash16_finish_run m hb blk h1 h2 :
  m !! hb = Some blk -> blk_live blk = true -> blk_heap blk = true ->
  is_byte h1 -> is_byte h2 ->
  phash16_finish (Ptr hb 0) h1 h2 m =
  if in_int (h1 * 256 + h2) then Ok (h1 * 256 + h2, mem_kill m hb)
  else Fault IntOverflow.
Proof.
  intros Hb Hl Hh H1 H2. rewrite (bind_ok _ _ _ _ _ (free_ok m hb blk Hb Hl Hh)).
  pose proof (int_shl_add_bytes h1 h2 H1 H2) as E.
  destruct (int_shl h1 8) as [hi|f] eqn:Es; cbn [bind lift].
  - rewrite E. destruct (in_int (h1 * 256 + h2)); [|reflexivity].
    cbn [bind lift ret]. rewrite to_ushort_id; [reflexivity | byte_lia].
  - destruct (in_int (h1 * 256 + h2)); [discriminate | now injection E as ->].
Qed.

Lemma second_key_is_key b rest : is_key rest -> is_key (second_key (b :: rest)).
Proof.
  intros Hk. cbn [second_key]. destruct (Z.eqb_spec (c_bump b) 0); [constructor|].
  apply is_key_cons. split; [|assumption]. pose proof (c_bump_byte b). byte_lia.
Qed.

Lemma cstring_at_second_key m hb b rest :
  cstring_at m (Ptr hb 0) (b :: rest) ->
  cstring_at (mem_set m hb 0 (c_bump b)) (Ptr hb 0) (second_key (b :: rest)).
Proof.
  intros [Hk [Hc Hb]]. apply is_key_cons in Hk as [_ Hk].
  split; [now apply second_key_is_key|].
  assert (H0 : cell (mem_set m hb 0 (c_bump b)) hb 0 = Some (Some (c_bump b)))
    by (apply cell_mem_set_eq; eauto).
  cbn [second_key]. destruct (Z.eqb_spec (c_bump b) 0) as [E|_].
  - cbn [app bytes_at]. split; [congruence | exact I].
  - cbn [app bytes_at]. split; [exact H0|]. revert Hb. apply bytes_at_ext_from. intros o' c Ho Hc'.
    rewrite cell_mem_set_ne; [assumption | eauto | intros [= ?]; lia].
Qed.

Lemma phash16_second_run m hb blk b rest h1 :
  mem_wf m -> m !! hb = Some blk -> blk_live blk = true -> blk_heap blk = true ->
  cstring_at m (Ptr hb 0) (b :: rest) -> is_byte h1 ->
  phash16_second (Ptr hb 0) h1 m =
  if all_plain (second_key (b :: rest)) then
    let h2 := hashWikipedia pearson_T (second_key (b :: rest)) in
    if in_int (h1 * 256 + h2)
    then Ok (h1 * 256 + h2, mem_kill (mem_set m hb 0 (c_bump b)) hb)
    else Fault IntOverflow
  else Fault TableIndex.
Proof.
  intros Hwf Hb Hl Hh Hs H1. pose proof (cstring_at_second_key _ _ _ _ Hs) as Hs2.
  destruct Hs as [Hk [Hc _]]. apply is_key_cons in Hk as [Hbb Hk].
  destruct (c_bump_run b) as [Ea Er]; [byte_lia|].
  erewrite (ptr_add_0 m hb 0) by eassumption.
  rewrite (bind_ok _ _ _ _ _ (load_char_ok _ _ _ _ Hc)).
  rewrite (bind_lift_ok _ _ _ _ Ea), (bind_lift_ok _ _ _ _ Er).
  fold (c_bump b). erewrite bind_ok by (apply store_ok; eauto).
  assert (Hwf2 : mem_wf (mem_set m hb 0 (c_bump b))) by (apply mem_wf_set, c_bump_byte; assumption).
  unfold bind at 1. rewrite (phash_wikipedia_run _ _ _ _ Hwf2 Hs2).
  destruct (all_plain (second_key (b :: rest))); [|reflexivity].
  apply (phash16_finish_run _ hb (blk_set blk 0 (Some (c_bump b)))); try assumption.
  - now apply lookup_mem_set_eq.
  - apply hashWikipedia_byte, is_key_bytes. now destruct Hs2.
Qed.

(** The buffer of [phash16] once the key and the terminator are in it. *)
Lemma phash16_buffer m hb blk bs :
  mem_wf m -> is_key bs -> m !! hb = Some blk ->
  blk_live blk = true -> blk_heap blk = true ->
  (forall k : nat, (k <= length bs)%nat -> is_Some (cell m hb (Z.of_nat k))) ->
  let m3 := mem_write m hb 0 (bs ++ [0]) in
  mem_wf m3 /\ cstring_at m3 (Ptr hb 0) bs /\
  exists blk3, m3 !! hb = Some blk3 /\ blk_live blk3 = true /\ blk_heap blk3 = true.
Proof.
  intros Hwf Hk Hb Hl Hh Hcells m3. split; [|split].
  - apply mem_wf_write; [assumption|]. apply Forall_app. split; [now apply is_key_bytes|].
    repeat constructor; lia.
  - split; [assumption|]. apply bytes_at_mem_write. intros k Hk'.
    rewrite length_app in Hk'. cbn [length] in Hk'. rewrite Z.add_0_l. apply Hcells. lia.
  - destruct (lookup_mem_write_live m hb 0 (bs ++ [0]) blk Hb) as (blk3 & H1 & H2 & H3).
    exists blk3. split; [exact H1|]. split; congruence.
Qed.

Lemma phash16_first_run m kb ko hb blk bs :
  mem_wf m -> kb <> hb -> cstring_at m (Ptr kb ko) bs ->
  m !! hb = Some blk -> blk_live blk = true -> blk_heap blk = true ->
  (forall k : nat, (k <= length bs)%nat -> is_Some (cell m hb (Z.of_nat k))) ->
  phash16_first (Ptr kb ko) (Ptr hb 0) (Z.of_nat (length bs)) m =
  if all_plain bs
  then phash16_second (Ptr hb 0) (hashWikipedia pearson_T bs) (mem_write m hb 0 (bs ++ [0]))
  else Fault TableIndex.
Proof.
  intros Hwf Hne [Hk Hkb] Hb Hl Hh Hcells.
  destruct (phash16_buffer m hb blk bs Hwf Hk Hb Hl Hh Hcells) as (Hwf3 & Hs3 & _).
  apply bytes_at_app in Hkb as [Hkb _].
  rewrite (bind_ok _ _ _ _ _ (memcpy_ok m kb ko hb 0 bs Hwf Hne (is_key_bytes _ Hk)
             Hkb ltac:(intros k Hk'; apply Hcells; lia))).
  destruct (Hcells (length bs) (le_n _)) as [c Hc].
  pose proof (cell_wf_range _ _ _ _ Hwf Hc) as Hr.
  rewrite ptr_add_base by lia. change (to_char 0) with 0.
  erewrite bind_ok by
    (apply store_ok; rewrite cell_mem_write_other;
       [eauto | intros k Hk'; apply Hcells; lia | lia]).
  replace (mem_set (mem_write m hb 0 bs) hb (Z.of_nat (length bs)) 0)
    with (mem_write m hb 0 (bs ++ [0])) by (now rewrite mem_write_app).
  unfold bind at 1. rewrite (phash_wikipedia_run _ _ _ _ Hwf3 Hs3).
  destruct (all_plain bs); reflexivity.
Qed.

Lemma phash16_first_null m kb ko bs :
  mem_wf m -> cstring_at m (Ptr kb ko) bs ->
  phash16_first (Ptr kb ko) Null (Z.of_nat (length bs)) m = Fault NullDeref.
Proof.
  intros Hwf _. apply bind_fault, memcpy_null. now left.
Qed.

Lemma phash16_first_overflow m kb ko hb blk bs :
  mem_wf m -> kb <> hb -> cstring_at m (Ptr kb ko) bs ->
  m !! hb = Some blk -> blk_live blk = true ->
  (forall k : nat, (k < length bs)%nat -> is_Some (cell m hb (Z.of_nat k))) ->
  blk_cell blk (Z.of_nat (length bs)) = None ->
  Z.of_nat (length bs) < 2 ^ (size_bits - 1) ->
  phash16_first (Ptr kb ko) (Ptr hb 0) (Z.of_nat (length bs)) m = Fault OutOfBounds.
Proof.
  intros Hwf Hne [Hk Hkb] Hb Hl Hcells Hend Hlen.
  apply bytes_at_app in Hkb as [Hkb _].
  rewrite (bind_ok _ _ _ _ _ (memcpy_ok m kb ko hb 0 bs Hwf Hne (is_key_bytes _ Hk)
             Hkb ltac:(intros k Hk'; apply Hcells; lia))).
  rewrite ptr_add_base by lia.
  destruct (lookup_mem_write_live m hb 0 bs blk Hb) as (blk2 & Hb2 & Hl2 & _).
  apply bind_fault, (store_oob _ _ _ _ blk2); [assumption | congruence|].
  pose proof (cell_mem_write_other m hb 0 bs hb (Z.of_nat (length bs))) as E.
  unfold cell in E. rewrite Hb, Hb2, Hl, Hl2, Hl in E. rewrite E; [assumption | | lia].
  intros k Hk'. apply Hcells in Hk'. unfold cell in Hk'. now rewrite Hb, Hl in Hk'.
Qed.

(** The facts about the block [malloc] has just returned that the stages
    of [phash16] need. *)
Lemma fresh_buffer m n (len : nat) :
  malloc_null m n = false -> n = Z.of_nat len ->
  let m1 := m ++ [fresh_block n] in
  m1 !! length m = Some (fresh_block n) /\
  n < 2 ^ (size_bits - 1) /\
  (mem_wf m -> mem_wf m1) /\
  (forall k : nat, (Z.of_nat k < n + malloc_slack n) -> is_Some (cell m1 (length m) (Z.of_nat k))).
Proof.
  intros Hnull -> m1. apply malloc_null_false in Hnull as [Hfit _].
  pose proof (malloc_slack_nonneg (Z.of_nat len)) as Hsl.
  split; [apply lookup_fresh|]. split; [|split].
  - unfold malloc_fits in Hfit. apply andb_true_iff in Hfit as [_ Hfit%Z.ltb_lt]. lia.
  - intros Hwf. apply mem_wf_app; [assumption | now apply fresh_block_wf].
  - intros k Hk. unfold m1. rewrite cell_fresh, fresh_block_cell_data; [eauto | lia].
Qed.

Lemma phash16_run m b o b0 rest :
  let bs := b0 :: rest in
  let n := Z.of_nat (length bs) in
  let hb := length m in
  mem_wf m -> cstring_at m (Ptr b o) bs ->
  malloc_null m n = false -> 0 < malloc_slack n ->
  phash16 (Ptr b o) m =
  if all_plain bs && all_plain (second_key bs) then
    let h1 := hashWikipedia pearson_T bs in
    let h2 := hashWikipedia pearson_T (second_key bs) in
    if in_int (h1 * 256 + h2)
    then Ok (h1 * 256 + h2,
             mem_kill (mem_set (mem_write (m ++ [fresh_block n]) hb 0 (bs ++ [0]))
                               hb 0 (c_bump b0)) hb)
    else Fault IntOverflow
  else Fault TableIndex.
Proof.
  intros bs n hb Hwf Hs Hnull Hslack.
  destruct (cstring_length_bound m b o bs Hwf Hs) as [Hlt Hn].
  unfold phash16. rewrite (bind_ok _ _ _ _ _ (strlen_ok m b o bs Hwf Hs)).
  rewrite Z.mul_1_l, size_wrap_small by lia. fold n.
  rewrite (bind_ok _ _ _ _ _ (malloc_ok n m Hnull)).
  destruct (fresh_buffer m n (length bs) Hnull eq_refl) as (Hb1 & Hn1 & Hwf1 & Hcells).
  specialize (Hwf1 Hwf).
  assert (Hs1 : cstring_at (m ++ [fresh_block n]) (Ptr b o) bs).
  { destruct Hs as [Hk Hb]. split; [assumption | now apply bytes_at_grow]. }
  assert (Hcells' : forall k : nat, (k <= length bs)%nat ->
            is_Some (cell (m ++ [fresh_block n]) hb (Z.of_nat k))) by (intros; apply Hcells; lia).
  rewrite (phash16_first_run _ b o hb (fresh_block n) bs) by (try assumption; try reflexivity; lia).
  destruct (all_plain bs); [|reflexivity]. cbn [andb].
  destruct (phash16_buffer _ hb (fresh_block n) bs Hwf1 (proj1 Hs) Hb1 eq_refl eq_refl Hcells')
    as (Hwf3 & Hs3 & blk3 & Hb3 & Hl3 & Hh3).
  apply (phash16_second_run _ hb blk3 b0 rest); try assumption.
  apply hashWikipedia_byte, is_key_bytes, Hs.
Qed.

Lemma phash16_null m b o bs :
  mem_wf m -> cstring_at m (Ptr b o) bs ->
  malloc_null m (Z.of_nat (length bs)) = true ->
  phash16 (Ptr b o) m = Fault NullDeref.
Proof.
  intros Hwf Hs Hnull. destruct (cstring_length_bound m b o bs Hwf Hs) as [Hlt Hn].
  unfold phash16. rewrite (bind_ok _ _ _ _ _ (strlen_ok m b o bs Hwf Hs)).
  rewrite Z.mul_1_l, size_wrap_small by lia.
  rewrite (bind_ok _ _ _ _ _ (malloc_fail _ m Hnull)).
  now apply phash16_first_null.
Qed.

Lemma phash16_overflow m b o bs :
  mem_wf m -> cstring_at m (Ptr b o) bs ->
  malloc_null m (Z.of_nat (length bs)) = false ->
  malloc_slack (Z.of_nat (length bs)) = 0 ->
  phash16 (Ptr b o) m = Fault OutOfBounds.
Proof.
  intros Hwf Hs Hnull Hslack. destruct (cstring_length_bound m b o bs Hwf Hs) as [Hlt Hn].
  unfold phash16. rewrite (bind_ok _ _ _ _ _ (strlen_ok m b o bs Hwf Hs)).
  rewrite Z.mul_1_l, size_wrap_small by lia.
  rewrite (bind_ok _ _ _ _ _ (malloc_ok _ m Hnull)).
  destruct (fresh_buffer m _ (length bs) Hnull eq_refl) as (Hb1 & Hn1 & Hwf1 & Hcells).
  apply (phash16_first_overflow _ b o (length m) (fresh_block (Z.of_nat (length bs))) bs);
    try reflexivity; try assumption.
  - now apply Hwf1.
  - lia.
  - destruct Hs as [Hk Hb]. split; [assumption | now apply bytes_at_grow].
  - intros k Hk. apply Hcells. lia.
  - rewrite <- (Z.add_0_r (Z.of_nat (length bs))) at 2. rewrite <- Hslack.
    apply fresh_block_cell_end. lia.
Qed.

(** The loop of line 76 when the next read faults. *)
Lemma wikipedia_loop_load_fault m key y h fuel f :
  is_byte h -> 1 <= y < 256 -> plain y = true -> load key m = Fault f ->
  wikipedia_loop (S fuel) key (char_val y) h m = Fault f.
Proof.
  intros Hh Hy Hp Hld. cbn [wikipedia_loop].
  destruct (Z.eqb_spec (char_val y) 0) as [E0|_];
    [rewrite plain_char_val in E0 by assumption; lia|].
  erewrite bind_lift_ok by (apply T_read_step; [assumption | byte_lia | assumption]).
  unfold load_char. rewrite bind_assoc. now apply bind_fault.
Qed.

Lemma plain_1 : plain 1 = true.
Proof. unfold plain. now rewrite orb_true_r. Qed.

(** On the empty key the second hash of [phash16] reads past the
    terminator it has just overwritten. *)
Lemma phash16_second_empty m hb h1 f :
  mem_wf m -> cell m hb 0 = Some (Some 0) ->
  load (Ptr hb 1) (mem_set m hb 0 1) = Fault f ->
  phash16_second (Ptr hb 0) h1 m = Fault f.
Proof.
  intros Hwf Hc Hld. destruct (c_bump_run 0) as [Ea Er]; [byte_lia|].
  erewrite (ptr_add_0 m hb 0) by eassumption.
  rewrite (bind_ok _ _ _ _ _ (load_char_ok _ _ _ _ Hc)).
  rewrite (bind_lift_ok _ _ _ _ Ea), (bind_lift_ok _ _ _ _ Er).
  fold (c_bump 0). rewrite c_bump_0. erewrite bind_ok by (apply store_ok; eauto).
  assert (Hwf2 : mem_wf (mem_set m hb 0 1)) by (apply mem_wf_set; [assumption | byte_lia]).
  assert (Hc2 : cell (mem_set m hb 0 1) hb 0 = Some (Some 1)) by (apply cell_mem_set_eq; eauto).
  apply bind_fault. unfold phash_wikipedia.
  rewrite (bind_ok _ _ _ _ _ (load_char_ok _ _ _ _ Hc2)), bind_gets.
  erewrite ptr_add_succ by eassumption.
  pose proof (span_bytes_at _ hb 0 [1] (conj Hc2 I)) as Hspan. cbn [length] in Hspan.
  destruct (span (Ptr hb 0) (mem_set m hb 0 1)) as [|fuel]; [lia|].
  apply wikipedia_loop_load_fault; [byte_lia | lia | apply plain_1 | assumption].
Qed.

Lemma load_past_terminator m :
  0 < malloc_slack 0 ->
  load (Ptr (length m) 1)
       (mem_set (mem_set (m ++ [fresh_block 0]) (length m) 0 0) (length m) 0 1) =
  Fault (if malloc_slack 0 =? 1 then OutOfBounds else Uninitialised).
Proof.
  intros Hsl. set (blk := blk_set (blk_set (fresh_block 0) 0 (Some 0)) 0 (Some 1)).
  assert (Hb : mem_set (mem_set (m ++ [fresh_block 0]) (length m) 0 0) (length m) 0 1
               !! length m = Some blk) by (do 2 apply lookup_mem_set_eq; apply lookup_fresh).
  assert (Hc : blk_cell blk 1 = blk_cell (fresh_block 0) 1).
  { unfold blk. rewrite !blk_cell_set_ne; [reflexivity | | | |]; simpl; lia. }
  unfold load. rewrite Hb. change (blk_live blk) with true. cbv iota. rewrite Hc.
  destruct (Z.eqb_spec (malloc_slack 0) 1) as [E|Hne].
  - replace 1 with (0 + malloc_slack 0) at 1 by lia.
    now rewrite fresh_block_cell_end by lia.
  - now rewrite fresh_block_cell_data by lia.
Qed.

Lemma phash16_empty_run m b o :
  mem_wf m -> cstring_at m (Ptr b o) [] ->
  malloc_null m 0 = false -> 0 < malloc_slack 0 ->
  phash16 (Ptr b o) m =
  Fault (if malloc_slack 0 =? 1 then OutOfBounds else Uninitialised).
Proof.
  intros Hwf Hs Hnull Hslack.
  destruct (cstring_length_bound m b o [] Hwf Hs) as [Hlt _].
  unfold phash16. rewrite (bind_ok _ _ _ _ _ (strlen_ok m b o [] Hwf Hs)).
  rewrite Z.mul_1_l, size_wrap_small by (pose proof size_bits_min; simpl; lia).
  rewrite (bind_ok _ _ _ _ _ (malloc_ok (Z.of_nat (length (@nil Z))) m Hnull)).
  destruct (fresh_buffer m 0 O Hnull eq_refl) as (Hb1 & _ & Hwf1 & Hcells).
  specialize (Hwf1 Hwf).
  assert (Hs1 : cstring_at (m ++ [fresh_block 0]) (Ptr b o) []).
  { destruct Hs as [Hk Hb]. split; [assumption | now apply bytes_at_grow]. }
  assert (H0 : is_Some (cell (m ++ [fresh_block 0]) (length m) 0)) by (apply (Hcells O); lia).
  etransitivity.
  { apply (phash16_first_run _ b o (length m) (fresh_block 0) [] Hwf1);
      try assumption; try reflexivity; try lia.
    intros k Hk. cbn [length] in Hk. assert (k = O) as -> by lia. exact H0. }
  cbn [all_plain forallb app mem_write].
  apply phash16_second_empty.
  - apply mem_wf_set; [assumption | byte_lia].
  - now apply cell_mem_set_eq.
  - now apply load_past_terminator.
Qed.

Lemma phash16_empty m b o :
  mem_wf m -> cstring_at m (Ptr b o) [] ->
  exists f, phash16 (Ptr b o) m = Fault f /\
            (f = NullDeref \/ f = OutOfBounds \/ f = Uninitialised).
Proof.
  intros Hwf Hs.
  destruct (malloc_null m 0) eqn:Hnull;
    [exists NullDeref; split; [now apply (phash16_null m b o []) | auto]|].
  pose proof (malloc_slack_nonneg 0) as Hsl.
  destruct (Z.eq_dec (malloc_slack 0) 0) as [E|Hne];
    [exists OutOfBounds; split; [now apply (phash16_overflow m b o []) | auto]|].
  rewrite phash16_empty_run by (assumption || lia).
  destruct (malloc_slack 0 =? 1); eauto.
Qed.

(** ** The refinement theorems *)

(** C1: on a well-formed memory in which [key] points to the C string
    [bs], [phash_wikipedia] leaves the memory unchanged and returns the
    Wikipedia hash of [bs] when every byte of the key is plain on the
    platform (always where [char] is unsigned, below 128 where it is
    signed); otherwise the table is indexed with a negative value and the
    run faults with [TableIndex].  In particular the loop never exhausts
    its fuel. *)
Theorem phash_wikipedia_refines m key bs :
  mem_wf m -> cstring_at m key bs ->
  phash_wikipedia key m =
  if all_plain bs then Ok (hashWikipedia pearson_T bs, m) else Fault TableIndex.
Proof. destruct key as [|b o]; [intros _ []|]. apply phash_wikipedia_run. Qed.

(** C2: on a well-formed memory in which [key] points to the C string
    [bs], [phash_rfc3074] leaves the memory unchanged and returns the fold
    of the bytes of [bs] from the last to the first, seeded with the length
    of [bs] reduced modulo 256, when every byte is plain; otherwise it
    faults with [TableIndex]. *)
Theorem phash_rfc3074_refines m key bs :
  mem_wf m -> cstring_at m key bs ->
  phash_rfc3074 key m =
  if all_plain bs
  then Ok (pearson_fold pearson_T (Z.of_nat (length bs) mod 256) (rev bs), m)
  else Fault TableIndex.
Proof. destruct key as [|b o]; [intros _ []|]. apply phash_rfc3074_run. Qed.

(** C3: [phash_original] on a C string [bs] of length [n]: it faults with
    [NullDeref] when [malloc] returns NULL, with [OutOfBounds] when no byte
    is readable below the block (the read of [hash[-1]] in the first
    iteration, or of [hash[len - 1]] for the empty key), with [TableIndex]
    when a byte of the key is not plain; otherwise it returns the fold of
    [bs] seeded with the allocator byte [s] that lies below the block, and
    leaves the block, filled with the intermediate hashes, freed. *)
Theorem phash_original_refines m key bs :
  mem_wf m -> cstring_at m key bs ->
  phash_original key m =
  let n := Z.of_nat (length bs) in
  if malloc_null m n then Fault NullDeref
  else match last (malloc_header n) with
       | None => Fault OutOfBounds
       | Some s =>
           if all_plain bs
           then Ok (pearson_fold pearson_T s bs,
                    mem_kill (mem_write (m ++ [fresh_block n]) (length m) 0
                                        (hash_array pearson_T s bs)) (length m))
           else Fault TableIndex
       end.
Proof. destruct key as [|b o]; [intros _ []|]. apply phash_original_run. Qed.

(** C4: [phash16] on a non-empty C string [bs] when [malloc] succeeds and
    the block has at least one byte of slack: the result is
    [h1 * 256 + h2] with [h1] the Wikipedia hash of [bs] and [h2] that of
    the key the second call reads ([second_key]); the run faults with
    [TableIndex] when a byte of either key is not plain and with
    [IntOverflow] when [h1 * 256 + h2] does not fit [int]; the buffer is
    freed. *)
Theorem phash16_refines m key b0 rest :
  let bs := b0 :: rest in
  let n := Z.of_nat (length bs) in
  let hb := length m in
  mem_wf m -> cstring_at m key bs ->
  malloc_null m n = false -> 0 < malloc_slack n ->
  phash16 key m =
  if all_plain bs && all_plain (second_key bs) then
    let h1 := hashWikipedia pearson_T bs in
    let h2 := hashWikipedia pearson_T (second_key bs) in
    if in_int (h1 * 256 + h2)
    then Ok (h1 * 256 + h2,
             mem_kill (mem_set (mem_write (m ++ [fresh_block n]) hb 0 (bs ++ [0]))
                               hb 0 (c_bump b0)) hb)
    else Fault IntOverflow
  else Fault TableIndex.
Proof. destruct key as [|b o]; [intros ? ? ? _ []|]. apply phash16_run. Qed.

(** C6: where the allocation has no slack, [phash16] faults on every key
    for which [malloc] succeeds: [buffer[length] = 0] writes one byte past
    the [length] bytes that were asked for. *)
Theorem phash16_heap_overflow m key bs :
  mem_wf m -> cstring_at m key bs ->
  malloc_null m (Z.of_nat (length bs)) = false ->
  malloc_slack (Z.of_nat (length bs)) = 0 ->
  phash16 key m = Fault OutOfBounds.
Proof. destruct key as [|b o]; [intros _ []|]. apply phash16_overflow. Qed.

(** C7: where no byte below a block [malloc] returns can be read, as on
    the abstract machine of the standard, [phash_original] returns a value
    for no key: the read of [hash[i - 1]] with [i = 0] (or of
    [hash[len - 1]] for the empty key) is out of bounds, unless [malloc]
    returned NULL and the first access faults already. *)
Theorem phash_original_out_of_bounds m key bs :
  mem_wf m -> cstring_at m key bs ->
  malloc_header (Z.of_nat (length bs)) = [] ->
  phash_original key m =
  Fault (if malloc_null m (Z.of_nat (length bs)) then NullDeref else OutOfBounds).
Proof.
  intros Hwf Hs Hh. destruct key as [|b o]; [destruct Hs|].
  rewrite (phash_original_run m b o bs Hwf Hs). cbv zeta. rewrite Hh.
  now destruct (malloc_null _).
Qed.

End refine.

(** ** Witnesses on concrete machines *)

Lemma phash_wikipedia_refines_witness :
  @phash_wikipedia x86_64 (Ptr 0 0) [string_block [97]] = Ok (113, [string_block [97]]).
Proof.
  rewrite (@phash_wikipedia_refines x86_64 _ [string_block [97]] (Ptr 0 0) [97]).
  - reflexivity.
  - by_compute.
  - by_compute.
Defined.

Lemma phash_rfc3074_refines_witness :
  @phash_rfc3074 aarch64 (Ptr 0 0) [string_block [97; 200; 99]] =
  Ok (117, [string_block [97; 200; 99]]).
Proof.
  rewrite (@phash_rfc3074_refines aarch64 _ [string_block [97; 200; 99]] (Ptr 0 0) [97; 200; 99]).
  - reflexivity.
  - by_compute.
  - by_compute.
Defined.

Lemma phash_original_refines_witness :
  eval (@phash_original x86_64 (Ptr 0 0)) [string_block [97; 98; 99]] = Ok 5.
Proof.
  unfold eval.
  rewrite (@phash_original_refines x86_64 _ [string_block [97; 98; 99]] (Ptr 0 0) [97; 98; 99]).
  - reflexivity.
  - by_compute.
  - by_compute.
Defined.

Lemma phash16_refines_witness :
  eval (@phash16 aarch64 (Ptr 0 0)) [string_block [97; 98; 99]] = Ok 1520.
Proof.
  unfold eval.
  rewrite (@phash16_refines aarch64 _ [string_block [97; 98; 99]] (Ptr 0 0) 97 [98; 99]).
  - reflexivity.
  - by_compute.
  - by_compute.
  - reflexivity.
  - reflexivity.
Defined.

Lemma phash16_heap_overflow_witness :
  @phash16 (strict_machine true) (Ptr 0 0) [string_block [97; 98; 99]] = Fault OutOfBounds.
Proof.
  apply (@phash16_heap_overflow (strict_machine true) _ _ _ [97; 98; 99]).
  - by_compute.
  - by_compute.
  - reflexivity.
  - reflexivity.
Defined.

Lemma phash_original_out_of_bounds_witness :
  @phash_original (strict_machine false) (Ptr 0 0) [string_block [97; 98; 99]] =
  Fault OutOfBounds.
Proof.
  apply (@phash_original_out_of_bounds (strict_machine false) _
           [string_block [97; 98; 99]] (Ptr 0 0) [97; 98; 99]).
  - by_compute.
  - by_compute.
  - reflexivity.
Defined.
