(* ===== verification/Machine.v ===== *)
(** * Machine: the three loops of pearson-hashing.c, step by step

    Each loop of the source is given here by its condition, its body and
    the value taken at its exit, over the local variables the loop
    changes: [(key, c, hash)] for line 76, [(i, hash)] for line 40 and
    [i] for line 66.  [Loop] turns the three into a step relation on
    configurations, with no bound on the number of iterations.

    The loops of [Hasher] are these loops ([wikipedia_loop_while],
    [rfc3074_loop_while], [original_loop_while]).  Each has an invariant
    that types its configurations and a variant that decreases with
    every iteration; from the two follow, by the rules of [Loop]: the
    invariant holds along every execution, every execution is finite,
    and the fuel the functions of [Hasher] pass is enough, so that what
    they compute is the configuration in which the relation ends.

    For the loop of line 66 the invariant is also stated in full
    ([original_state]): after [i] iterations the buffer holds the first
    [i] intermediate hashes of the key, each computed from its
    predecessor, and the rest of the memory is as the loop found it.  It
    holds of every configuration the step relation reaches
    ([original_machine_safe]), so it fixes which cell each iteration
    reads and which it writes. *)

From Stdlib Require Import ZArith Lia List.
From stdpp Require Import base tactics option list relations.
From S2P Require Import Prelude Platform CInt Table Spec Memory Outcome Loop Hasher Refine.

#[local] Open Scope Z_scope.
#[local] Open Scope cm_scope.

(** The memory of the examples: one static object holding "abc". *)
#[local] Abbreviation abc := [string_block [97; 98; 99]].

Section machine.
Context {P : Platform} `{!PlatformOk P}.

(** ** Line 76: [for (char c = *key++; c; c = *key++) hash = pearson_T[hash ^ c];] *)

Definition wikipedia_cond (st : ptr * Z * Z) : bool :=
  let '(_, c, _) := st in negb (c =? 0).

Definition wikipedia_body (st : ptr * Z * Z) : cm mem (ptr * Z * Z) :=
  let '(key, c, hash) := st in
  t <- lift (T_read (int_xor hash c)) ;;
  c' <- load_char key ;;
  ret (ptr_add key 1, c', t).

Definition wikipedia_exit (st : ptr * Z * Z) : Z :=
  let '(_, _, hash) := st in hash.

Definition wikipedia_step : relation (conf (M := mem)) :=
  step wikipedia_cond wikipedia_body wikipedia_exit.

(** [key] points into a block of the memory or one past its end, [hash]
    is a byte, and the memory is the one the loop was entered with. *)
Definition wikipedia_inv (m0 : mem) (st : ptr * Z * Z) (m : mem) : Prop :=
  let '(key, _, hash) := st in
  m = m0 /\ is_byte hash /\
  exists b q blk, key = Ptr b q /\ m0 !! b = Some blk /\ q <= blk_hi blk.

(** The cells from [key] to the end of its block, and one. *)
Definition wikipedia_variant (st : ptr * Z * Z) (m : mem) : nat :=
  let '(key, _, _) := st in
  match key with
  | Ptr b q =>
      match m !! b with
      | Some blk => S (Z.to_nat (blk_hi blk - q))
      | None => O
      end
  | Null => O
  end.

(** What the loops that only read leave: a byte, and the memory as it
    was. *)
Definition byte_result (m0 : mem) (r : Z) (m : mem) : Prop := m = m0 /\ is_byte r.

(** ** Line 40: [for (size_t i = len; i > 0;) hash = pearson_T[hash ^ key[--i]];] *)

Definition rfc3074_cond (st : Z * Z) : bool :=
  let '(i, _) := st in 0 <? i.

Definition rfc3074_body (key : ptr) (st : Z * Z) : cm mem (Z * Z) :=
  let '(i, hash) := st in
  let i' := size_wrap (i - 1) in
  c <- load_char (ptr_add key i') ;;
  t <- lift (T_read (int_xor hash c)) ;;
  ret (i', t).

Definition rfc3074_exit (st : Z * Z) : Z :=
  let '(_, hash) := st in hash.

Definition rfc3074_step (key : ptr) : relation (conf (M := mem)) :=
  step rfc3074_cond (rfc3074_body key) rfc3074_exit.

(** [i] is a value of [size_t] and [hash] a byte. *)
Definition rfc3074_inv (m0 : mem) (st : Z * Z) (m : mem) : Prop :=
  let '(i, hash) := st in
  m = m0 /\ is_byte hash /\ 0 <= i < 2 ^ size_bits.

Definition rfc3074_variant (st : Z * Z) (m : mem) : nat :=
  let '(i, _) := st in Z.to_nat i.

(** ** Line 66: [for (size_t i = 0; i < len; i++)
                   hash[i] = pearson_T[hash[i - 1] ^ key[i]];] *)

Definition original_cond (len i : Z) : bool := i <? len.

Definition original_body (key hash : ptr) (i : Z) : cm mem Z :=
  h <- load (ptr_add hash (size_wrap (i - 1))) ;;
  c <- load_char (ptr_add key i) ;;
  t <- lift (T_read (int_xor h c)) ;;
  store (ptr_add hash i) t ;;
  ret (size_wrap (i + 1)).

(** The same with the operands of [^] read from right to left, which C
    allows as well. *)
Definition original_body_rl (key hash : ptr) (i : Z) : cm mem Z :=
  c <- load_char (ptr_add key i) ;;
  h <- load (ptr_add hash (size_wrap (i - 1))) ;;
  t <- lift (T_read (int_xor h c)) ;;
  store (ptr_add hash i) t ;;
  ret (size_wrap (i + 1)).

Definition original_exit (i : Z) : unit := tt.

Definition original_step (key hash : ptr) (len : Z) : relation (conf (M := mem)) :=
  step (original_cond len) (original_body key hash) original_exit.

(** What the loop that writes leaves: a well-formed memory with the
    blocks, their extents and their status as they were. *)
Definition kept (m0 : mem) (u : unit) (m : mem) : Prop :=
  mem_wf m /\ shape m = shape m0.

(** [i] and [len] are values of [size_t]; the memory is well formed and
    has the shape the loop was entered with. *)
Definition original_inv (m0 : mem) (len i : Z) (m : mem) : Prop :=
  kept m0 tt m /\ 0 <= i /\ len < 2 ^ size_bits.

Definition original_variant (len i : Z) (m : mem) : nat := Z.to_nat (len - i).

(** What the loop has done when it tests [i], for the key [bs], the
    array [hash] at the base of the block [hb] and the byte [s] in
    [hash[-1]]: [hash[0 .. i - 1]] holds the digests of the first [i]
    prefixes of the key, each computed from the one before it and from
    the next byte of the key, and the first [i] bytes of the key are
    plain; everything else is as it was in [m0]. *)
Definition original_state (m0 : mem) (hb : nat) (s : Z) (bs : list Z) (i : Z) (m : mem) : Prop :=
  0 <= i <= Z.of_nat (length bs) /\
  all_plain (take (Z.to_nat i) bs) = true /\
  m = mem_write m0 hb 0 (hash_array pearson_T s (take (Z.to_nat i) bs)).

(** What the loop leaves, and how it fails: all the digests are stored,
    or the byte the loop has come to is not plain. *)
Definition original_done (m0 : mem) (hb : nat) (s : Z) (bs : list Z) (u : unit) (m : mem) : Prop :=
  all_plain bs = true /\ m = mem_write m0 hb 0 (hash_array pearson_T s bs).

Definition original_fault (bs : list Z) (f : fault) : Prop :=
  f = TableIndex /\ all_plain bs = false.

(** ** The loops of [Hasher] are these loops *)

Lemma wikipedia_loop_while fuel key c hash m :
  wikipedia_loop fuel key c hash m =
  while wikipedia_cond wikipedia_body wikipedia_exit fuel (key, c, hash) m.
Proof.
  revert key c hash m. induction fuel as [|fuel IH]; intros key c hash m;
    cbn [wikipedia_loop while wikipedia_cond wikipedia_body wikipedia_exit];
    destruct (c =? 0); try reflexivity.
  unfold bind, lift, ret. cbn [negb]. destruct (T_read _); [|reflexivity].
  destruct (load_char key m) as [[c' m']|f]; [apply IH|reflexivity].
Qed.

Lemma rfc3074_loop_while fuel key i hash m :
  rfc3074_loop fuel key i hash m =
  while rfc3074_cond (rfc3074_body key) rfc3074_exit fuel (i, hash) m.
Proof.
  revert i hash m. induction fuel as [|fuel IH]; intros i hash m;
    cbn [rfc3074_loop while rfc3074_cond rfc3074_body rfc3074_exit];
    destruct (0 <? i); try reflexivity.
  cbv zeta. unfold bind, lift, ret. cbv beta.
  destruct (load_char _ m) as [[c m']|f]; [|reflexivity].
  destruct (T_read _); [apply IH|reflexivity].
Qed.

Lemma original_loop_while fuel key hash i len m :
  original_loop fuel key hash i len m =
  while (original_cond len) (original_body key hash) original_exit fuel i m.
Proof.
  revert i m. induction fuel as [|fuel IH]; intros i m;
    cbn [original_loop while]; unfold original_cond, original_body;
    destruct (i <? len); try reflexivity.
  unfold bind, lift, ret. cbv beta. destruct (load _ m) as [[h m1]|f]; [|reflexivity].
  destruct (load_char _ m1) as [[c m2]|f]; [|reflexivity].
  destruct (T_read _); [|reflexivity].
  destruct (store _ _ m2) as [[u m3]|f]; [apply IH|reflexivity].
Qed.

(** ** Invariant and variant of line 76 *)

Lemma wikipedia_body_ok m0 st m :
  mem_wf m0 -> wikipedia_inv m0 st m -> wikipedia_cond st = true ->
  ends (wikipedia_body st) m
    (fun st' m' => wikipedia_inv m0 st' m' /\
                   (wikipedia_variant st' m' < wikipedia_variant st m)%nat) genuine.
Proof.
  intros Hwf. destruct st as [[key c] h].
  intros (-> & Hh & b & q & blk & -> & Hb & Hq) _. cbn [wikipedia_body].
  ends_step (apply T_read_ends) as t m1 [-> Ht].
  ends_step (apply load_char_ends) as c' m1 (-> & b' & o' & v & [= <- <-] & Hc & _).
  apply ends_ret. rewrite (ptr_add_succ m0 b q _ Hwf Hc).
  apply cell_Some in Hc as (blk' & Hb' & _ & Hc). rewrite Hb in Hb'. injection Hb' as <-.
  apply blk_cell_range in Hc. cbn [wikipedia_inv wikipedia_variant]. rewrite Hb.
  split; [|lia]. split; [reflexivity|]. split; [assumption|].
  exists b, (q + 1), blk. repeat split; [assumption|lia].
Qed.

Lemma wikipedia_exit_ok m0 st m :
  wikipedia_inv m0 st m -> wikipedia_cond st = false -> byte_result m0 (wikipedia_exit st) m.
Proof. destruct st as [[key c] h]. now intros (-> & Hh & _) _. Qed.

Lemma wikipedia_variant_pos m0 st m :
  wikipedia_inv m0 st m -> wikipedia_cond st = true -> (0 < wikipedia_variant st m)%nat.
Proof.
  destruct st as [[key c] h]. intros (-> & _ & b & q & blk & -> & Hb & _) _.
  cbn. rewrite Hb. lia.
Qed.

(** The configuration in which [phash_wikipedia] enters its loop. *)
Lemma wikipedia_entry m key c m' :
  mem_wf m -> load_char key m = Ok (c, m') ->
  m' = m /\ wikipedia_inv m (ptr_add key 1, c, 0) m /\
  (wikipedia_variant (ptr_add key 1, c, 0%Z) m <= span key m)%nat.
Proof.
  intros Hwf (-> & b & o & v & -> & Hc & _)%load_char_inv. split; [reflexivity|].
  rewrite (ptr_add_succ m b o _ Hwf Hc).
  apply cell_Some in Hc as (blk & Hb & _ & Hc). apply blk_cell_range in Hc.
  cbn [wikipedia_inv wikipedia_variant span]. rewrite Hb. unfold blk_hi in *.
  split; [|lia]. split; [reflexivity|]. split; [byte_lia|].
  exists b, (o + 1), blk. unfold blk_hi. repeat split; [assumption|lia].
Qed.

Lemma wikipedia_loop_ends m fuel key c h :
  mem_wf m -> wikipedia_inv m (key, c, h) m ->
  (wikipedia_variant (key, c, h) m <= fuel)%nat ->
  ends (wikipedia_loop fuel key c h) m (byte_result m) genuine.
Proof.
  intros Hwf Hi Hf. unfold ends. rewrite wikipedia_loop_while.
  apply (while_ends _ _ _ (wikipedia_inv m) _ _ wikipedia_variant); try assumption.
  - intros st m1. now apply wikipedia_body_ok.
  - apply wikipedia_exit_ok.
  - apply wikipedia_variant_pos.
Qed.

(** ** Invariant and variant of line 40 *)

Lemma rfc3074_body_ok key m0 st m :
  rfc3074_inv m0 st m -> rfc3074_cond st = true ->
  ends (rfc3074_body key st) m
    (fun st' m' => rfc3074_inv m0 st' m' /\
                   (rfc3074_variant st' m' < rfc3074_variant st m)%nat) genuine.
Proof.
  destruct st as [i h]. intros (-> & Hh & Hi) Hc%Z.ltb_lt. cbn [rfc3074_body]. cbv zeta.
  rewrite size_wrap_small by lia.
  ends_step (apply load_char_ends) as c m1 (-> & _).
  ends_step (apply T_read_ends) as t m1 [-> Ht].
  apply ends_ret. cbn [rfc3074_inv rfc3074_variant].
  split; [split; [reflexivity|split; [assumption|lia]]|lia].
Qed.

Lemma rfc3074_exit_ok m0 st m :
  rfc3074_inv m0 st m -> rfc3074_cond st = false -> byte_result m0 (rfc3074_exit st) m.
Proof. destruct st as [i h]. now intros (-> & Hh & _) _. Qed.

Lemma rfc3074_variant_pos m0 st m :
  rfc3074_inv m0 st m -> rfc3074_cond st = true -> (0 < rfc3074_variant st m)%nat.
Proof. destruct st as [i h]. intros _ Hc%Z.ltb_lt. cbn. lia. Qed.

Lemma rfc3074_loop_ends m key fuel i h :
  rfc3074_inv m (i, h) m -> (Z.to_nat i <= fuel)%nat ->
  ends (rfc3074_loop fuel key i h) m (byte_result m) genuine.
Proof.
  intros Hi Hf. unfold ends. rewrite rfc3074_loop_while.
  apply (while_ends _ _ _ (rfc3074_inv m) _ _ rfc3074_variant); try assumption.
  - apply rfc3074_body_ok.
  - apply rfc3074_exit_ok.
  - apply rfc3074_variant_pos.
Qed.

(** ** Invariant and variant of line 66 *)

Lemma original_body_ok key hash m0 len i m :
  original_inv m0 len i m -> original_cond len i = true ->
  ends (original_body key hash i) m
    (fun i' m' => original_inv m0 len i' m' /\
                  (original_variant len i' m' < original_variant len i m)%nat) genuine.
Proof.
  intros ([Hwf Hs] & Hi & Hlen) Hc%Z.ltb_lt. unfold original_body.
  ends_step (apply load_ends) as h m1 (-> & _).
  ends_step (apply load_char_ends) as c m1 (-> & _).
  ends_step (apply T_read_ends) as t m1 [-> Ht].
  ends_step (now apply store_wf) as _ m1 [Hwf1 Hs1].
  apply ends_ret. rewrite size_wrap_small by lia. unfold original_inv, kept, original_variant.
  repeat split; [assumption|congruence|lia ..].
Qed.

Lemma original_exit_ok m0 len i m :
  original_inv m0 len i m -> original_cond len i = false -> kept m0 (original_exit i) m.
Proof. now intros [H _] _. Qed.

Lemma original_variant_pos m0 len i m :
  original_inv m0 len i m -> original_cond len i = true ->
  (0 < original_variant len i m)%nat.
Proof. intros _ Hc%Z.ltb_lt. unfold original_variant. lia. Qed.

Lemma original_loop_ends key hash len fuel i m :
  mem_wf m -> 0 <= i -> len < 2 ^ size_bits -> (Z.to_nat (len - i) <= fuel)%nat ->
  ends (original_loop fuel key hash i len) m (kept m) genuine.
Proof.
  intros Hwf Hi Hlen Hf. unfold ends. rewrite original_loop_while.
  apply (while_ends _ _ _ (original_inv m len) _ _ (original_variant len)).
  - apply original_body_ok.
  - apply original_exit_ok.
  - apply original_variant_pos.
  - now repeat split.
  - exact Hf.
Qed.

(** ** The order of the operands *)

(** The two reads of [hash[i - 1] ^ key[i]] change nothing, so their
    order decides only which fault is met first. *)
Lemma original_body_order key hash i m :
  same_run (original_body key hash i m) (original_body_rl key hash i m).
Proof.
  unfold original_body, original_body_rl, bind.
  destruct (load (ptr_add hash _) m) as [[h m1]|f1] eqn:E1;
    destruct (load_char (ptr_add key i) m) as [[c m2]|f2] eqn:E2;
    try (pose proof (load_inv _ _ _ _ E1) as [-> _]);
    try (pose proof (load_char_inv _ _ _ _ E2) as [-> _]);
    rewrite ?E1, ?E2; try easy.
  destruct (lift _ m) as [[t m3]|f]; [|easy]. now destruct (store _ t m3) as [[u m4]|f].
Qed.

Lemma original_loop_order key hash len fuel i m :
  same_run (original_loop fuel key hash i len m)
           (while (original_cond len) (original_body_rl key hash) original_exit fuel i m).
Proof. rewrite original_loop_while. apply while_same_run, original_body_order. Qed.

(** ** What the invariants and variants give *)

Lemma wikipedia_machine_sn m st : mem_wf m -> wikipedia_inv m st m -> sn wikipedia_step (Run st m).
Proof.
  intros Hwf. apply (while_sn _ _ _ (wikipedia_inv m) (byte_result m) genuine wikipedia_variant).
  - intros st1 m1. now apply wikipedia_body_ok.
  - apply wikipedia_exit_ok.
Qed.

Lemma wikipedia_machine_ends m st :
  mem_wf m -> wikipedia_inv m st m ->
  exists c, rtc wikipedia_step (Run st m) c /\ final c = true /\
            conf_ok (wikipedia_inv m) (byte_result m) genuine c.
Proof.
  intros Hwf. apply (while_halts _ _ _ _ _ _ wikipedia_variant).
  - intros st1 m1. now apply wikipedia_body_ok.
  - apply wikipedia_exit_ok.
Qed.

Lemma rfc3074_machine_ends key m st :
  rfc3074_inv m st m ->
  sn (rfc3074_step key) (Run st m) /\
  exists c, rtc (rfc3074_step key) (Run st m) c /\ final c = true /\
            conf_ok (rfc3074_inv m) (byte_result m) genuine c.
Proof.
  intros Hi. split.
  - revert Hi. apply (while_sn _ _ _ _ (byte_result m) genuine rfc3074_variant).
    + apply rfc3074_body_ok.
    + apply rfc3074_exit_ok.
  - revert Hi. apply (while_halts _ _ _ _ _ _ rfc3074_variant).
    + apply rfc3074_body_ok.
    + apply rfc3074_exit_ok.
Qed.

(** [phash_rfc3074] computes the configuration in which the machine of
    line 40, started with [i = len] and [hash = len], ends. *)
Lemma phash_rfc3074_machine m key len cfg :
  mem_wf m -> strlen key m = Ok (len, m) ->
  rtc (rfc3074_step key) (Run (len, to_uchar len) m) cfg /\ final cfg = true <->
  cfg = outcome (phash_rfc3074 key m).
Proof.
  intros Hwf Hlen. unfold phash_rfc3074. rewrite (bind_ok _ _ _ _ _ Hlen). cbv zeta.
  destruct (ends_ok _ _ _ _ _ _ (strlen_ends key m Hwf) Hlen) as [_ Hr].
  rewrite rfc3074_loop_while.
  apply (while_adequate _ _ _ (rfc3074_inv m) (byte_result m) genuine rfc3074_variant).
  - apply rfc3074_body_ok.
  - apply rfc3074_exit_ok.
  - apply rfc3074_variant_pos.
  - auto.
  - split; [reflexivity|]. split; [apply to_uchar_byte|assumption].
  - cbn. lia.
Qed.

(** The loop of [phash_original] computes the configuration in which the
    machine of line 66, started with [i = 0], ends. *)
Lemma original_loop_machine key hash len m cfg :
  mem_wf m -> 0 <= len < 2 ^ size_bits ->
  rtc (original_step key hash len) (Run 0 m) cfg /\ final cfg = true <->
  cfg = outcome (original_loop (Z.to_nat len) key hash 0 len m).
Proof.
  intros Hwf Hlen. rewrite original_loop_while.
  apply (while_adequate _ _ _ (original_inv m len) (kept m) genuine (original_variant len)).
  - apply original_body_ok.
  - apply original_exit_ok.
  - apply original_variant_pos.
  - auto.
  - repeat split; [assumption|lia ..].
  - unfold original_variant. lia.
Qed.

(** ** What the loop of line 66 reads, computes and writes *)

(** One iteration: the read of [hash[i - 1]], the read of [key[i]], the
    read of the table and the write of [hash[i]]. *)
Lemma original_body_run m kb ko hb i x h :
  mem_wf m -> 0 <= i ->
  cell m hb (i - 1) = Some (Some h) -> cell m kb (ko + i) = Some (Some x) ->
  is_Some (cell m hb i) ->
  original_body (Ptr kb ko) (Ptr hb 0) i m =
  if plain x then Ok (i + 1, mem_set m hb i (pearson_step pearson_T h x))
  else Fault TableIndex.
Proof.
  intros Hwf Hi Hh Hx [c Hc]. unfold original_body.
  pose proof (cell_wf_range _ _ _ _ Hwf Hc) as Hr. pose proof size_bits_min.
  pose proof size_pow_half as E2.
  pose proof (cell_wf_byte _ _ _ _ Hwf Hh). pose proof (cell_wf_byte _ _ _ _ Hwf Hx).
  rewrite ptr_add_pred by lia. rewrite (bind_ok _ _ _ _ _ (load_ok _ _ _ _ Hh)).
  erewrite ptr_add_cell by eassumption.
  rewrite (bind_ok _ _ _ _ _ (load_char_ok _ _ _ _ Hx)).
  destruct (plain x) eqn:Hp; [|now erewrite bind_lift_fault by (now apply T_read_not_plain)].
  erewrite bind_lift_ok by (now apply T_read_step).
  rewrite ptr_add_base by lia. erewrite bind_ok by (apply store_ok; eauto).
  now rewrite size_wrap_small by lia.
Qed.

Section line66.
Variables (m0 : mem) (kb : nat) (ko : Z) (hb : nat) (bs : list Z) (s : Z).
Hypothesis m0_wf : mem_wf m0.
Hypothesis apart : kb <> hb.
Hypothesis key_at : bytes_at m0 kb ko bs.
Hypothesis seed_at : cell m0 hb (-1) = Some (Some s).
Hypothesis room : forall k : nat, (k < length bs)%nat -> is_Some (cell m0 hb (Z.of_nat k)).

(** The cells the next iteration touches, in a memory of the invariant. *)
Lemma original_state_cells i m x :
  original_state m0 hb s bs i m -> bs !! Z.to_nat i = Some x ->
  mem_wf m /\
  cell m hb (i - 1) = Some (Some (pearson_fold pearson_T s (take (Z.to_nat i) bs))) /\
  cell m kb (ko + i) = Some (Some x) /\ is_Some (cell m hb i).
Proof.
  intros (Hi & _ & ->) Hx. pose proof (lookup_lt_Some _ _ _ Hx) as Hlt.
  pose proof (bytes_at_bytes _ _ _ _ m0_wf key_at) as Hbs.
  assert (Hl : length (take (Z.to_nat i) bs) = Z.to_nat i) by (rewrite length_take; lia).
  assert (Hroom : forall k : nat, (k < length (hash_array pearson_T s (take (Z.to_nat i) bs)))%nat ->
            is_Some (cell m0 hb (0 + Z.of_nat k))).
  { intros k Hk. rewrite hash_array_length, Hl in Hk. apply room. lia. }
  split; [|split; [|split]].
  - apply mem_wf_write; [assumption|]. apply (hash_array_bytes pearson_T).
    + exact (cell_wf_byte _ _ _ _ m0_wf seed_at).
    + now apply Forall_take.
  - rewrite <- (hash_array_last_cell pearson_T m0 hb s (take (Z.to_nat i) bs) seed_at).
    + f_equal. lia.
    + intros k Hk. apply room. lia.
  - rewrite cell_mem_write_other by auto.
    replace i with (Z.of_nat (Z.to_nat i)) at 1 by lia. exact (bytes_at_lookup _ _ _ _ _ _ key_at Hx).
  - rewrite cell_mem_write_other; [|assumption|rewrite hash_array_length, Hl; lia].
    replace i with (Z.of_nat (Z.to_nat i)) by lia. now apply room.
Qed.

Lemma original_body_state i m :
  original_state m0 hb s bs i m -> original_cond (Z.of_nat (length bs)) i = true ->
  ends (original_body (Ptr kb ko) (Ptr hb 0) i) m
    (fun i' m' => original_state m0 hb s bs i' m' /\
                  (original_variant (Z.of_nat (length bs)) i' m' <
                   original_variant (Z.of_nat (length bs)) i m)%nat)
    (original_fault bs).
Proof.
  intros Hst Hc%Z.ltb_lt. pose proof Hst as (Hi & Hp & Em).
  destruct (lookup_lt_is_Some_2 bs (Z.to_nat i)) as [x Hx]; [lia|].
  destruct (original_state_cells i m x Hst Hx) as (Hwf & Hh & Hk & Hr).
  unfold ends. rewrite (original_body_run m kb ko hb i x _ Hwf (proj1 Hi) Hh Hk Hr).
  assert (Et : take (Z.to_nat (i + 1)) bs = take (Z.to_nat i) bs ++ [x]).
  { replace (Z.to_nat (i + 1)) with (S (Z.to_nat i)) by lia. now apply take_S_r. }
  destruct (plain x) eqn:Hpx.
  - split; [|unfold original_variant; lia]. split; [lia|]. rewrite Et, all_plain_snoc, Hp, Hpx.
    split; [reflexivity|]. rewrite hash_array_snoc, mem_write_app, hash_array_length, length_take, Em.
    cbn [mem_write]. do 3 f_equal. lia.
  - split; [reflexivity|]. rewrite <- (take_drop (Z.to_nat (i + 1)) bs), Et.
    unfold all_plain. rewrite !forallb_app. cbn [forallb]. rewrite Hpx.
    now rewrite andb_false_r.
Qed.

Lemma original_exit_state i m :
  original_state m0 hb s bs i m -> original_cond (Z.of_nat (length bs)) i = false ->
  original_done m0 hb s bs (original_exit i) m.
Proof.
  intros (Hi & Hp & Em) Hc%Z.ltb_ge. rewrite take_ge in Hp, Em by lia. now split.
Qed.

(** C23: what the loop of line 66 computes, at every moment.  Let [key]
    hold the bytes [bs], let [hash] be the base of another block with
    room for them, and let the byte [s] be readable below it.  Then in
    every configuration the machine reaches from [i = 0], [hash[0 .. i - 1]]
    holds the digests of the first [i] prefixes of the key from the seed
    [s], nothing else has changed, and the bytes read so far are plain;
    the loop leaves all the digests in [hash], and the one fault it can
    end in is the index of the table by a byte that is not plain. *)
Theorem original_machine_safe c :
  rtc (original_step (Ptr kb ko) (Ptr hb 0) (Z.of_nat (length bs))) (Run 0 m0) c ->
  conf_ok (original_state m0 hb s bs) (original_done m0 hb s bs) (original_fault bs) c.
Proof.
  apply (rtc_preserves _ _ _ _ _ _ (original_variant (Z.of_nat (length bs)))).
  - apply original_body_state.
  - apply original_exit_state.
  - split; [lia|]. now split.
Qed.

End line66.

(** ** The machines are safe, halt, and are what the functions compute *)

(** Along every execution of the machine of line 76 the
    configurations stay typed: in a running configuration [key] points
    into a block of the memory or one past its end and [hash] is a
    byte; a result is a byte; a fault is a fault of the program; the
    memory is never changed. *)
Theorem wikipedia_machine_safe m c c' :
  mem_wf m ->
  conf_ok (wikipedia_inv m) (byte_result m) genuine c ->
  rtc wikipedia_step c c' ->
  conf_ok (wikipedia_inv m) (byte_result m) genuine c'.
Proof.
  intros Hwf. apply (rtc_preserves _ _ _ _ _ _ wikipedia_variant).
  - intros st1 m1. now apply wikipedia_body_ok.
  - apply wikipedia_exit_ok.
Qed.

(** C24: the loop of [phash_wikipedia] halts whatever [key] points to:
    once the first byte was read every execution of the machine is
    finite, and it ends in a byte or in a fault of the program, with the
    memory unchanged. *)
Theorem phash_wikipedia_halts m key c :
  mem_wf m -> load_char key m = Ok (c, m) ->
  sn wikipedia_step (Run (ptr_add key 1, c, 0) m) /\
  exists cfg, rtc wikipedia_step (Run (ptr_add key 1, c, 0) m) cfg /\ final cfg = true /\
              conf_ok (wikipedia_inv m) (byte_result m) genuine cfg.
Proof.
  intros Hwf Hc. destruct (wikipedia_entry m key c m Hwf Hc) as (_ & Hi & _).
  split; [now apply wikipedia_machine_sn|now apply wikipedia_machine_ends].
Qed.

(** The loop of [phash_original] halts for every [key], [hash]
    and [len]: every execution of the machine from [i >= 0] is finite,
    and it ends with a well-formed memory of the same shape or in a fault
    of the program. *)
Theorem original_machine_halts key hash len i m :
  mem_wf m -> 0 <= i -> len < 2 ^ size_bits ->
  sn (original_step key hash len) (Run i m) /\
  exists cfg, rtc (original_step key hash len) (Run i m) cfg /\ final cfg = true /\
              conf_ok (original_inv m len) (kept m) genuine cfg.
Proof.
  intros Hwf Hi Hlen. assert (Hinv : original_inv m len i m) by now repeat split.
  split.
  - revert Hinv. apply (while_sn _ _ _ _ (kept m) genuine (original_variant len)).
    + apply original_body_ok.
    + apply original_exit_ok.
  - revert Hinv. apply (while_halts _ _ _ _ _ _ (original_variant len)).
    + apply original_body_ok.
    + apply original_exit_ok.
Qed.

(** C25: [phash_wikipedia] computes the configuration in which the
    machine of line 76 ends: the bound that [phash_wikipedia] puts on its
    loop cuts no execution short. *)
Theorem phash_wikipedia_machine m key c cfg :
  mem_wf m -> load_char key m = Ok (c, m) ->
  rtc wikipedia_step (Run (ptr_add key 1, c, 0) m) cfg /\ final cfg = true <->
  cfg = outcome (phash_wikipedia key m).
Proof.
  intros Hwf Hc. destruct (wikipedia_entry m key c m Hwf Hc) as (_ & Hi & Hv).
  unfold phash_wikipedia. cbv zeta. rewrite (bind_ok _ _ _ _ _ Hc), bind_gets.
  rewrite wikipedia_loop_while.
  apply (while_adequate _ _ _ (wikipedia_inv m) (byte_result m) genuine wikipedia_variant);
    [|apply wikipedia_exit_ok|apply wikipedia_variant_pos|auto ..].
  intros st1 m1. now apply wikipedia_body_ok.
Qed.

End machine.

(** ** Witnesses: the key "abc" on two machines *)

Lemma wikipedia_machine_safe_witness :
  conf_ok (wikipedia_inv abc) (byte_result abc) genuine
    (outcome (while wikipedia_cond (@wikipedia_body x86_64) wikipedia_exit 3
                (Ptr 0 1, 97, 0) abc)).
Proof.
  apply (@wikipedia_machine_safe x86_64 _ abc (Run (Ptr 0 1, 97, 0) abc)).
  - by_compute.
  - split; [reflexivity|]. split; [byte_lia|].
    exists 0%nat, 1, (string_block [97; 98; 99]). repeat split. vm_compute. discriminate.
  - apply while_rtc. by_compute.
Defined.

Lemma original_machine_safe_witness :
  let m := abc ++ [@fresh_block x86_64 3] in
  conf_ok (@original_state x86_64 m 1 0 [97; 98; 99]) (@original_done x86_64 m 1 0 [97; 98; 99])
    (@original_fault x86_64 [97; 98; 99])
    (outcome (while (original_cond 3) (@original_body x86_64 (Ptr 0 0) (Ptr 1 0))
                original_exit 3 0 m)).
Proof.
  intros m.
  apply (@original_machine_safe x86_64 _ m 0 0 1 [97; 98; 99] 0);
    [by_compute|discriminate|by_compute|reflexivity| |apply while_rtc; by_compute].
  intros k Hk. cbn in Hk. do 3 (destruct k as [|k]; [by_compute|]). lia.
Defined.

Lemma phash_wikipedia_halts_witness :
  sn (@wikipedia_step aarch64) (Run (@ptr_add aarch64 (Ptr 0 0) 1, 97, 0) abc) /\
  exists cfg,
    rtc (@wikipedia_step aarch64) (Run (@ptr_add aarch64 (Ptr 0 0) 1, 97, 0) abc) cfg /\
    final cfg = true /\ conf_ok (wikipedia_inv abc) (byte_result abc) genuine cfg.
Proof. apply (@phash_wikipedia_halts aarch64 _ abc (Ptr 0 0) 97); [by_compute|reflexivity]. Defined.

Lemma original_machine_halts_witness :
  let m := abc ++ [@fresh_block micro8 3] in
  sn (@original_step micro8 (Ptr 0 0) (Ptr 1 0) 3) (Run 0 m) /\
  exists cfg,
    rtc (@original_step micro8 (Ptr 0 0) (Ptr 1 0) 3) (Run 0 m) cfg /\
    final cfg = true /\ conf_ok (@original_inv micro8 m 3) (@kept micro8 m) genuine cfg.
Proof.
  intros m. apply (@original_machine_halts micro8 (Ptr 0 0) (Ptr 1 0) 3 0 m);
    [by_compute|lia|reflexivity].
Defined.

Lemma phash_wikipedia_machine_witness :
  rtc (@wikipedia_step x86_64) (Run (@ptr_add x86_64 (Ptr 0 0) 1, 97, 0) abc) (Done 5 abc) /\
  final (Done (St := ptr * Z * Z) 5 abc) = true <->
  Done (St := ptr * Z * Z) 5 abc = outcome (@phash_wikipedia x86_64 (Ptr 0 0) abc).
Proof. apply (@phash_wikipedia_machine x86_64 _ abc (Ptr 0 0) 97); [by_compute|reflexivity]. Defined.
