(* ===== verification/Total.v ===== *)
(** * Total: every run ends, whatever the key points to

    [Refine] describes the runs on C strings.  Here the pointer is
    arbitrary: it may be null, dangling, or point into a block that holds
    no terminator.  On every well-formed memory each of the four functions
    still ends, in a value or in a genuine fault, never by exhausting the
    fuel of a loop: the bounds the definitions of [Hasher] pass to their
    loops are enough for every run, by the variants of [Machine].  The
    same judgements give what a run keeps: [phash_wikipedia] and
    [phash_rfc3074] leave the memory as it was, [phash_original] and
    [phash16] leave it well formed with as much of the heap handed out as
    before ([returned]), and the values are in the range of their types. *)

From Stdlib Require Import ZArith Lia List.
From stdpp Require Import base tactics option list.
From S2P Require Import Prelude Platform CInt Table Spec Memory Outcome Loop Hasher Machine.

#[local] Open Scope Z_scope.

(** The memory of the examples: one static object holding "abc". *)
#[local] Abbreviation abc := [string_block [97; 98; 99]].

Section total.
Context {P : Platform} `{!PlatformOk P}.

(** What a call that returns leaves: a well-formed memory with at most
    one block more, the block freed, as much of the heap handed out as
    before. *)
Definition returned (m m' : mem) : Prop :=
  mem_wf m' /\ (length m <= length m' <= S (length m))%nat /\ heap_used m' = heap_used m.

(** ** The readers *)

Lemma phash_wikipedia_ends m key :
  mem_wf m -> ends (phash_wikipedia key) m (byte_result m) genuine.
Proof.
  intros Hwf. unfold phash_wikipedia. cbv zeta.
  ends_step (apply ends_keep, load_char_ends) as c m1 [_ Hc].
  destruct (wikipedia_entry m key c m1 Hwf Hc) as (-> & Hi & Hv).
  change (ends (wikipedia_loop (span key m) (ptr_add key 1) c 0) m (byte_result m) genuine).
  now apply wikipedia_loop_ends.
Qed.

Lemma phash_rfc3074_ends m key :
  mem_wf m -> ends (phash_rfc3074 key) m (byte_result m) genuine.
Proof.
  intros Hwf. unfold phash_rfc3074.
  ends_step (now apply strlen_ends) as len m1 [-> Hlen]. cbv zeta.
  apply rfc3074_loop_ends; [|lia]. split; [reflexivity|]. split; [apply to_uchar_byte|lia].
Qed.

(** ** The functions that allocate *)

Lemma malloc_ends n m :
  mem_wf m ->
  ends (malloc n) m
    (fun p m' => mem_wf m' /\
       (p = Null /\ m' = m \/ p = Ptr (length m) 0 /\ m' = m ++ [fresh_block n])) genuine.
Proof.
  intros Hwf. eapply ends_weaken; [now apply malloc_wf| |auto].
  intros p m' [Hwf' H]. split; [assumption|tauto].
Qed.

Lemma phash_original_ends m key :
  mem_wf m ->
  ends (phash_original key) m (fun r m' => returned m m' /\ is_byte r) genuine.
Proof.
  intros Hwf. unfold phash_original.
  ends_step (now apply strlen_ends) as len m0 [-> Hlen].
  ends_step (now apply malloc_ends) as hash m1 [Hwf1 Hm1].
  ends_step (apply original_loop_ends; try assumption; lia) as _ m2 [Hwf2 Hs2].
  ends_step (apply load_ends) as r m3 (-> & b & o & _ & Hc).
  ends_step (exact (malloc_free_ends _ _ _ _ _ Hm1 Hwf2 Hs2)) as u m3 Hr.
  apply ends_ret. split; [exact Hr|exact (cell_wf_byte _ _ _ _ Hwf2 Hc)].
Qed.

Lemma phash16_ends m key :
  mem_wf m ->
  ends (phash16 key) m (fun r m' => returned m m' /\ 0 <= r < 65536) genuine.
Proof.
  intros Hwf. unfold phash16.
  ends_step (now apply strlen_ends) as len m0 [-> Hlen].
  ends_step (now apply malloc_ends) as buffer m1 [Hwf1 Hm1].
  ends_step (now apply memcpy_wf) as _ m2 [Hwf2 Hs2].
  ends_step (apply store_wf; [assumption|apply to_char_byte]) as _ m3 [Hwf3 Hs3].
  ends_step (now apply phash_wikipedia_ends) as h1 m4 [-> Hh1].
  ends_step (apply load_char_ends) as c m4 (-> & _).
  ends_step (apply lift_ends, int_add_fault) as s m4 ->.
  ends_step (apply lift_ends, int_rem_fault) as r m4 ->.
  ends_step (apply store_wf; [assumption|apply to_char_byte]) as _ m4 [Hwf4 Hs4].
  ends_step (now apply phash_wikipedia_ends) as h2 m5 [-> Hh2].
  ends_step (apply (malloc_free_ends _ _ _ _ _ Hm1 Hwf4); congruence) as u m5 Hr.
  ends_step (apply lift_ends, int_shl_fault) as hi m6 ->.
  ends_step (apply lift_ends, int_add_fault) as sum m6 ->.
  apply ends_ret. split; [exact Hr|apply to_ushort_range].
Qed.

(** ** The four functions are total *)

(** C20: on every well-formed memory and for every pointer,
    [phash_wikipedia] ends without exhausting the bound of its loop; a
    value it returns is a byte and the memory is unchanged. *)
Theorem phash_wikipedia_total m key :
  mem_wf m ->
  phash_wikipedia key m <> Fault OutOfFuel /\
  forall r m', phash_wikipedia key m = Ok (r, m') -> m' = m /\ is_byte r.
Proof. intros Hwf. now apply ends_genuine, phash_wikipedia_ends. Qed.

(** C21: on every well-formed memory and for every pointer,
    [phash_rfc3074] ends without exhausting the bounds of its loops; a
    value it returns is a byte and the memory is unchanged. *)
Theorem phash_rfc3074_total m key :
  mem_wf m ->
  phash_rfc3074 key m <> Fault OutOfFuel /\
  forall r m', phash_rfc3074 key m = Ok (r, m') -> m' = m /\ is_byte r.
Proof. intros Hwf. now apply ends_genuine, phash_rfc3074_ends. Qed.

(** C19: on every well-formed memory and for every pointer,
    [phash_original] ends without exhausting the bounds of its loops; when
    it returns, the memory is well formed, has at most one block more,
    as much of the heap is handed out as before the call, and the value
    is a byte. *)
Theorem phash_original_total m key :
  mem_wf m ->
  phash_original key m <> Fault OutOfFuel /\
  forall r m', phash_original key m = Ok (r, m') ->
    mem_wf m' /\ (length m <= length m' <= S (length m))%nat /\
    heap_used m' = heap_used m /\ is_byte r.
Proof.
  intros Hwf. destruct (ends_genuine _ _ _ (phash_original_ends m key Hwf)) as [Hne H].
  split; [exact Hne|]. intros r m' E. destruct (H r m' E) as [(? & ? & ?) ?]. auto.
Qed.

(** C18: on every well-formed memory and for every pointer, [phash16]
    ends without exhausting the bounds of its loops; when it returns, the
    memory is well formed, has at most one block more, as much of the
    heap is handed out as before the call, and the value fits 16 bits. *)
Theorem phash16_total m key :
  mem_wf m ->
  phash16 key m <> Fault OutOfFuel /\
  forall r m', phash16 key m = Ok (r, m') ->
    mem_wf m' /\ (length m <= length m' <= S (length m))%nat /\
    heap_used m' = heap_used m /\ 0 <= r < 65536.
Proof.
  intros Hwf. destruct (ends_genuine _ _ _ (phash16_ends m key Hwf)) as [Hne H].
  split; [exact Hne|]. intros r m' E. destruct (H r m' E) as [(? & ? & ?) ?]. auto.
Qed.

End total.

(** ** Witnesses: a dangling pointer, a pointer past the terminator, NULL *)

Lemma phash_wikipedia_total_witness :
  @phash_wikipedia x86_64 (Ptr 0 4) abc <> Fault OutOfFuel /\
  forall r m', @phash_wikipedia x86_64 (Ptr 0 4) abc = Ok (r, m') -> m' = abc /\ is_byte r.
Proof. apply (@phash_wikipedia_total x86_64 _ abc (Ptr 0 4)). by_compute. Defined.

Lemma phash_rfc3074_total_witness :
  @phash_rfc3074 x86_64 (Ptr 7 0) abc <> Fault OutOfFuel /\
  forall r m', @phash_rfc3074 x86_64 (Ptr 7 0) abc = Ok (r, m') -> m' = abc /\ is_byte r.
Proof. apply (@phash_rfc3074_total x86_64 _ abc (Ptr 7 0)). by_compute. Defined.

Lemma phash_original_total_witness :
  @phash_original micro8 Null abc <> Fault OutOfFuel /\
  forall r m', @phash_original micro8 Null abc = Ok (r, m') ->
    @mem_wf micro8 m' /\ (length abc <= length m' <= S (length abc))%nat /\
    heap_used m' = heap_used abc /\ is_byte r.
Proof. apply (@phash_original_total micro8 _ abc Null). by_compute. Defined.

Lemma phash16_total_witness :
  @phash16 aarch64 (Ptr 0 2) abc <> Fault OutOfFuel /\
  forall r m', @phash16 aarch64 (Ptr 0 2) abc = Ok (r, m') ->
    @mem_wf aarch64 m' /\ (length abc <= length m' <= S (length abc))%nat /\
    heap_used m' = heap_used abc /\ 0 <= r < 65536.
Proof. apply (@phash16_total aarch64 _ abc (Ptr 0 2)). by_compute. Defined.
