(* ===== verification/Conform.v ===== *)
(** * Conform: the C functions against spec.md

    Where each function of [Hasher] returns the value the specification of
    [Spec] gives ([hashRFC3074], [hashOriginal], [hash16]), and where it
    returns something else: keys longer than 255 bytes in
    [phash_rfc3074], the allocator byte that seeds [phash_original], the
    first byte 254 and the signed [char] in [phash16], the width of [int].
    [phash16_outcome] gives the behaviour of [phash16] on every C string
    in closed form.  Then what the digests guarantee as hashes (every byte
    of the key matters, every digest is reached, the digest depends on
    the bytes of the key only), and what a run leaves behind in memory
    ([scratch_freed]). *)

From Stdlib Require Import ZArith Lia List.
From stdpp Require Import base tactics option list.
From S2P Require Import Prelude Platform CInt Table Spec Memory Outcome Hasher Refine.

#[local] Open Scope Z_scope.

(** The memory of the examples: one static object holding "abc". *)
#[local] Abbreviation abc := [string_block [97; 98; 99]].

Section conform.
Context {P : Platform} `{!PlatformOk P}.

#[local] Abbreviation fold := (pearson_fold pearson_T).
#[local] Abbreviation step := (pearson_step pearson_T).
#[local] Abbreviation hashW := (hashWikipedia pearson_T).

(** What a call that allocates a scratch block and frees it leaves of the
    memory [m]: the blocks of [m] as they were, and one more block, dead. *)
Definition scratch_freed (m m' : mem) : Prop :=
  length m' = S (length m) /\ take (length m) m' = m /\
  exists blk, m' !! length m = Some blk /\ blk_live blk = false.

(** What the comment of line 71 says of [phash_wikipedia] and
    [phash_original]: that they are equal.  Two functions are equal on a
    key when they return the same value or end in the same fault. *)
Definition same_digest (f g : ptr -> cm mem Z) (m : mem) (key : ptr) : Prop :=
  eval (f key) m = eval (g key) m.

(** What [phash16] does on a C string [bs], as a function of the key, the
    platform and what is left of the heap: the faults in the order in
    which the run meets them, and the value. *)
Definition phash16_outcome (m : mem) (bs : list Z) : result Z :=
  let n := Z.of_nat (length bs) in
  if malloc_null m n then Fault NullDeref
  else if malloc_slack n =? 0 then Fault OutOfBounds
  else match bs with
       | [] => Fault (if malloc_slack 0 =? 1 then OutOfBounds else Uninitialised)
       | b0 :: rest =>
           if all_plain bs && all_plain (second_key bs) then
             let h1 := hashWikipedia pearson_T bs in
             let h2 := hashWikipedia pearson_T (second_key bs) in
             if in_int (h1 * 256 + h2) then Ok (h1 * 256 + h2) else Fault IntOverflow
           else Fault TableIndex
       end.

(** ** Keys *)

Lemma cstring_is_key m key bs : cstring_at m key bs -> is_key bs.
Proof. destruct key; [intros []|intros [Hk _]; exact Hk]. Qed.

Lemma cstring_bytes m key bs : cstring_at m key bs -> Forall is_byte bs.
Proof. intros H. eapply is_key_bytes, cstring_is_key, H. Qed.

Lemma all_plain_unsigned bs : char_signed = false -> all_plain bs = true.
Proof.
  intros Hu. unfold all_plain. apply forallb_forall. intros x _.
  unfold plain. now rewrite Hu.
Qed.

Lemma all_plain_ascii bs : Forall (fun b => b < 128) bs -> all_plain bs = true.
Proof.
  intros H. unfold all_plain. apply forallb_forall. intros x Hx.
  rewrite List.Forall_forall in H. specialize (H x Hx).
  unfold plain. apply orb_true_iff. right. now apply Z.ltb_lt.
Qed.

Lemma all_plain_app bs cs : all_plain (bs ++ cs) = all_plain bs && all_plain cs.
Proof. apply forallb_app. Qed.

(** The specification's [hashOriginal] and [hashWikipedia] agree on every
    key of the domain of the former. *)
Lemma hashOriginal_wikipedia T bs :
  bs <> [] -> hashOriginal T bs = Some (hashWikipedia T bs).
Proof.
  intros Hne. destruct bs as [|b bs]; [contradiction|].
  unfold hashOriginal. f_equal. now apply hash_array_last.
Qed.

Lemma fold_seed_differs s bs :
  is_byte s -> s <> 0 -> Forall is_byte bs -> fold s bs <> hashW bs.
Proof.
  intros Hs Hne Hbs E. apply Hne.
  apply (pearson_fold_inj_seed pearson_T s 0 bs); [assumption|byte_lia|assumption|exact E].
Qed.

(** ** phash_rfc3074 *)

(** C10: for a key of at most 255 bytes, all of them plain,
    [phash_rfc3074] returns the value of the specification's
    [hashRFC3074] and leaves the memory as it was. *)
Theorem phash_rfc3074_meets_spec m key bs h :
  mem_wf m -> cstring_at m key bs -> all_plain bs = true ->
  hashRFC3074 pearson_T bs = Some h ->
  phash_rfc3074 key m = Ok (h, m).
Proof.
  intros Hwf Hs Hp Hh. destruct key as [|b o]; [destruct Hs|].
  rewrite (phash_rfc3074_run m b o bs Hwf Hs), Hp.
  unfold hashRFC3074 in Hh. destruct (decide _) as [Hle|]; [|discriminate].
  injection Hh as <-. rewrite to_uchar_id by byte_lia. reflexivity.
Qed.

(** C30: for a key longer than 255 bytes the specification has no value
    ([InvalidInput]), while [phash_rfc3074] returns one: the length is
    silently reduced modulo 256 when it is stored in [hash] (line 39). *)
Theorem phash_rfc3074_long_key m key bs :
  mem_wf m -> cstring_at m key bs -> all_plain bs = true ->
  (255 < length bs)%nat ->
  hashRFC3074 pearson_T bs = None /\
  phash_rfc3074 key m = Ok (fold (Z.of_nat (length bs) mod 256) (rev bs), m).
Proof.
  intros Hwf Hs Hp Hlen. destruct key as [|b o]; [destruct Hs|]. split.
  - unfold hashRFC3074. destruct (decide _); [lia|reflexivity].
  - now rewrite (phash_rfc3074_run m b o bs Hwf Hs), Hp.
Qed.

(** ** phash_original *)

(** C9: where [malloc] succeeds and the byte below the block it returns
    reads 0, [phash_original] returns the value of the specification's
    [hashOriginal] for a non-empty key of plain bytes. *)
Theorem phash_original_meets_spec m key bs h :
  mem_wf m -> cstring_at m key bs -> all_plain bs = true ->
  malloc_null m (Z.of_nat (length bs)) = false ->
  last (malloc_header (Z.of_nat (length bs))) = Some 0 ->
  hashOriginal pearson_T bs = Some h ->
  eval (phash_original key) m = Ok h.
Proof.
  intros Hwf Hs Hp Hn Hl Hh. destruct key as [|b o]; [destruct Hs|].
  unfold eval. rewrite (phash_original_run m b o bs Hwf Hs). cbv zeta.
  rewrite Hn, Hl, Hp. cbn [result_map fst]. f_equal.
  destruct bs as [|x bs]; [discriminate|].
  rewrite hashOriginal_wikipedia in Hh by discriminate. now injection Hh.
Qed.

(** The value of [phash_original] where the byte below the block reads
    [s] and [s] is not 0. *)
Lemma phash_original_differs m key bs s :
  mem_wf m -> cstring_at m key bs -> all_plain bs = true ->
  malloc_null m (Z.of_nat (length bs)) = false ->
  last (malloc_header (Z.of_nat (length bs))) = Some s -> s <> 0 ->
  exists h, eval (phash_original key) m = Ok h /\ h <> hashW bs.
Proof.
  intros Hwf Hs Hp Hn Hl Hne. destruct key as [|b o]; [destruct Hs|].
  exists (fold s bs). split.
  - unfold eval. rewrite (phash_original_run m b o bs Hwf Hs). cbv zeta.
    now rewrite Hn, Hl, Hp.
  - apply fold_seed_differs; [|assumption|apply (cstring_bytes _ _ _ Hs)].
    pose proof (malloc_header_bytes (Z.of_nat (length bs))) as Hb.
    rewrite List.Forall_forall in Hb. apply Hb.
    apply last_Some in Hl as [pre ->]. apply in_or_app. right. now left.
Qed.

(** C31: where the byte below the block reads [s] and [s] is not 0, the
    value [phash_original] returns is not the Wikipedia hash of the key:
    the digest depends on the allocator, not on the key alone. *)
Theorem phash_original_depends_on_allocator m key bs s :
  mem_wf m -> cstring_at m key bs -> all_plain bs = true ->
  malloc_null m (Z.of_nat (length bs)) = false ->
  last (malloc_header (Z.of_nat (length bs))) = Some s -> s <> 0 ->
  exists h, eval (phash_original key) m = Ok h /\ h <> hashW bs.
Proof. apply phash_original_differs. Qed.

(** ** The digests as hashes *)

Lemma rev_middle {A} (pre suf : list A) a :
  rev (pre ++ a :: suf) = rev suf ++ a :: rev pre.
Proof. rewrite rev_app_distr. cbn [rev]. now rewrite <- app_assoc. Qed.

Lemma length_middle {A} (pre suf : list A) a b :
  length (pre ++ a :: suf) = length (pre ++ b :: suf).
Proof. now rewrite !length_app. Qed.

(** Two keys that differ in exactly one byte never have the same
    digest, wherever in memory they lie: neither under [phash_wikipedia]
    nor under [phash_rfc3074]. *)
Theorem digest_avalanche m1 m2 k1 k2 pre a b suf :
  mem_wf m1 -> mem_wf m2 ->
  cstring_at m1 k1 (pre ++ a :: suf) -> cstring_at m2 k2 (pre ++ b :: suf) ->
  all_plain (pre ++ a :: suf) = true -> all_plain (pre ++ b :: suf) = true ->
  a <> b ->
  eval (phash_wikipedia k1) m1 <> eval (phash_wikipedia k2) m2 /\
  eval (phash_rfc3074 k1) m1 <> eval (phash_rfc3074 k2) m2.
Proof.
  intros Hw1 Hw2 Hs1 Hs2 Hp1 Hp2 Hne. unfold eval.
  destruct k1 as [|b1 o1]; [destruct Hs1|]. destruct k2 as [|b2 o2]; [destruct Hs2|].
  rewrite (phash_wikipedia_run m1 b1 o1 _ Hw1 Hs1), (phash_wikipedia_run m2 b2 o2 _ Hw2 Hs2).
  rewrite (phash_rfc3074_run m1 b1 o1 _ Hw1 Hs1), (phash_rfc3074_run m2 b2 o2 _ Hw2 Hs2).
  rewrite Hp1, Hp2, !rev_middle, (length_middle pre suf a b). cbn [result_map fst].
  apply cstring_bytes in Hs1, Hs2.
  apply Forall_app in Hs1 as [Hpre Ha], Hs2 as [_ Hb].
  apply Forall_cons in Ha as [Ha Hsuf], Hb as [Hb _].
  split; intros [= E]; revert E; apply (pearson_fold_differs pearson_T);
    try assumption; try (now apply Forall_rev); first [byte_lia|apply to_uchar_byte].
Qed.

(** Every digest is reached from every prefix: the last byte
    [hashW bs xor T_inv d] takes the key [bs] to the digest [d]. *)
Theorem phash_wikipedia_reaches m key bs d :
  let x := Z.lxor (hashW bs) (T_inv pearson_T d) in
  mem_wf m -> cstring_at m key (bs ++ [x]) -> all_plain (bs ++ [x]) = true ->
  is_byte d ->
  phash_wikipedia key m = Ok (d, m).
Proof.
  intros x Hwf Hs Hp Hd. destruct key as [|b o]; [destruct Hs|].
  rewrite (phash_wikipedia_run m b o _ Hwf Hs), Hp. do 2 f_equal.
  unfold hashWikipedia. rewrite pearson_fold_snoc.
  apply cstring_bytes, Forall_app in Hs as [Hbs _].
  apply (pearson_step_reach pearson_T); [|exact Hd].
  now apply hashWikipedia_byte.
Qed.

(** ** phash16 *)

Lemma c_bump_plain b : is_byte b -> plain b = true -> c_bump b = bump b.
Proof.
  intros Hb Hp. unfold c_bump, bump, to_char. rewrite (plain_char_val b Hp).
  rewrite Z.rem_mod_nonneg by byte_lia. apply Z.mod_small.
  pose proof (Z.mod_pos_bound (b + 1) 255). lia.
Qed.

Lemma second_key_bump b rest :
  is_byte b -> plain b = true -> b <> 254 ->
  second_key (b :: rest) = bump b :: rest.
Proof.
  intros Hb Hp Hne. unfold second_key. rewrite (c_bump_plain b Hb Hp).
  destruct (Z.eqb_spec (bump b) 0) as [E|]; [|reflexivity].
  exfalso. unfold bump in E. revert E. unfold is_byte in Hb.
  Z.div_mod_to_equations. lia.
Qed.

Lemma second_key_254 rest : plain 254 = true -> second_key (254 :: rest) = [].
Proof.
  intros Hp. unfold second_key. now rewrite (c_bump_plain 254) by (byte_lia || assumption).
Qed.

Lemma in_int_ushort z : 16 < int_bits -> 0 <= z < 65536 -> in_int z = true.
Proof.
  intros Hb Hz. apply in_int_spec. unfold int_min, int_max.
  assert (2 ^ 16 <= 2 ^ (int_bits - 1)) by (apply Z.pow_le_mono_r; lia).
  change (2 ^ 16) with 65536 in *. lia.
Qed.

Lemma bytes_ushort h1 h2 : is_byte h1 -> is_byte h2 -> 0 <= h1 * 256 + h2 < 65536.
Proof. unfold is_byte. lia. Qed.

(** The run of [phash16] where [malloc] succeeds with slack, [int] is
    wider than 16 bits and both keys are plain. *)
Lemma phash16_value m b o b0 rest :
  mem_wf m -> cstring_at m (Ptr b o) (b0 :: rest) ->
  malloc_null m (Z.of_nat (length (b0 :: rest))) = false ->
  0 < malloc_slack (Z.of_nat (length (b0 :: rest))) ->
  16 < int_bits ->
  all_plain (b0 :: rest) = true -> all_plain (second_key (b0 :: rest)) = true ->
  eval (phash16 (Ptr b o)) m =
  Ok (hashW (b0 :: rest) * 256 + hashW (second_key (b0 :: rest))).
Proof.
  intros Hwf Hs Hn Hsl Hi Hp Hp2. unfold eval.
  pose proof (phash16_run m b o b0 rest Hwf Hs Hn Hsl) as E. cbv zeta in E.
  rewrite E, Hp, Hp2. cbn [andb].
  pose proof (cstring_is_key _ _ _ Hs) as Hk. apply is_key_cons in Hk as [_ Hk].
  rewrite in_int_ushort; [reflexivity|assumption|].
  apply bytes_ushort; apply hashWikipedia_byte, is_key_bytes;
    [apply (cstring_is_key _ _ _ Hs)|now apply second_key_is_key].
Qed.

(** C8: [phash16] returns the value of the specification's [hash16]
    for a non-empty key of plain bytes whose first byte is not 254 and
    stays plain when perturbed, where [malloc] succeeds with at least one
    byte of slack and [int] is wider than 16 bits: there [+] and [|]
    agree, and so do C's [%] and the mathematical remainder. *)
Theorem phash16_meets_spec m key b0 rest h :
  mem_wf m -> cstring_at m key (b0 :: rest) ->
  malloc_null m (Z.of_nat (length (b0 :: rest))) = false ->
  0 < malloc_slack (Z.of_nat (length (b0 :: rest))) ->
  16 < int_bits ->
  all_plain (b0 :: rest) = true -> plain (bump b0) = true -> b0 <> 254 ->
  hash16 pearson_T (b0 :: rest) = Some h ->
  eval (phash16 key) m = Ok h.
Proof.
  intros Hwf Hs Hn Hsl Hi Hp Hpb Hne [= <-]. destruct key as [|b o]; [destruct Hs|].
  pose proof (cstring_bytes _ _ _ Hs) as Hbs. apply Forall_cons in Hbs as [Hb0 Hrest].
  pose proof Hp as Hp'. rewrite all_plain_cons in Hp'. apply andb_true_iff in Hp' as [Hp0 Hpr].
  assert (E2 : second_key (b0 :: rest) = bump b0 :: rest) by now apply second_key_bump.
  rewrite (phash16_value m b o b0 rest) by
    (try assumption; rewrite E2, all_plain_cons, Hpb, Hpr; reflexivity).
  rewrite E2, lor_shiftl_byte; [reflexivity|].
  apply hashWikipedia_byte. constructor; [now apply bump_byte|assumption].
Qed.

(** C32: a key whose first byte is 254, on a platform where that byte
    is plain: the perturbed first byte is 0, so the second call of
    [phash_wikipedia] sees the empty string and the low byte of the result
    is 0.  The specification hashes the key with first byte 0 instead, so
    the two agree only when that hash happens to be 0. *)
Theorem phash16_first_byte_254 m key rest :
  mem_wf m -> cstring_at m key (254 :: rest) ->
  malloc_null m (Z.of_nat (length (254 :: rest))) = false ->
  0 < malloc_slack (Z.of_nat (length (254 :: rest))) ->
  16 < int_bits -> all_plain (254 :: rest) = true ->
  eval (phash16 key) m = Ok (hashW (254 :: rest) * 256) /\
  (hash16 pearson_T (254 :: rest) = Some (hashW (254 :: rest) * 256) <->
   hashW (0 :: rest) = 0).
Proof.
  intros Hwf Hs Hn Hsl Hi Hp. destruct key as [|b o]; [destruct Hs|].
  pose proof Hp as Hp'. rewrite all_plain_cons in Hp'. apply andb_true_iff in Hp' as [Hp0 _].
  pose proof (cstring_bytes _ _ _ Hs) as Hbs. apply Forall_cons in Hbs as [_ Hrest].
  split.
  - rewrite (phash16_value m b o 254 rest) by
      (try assumption; now rewrite second_key_254).
    rewrite second_key_254 by assumption. f_equal. apply Z.add_0_r.
  - unfold hash16. change (bump 254) with 0.
    rewrite lor_shiftl_byte by (apply hashWikipedia_byte; constructor; [byte_lia|assumption]).
    split; [intros [= E]|intros ->; f_equal]; lia.
Qed.

(** Where [char] is signed, a key that starts with the byte 127
    makes [phash16] fault: the perturbed first byte is 128, which the
    second call reads as -128 and uses in the table index. *)
Theorem phash16_signed_7f m key rest :
  mem_wf m -> cstring_at m key (127 :: rest) ->
  malloc_null m (Z.of_nat (length (127 :: rest))) = false ->
  0 < malloc_slack (Z.of_nat (length (127 :: rest))) ->
  char_signed = true ->
  phash16 key m = Fault TableIndex.
Proof.
  intros Hwf Hs Hn Hsl Hc. destruct key as [|b o]; [destruct Hs|].
  pose proof (phash16_run m b o 127 rest Hwf Hs Hn Hsl) as E. cbv zeta in E.
  rewrite E. replace (all_plain (second_key (127 :: rest))) with false;
    [now rewrite andb_false_r|].
  unfold second_key. rewrite c_bump_signed by (assumption || byte_lia).
  change ((127 + 1) mod 256 =? 0) with false. cbv iota.
  rewrite all_plain_cons. unfold plain at 1. now rewrite Hc.
Qed.

(** C33: where [int] has 16 bits, [phash16] faults whenever the first
    hash is 128 or more: [h1 << 8] does not fit [int]. *)
Theorem phash16_int16_overflow m key b0 rest :
  mem_wf m -> cstring_at m key (b0 :: rest) ->
  malloc_null m (Z.of_nat (length (b0 :: rest))) = false ->
  0 < malloc_slack (Z.of_nat (length (b0 :: rest))) ->
  int_bits = 16 ->
  all_plain (b0 :: rest) = true -> all_plain (second_key (b0 :: rest)) = true ->
  128 <= hashW (b0 :: rest) ->
  phash16 key m = Fault IntOverflow.
Proof.
  intros Hwf Hs Hn Hsl Hi Hp Hp2 Hh. destruct key as [|b o]; [destruct Hs|].
  pose proof (phash16_run m b o b0 rest Hwf Hs Hn Hsl) as E. cbv zeta in E.
  rewrite E, Hp, Hp2. cbn [andb].
  replace (in_int _) with false; [reflexivity|].
  symmetry. apply not_true_iff_false. rewrite in_int_spec. unfold int_max. rewrite Hi.
  change (2 ^ (16 - 1) - 1) with 32767.
  assert (is_byte (hashW (second_key (b0 :: rest)))) as Hb2; [|byte_lia].
  apply hashWikipedia_byte, is_key_bytes, second_key_is_key.
  apply cstring_is_key in Hs. now apply is_key_cons in Hs as [_ Hk].
Qed.

(** [phash16] returns no value for the empty key: [malloc(0)] gives
    NULL, or a block in which the second call of [phash_wikipedia] runs
    past the terminator that the perturbation overwrote. *)
Theorem phash16_empty_key m key :
  mem_wf m -> cstring_at m key [] ->
  exists f, phash16 key m = Fault f /\
            (f = NullDeref \/ f = OutOfBounds \/ f = Uninitialised).
Proof. destruct key as [|b o]; [intros _ []|]. apply phash16_empty. Qed.

(** What a run of [phash16] that returns has computed. *)
Lemma phash16_ok_inv m b o b0 rest r m' :
  mem_wf m -> cstring_at m (Ptr b o) (b0 :: rest) ->
  phash16 (Ptr b o) m = Ok (r, m') ->
  r = hashW (b0 :: rest) * 256 + hashW (second_key (b0 :: rest)) /\
  all_plain (b0 :: rest) && all_plain (second_key (b0 :: rest)) = true.
Proof.
  intros Hwf Hs.
  destruct (malloc_null m (Z.of_nat (length (b0 :: rest)))) eqn:Hn.
  { now rewrite (phash16_null m b o _ Hwf Hs Hn). }
  pose proof (malloc_slack_nonneg (Z.of_nat (length (b0 :: rest)))) as Hsl.
  destruct (Z.eq_dec (malloc_slack (Z.of_nat (length (b0 :: rest)))) 0) as [H0|Hpos].
  { now rewrite (phash16_overflow m b o _ Hwf Hs Hn H0). }
  pose proof (phash16_run m b o b0 rest Hwf Hs Hn ltac:(lia)) as E. cbv zeta in E.
  rewrite E. destruct (_ && _); [|discriminate].
  destruct (in_int _); [|discriminate]. intros E'. split; [congruence|reflexivity].
Qed.

Lemma second_hash_byte b0 rest :
  is_key (b0 :: rest) -> is_byte (hashW (second_key (b0 :: rest))).
Proof.
  intros [_ Hk]%is_key_cons. now apply hashWikipedia_byte, is_key_bytes, second_key_is_key.
Qed.

Lemma c_bump_neq b : is_byte b -> c_bump b <> b.
Proof.
  intros Hb. destruct char_signed eqn:Hc.
  - rewrite c_bump_signed by assumption. unfold is_byte in Hb.
    Z.div_mod_to_equations. lia.
  - rewrite c_bump_unsigned by assumption. now apply bump_neq.
Qed.

(** Of a value [phash16] returns, the high byte is the Wikipedia
    hash of the key and the low byte that of the key the second call
    reads. *)
Theorem phash16_structure m key b0 rest r m' :
  mem_wf m -> cstring_at m key (b0 :: rest) ->
  phash16 key m = Ok (r, m') ->
  r / 256 = hashW (b0 :: rest) /\ r mod 256 = hashW (second_key (b0 :: rest)).
Proof.
  intros Hwf Hs E. destruct key as [|b o]; [destruct Hs|].
  destruct (phash16_ok_inv m b o b0 rest r m' Hwf Hs E) as [-> _].
  apply bytes_split, second_hash_byte, (cstring_is_key _ _ _ Hs).
Qed.


(** ** The complete behaviour of phash16 *)

Lemma phash16_eval m b o bs :
  mem_wf m -> cstring_at m (Ptr b o) bs ->
  eval (phash16 (Ptr b o)) m = phash16_outcome m bs.
Proof.
  intros Hwf Hs. unfold eval, phash16_outcome. cbv zeta.
  destruct (malloc_null m (Z.of_nat (length bs))) eqn:Hn.
  { now rewrite (phash16_null m b o bs Hwf Hs Hn). }
  pose proof (malloc_slack_nonneg (Z.of_nat (length bs))) as Hsl.
  destruct (Z.eqb_spec (malloc_slack (Z.of_nat (length bs))) 0) as [H0|Hpos].
  { now rewrite (phash16_overflow m b o bs Hwf Hs Hn H0). }
  destruct bs as [|b0 rest].
  - change (Z.of_nat (length (@nil Z))) with 0 in *.
    now rewrite (phash16_empty_run m b o Hwf Hs Hn ltac:(lia)).
  - pose proof (phash16_run m b o b0 rest Hwf Hs Hn ltac:(lia)) as E. cbv zeta in E.
    rewrite E. destruct (_ && _); [|reflexivity]. now destruct (in_int _).
Qed.

(** C16: the value or fault of [phash16] on every C string, as a
    function of the key and the platform: NULL from [malloc], the write
    past a buffer without slack, the read past the terminator for the
    empty key, a byte that is not plain in either pass, the overflow of
    [int], and otherwise [h1 * 256 + h2]. *)
Theorem phash16_complete m key bs :
  mem_wf m -> cstring_at m key bs ->
  eval (phash16 key) m = phash16_outcome m bs.
Proof. destruct key as [|b o]; [intros _ []|]. apply phash16_eval. Qed.

(** ** Test vectors and determinism *)

(** The hash of a key of one byte [x] is the table entry
    [pearson_T[x]]; for the key "a" that is the entry 113 at index 97. *)
Theorem phash_wikipedia_one_byte m key x :
  mem_wf m -> cstring_at m key [x] -> plain x = true ->
  phash_wikipedia key m = Ok (T_at pearson_T x, m).
Proof.
  intros Hwf Hs Hp. destruct key as [|b o]; [destruct Hs|].
  rewrite (phash_wikipedia_run m b o _ Hwf Hs), all_plain_cons, Hp. reflexivity.
Qed.

(** For the empty key [phash_wikipedia] and [phash_rfc3074] return
    0, on every platform. *)
Theorem empty_key_digests m key :
  mem_wf m -> cstring_at m key [] ->
  phash_wikipedia key m = Ok (0, m) /\ phash_rfc3074 key m = Ok (0, m).
Proof.
  intros Hwf Hs. destruct key as [|b o]; [destruct Hs|]. split.
  - now rewrite (phash_wikipedia_run m b o _ Hwf Hs).
  - now rewrite (phash_rfc3074_run m b o _ Hwf Hs).
Qed.

Lemma digests_agree m1 m2 k1 k2 bs :
  mem_wf m1 -> mem_wf m2 -> cstring_at m1 k1 bs -> cstring_at m2 k2 bs ->
  eval (phash_wikipedia k1) m1 = eval (phash_wikipedia k2) m2 /\
  eval (phash_rfc3074 k1) m1 = eval (phash_rfc3074 k2) m2 /\
  (malloc_null m1 (Z.of_nat (length bs)) = malloc_null m2 (Z.of_nat (length bs)) ->
   eval (phash_original k1) m1 = eval (phash_original k2) m2 /\
   eval (phash16 k1) m1 = eval (phash16 k2) m2).
Proof.
  intros Hw1 Hw2 Hs1 Hs2.
  destruct k1 as [|b1 o1]; [destruct Hs1|]. destruct k2 as [|b2 o2]; [destruct Hs2|].
  rewrite (phash16_eval m1 b1 o1 bs Hw1 Hs1), (phash16_eval m2 b2 o2 bs Hw2 Hs2).
  unfold eval, phash16_outcome.
  rewrite (phash_wikipedia_run m1 b1 o1 bs Hw1 Hs1), (phash_wikipedia_run m2 b2 o2 bs Hw2 Hs2).
  rewrite (phash_rfc3074_run m1 b1 o1 bs Hw1 Hs1), (phash_rfc3074_run m2 b2 o2 bs Hw2 Hs2).
  rewrite (phash_original_run m1 b1 o1 bs Hw1 Hs1), (phash_original_run m2 b2 o2 bs Hw2 Hs2).
  cbv zeta. split; [now destruct (all_plain bs)|]. split; [now destruct (all_plain bs)|].
  intros ->. split; destruct (malloc_null m2 (Z.of_nat (length bs))),
    (last (malloc_header (Z.of_nat (length bs)))), (all_plain bs); reflexivity.
Qed.

(** C35: the digests depend on the bytes of the key only, not on where
    the key lies or on what else the memory holds; for the two functions
    that allocate, as long as [malloc] answers the same in both
    memories. *)
Theorem digests_location_independent m1 m2 k1 k2 bs :
  mem_wf m1 -> mem_wf m2 -> cstring_at m1 k1 bs -> cstring_at m2 k2 bs ->
  eval (phash_wikipedia k1) m1 = eval (phash_wikipedia k2) m2 /\
  eval (phash_rfc3074 k1) m1 = eval (phash_rfc3074 k2) m2 /\
  (malloc_null m1 (Z.of_nat (length bs)) = malloc_null m2 (Z.of_nat (length bs)) ->
   eval (phash_original k1) m1 = eval (phash_original k2) m2 /\
   eval (phash16 k1) m1 = eval (phash16 k2) m2).
Proof. apply digests_agree. Qed.

(** ** What a run leaves in memory *)

Lemma scratch_freed_kill m m1 :
  length m1 = S (length m) -> take (length m) m1 = m ->
  scratch_freed m (mem_kill m1 (length m)).
Proof.
  intros Hl Ht. split; [|split].
  - now rewrite length_mem_kill.
  - now rewrite take_mem_kill.
  - destruct (lookup_lt_is_Some_2 m1 (length m)) as [blk Hb]; [lia|].
    exists (blk_kill blk). split; [now apply lookup_mem_kill|reflexivity].
Qed.

Lemma scratch_fresh m n xs :
  let m1 := mem_write (m ++ [fresh_block n]) (length m) 0 xs in
  length m1 = S (length m) /\ take (length m) m1 = m.
Proof.
  cbv zeta. split.
  - rewrite length_mem_write, length_app. simpl. lia.
  - rewrite take_mem_write by lia. apply take_app_length.
Qed.

Lemma scratch_wf m n xs :
  mem_wf m -> malloc_null m n = false -> Forall is_byte xs ->
  mem_wf (mem_write (m ++ [fresh_block n]) (length m) 0 xs).
Proof.
  intros Hwf Hn Hxs. apply mem_wf_write; [|assumption].
  apply mem_wf_app; [assumption|]. now apply fresh_block_wf, (malloc_null_false m).
Qed.

Lemma key_terminated_bytes bs : is_key bs -> Forall is_byte (bs ++ [0]).
Proof. intros Hk. apply Forall_app. split; [now apply is_key_bytes|]. repeat constructor; lia. Qed.

Lemma malloc_header_last n s : last (malloc_header n) = Some s -> is_byte s.
Proof.
  intros Hl. pose proof (malloc_header_bytes n) as Hb.
  rewrite List.Forall_forall in Hb. apply Hb.
  apply last_Some in Hl as [pre ->]. apply in_or_app. right. now left.
Qed.

(** The memory [phash_original] leaves, for any table of bytes, and the
    memory [phash16] leaves. *)
Lemma original_scratch T `{!ByteTable T} m n s bs :
  mem_wf m -> malloc_null m n = false -> is_byte s -> Forall is_byte bs ->
  let m' := mem_kill (mem_write (m ++ [fresh_block n]) (length m) 0 (hash_array T s bs))
              (length m) in
  mem_wf m' /\ scratch_freed m m'.
Proof.
  intros Hwf Hn Hs Hbs. split.
  - apply mem_wf_kill, scratch_wf; [assumption ..|now apply (hash_array_bytes T)].
  - apply scratch_freed_kill; apply scratch_fresh.
Qed.

Lemma phash16_scratch m n bs c :
  mem_wf m -> malloc_null m n = false -> is_key bs -> is_byte c ->
  let m' := mem_kill (mem_set (mem_write (m ++ [fresh_block n]) (length m) 0 (bs ++ [0]))
                        (length m) 0 c) (length m) in
  mem_wf m' /\ scratch_freed m m'.
Proof.
  intros Hwf Hn Hk Hc. split.
  - apply mem_wf_kill, mem_wf_set; [|assumption].
    apply (scratch_wf m _ (bs ++ [0])); [assumption ..|now apply key_terminated_bytes].
  - apply scratch_freed_kill.
    + rewrite length_mem_set. apply (scratch_fresh m _ (bs ++ [0])).
    + rewrite take_mem_set by lia. apply (scratch_fresh m _ (bs ++ [0])).
Qed.

Lemma phash_original_leaves m key bs r m' :
  mem_wf m -> cstring_at m key bs ->
  phash_original key m = Ok (r, m') ->
  mem_wf m' /\ scratch_freed m m' /\ is_byte r.
Proof.
  intros Hwf Hs. destruct key as [|b o]; [destruct Hs|].
  rewrite (phash_original_run m b o bs Hwf Hs). cbv zeta.
  destruct (malloc_null _) eqn:Hn; [discriminate|].
  destruct (last _) as [s|] eqn:Hl; [|discriminate].
  destruct (all_plain bs); [|discriminate]. intros [= <- <-].
  pose proof (cstring_bytes _ _ _ Hs) as Hbs. pose proof (malloc_header_last _ _ Hl) as Hsb.
  destruct (original_scratch pearson_T m _ s bs Hwf Hn Hsb Hbs) as [Hwf' Hf].
  split; [assumption|]. split; [assumption|now apply fold_byte].
Qed.

(** A call of [phash_original] that returns leaves every block of
    the caller's memory untouched and adds one block, freed; the memory is
    well formed again and the value is a byte. *)
Theorem phash_original_frame m key bs r m' :
  mem_wf m -> cstring_at m key bs ->
  phash_original key m = Ok (r, m') ->
  mem_wf m' /\ scratch_freed m m' /\ is_byte r.
Proof. apply phash_original_leaves. Qed.

Lemma phash16_leaves m key bs r m' :
  mem_wf m -> cstring_at m key bs ->
  phash16 key m = Ok (r, m') ->
  mem_wf m' /\ scratch_freed m m' /\ 0 <= r < 65536.
Proof.
  intros Hwf Hs. destruct key as [|b o]; [destruct Hs|].
  destruct bs as [|b0 rest].
  { destruct (phash16_empty m b o Hwf Hs) as (f & -> & _). discriminate. }
  destruct (malloc_null m (Z.of_nat (length (b0 :: rest)))) eqn:Hn.
  { now rewrite (phash16_null m b o _ Hwf Hs Hn). }
  pose proof (malloc_slack_nonneg (Z.of_nat (length (b0 :: rest)))) as Hsl.
  destruct (Z.eq_dec (malloc_slack (Z.of_nat (length (b0 :: rest)))) 0) as [H0|Hpos].
  { now rewrite (phash16_overflow m b o _ Hwf Hs Hn H0). }
  pose proof (phash16_run m b o b0 rest Hwf Hs Hn ltac:(lia)) as E. cbv zeta in E.
  rewrite E. destruct (_ && _); [|discriminate].
  destruct (in_int _); [|discriminate]. intros [= <- <-].
  pose proof (cstring_is_key _ _ _ Hs) as Hk.
  destruct (phash16_scratch m _ _ (c_bump b0) Hwf Hn Hk (c_bump_byte b0)) as [Hwf' Hf].
  split; [assumption|]. split; [assumption|].
  apply bytes_ushort; apply hashWikipedia_byte, is_key_bytes; [assumption|].
    apply is_key_cons in Hk as [_ Hk']. now apply second_key_is_key.
Qed.

(** A call of [phash16] that returns leaves every block of the
    caller's memory untouched and adds one block, freed; the memory is
    well formed again and the value fits 16 bits. *)
Theorem phash16_frame m key bs r m' :
  mem_wf m -> cstring_at m key bs ->
  phash16 key m = Ok (r, m') ->
  mem_wf m' /\ scratch_freed m m' /\ 0 <= r < 65536.
Proof. apply phash16_leaves. Qed.

(** C34: the digests depend on every byte of the key, as the comment of
    lines 8-10 says.  On every C string of plain bytes [phash_wikipedia]
    and [phash_rfc3074] return the values of two functions of the key,
    [f] and [g], and the value of either is a single byte that changes
    whenever one byte of the key is changed. *)
Theorem phash_depends_on_every_byte m key bs :
  mem_wf m -> cstring_at m key bs -> all_plain bs = true ->
  let f := hashW in
  let g := fun bs => fold (to_uchar (Z.of_nat (length bs))) (rev bs) in
  phash_wikipedia key m = Ok (f bs, m) /\ phash_rfc3074 key m = Ok (g bs, m) /\
  depends_on_every_byte f /\ depends_on_every_byte g.
Proof.
  intros Hwf Hs Hp. cbv zeta. destruct key as [|b o]; [destruct Hs|].
  rewrite (phash_wikipedia_run m b o bs Hwf Hs), (phash_rfc3074_run m b o bs Hwf Hs), Hp.
  split; [reflexivity|]. split; [reflexivity|]. split.
  - apply (fold_depends pearson_T). byte_lia.
  - apply (fold_rev_depends pearson_T (fun n => to_uchar (Z.of_nat n)) (fun n => to_uchar_byte _)).
Qed.

(** It fails wherever the byte below the block is not 0. *)
Theorem wikipedia_is_not_original m key bs s :
  mem_wf m -> cstring_at m key bs -> all_plain bs = true ->
  malloc_null m (Z.of_nat (length bs)) = false ->
  last (malloc_header (Z.of_nat (length bs))) = Some s -> s <> 0 ->
  ~ same_digest phash_wikipedia phash_original m key.
Proof.
  intros Hwf Hs Hp Hn Hl Hne E. unfold same_digest in E.
  destruct (phash_original_differs m key bs s Hwf Hs Hp Hn Hl Hne) as (h & Eh & Hd).
  rewrite Eh in E. destruct key as [|b o]; [destruct Hs|]. unfold eval in E.
  rewrite (phash_wikipedia_run m b o bs Hwf Hs), Hp in E. cbn in E. congruence.
Qed.

End conform.

(** ** The LP64 machines *)

Lemma lp64_malloc_ok signed m n :
  0 <= n -> heap_used m + n + 32 <= 2 ^ 47 -> @malloc_null (lp64 signed) m n = false.
Proof.
  intros Hn Hroom. pose proof (heap_used_nonneg m) as Hu.
  pose proof (chunk_size_slack n) as Hsl.
  assert (Hc : chunk_size n <= n + 32) by (unfold chunk_size; Z.div_mod_to_equations; lia).
  assert (2 ^ 47 < 2 ^ 62) by (apply Z.pow_lt_mono_r; lia).
  unfold malloc_null, malloc_fits, heap_full.
  rewrite (@fresh_block_cells (lp64 signed)) by (cbn; lia). cbn.
  change (2 ^ (64 - 1)) with (2 * 2 ^ 62).
  rewrite andb_false_r. cbn [orb].
  apply orb_false_iff. split; [apply negb_false_iff, andb_true_iff; split|];
    [apply Z.ltb_lt .. | apply Z.ltb_ge]; lia.
Qed.

(** On the 64-bit machines with a boundary-tag allocator,
    [phash_original] returns the Wikipedia hash of every key of plain
    bytes: the byte it reads below its block is the top byte of the
    chunk's size word, which is 0.  The empty key, for which the
    specification has no value, gives 0. *)
Theorem phash_original_lp64 signed m key bs :
  @mem_wf (lp64 signed) m -> cstring_at m key bs ->
  @all_plain (lp64 signed) bs = true ->
  heap_used m + Z.of_nat (length bs) + 32 <= 2 ^ 47 ->
  eval (@phash_original (lp64 signed) key) m = Ok (hashWikipedia pearson_T bs).
Proof.
  intros Hwf Hs Hp Hlen. destruct key as [|b o]; [destruct Hs|].
  unfold eval. rewrite (@phash_original_run (lp64 signed) _ m b o bs Hwf Hs). cbv zeta.
  pose proof (heap_used_nonneg m) as Hu.
  assert (2 ^ 47 < 2 ^ 48) by (apply Z.pow_lt_mono_r; lia).
  rewrite lp64_malloc_ok by lia.
  change (@malloc_header (lp64 signed)) with size_word.
  now rewrite size_word_last, Hp by lia.
Qed.

(** The comment of line 71 holds on the 64-bit machines with a
    boundary-tag allocator: there [phash_wikipedia] and [phash_original]
    are equal on every key of plain bytes. *)
Theorem wikipedia_is_original_lp64 signed m key bs :
  @mem_wf (lp64 signed) m -> cstring_at m key bs ->
  @all_plain (lp64 signed) bs = true ->
  heap_used m + Z.of_nat (length bs) + 32 <= 2 ^ 47 ->
  same_digest (@phash_wikipedia (lp64 signed)) (@phash_original (lp64 signed)) m key.
Proof.
  intros Hwf Hs Hp Hlen. unfold same_digest.
  rewrite (phash_original_lp64 signed m key bs Hwf Hs Hp Hlen).
  destruct key as [|b o]; [destruct Hs|]. unfold eval.
  now rewrite (@phash_wikipedia_run (lp64 signed) _ m b o bs Hwf Hs), Hp.
Qed.

(** ** Witnesses on concrete machines *)

Lemma phash_rfc3074_meets_spec_witness :
  @phash_rfc3074 x86_64 (Ptr 0 0) abc = Ok (170, abc).
Proof.
  apply (@phash_rfc3074_meets_spec x86_64 _ abc (Ptr 0 0) [97; 98; 99] 170).
  - by_compute.
  - by_compute.
  - reflexivity.
  - reflexivity.
Defined.

Lemma phash_rfc3074_long_key_witness :
  hashRFC3074 pearson_T (replicate 256 97) = None /\
  @phash_rfc3074 aarch64 (Ptr 0 0) [string_block (replicate 256 97)] =
  Ok (pearson_fold pearson_T (Z.of_nat (length (replicate 256 97)) mod 256)
        (rev (replicate 256 97)), [string_block (replicate 256 97)]).
Proof.
  apply (@phash_rfc3074_long_key aarch64 _ _ (Ptr 0 0) (replicate 256 97)).
  - by_compute.
  - by_compute.
  - reflexivity.
  - by_compute.
Defined.

Lemma phash_original_meets_spec_witness :
  eval (@phash_original x86_64 (Ptr 0 0)) abc = Ok 5.
Proof.
  apply (@phash_original_meets_spec x86_64 _ abc (Ptr 0 0) [97; 98; 99] 5).
  - by_compute.
  - by_compute.
  - reflexivity.
  - reflexivity.
  - reflexivity.
  - reflexivity.
Defined.

Lemma phash_original_depends_on_allocator_witness :
  exists h, eval (@phash_original (poisoned true) (Ptr 0 0)) abc = Ok h /\
            h <> hashWikipedia pearson_T [97; 98; 99].
Proof.
  apply (@phash_original_depends_on_allocator (poisoned true) _ abc (Ptr 0 0) [97; 98; 99] 253).
  - by_compute.
  - by_compute.
  - reflexivity.
  - reflexivity.
  - reflexivity.
  - discriminate.
Defined.

Lemma digest_avalanche_witness :
  eval (@phash_wikipedia x86_64 (Ptr 0 0)) abc <>
    eval (@phash_wikipedia x86_64 (Ptr 1 0)) [string_block []; string_block [97; 120; 99]] /\
  eval (@phash_rfc3074 x86_64 (Ptr 0 0)) abc <>
    eval (@phash_rfc3074 x86_64 (Ptr 1 0)) [string_block []; string_block [97; 120; 99]].
Proof.
  apply (@digest_avalanche x86_64 _ _ _ _ _ [97] 98 120 [99]).
  - by_compute.
  - by_compute.
  - by_compute.
  - by_compute.
  - reflexivity.
  - reflexivity.
  - discriminate.
Defined.

Lemma phash_wikipedia_reaches_witness :
  @phash_wikipedia aarch64 (Ptr 0 0) [string_block [97; 208]] =
  Ok (42, [string_block [97; 208]]).
Proof.
  apply (@phash_wikipedia_reaches aarch64 _ [string_block [97; 208]] (Ptr 0 0) [97] 42).
  - by_compute.
  - by_compute.
  - reflexivity.
  - by_compute.
Defined.

Lemma phash16_meets_spec_witness :
  eval (@phash16 x86_64 (Ptr 0 0)) abc = Ok 1520.
Proof.
  apply (@phash16_meets_spec x86_64 _ abc (Ptr 0 0) 97 [98; 99] 1520).
  - by_compute.
  - by_compute.
  - reflexivity.
  - reflexivity.
  - reflexivity.
  - reflexivity.
  - reflexivity.
  - discriminate.
  - reflexivity.
Defined.

Lemma phash16_first_byte_254_witness :
  eval (@phash16 aarch64 (Ptr 0 0)) [string_block [254; 98; 99]] =
    Ok (hashWikipedia pearson_T [254; 98; 99] * 256) /\
  (hash16 pearson_T [254; 98; 99] = Some (hashWikipedia pearson_T [254; 98; 99] * 256) <->
   hashWikipedia pearson_T [0; 98; 99] = 0).
Proof.
  apply (@phash16_first_byte_254 aarch64 _ [string_block [254; 98; 99]] (Ptr 0 0) [98; 99]).
  - by_compute.
  - by_compute.
  - reflexivity.
  - reflexivity.
  - reflexivity.
  - reflexivity.
Defined.

Lemma phash16_signed_7f_witness :
  @phash16 x86_64 (Ptr 0 0) [string_block [127; 98]] = Fault TableIndex.
Proof.
  apply (@phash16_signed_7f x86_64 _ [string_block [127; 98]] (Ptr 0 0) [98]).
  - by_compute.
  - by_compute.
  - reflexivity.
  - reflexivity.
  - reflexivity.
Defined.

Lemma phash16_int16_overflow_witness :
  @phash16 small16 (Ptr 0 0) [string_block [1]] = Fault IntOverflow.
Proof.
  apply (@phash16_int16_overflow small16 _ [string_block [1]] (Ptr 0 0) 1 []).
  - by_compute.
  - by_compute.
  - reflexivity.
  - reflexivity.
  - reflexivity.
  - reflexivity.
  - reflexivity.
  - by_compute.
Defined.

Lemma phash16_empty_key_witness :
  exists f, @phash16 x86_64 (Ptr 0 0) [string_block []] = Fault f /\
            (f = NullDeref \/ f = OutOfBounds \/ f = Uninitialised).
Proof.
  apply (@phash16_empty_key x86_64 _ [string_block []] (Ptr 0 0)).
  - by_compute.
  - by_compute.
Defined.

Lemma phash_original_frame_witness :
  match @phash_original x86_64 (Ptr 0 0) abc with
  | Ok (r, m') => @mem_wf x86_64 m' /\ scratch_freed abc m' /\ is_byte r
  | Fault _ => False
  end.
Proof.
  destruct (@phash_original x86_64 (Ptr 0 0) abc) as [[r m']|f] eqn:E.
  - apply (@phash_original_frame x86_64 _ abc (Ptr 0 0) [97; 98; 99] r m'); [by_compute ..|exact E].
  - vm_compute in E. discriminate E.
Defined.

Lemma phash16_frame_witness :
  match @phash16 x86_64 (Ptr 0 0) abc with
  | Ok (r, m') => @mem_wf x86_64 m' /\ scratch_freed abc m' /\ 0 <= r < 65536
  | Fault _ => False
  end.
Proof.
  destruct (@phash16 x86_64 (Ptr 0 0) abc) as [[r m']|f] eqn:E.
  - apply (@phash16_frame x86_64 _ abc (Ptr 0 0) [97; 98; 99] r m'); [by_compute ..|exact E].
  - vm_compute in E. discriminate E.
Defined.

Lemma phash_original_lp64_witness :
  eval (@phash_original aarch64 (Ptr 0 0)) [string_block [97; 200; 99]] = Ok 249.
Proof.
  apply (@phash_original_lp64 false [string_block [97; 200; 99]] (Ptr 0 0) [97; 200; 99]).
  - by_compute.
  - by_compute.
  - reflexivity.
  - by_compute.
Defined.

Lemma phash16_structure_witness :
  1520 / 256 = hashWikipedia pearson_T [97; 98; 99] /\
  1520 mod 256 = hashWikipedia pearson_T (@second_key aarch64 [97; 98; 99]).
Proof.
  destruct (@phash16 aarch64 (Ptr 0 0) abc) as [[r m']|f] eqn:E.
  - assert (Hr : r = 1520) by (vm_compute in E; now injection E).
    rewrite Hr in E.
    apply (@phash16_structure aarch64 _ abc (Ptr 0 0) 97 [98; 99] 1520 m'); [by_compute ..|exact E].
  - vm_compute in E. discriminate E.
Defined.

Lemma phash_wikipedia_one_byte_witness :
  @phash_wikipedia x86_64 (Ptr 0 0) [string_block [97]] = Ok (113, [string_block [97]]).
Proof.
  apply (@phash_wikipedia_one_byte x86_64 _ [string_block [97]] (Ptr 0 0) 97).
  - by_compute.
  - by_compute.
  - reflexivity.
Defined.

Lemma empty_key_digests_witness :
  @phash_wikipedia x86_64 (Ptr 0 0) [string_block []] = Ok (0, [string_block []]) /\
  @phash_rfc3074 x86_64 (Ptr 0 0) [string_block []] = Ok (0, [string_block []]).
Proof. apply (@empty_key_digests x86_64 _ [string_block []] (Ptr 0 0)); by_compute. Defined.

Lemma digests_location_independent_witness :
  eval (@phash_wikipedia x86_64 (Ptr 0 0)) abc =
    eval (@phash_wikipedia x86_64 (Ptr 1 0)) [string_block [1]; string_block [97; 98; 99]] /\
  eval (@phash_rfc3074 x86_64 (Ptr 0 0)) abc =
    eval (@phash_rfc3074 x86_64 (Ptr 1 0)) [string_block [1]; string_block [97; 98; 99]] /\
  (@malloc_null x86_64 abc (Z.of_nat (length [97; 98; 99])) =
   @malloc_null x86_64 [string_block [1]; string_block [97; 98; 99]]
     (Z.of_nat (length [97; 98; 99])) ->
   eval (@phash_original x86_64 (Ptr 0 0)) abc =
     eval (@phash_original x86_64 (Ptr 1 0)) [string_block [1]; string_block [97; 98; 99]] /\
   eval (@phash16 x86_64 (Ptr 0 0)) abc =
     eval (@phash16 x86_64 (Ptr 1 0)) [string_block [1]; string_block [97; 98; 99]]).
Proof.
  apply (@digests_location_independent x86_64 _ _ _ _ _ [97; 98; 99]); by_compute.
Defined.

Lemma phash16_complete_witness :
  eval (@phash16 small16 (Ptr 0 0)) [string_block [97]] = Ok 28999.
Proof.
  apply (@phash16_complete small16 _ [string_block [97]] (Ptr 0 0) [97]); by_compute.
Defined.


Lemma phash_depends_on_every_byte_witness :
  let f := hashWikipedia pearson_T in
  let g := fun bs => pearson_fold pearson_T (to_uchar (Z.of_nat (length bs))) (rev bs) in
  @phash_wikipedia x86_64 (Ptr 0 0) abc = Ok (f [97; 98; 99], abc) /\
  @phash_rfc3074 x86_64 (Ptr 0 0) abc = Ok (g [97; 98; 99], abc) /\
  depends_on_every_byte f /\ depends_on_every_byte g.
Proof.
  apply (@phash_depends_on_every_byte x86_64 _ abc (Ptr 0 0) [97; 98; 99]); by_compute.
Defined.
