(* ===== verification/Uniform.v ===== *)
(** * Uniform: how the digests are spread over the keys

    A table that is a permutation makes every fold step a bijection of
    the bytes, and this is what spreads the digests evenly.  A key of a
    C function is a C string: its bytes are not 0.  Of the [255 ^ n] keys
    of length [n] each digest is the hash of [255 ^ n / 256] keys, rounded
    up or down: the number of keys that take a seed [h] to a digest [d]
    is given exactly ([preimages_formula]), and it differs between two
    digests by one key at most ([preimages_even]).  The keys on which a C
    function returns a given digest are those the function of [Hasher]
    takes to it when run on the key alone in memory ([digest_keys]):
    [phash_wikipedia_equidistributed], [phash_rfc3074_equidistributed],
    [phash_original_equidistributed].  Where [char] is signed most keys
    end in a fault instead ([phash_wikipedia_signed_faults]). *)

From Stdlib Require Import ZArith Lia List.
From stdpp Require Import base tactics option list list_numbers.
From S2P Require Import Prelude Platform CInt Table Spec Memory Hasher Refine Conform.

#[local] Open Scope Z_scope.

(** The values of a byte, and of a byte of a C string. *)
Definition bytes : list Z := seqZ 0 256.
Definition nonzero : list Z := seqZ 1 255.

(** The C strings of length [n]. *)
Fixpoint ckeys (n : nat) : list (list Z) :=
  match n with
  | O => [[]]
  | S n' => b ← nonzero; cons b <$> ckeys n'
  end.

(** The number of elements of a list that satisfy [P]. *)
Definition count {A} (P : A -> Prop) `{!forall x, Decision (P x)} (l : list A) : Z :=
  zsum ((fun x => if decide (P x) then 1 else 0) <$> l).

(** The number of keys of length [n] that take the seed [h] to the
    digest [d]. *)
Definition preimages (T : list Z) (n : nat) (h d : Z) : Z :=
  count (fun k => pearson_fold T h k = d) (ckeys n).

(** [n] reads of the table in a row. *)
Definition T_pow (T : list Z) (n : nat) (h : Z) : Z := Nat.iter n (T_at T) h.

Definition sgn (n : nat) : Z := if Nat.even n then 1 else -1.

(** The number of keys of length [n] on which the function [f] ends with
    the result [r], each key alone in memory. *)
Definition digest_keys (f : ptr -> cm mem Z) (n : nat) (r : result Z) : Z :=
  count (fun k => eval (f (Ptr 0 0)) [string_block k] = r) (ckeys n).

#[export] Instance count_perm {A} (P : A -> Prop) `{!forall x, Decision (P x)} :
  Proper ((≡ₚ) ==> (=)) (count P).
Proof. intros l k Hp. unfold count. now rewrite Hp. Qed.

(** ** Counting *)

Lemma count_filter {A} (P : A -> Prop) `{!forall x, Decision (P x)} l :
  count P l = Z.of_nat (length (filter P l)).
Proof.
  unfold count, zsum. induction l as [|x l IH]; [reflexivity|].
  cbn [fmap list_fmap foldr]. rewrite IH, filter_cons. destruct (decide (P x)); cbn [length]; lia.
Qed.

Lemma count_ext {A} (P Q : A -> Prop) `{!forall x, Decision (P x)} `{!forall x, Decision (Q x)} l :
  (forall x, x ∈ l -> P x <-> Q x) -> count P l = count Q l.
Proof.
  intros HPQ. apply zsum_fmap_ext. intros x Hx. specialize (HPQ x Hx).
  destruct (decide (P x)), (decide (Q x)); tauto.
Qed.

(** A property that one element of a list without repetition has. *)
Lemma count_unique {A} (P : A -> Prop) `{!forall x, Decision (P x)} l x0 :
  NoDup l -> x0 ∈ l -> (forall x, x ∈ l -> P x <-> x = x0) -> count P l = 1.
Proof.
  intros Hnd H0 HP. rewrite count_filter.
  rewrite (Permutation_length (l' := [x0])); [reflexivity|].
  apply NoDup_Permutation; [now apply NoDup_filter|apply NoDup_singleton|].
  intros x. rewrite list_elem_of_filter, list_elem_of_singleton. split.
  - intros [Hx Hl]. now apply HP.
  - intros ->. split; [now apply HP|assumption].
Qed.

Lemma count_fmap {A B} (f : A -> B) (P : B -> Prop) `{!forall y, Decision (P y)} l :
  count P (f <$> l) = count (fun x => P (f x)) l.
Proof. unfold count. now rewrite <- list_fmap_compose. Qed.

Lemma count_all {A} (P : A -> Prop) `{!forall x, Decision (P x)} l :
  (forall x, x ∈ l -> P x) -> count P l = Z.of_nat (length l).
Proof.
  intros HP. unfold count.
  rewrite (zsum_fmap_ext _ (fun _ => 0 * 0 + 1)), (zsum_fmap_linear (fun _ => 0)); [lia|].
  intros x Hx. destruct (decide (P x)) as [|Hn]; [reflexivity|]. now destruct Hn; auto.
Qed.

(** ** The keys *)

Lemma bytes_nonzero : bytes = 0 :: nonzero.
Proof. reflexivity. Qed.

Lemma elem_of_bytes b : b ∈ bytes <-> is_byte b.
Proof. unfold bytes, is_byte. rewrite elem_of_seqZ. lia. Qed.

Lemma elem_of_nonzero b : b ∈ nonzero <-> 1 <= b < 256.
Proof. unfold nonzero. rewrite elem_of_seqZ. lia. Qed.

(** [ckeys n] lists the C strings of length [n], each once. *)
Lemma elem_of_ckeys n k : k ∈ ckeys n <-> length k = n /\ is_key k.
Proof.
  revert k. induction n as [|n IH]; intros k; cbn [ckeys].
  - rewrite list_elem_of_singleton. split; [intros ->; split; [reflexivity|constructor]|].
    intros [Hl _]. now destruct k.
  - rewrite list_elem_of_bind. split.
    + intros (b & (k' & -> & [Hl Hk]%IH)%list_elem_of_fmap & Hb%elem_of_nonzero).
      split; [cbn; lia|now constructor].
    + destruct k as [|b k]; [now intros [[=] _]|]. intros [[= Hl] [Hb Hk]%is_key_cons].
      exists b. split; [|now apply elem_of_nonzero].
      apply list_elem_of_fmap. exists k. split; [reflexivity|now apply IH].
Qed.

Lemma NoDup_ckeys n : NoDup (ckeys n).
Proof.
  induction n as [|n IH]; cbn [ckeys]; [apply NoDup_singleton|].
  apply NoDup_bind; [| |apply NoDup_seqZ].
  - intros b1 b2 k _ _ (k1 & -> & _)%list_elem_of_fmap (k2 & [= -> _] & _)%list_elem_of_fmap.
    reflexivity.
  - intros b _. apply (NoDup_fmap_2 (cons b)), IH.
Qed.

Lemma length_ckeys n : Z.of_nat (length (ckeys n)) = 255 ^ Z.of_nat n.
Proof.
  induction n as [|n IH]; [reflexivity|]. cbn [ckeys].
  assert (Hl : forall l : list Z,
             Z.of_nat (length (b ← l; cons b <$> ckeys n)) =
             Z.of_nat (length l) * 255 ^ Z.of_nat n).
  { induction l as [|b l IHl]; [reflexivity|].
    rewrite bind_cons, length_app, length_fmap. cbn [length]. lia. }
  rewrite Hl. unfold nonzero. rewrite length_seqZ, Nat2Z.inj_succ, Z.pow_succ_r by lia. lia.
Qed.

(** Reading the keys backwards lists them in another order. *)
Lemma ckeys_rev n : @rev Z <$> ckeys n ≡ₚ ckeys n.
Proof.
  apply NoDup_Permutation; [|apply NoDup_ckeys|].
  - apply NoDup_fmap_2_strong; [|apply NoDup_ckeys].
    intros k1 k2 _ _ E. now rewrite <- (rev_involutive k1), E, rev_involutive.
  - intros k. rewrite list_elem_of_fmap, elem_of_ckeys. split.
    + intros (k' & -> & [Hl Hk]%elem_of_ckeys). rewrite length_rev. split; [assumption|].
      now apply Forall_rev.
    + intros [Hl Hk]. exists (rev k). rewrite rev_involutive, elem_of_ckeys, length_rev.
      repeat split; [assumption|now apply Forall_rev].
Qed.

(** The keys of length [n + 1] are counted by their first byte. *)
Lemma count_ckeys_S (Q : list Z -> Prop) `{!forall k, Decision (Q k)} n :
  count Q (ckeys (S n)) = zsum ((fun b => count (fun k => Q (b :: k)) (ckeys n)) <$> nonzero).
Proof.
  unfold count. cbn [ckeys]. rewrite zsum_bind.
  apply zsum_fmap_ext. intros b _. now rewrite <- list_fmap_compose.
Qed.

(** ** The recurrence *)

Section uniform.
Context (T : list Z) `{!PermTable T}.

#[local] Abbreviation step := (pearson_step T).

Lemma preimages_0 h d : preimages T 0 h d = if decide (h = d) then 1 else 0.
Proof. unfold preimages, count, zsum. cbn. destruct (decide _); lia. Qed.

Lemma preimages_S n h d :
  preimages T (S n) h d = zsum ((fun b => preimages T n (step h b) d) <$> nonzero).
Proof. unfold preimages. now rewrite count_ckeys_S. Qed.

(** A fold step with a fixed seed permutes the bytes. *)
Lemma step_perm h : is_byte h -> step h <$> bytes ≡ₚ bytes.
Proof.
  intros Hh. apply NoDup_Permutation; [|apply NoDup_seqZ|].
  - apply NoDup_fmap_2_strong; [|apply NoDup_seqZ].
    intros x y Hx%elem_of_bytes Hy%elem_of_bytes. now apply pearson_step_inj_byte.
  - intros d. rewrite list_elem_of_fmap, elem_of_bytes. split.
    + intros (b & -> & Hb%elem_of_bytes). now apply (pearson_step_byte T).
    + intros Hd. exists (Z.lxor h (T_inv T d)). split.
      * symmetry. now apply pearson_step_reach.
      * apply elem_of_bytes, lxor_byte; [assumption|now apply T_inv_byte].
Qed.

(** The sum over the last bytes of a key is the sum over all seeds but
    one. *)
Lemma sum_nonzero (f : Z -> Z) h :
  is_byte h ->
  zsum ((fun b => f (step h b)) <$> nonzero) = zsum (f <$> bytes) - f (T_at T h).
Proof.
  intros Hh. rewrite <- (step_perm h Hh) at 1.
  rewrite <- list_fmap_compose, bytes_nonzero. cbn [fmap list_fmap].
  unfold zsum, compose, pearson_step. cbn [foldr]. rewrite Z.lxor_0_r. lia.
Qed.

Lemma T_pow_byte n h : is_byte h -> is_byte (T_pow T n h).
Proof. intros Hh. induction n as [|n IH]; [exact Hh|]. now apply (T_at_byte T). Qed.

Lemma T_pow_S n h : T_pow T (S n) h = T_pow T n (T_at T h).
Proof. apply Nat.iter_succ_r. Qed.

(** [n] reads of the table in a row are a bijection of the bytes. *)
Lemma T_pow_unique n d :
  is_byte d -> exists h0, is_byte h0 /\ forall h, is_byte h -> T_pow T n h = d <-> h = h0.
Proof.
  revert d. induction n as [|n IH]; intros d Hd; [exists d; easy|].
  destruct (IH (T_inv T d) (T_inv_byte T d Hd)) as (h0 & H0 & Hu).
  exists h0. split; [assumption|]. intros h Hh. rewrite <- (Hu h Hh).
  change (T_pow T (S n) h) with (T_at T (T_pow T n h)). split.
  - intros <-. symmetry. now apply T_inv_at, T_pow_byte.
  - intros ->. now apply T_at_inv.
Qed.

Lemma count_T_pow n d : is_byte d -> count (fun h => T_pow T n h = d) bytes = 1.
Proof.
  intros Hd. destruct (T_pow_unique n d Hd) as (h0 & H0 & Hu).
  apply (count_unique _ _ h0); [apply NoDup_seqZ|now apply elem_of_bytes|].
  intros h Hh%elem_of_bytes. now apply Hu.
Qed.

Lemma sgn_S n : sgn (S n) = - sgn n.
Proof. unfold sgn. rewrite Nat.even_succ, <- Nat.negb_even. now destruct (Nat.even n). Qed.

(** Over all seeds the keys of length [n] reach a digest [255 ^ n]
    times, when every seed reaches it as [preimages_formula] says. *)
Lemma preimages_total n d :
  is_byte d ->
  (forall h, is_byte h ->
     256 * preimages T n h d =
     255 ^ Z.of_nat n - sgn n + 256 * sgn n * (if decide (T_pow T n h = d) then 1 else 0)) ->
  zsum ((fun h => preimages T n h d) <$> bytes) = 255 ^ Z.of_nat n.
Proof.
  intros Hd IH.
  pose proof (zsum_fmap_linear (fun h => preimages T n h d) 256 0 bytes) as E.
  rewrite (zsum_fmap_ext _ (fun h => 256 * sgn n * (if decide (T_pow T n h = d) then 1 else 0) +
                                     (255 ^ Z.of_nat n - sgn n))) in E.
  2: { intros h Hh%elem_of_bytes. rewrite (IH h Hh). lia. }
  rewrite zsum_fmap_linear in E. fold (count (fun h => T_pow T n h = d) bytes) in E.
  rewrite count_T_pow in E by assumption. change (Z.of_nat (length bytes)) with 256 in E. lia.
Qed.

(** The number of keys of length [n] that take [h] to [d]: a 256th of
    the keys, corrected by the one seed that [n] reads of the table by
    themselves take to [d]. *)
Lemma preimages_formula n h d :
  is_byte h -> is_byte d ->
  256 * preimages T n h d =
  255 ^ Z.of_nat n - sgn n + 256 * sgn n * (if decide (T_pow T n h = d) then 1 else 0).
Proof.
  intros Hh Hd. revert h Hh. induction n as [|n IH]; intros h Hh.
  - rewrite preimages_0. unfold T_pow, sgn. cbn. destruct (decide _); lia.
  - rewrite preimages_S, (sum_nonzero (fun h' => preimages T n h' d)) by assumption.
    rewrite (preimages_total n d Hd IH), Z.mul_sub_distr_l, (IH (T_at T h)) by now apply (T_at_byte T).
    rewrite T_pow_S, sgn_S, Nat2Z.inj_succ, Z.pow_succ_r by lia. destruct (decide _); lia.
Qed.

(** Every digest is the hash of a 256th of the keys, rounded down or up. *)
Lemma preimages_even n h d :
  is_byte h -> is_byte d ->
  255 ^ Z.of_nat n / 256 <= preimages T n h d <= 255 ^ Z.of_nat n / 256 + 1.
Proof.
  intros Hh Hd. pose proof (preimages_formula n h d Hh Hd) as E. revert E.
  generalize (255 ^ Z.of_nat n), (preimages T n h d). unfold sgn.
  destruct (Nat.even n), (decide _); intros; Z.to_euclidean_division_equations; lia.
Qed.

(** The keys fed to the fold last byte first are spread as evenly. *)
Lemma preimages_rev n h d :
  count (fun k => pearson_fold T h (rev k) = d) (ckeys n) = preimages T n h d.
Proof.
  unfold preimages. rewrite <- (ckeys_rev n) at 2. symmetry. apply count_fmap.
Qed.

End uniform.

(** ** The C function *)

Section cfun.
Context {P : Platform} `{!PlatformOk P}.

(** A key that lies alone in memory. *)
Lemma alone_wf k :
  is_key k -> Z.of_nat (length k) + 1 < 2 ^ (size_bits - 1) ->
  mem_wf [string_block k] /\ cstring_at [string_block k] (Ptr 0 0) k.
Proof.
  intros Hk Hl. pose proof size_bits_min. split.
  - apply (mem_wf_app []); [constructor|]. apply string_block_wf; [assumption|lia ..].
  - exact (cstring_at_string_block [] k Hk).
Qed.

Lemma wikipedia_alone k :
  is_key k -> Z.of_nat (length k) + 1 < 2 ^ (size_bits - 1) ->
  eval (phash_wikipedia (Ptr 0 0)) [string_block k] =
  if all_plain k then Ok (hashWikipedia pearson_T k) else Fault TableIndex.
Proof.
  intros Hk Hl. destruct (alone_wf k Hk Hl) as [Hwf Hs]. unfold eval.
  rewrite (phash_wikipedia_run _ 0%nat 0 k Hwf Hs). now destruct (all_plain k).
Qed.

Lemma rfc3074_alone k :
  is_key k -> Z.of_nat (length k) + 1 < 2 ^ (size_bits - 1) ->
  eval (phash_rfc3074 (Ptr 0 0)) [string_block k] =
  if all_plain k
  then Ok (pearson_fold pearson_T (to_uchar (Z.of_nat (length k))) (rev k))
  else Fault TableIndex.
Proof.
  intros Hk Hl. destruct (alone_wf k Hk Hl) as [Hwf Hs]. unfold eval.
  rewrite (phash_rfc3074_run _ 0%nat 0 k Hwf Hs). now destruct (all_plain k).
Qed.

(** C17: on a machine whose [char] is unsigned, every digest is what
    [phash_wikipedia] returns on a 256th of the keys of a given length,
    rounded down or up: of the [255 ^ n] C strings of [n] bytes, two
    digests never differ by more than one key. *)
Theorem phash_wikipedia_equidistributed n d :
  char_signed = false -> Z.of_nat n + 1 < 2 ^ (size_bits - 1) -> is_byte d ->
  255 ^ Z.of_nat n / 256 <= digest_keys phash_wikipedia n (Ok d) <= 255 ^ Z.of_nat n / 256 + 1.
Proof.
  intros Hu Hn Hd. unfold digest_keys.
  rewrite (count_ext _ (fun k => pearson_fold pearson_T 0 k = d)).
  - apply (preimages_even pearson_T); [byte_lia|assumption].
  - intros k [Hl Hk]%elem_of_ckeys. rewrite wikipedia_alone, all_plain_unsigned by (congruence || lia).
    unfold hashWikipedia. split; congruence.
Qed.

(** On a machine whose [char] is unsigned, every digest is what
    [phash_rfc3074] returns on a 256th of the keys of a given length,
    rounded down or up, whatever the length: the seed is the length
    reduced modulo 256 (line 39), a byte as any other, and the keys read
    backwards are the same keys. *)
Theorem phash_rfc3074_equidistributed n d :
  char_signed = false -> Z.of_nat n + 1 < 2 ^ (size_bits - 1) -> is_byte d ->
  255 ^ Z.of_nat n / 256 <= digest_keys phash_rfc3074 n (Ok d) <= 255 ^ Z.of_nat n / 256 + 1.
Proof.
  intros Hu Hn Hd. unfold digest_keys.
  rewrite (count_ext _ (fun k => pearson_fold pearson_T (to_uchar (Z.of_nat n)) (rev k) = d)).
  - rewrite preimages_rev by apply _.
    apply (preimages_even pearson_T); [apply to_uchar_byte|assumption].
  - intros k [Hl Hk]%elem_of_ckeys. rewrite rfc3074_alone, all_plain_unsigned by (congruence || lia).
    rewrite Hl. split; congruence.
Qed.

(** Where [char] is signed the keys with a byte above 127 are the keys
    that are not plain: all but [127 ^ n] of them. *)
Lemma count_not_plain n :
  char_signed = true ->
  count (fun k => all_plain k = false) (ckeys n) = 255 ^ Z.of_nat n - 127 ^ Z.of_nat n.
Proof.
  intros Hs. induction n as [|n IH]; [reflexivity|]. rewrite count_ckeys_S.
  rewrite (zsum_fmap_ext _ (fun b => - 127 ^ Z.of_nat n * (if b <? 128 then 1 else 0) +
                                     255 ^ Z.of_nat n)).
  - rewrite zsum_fmap_linear.
    change (zsum ((fun b => if b <? 128 then 1 else 0) <$> nonzero)) with 127.
    change (Z.of_nat (length nonzero)) with 255.
    rewrite Nat2Z.inj_succ, !Z.pow_succ_r by lia. lia.
  - intros b _. destruct (b <? 128) eqn:Hb.
    + rewrite (count_ext _ (fun k => all_plain k = false)); [rewrite IH; lia|].
      intros k _. rewrite all_plain_cons. unfold plain at 1. now rewrite Hs, Hb.
    + rewrite count_all, length_ckeys; [lia|].
      intros k _. rewrite all_plain_cons. unfold plain at 1. now rewrite Hs, Hb.
Qed.

(** C37: on a machine whose [char] is signed, [phash_wikipedia] indexes
    the table out of its bounds on every key that has a byte above 127:
    on [255 ^ n - 127 ^ n] of the [255 ^ n] keys of [n] bytes. *)
Theorem phash_wikipedia_signed_faults n :
  char_signed = true -> Z.of_nat n + 1 < 2 ^ (size_bits - 1) ->
  digest_keys phash_wikipedia n (Fault TableIndex) = 255 ^ Z.of_nat n - 127 ^ Z.of_nat n.
Proof.
  intros Hs Hn. unfold digest_keys. rewrite <- (count_not_plain n Hs). apply count_ext.
  intros k [Hl Hk]%elem_of_ckeys. rewrite wikipedia_alone by (congruence || lia).
  destruct (all_plain k); split; congruence.
Qed.

End cfun.

(** On the 64-bit machines with an unsigned [char], where the byte
    below a block of [malloc] reads 0, [phash_original] spreads the keys
    as [phash_wikipedia] does. *)
Theorem phash_original_equidistributed n d :
  Z.of_nat n + 32 <= 2 ^ 47 -> is_byte d ->
  255 ^ Z.of_nat n / 256 <= digest_keys (@phash_original aarch64) n (Ok d)
                         <= 255 ^ Z.of_nat n / 256 + 1.
Proof.
  intros Hn Hd. unfold digest_keys.
  rewrite (count_ext _ (fun k => pearson_fold pearson_T 0 k = d)).
  - apply (preimages_even pearson_T); [byte_lia|assumption].
  - intros k [Hl Hk]%elem_of_ckeys.
    assert (H63 : 2 ^ 47 < 2 ^ (@size_bits aarch64 - 1)) by reflexivity.
    destruct (@alone_wf aarch64 _ k Hk) as [Hwf Hs]; [lia|]. unfold aarch64 in *.
    rewrite (phash_original_lp64 false _ (Ptr 0 0) k Hwf Hs).
    + unfold hashWikipedia. split; congruence.
    + now apply all_plain_unsigned.
    + change (heap_used [string_block k]) with 0. lia.
Qed.

Lemma phash_wikipedia_equidistributed_witness :
  255 ^ 2 / 256 <= digest_keys (@phash_wikipedia aarch64) 2 (Ok 113) <= 255 ^ 2 / 256 + 1.
Proof.
  apply (@phash_wikipedia_equidistributed aarch64 _ 2 113); [reflexivity|vm_compute; reflexivity|].
  unfold is_byte. lia.
Defined.

Lemma phash_rfc3074_equidistributed_witness :
  255 ^ 300 / 256 <= digest_keys (@phash_rfc3074 aarch64) 300 (Ok 0) <= 255 ^ 300 / 256 + 1.
Proof.
  apply (@phash_rfc3074_equidistributed aarch64 _ 300 0); [reflexivity|vm_compute; reflexivity|].
  unfold is_byte. lia.
Defined.

Lemma phash_wikipedia_signed_faults_witness :
  digest_keys (@phash_wikipedia x86_64) 2 (Fault TableIndex) = 255 ^ 2 - 127 ^ 2.
Proof.
  apply (@phash_wikipedia_signed_faults x86_64 _ 2); [reflexivity|vm_compute; reflexivity].
Defined.
