(* ===== verification/Compose.v ===== *)
(** * Compose: calls in sequence, and the heap

    The four functions are called one after another on the same memory.
    [phash_wikipedia] and [phash_rfc3074] leave the memory as it was;
    [phash_original] and [phash16] leave a freed block behind.  This file
    shows that this is all a call leaves ([call_after]): what it handed
    out of the heap it has given back, and the caller's blocks are
    untouched, so that every later call computes what it would have
    computed before ([calls_independent]).  It also holds the one way in
    which the heap does matter: when it has no room for the key, the two
    functions that allocate dereference the null pointer
    ([heap_exhausted]). *)

From Stdlib Require Import ZArith Lia List.
From stdpp Require Import base tactics option list.
From S2P Require Import Prelude Platform CInt Table Spec Memory Outcome Loop Hasher Refine.
From S2P Require Import Machine Total Conform.

#[local] Open Scope Z_scope.
#[local] Open Scope cm_scope.

(** The four functions of the file. *)
Inductive variant : Type := RFC3074 | Original | Wikipedia | Hash16.

#[export] Instance variant_eq_dec : EqDecision variant.
Proof. solve_decision. Defined.

Section compose.
Context {P : Platform} `{!PlatformOk P}.

Definition call (v : variant) : ptr -> cm mem Z :=
  match v with
  | RFC3074 => phash_rfc3074
  | Original => phash_original
  | Wikipedia => phash_wikipedia
  | Hash16 => phash16
  end.

(** The functions that take a buffer from the heap (lines 65, 99). *)
Definition allocates (v : variant) : bool :=
  match v with Original | Hash16 => true | RFC3074 | Wikipedia => false end.

(** A caller that computes one digest after another. *)
Fixpoint calls (l : list (variant * ptr)) : cm mem (list Z) :=
  match l with
  | [] => ret []
  | (v, key) :: l' =>
      r <- call v key ;;
      rs <- calls l' ;;
      ret (r :: rs)
  end.

(** The digests of the same calls, each made on the memory [m]. *)
Fixpoint each (m : mem) (l : list (variant * ptr)) : result (list Z) :=
  match l with
  | [] => Ok []
  | (v, key) :: l' =>
      match eval (call v key) m with
      | Ok r => result_map (cons r) (each m l')
      | Fault f => Fault f
      end
  end.

(** What calls leave of a memory [m]: its blocks as they were, followed
    by blocks that are dead; as much of the heap handed out as before. *)
Definition after (m m' : mem) : Prop :=
  mem_wf m' /\ heap_used m' = heap_used m /\
  exists dead, m' = m ++ dead /\ Forall (fun blk => blk_live blk = false) dead.

(** Every key of the calls is a C string of the memory. *)
Definition keys_in (m : mem) (l : list (variant * ptr)) : Prop :=
  Forall (fun vk => exists bs, cstring_at m vk.2 bs) l.

(** ** What is left after a call *)

Lemma after_refl m : mem_wf m -> after m m.
Proof.
  intros Hwf. split; [assumption|]. split; [reflexivity|].
  exists []. now rewrite app_nil_r.
Qed.

Lemma after_trans m1 m2 m3 : after m1 m2 -> after m2 m3 -> after m1 m3.
Proof.
  intros (_ & Hu1 & d1 & -> & Hd1) (Hwf & Hu2 & d2 & -> & Hd2).
  split; [assumption|]. split; [congruence|].
  exists (d1 ++ d2). split; [now rewrite app_assoc|now apply Forall_app].
Qed.

Lemma scratch_freed_app m m' :
  scratch_freed m m' -> exists blk, m' = m ++ [blk] /\ blk_live blk = false.
Proof.
  intros (Hl & Ht & blk & Hb & Hd). exists blk. split; [|assumption].
  rewrite <- (take_drop (length m) m'), Ht. f_equal.
  rewrite (drop_S _ _ _ Hb), drop_ge by lia. reflexivity.
Qed.

Lemma scratch_freed_after m m' : mem_wf m' -> scratch_freed m m' -> after m m'.
Proof.
  intros Hwf (blk & -> & Hd)%scratch_freed_app. split; [assumption|]. split.
  - rewrite heap_used_app. cbn. rewrite Hd. cbn. lia.
  - exists [blk]. split; [reflexivity|]. now constructor.
Qed.

Lemma after_cstring m m' key bs : after m m' -> cstring_at m key bs -> cstring_at m' key bs.
Proof.
  intros (_ & _ & dead & -> & _). destruct key as [|b o]; [easy|].
  intros [Hk Hb]. split; [assumption|now apply bytes_at_grow].
Qed.

Lemma after_malloc m m' n : after m m' -> malloc_null m' n = malloc_null m n.
Proof. intros (_ & Hu & _). unfold malloc_null, heap_full. now rewrite Hu. Qed.

Lemma call_after v m key bs r m' :
  mem_wf m -> cstring_at m key bs -> call v key m = Ok (r, m') -> after m m'.
Proof.
  intros Hwf Hs. destruct v; cbn [call]; intros E.
  - destruct (ends_ok _ _ _ _ _ _ (phash_rfc3074_ends m key Hwf) E) as [-> _].
    now apply after_refl.
  - destruct (phash_original_leaves m key bs r m' Hwf Hs E) as (Hwf' & Hf & _).
    now apply scratch_freed_after.
  - destruct (ends_ok _ _ _ _ _ _ (phash_wikipedia_ends m key Hwf) E) as [-> _].
    now apply after_refl.
  - destruct (phash16_leaves m key bs r m' Hwf Hs E) as (Hwf' & Hf & _).
    now apply scratch_freed_after.
Qed.

(** A call computes after other calls what it computes before them. *)
Lemma call_stable v m m' key bs :
  mem_wf m -> after m m' -> cstring_at m key bs ->
  eval (call v key) m' = eval (call v key) m.
Proof.
  intros Hwf Ha Hs. pose proof (after_cstring _ _ _ _ Ha Hs) as Hs'.
  pose proof Ha as (Hwf' & _).
  destruct (digests_agree m' m key key bs Hwf' Hwf Hs' Hs) as (Hw & Hr & Hm).
  destruct (Hm (after_malloc _ _ _ Ha)) as [Ho H16]. now destruct v.
Qed.

Lemma keys_in_after m m' l : after m m' -> keys_in m l -> keys_in m' l.
Proof.
  intros Ha Hk. eapply Forall_impl; [exact Hk|]. intros vk [bs Hs]. exists bs.
  now apply (after_cstring m).
Qed.

Lemma each_stable m m' l : mem_wf m -> after m m' -> keys_in m l -> each m' l = each m l.
Proof.
  intros Hwf Ha. induction 1 as [|[v key] l [bs Hs] _ IH]; [reflexivity|].
  cbn [each]. now rewrite (call_stable v m m' key bs Hwf Ha Hs), IH.
Qed.

Lemma calls_each m l :
  mem_wf m -> keys_in m l ->
  eval (calls l) m = each m l /\
  forall rs m', calls l m = Ok (rs, m') -> after m m'.
Proof.
  revert m. induction l as [|[v key] l IH]; intros m Hwf Hk.
  { split; [reflexivity|]. intros rs m' [= _ <-]. now apply after_refl. }
  apply Forall_cons in Hk as [[bs Hs] Hk]. cbn [calls each]. unfold eval, bind.
  destruct (call v key m) as [[r m1]|f] eqn:E; [|now split].
  pose proof (call_after v m key bs r m1 Hwf Hs E) as Ha. pose proof Ha as (Hwf1 & _).
  destruct (IH m1 Hwf1 (keys_in_after _ _ _ Ha Hk)) as [He Hm].
  rewrite <- (each_stable m m1 l Hwf Ha Hk), <- He. unfold eval.
  destruct (calls l m1) as [[rs m2]|f]; [|now split].
  split; [reflexivity|]. intros rs' m' [= _ <-]. exact (after_trans _ _ _ Ha (Hm rs m2 eq_refl)).
Qed.

(** ** The heap *)

Lemma heap_full_null m n : heap_full m n = true -> malloc_null m n = true.
Proof. unfold malloc_null. intros ->. apply orb_true_r. Qed.

(** A call that allocates on a heap without room for its block
    dereferences the null pointer. *)
Lemma call_heap_full v m key bs :
  mem_wf m -> cstring_at m key bs -> allocates v = true ->
  heap_full m (Z.of_nat (length bs)) = true -> call v key m = Fault NullDeref.
Proof.
  intros Hwf Hs Hv Hn%heap_full_null. destruct key as [|b o]; [destruct Hs|].
  destruct v; try discriminate; cbn [call].
  - rewrite (phash_original_run m b o bs Hwf Hs). cbv zeta. now rewrite Hn.
  - now apply (phash16_null m b o bs).
Qed.

(** ** Calls in sequence *)

(** C22: calls do not interfere.  A caller that computes any digests one
    after another, each of a C string of the memory, obtains the digests
    that each call alone gives on the memory the caller started with, and
    the first fault of these when there is one; when the calls return,
    the caller's blocks are as they were, the blocks that were added are
    dead, and as much of the heap is handed out as before. *)
Theorem calls_independent m l :
  mem_wf m -> keys_in m l ->
  eval (calls l) m = each m l /\
  forall rs m', calls l m = Ok (rs, m') -> after m m'.
Proof. apply calls_each. Qed.

(** C29: when the heap has no room for the key, [malloc] returns the
    null pointer, which neither function tests: [phash_original] and
    [phash16] both fault with [NullDeref]. *)
Theorem heap_exhausted m key bs :
  mem_wf m -> cstring_at m key bs ->
  heap_full m (Z.of_nat (length bs)) = true ->
  phash_original key m = Fault NullDeref /\ phash16 key m = Fault NullDeref.
Proof.
  intros Hwf Hs Hn.
  split; [exact (call_heap_full Original m key bs Hwf Hs eq_refl Hn)
         |exact (call_heap_full Hash16 m key bs Hwf Hs eq_refl Hn)].
Qed.

End compose.

(** ** Witnesses *)

(** Four calls on a memory that holds "abc" and "a". *)
Lemma calls_independent_witness :
  let m := [string_block [97; 98; 99]; string_block [97]] in
  let l := [(Hash16, Ptr 0 0); (Original, Ptr 1 0); (RFC3074, Ptr 0 0); (Hash16, Ptr 0 0)] in
  eval (@calls x86_64 l) m = @each x86_64 m l /\
  forall rs m', @calls x86_64 l m = Ok (rs, m') -> @after x86_64 m m'.
Proof.
  intros m l. apply (@calls_independent x86_64 _ m l); [by_compute|].
  unfold keys_in, l.
  repeat (apply List.Forall_cons;
            [first [exists [97; 98; 99]; by_compute | exists [97]; by_compute]|]).
  apply List.Forall_nil.
Defined.

(** A heap of 2048 bytes of which 2046 are handed out. *)
Lemma heap_exhausted_witness :
  let m := [string_block [97]; @fresh_block micro8 2044] in
  @phash_original micro8 (Ptr 0 0) m = Fault NullDeref /\
  @phash16 micro8 (Ptr 0 0) m = Fault NullDeref.
Proof.
  intros m. apply (@heap_exhausted micro8 _ m (Ptr 0 0) [97]); [by_compute ..|reflexivity].
Defined.
