(* ===== verification/Task.v ===== *)
(** * Task: a call as a sequence of actions on a shared memory

    The monad [cm] runs a function from its first action to its last.
    When several callers run on one memory (spec.md, section 5) their
    actions alternate, so a call has to be a value that can be stopped
    after each action: a [prog] is a tree whose nodes are the accesses to
    memory and to the table ([op]), each with the continuation that
    receives its result.  [exec] runs a program to its end and is a
    morphism of monads into [cm]; [tstep] performs one action.

    The second half is the discipline a program keeps for others to run
    beside it ([confined]): before it allocates it only reads the blocks
    the callers share, it allocates within the bytes it announced, and
    afterwards it reads the shared blocks and its own block and writes
    its own block only.  What such a program computes does not depend on
    the rest of the memory ([exec_local]), and what it changes is its own
    block ([op_frame]). *)

From Stdlib Require Import ZArith Lia List.
From stdpp Require Import base tactics option list.
From S2P Require Import Prelude Platform CInt Table Memory Outcome.

#[local] Open Scope Z_scope.

(** ** Programs *)

(** The actions of the program on what callers share: the accesses
    [*p] and [*p = v], the two calls of the allocator, and the read
    [pearson_T[e]].  [Span] is the bound the model gives a loop that runs
    up to a terminator; it reads no byte. *)
Inductive op : Type -> Type :=
| Load (p : ptr) : op Z
| Store (p : ptr) (v : Z) : op unit
| Malloc (n : Z) : op ptr
| Free (p : ptr) : op unit
| Span (p : ptr) : op nat
| Lookup (e : Z) : op Z.

Inductive prog (A : Type) : Type :=
| Ret (a : A)
| Fail (f : fault)
| Do {B : Type} (o : op B) (k : B -> prog A).

Arguments Ret {A} a.
Arguments Fail {A} f.
Arguments Do {A B} o k.

Fixpoint pbind {A B} (t : prog A) (f : A -> prog B) : prog B :=
  match t with
  | Ret a => f a
  | Fail e => Fail e
  | Do o k => Do o (fun x => pbind (k x) f)
  end.

Declare Scope task_scope.
Delimit Scope task_scope with task.

Notation "x <- t ;; k" := (pbind t (fun x => k))
  (at level 100, t at next level, right associativity) : task_scope.
Notation "t ;; k" := (pbind t (fun _ => k))
  (at level 100, right associativity) : task_scope.

(** One action, and a computation on locals that may be undefined. *)
Definition act {B} (o : op B) : prog B := Do o Ret.

Definition t_lift {A} (r : result A) : prog A :=
  match r with Ok a => Ret a | Fault f => Fail f end.

(** Reading [*p] as a plain [char]. *)
Definition t_load_char {P : Platform} (p : ptr) : prog Z :=
  (b <- act (Load p) ;; Ret (char_val b))%task.

Definition is_malloc {B} (o : op B) : bool :=
  match o with Malloc _ => true | _ => false end.

(** The programs that do not read the table. *)
Definition is_lookup {B} (o : op B) : bool :=
  match o with Lookup _ => true | _ => false end.

Fixpoint lookup_free {A} (t : prog A) : Prop :=
  match t with
  | Do o k => is_lookup o = false /\ forall x, lookup_free (k x)
  | _ => True
  end.

(** The block of a pointer that designates one. *)
Definition block_of (p : ptr) : option nat :=
  match p with Null => None | Ptr b _ => Some b end.

(** The block an action accesses, and whether it changes it. *)
Definition op_block {B} (o : op B) : option nat :=
  match o with
  | Load p | Span p | Store p _ | Free p => block_of p
  | Malloc _ | Lookup _ => None
  end.

Definition op_writes {B} (o : op B) : bool :=
  match o with Store _ _ | Free _ => true | _ => false end.

(** The access a program is about to make: whether it writes, and the
    block. *)
Definition next_access {A} (t : prog A) : option (bool * nat) :=
  match t with
  | Do o _ => pair (op_writes o) <$> op_block o
  | _ => None
  end.

(** Two programs are about to access the same block, and one of the
    accesses is a write. *)
Definition races {A} (t1 t2 : prog A) : Prop :=
  exists w1 w2 b, next_access t1 = Some (w1, b) /\ next_access t2 = Some (w2, b) /\
                  w1 || w2 = true.

(** The phases of a caller: it has not allocated yet, or it has, and
    [own] is the block it was given (none when [malloc] returned NULL). *)
Inductive phase : Type :=
| Pre
| Post (own : option nat).

Definition own_of (ph : phase) : option nat :=
  match ph with Pre => None | Post own => own end.

Section task.
Context {P : Platform}.

Definition run_op {B} (o : op B) : cm mem B :=
  match o with
  | Load p => load p
  | Store p v => store p v
  | Malloc n => malloc n
  | Free p => free p
  | Span p => gets (span p)
  | Lookup e => lift (T_read e)
  end.

(** A program run to its end. *)
Fixpoint exec {A} (t : prog A) : cm mem A := fun m =>
  match t with
  | Ret a => Ok (a, m)
  | Fail f => Fault f
  | Do o k =>
      match run_op o m with
      | Ok (x, m') => exec (k x) m'
      | Fault f => Fault f
      end
  end.

(** One action of a program: none when it has returned. *)
Definition tstep {A} (t : prog A) (m : mem) : option (result (prog A * mem)) :=
  match t with
  | Ret _ => None
  | Fail f => Some (Fault f)
  | Do o k =>
      Some match run_op o m with
           | Ok (x, m') => Ok (k x, m')
           | Fault f => Fault f
           end
  end.

(** [t] performs the actions of the computation [c]. *)
Definition implements {A} (t : prog A) (c : cm mem A) : Prop :=
  forall m, exec t m = c m.

(** ** The discipline of a caller

    [m0] is the memory the callers start on: its blocks are what they
    share.  [need] is the number of bytes of the heap the caller may ask
    for. *)
Section protocol.
Variable m0 : mem.
Variable need : Z.

Definition readable (own : option nat) (p : ptr) : Prop :=
  match p with
  | Null => True
  | Ptr b _ => (b < length m0)%nat \/ own = Some b
  end.

Definition writable (own : option nat) (p : ptr) : Prop :=
  match p with
  | Null => True
  | Ptr b _ => own = Some b
  end.

(** The actions a caller may perform in a phase. *)
Definition op_ok (ph : phase) {B} (o : op B) : Prop :=
  match o with
  | Load p | Span p => readable (own_of ph) p
  | Store p v => writable (own_of ph) p /\ is_byte v
  | Free p => writable (own_of ph) p
  | Malloc sz => ph = Pre /\ blk_cells (fresh_block sz) <= need
  | Lookup _ => True
  end.

(** The results an action can have.  Before the allocation every action
    reads shared blocks, which hold what they held in [m0].  An entry of
    the table is a byte: which one is of no concern to the discipline. *)
Definition op_ret (ph : phase) {B} (o : op B) : B -> Prop :=
  match o in op B return B -> Prop with
  | Malloc _ => fun p =>
      match p with Null => True | Ptr b o => (length m0 <= b)%nat /\ o = 0 end
  | Load p => fun x =>
      is_byte x /\ (ph = Pre -> eval (load p) m0 = Ok x)
  | Span p => fun x => ph = Pre -> x = span p m0
  | Lookup e => fun x => is_byte x
  | _ => fun _ => True
  end.

Definition op_next (ph : phase) {B} (o : op B) : B -> phase :=
  match o in op B return B -> phase with
  | Malloc _ => fun p => Post (block_of p)
  | _ => fun _ => ph
  end.

(** [confined Q ph t]: from the phase [ph] on, [t] performs only the
    actions its phase allows, and returns in a phase and with a value
    that satisfy [Q]. *)
Fixpoint confined {A} (Q : phase -> A -> Prop) (ph : phase) (t : prog A) : Prop :=
  match t with
  | Ret a => Q ph a
  | Fail _ => True
  | Do o k => op_ok ph o /\ forall x, op_ret ph o x -> confined Q (op_next ph o x) (k x)
  end.

(** Two memories that hold the same shared blocks and the same block
    [own]. *)
Definition agree (own : option nat) (m m' : mem) : Prop :=
  forall b, (b < length m0)%nat \/ own = Some b -> m !! b = m' !! b.

(** What an action does to the memory: [malloc] appends a block or
    nothing, every other action keeps the number of blocks and hands out
    no byte of the heap. *)
Definition op_effect {B} (o : op B) (m : mem) : B -> mem -> Prop :=
  match o in op B return B -> mem -> Prop with
  | Malloc sz => fun p m' =>
      p = Null /\ m' = m \/
      malloc_null m sz = false /\ p = Ptr (length m) 0 /\ m' = m ++ [fresh_block sz]
  | _ => fun _ m' => length m' = length m /\ heap_used m' <= heap_used m
  end.

End protocol.
End task.

(** Agreement is an equivalence of memories. *)
#[export] Instance agree_equiv m0 own : Equivalence (agree m0 own).
Proof.
  split.
  - intros m b _. reflexivity.
  - intros m m' H b Hb. symmetry. now apply H.
  - intros m1 m2 m3 H12 H23 b Hb. now rewrite (H12 b Hb), (H23 b Hb).
Qed.

(** ** Programs as computations *)

Section exec.
Context {P : Platform}.

Lemma exec_bind {A B} (t : prog A) (f : A -> prog B) m :
  exec (pbind t f) m = bind (exec t) (fun a => exec (f a)) m.
Proof.
  revert m. induction t as [a|e|C o k IH]; intros m; cbn; try reflexivity.
  unfold bind. cbn. destruct (run_op o m) as [[x m']|e]; [apply IH|reflexivity].
Qed.

Lemma implements_ret {A} (a : A) : implements (Ret a) (ret a).
Proof. intros m. reflexivity. Qed.

Lemma implements_fail {A} f : implements (Fail f) (@fail mem A f).
Proof. intros m. reflexivity. Qed.

Lemma implements_act {B} (o : op B) : implements (act o) (run_op o).
Proof. intros m. cbn. now destruct (run_op o m) as [[x m']|f]. Qed.

Lemma implements_lift {A} (r : result A) : implements (t_lift r) (lift r).
Proof. intros m. now destruct r. Qed.

Lemma implements_bind {A B} (t : prog A) c (f : A -> prog B) k :
  implements t c -> (forall a, implements (f a) (k a)) ->
  implements (pbind t f) (bind c k).
Proof.
  intros Ht Hf m. rewrite exec_bind. unfold bind. rewrite Ht.
  destruct (c m) as [[a m']|e]; [apply Hf|reflexivity].
Qed.

Lemma implements_load_char p : implements (t_load_char p) (load_char p).
Proof.
  apply implements_bind; [apply (implements_act (Load p))|].
  intros b. apply implements_ret.
Qed.

(** A program is run by its actions, one after another. *)
Lemma exec_tstep {A} (t : prog A) m t' m' :
  tstep t m = Some (Ok (t', m')) -> exec t m = exec t' m'.
Proof.
  destruct t as [a|f|B o k]; cbn; [discriminate ..|].
  destruct (run_op o m) as [[x m1]|f]; [|discriminate]. now intros [= <- <-].
Qed.

Lemma exec_tstep_fault {A} (t : prog A) m f :
  tstep t m = Some (Fault f) -> exec t m = Fault f.
Proof.
  destruct t as [a|f'|B o k]; cbn; [discriminate|now intros [= <-]|].
  destruct (run_op o m) as [[x m1]|f']; [discriminate|now intros [= <-]].
Qed.

Lemma tstep_None {A} (t : prog A) m : tstep t m = None <-> exists a, t = Ret a.
Proof.
  destruct t as [a|f|B o k]; cbn; split; try discriminate; eauto.
  all: intros [a [=]].
Qed.

End exec.

#[export] Hint Resolve implements_ret implements_fail implements_lift implements_load_char : cm.

(** ** What an action does *)

Section effect.
Context {P : Platform} `{!PlatformOk P}.
Implicit Types (m : mem) (ph : phase).

Lemma op_effect_ok {B} (o : op B) m x m' :
  run_op o m = Ok (x, m') -> op_effect o m x m'.
Proof.
  destruct o; cbn [run_op op_effect]; intros E.
  - apply load_inv in E as [-> _]. split; [reflexivity|lia].
  - apply store_inv in E as (b & o & _ & _ & ->).
    rewrite length_mem_set, heap_used_set. split; [reflexivity|lia].
  - unfold malloc in E. destruct (malloc_null m n) eqn:Hn; injection E as <- <-; auto.
  - split; [|exact (free_heap _ _ _ _ E)].
    apply free_inv in E as [[_ ->]|(b & blk & _ & _ & _ & _ & ->)];
      [reflexivity|apply length_mem_kill].
  - injection E as _ <-. split; [reflexivity|lia].
  - destruct (T_read e); [injection E as _ <-|discriminate]. split; [reflexivity|lia].
Qed.

Lemma op_length {B} (o : op B) m x m' :
  run_op o m = Ok (x, m') -> (length m <= length m')%nat.
Proof.
  intros E%op_effect_ok. destruct o; cbn in E; try lia.
  destruct E as [[_ ->]|(_ & _ & ->)]; [lia|]. rewrite length_app. lia.
Qed.

(** An action that returns leaves a well-formed memory. *)
Lemma op_wf m0 need ph {B} (o : op B) m x m' :
  op_ok m0 need ph o -> mem_wf m -> run_op o m = Ok (x, m') -> mem_wf m'.
Proof.
  intros Hok Hwf E. destruct o; cbn [run_op] in E.
  - now apply load_inv in E as [-> _].
  - destruct Hok as [_ Hv]. exact (proj1 (ends_ok _ _ _ _ _ _ (store_wf p v m Hwf Hv) E)).
  - exact (proj1 (ends_ok _ _ _ _ _ _ (malloc_wf n m Hwf) E)).
  - exact (proj1 (ends_ok _ _ _ _ _ _ (free_wf p m Hwf) E)).
  - now injection E as _ <-.
  - destruct (T_read e); [now injection E as _ <-|discriminate].
Qed.

(** The blocks an action changes: the one the caller owns. *)
Lemma op_frame m0 need ph {B} (o : op B) m x m' :
  op_ok m0 need ph o -> run_op o m = Ok (x, m') ->
  forall b, (b < length m)%nat -> own_of ph <> Some b -> m' !! b = m !! b.
Proof.
  intros Hok E b Hb Hown. destruct o; cbn [run_op op_ok] in E, Hok.
  - now apply load_inv in E as [-> _].
  - apply store_inv in E as (b' & o & -> & _ & ->). destruct Hok as [Hw _].
    apply lookup_mem_set_ne. intros ->. now apply Hown.
  - unfold malloc in E. destruct (malloc_null m n); injection E as _ <-; [reflexivity|].
    now apply lookup_app_l.
  - apply free_inv in E as [[_ ->]|(b' & blk & -> & _ & _ & _ & ->)]; [reflexivity|].
    apply lookup_mem_kill_ne. intros ->. now apply Hown.
  - now injection E as _ <-.
  - destruct (T_read e); [now injection E as _ <-|discriminate].
Qed.

End effect.

(** ** Memories that agree on what a caller sees *)

Section agree.
Variable m0 : mem.
Implicit Types (own : option nat).

Lemma agree_shared own m m' : agree m0 own m m' -> agree m0 None m m'.
Proof. intros H b [Hb|[=]]. apply H. now left. Qed.

(** Two memories that begin with the blocks of [m0] agree on them. *)
Lemma agree_take m m' :
  take (length m0) m = m0 -> take (length m0) m' = m0 -> agree m0 None m m'.
Proof.
  intros H H' b [Hb|[=]].
  now rewrite <- (lookup_take_lt m (length m0) b Hb), <- (lookup_take_lt m' (length m0) b Hb), H, H'.
Qed.

Lemma agree_insert own m m' b blk :
  agree m0 own m m' -> m !! b = m' !! b ->
  agree m0 own (<[b := blk]> m) (<[b := blk]> m').
Proof.
  intros H Hb b' Hb'. destruct (decide (b' = b)) as [->|Hne].
  - destruct (m !! b) as [x|] eqn:E.
    + rewrite !list_lookup_insert_eq; [reflexivity|..].
      * apply lookup_lt_is_Some. rewrite <- Hb. eauto.
      * apply lookup_lt_is_Some. eauto.
    + rewrite !list_insert_ge; [congruence|..].
      * apply lookup_ge_None. congruence.
      * now apply lookup_ge_None.
  - rewrite !list_lookup_insert_ne by congruence. now apply H.
Qed.

Lemma agree_cell own m m' b o :
  agree m0 own m m' -> (b < length m0)%nat \/ own = Some b -> cell m b o = cell m' b o.
Proof. intros H Hb. unfold cell. now rewrite (H b Hb). Qed.

End agree.

Section local.
Context {P : Platform} `{!PlatformOk P}.
Variable m0 : mem.
Variable need : Z.
Implicit Types (m : mem) (ph : phase) (own : option nat).

(** An action gives the same result on memories that agree on what its
    caller sees, and they agree m0 afterwards. *)
Lemma op_local ph {B} (o : op B) m m2 x m' :
  op_ok m0 need ph o -> is_malloc o = false -> agree m0 (own_of ph) m m2 ->
  run_op o m = Ok (x, m') ->
  exists m2', run_op o m2 = Ok (x, m2') /\ agree m0 (own_of ph) m' m2'.
Proof.
  intros Hok Hm Hag E. destruct o; cbn [run_op op_ok] in E, Hok |- *; try discriminate.
  - destruct p as [|b o]; [discriminate|]. pose proof E as [-> _]%load_inv.
    exists m2. split; [|assumption]. unfold load in *. rewrite <- (Hag b Hok).
    destruct (m !! b) as [blk|]; [|discriminate]. destruct (blk_live blk); [|discriminate].
    destruct (blk_cell blk o) as [[c|]|]; now simplify_eq.
  - destruct p as [|b o]; [discriminate|]. destruct Hok as [Hb _].
    unfold store in *. rewrite <- (Hag b (or_intror Hb)).
    destruct (m !! b) as [blk|] eqn:Eb; [|discriminate].
    destruct (blk_live blk); [|discriminate].
    destruct x. destruct (blk_cell blk o); [|discriminate]. injection E as <-.
    eexists. split; [reflexivity|]. apply agree_insert; [assumption|].
    apply Hag. now right.
  - destruct x, p as [|b o]; [injection E as <-; now exists m2|].
    unfold free in *. rewrite <- (Hag b (or_intror Hok)).
    destruct (m !! b) as [blk|] eqn:Eb; [|discriminate].
    destruct (_ && _); [|discriminate]. injection E as <-. 
    eexists. split; [reflexivity|]. apply agree_insert; [assumption|].
    apply Hag. now right.
  - injection E as <- <-. exists m2. split; [|assumption]. unfold gets. do 2 f_equal.
    destruct p as [|b o]; [reflexivity|]. cbn. now rewrite (Hag b Hok).
  - exists m2. split; [|destruct (T_read e); [now injection E as _ <-|discriminate]].
    unfold lift in *. now destruct (T_read e); simplify_eq.
Qed.

(** An action of a caller that owns no block changes nothing. *)
Lemma op_readonly ph {B} (o : op B) m x m' :
  op_ok m0 need ph o -> is_malloc o = false -> own_of ph = None ->
  run_op o m = Ok (x, m') -> m' = m.
Proof.
  intros Hok Hm Hown E. destruct o; cbn [run_op op_ok] in E, Hok; try discriminate.
  - now apply load_inv in E as [-> _].
  - apply store_inv in E as (b & o & -> & _). destruct Hok as [Hw _]. cbn in Hw. congruence.
  - apply free_inv in E as [[_ ->]|(b & blk & -> & _)]; [reflexivity|]. cbn in Hok. congruence.
  - now injection E as _ <-.
  - destruct (T_read e); [now injection E as _ <-|discriminate].
Qed.

(** The values an action returns on a well-formed memory; before the
    allocation, on one that begins with the shared blocks. *)
Lemma op_value ph {B} (o : op B) m x m' :
  op_ok m0 need ph o -> mem_wf m ->
  (ph = Pre -> agree m0 None m m0 /\ (length m0 <= length m)%nat) ->
  run_op o m = Ok (x, m') -> op_ret m0 ph o x.
Proof.
  intros Hok Hwf Hpre E. destruct o; cbn [run_op op_ok op_ret] in E, Hok |- *.
  - apply load_inv in E as (_ & b & o & -> & Hc). split; [exact (cell_wf_byte _ _ _ _ Hwf Hc)|].
    intros ->. destruct (Hpre eq_refl) as [Hag _]. destruct Hok as [Hb|[=]]. unfold eval.
    rewrite (load_ok m0 b o x); [reflexivity|]. rewrite <- Hc. symmetry.
    apply (agree_cell m0 None); auto.
  - exact I.
  - destruct Hok as [-> _]. destruct (Hpre eq_refl) as [_ Hlen].
    unfold malloc in E. destruct (malloc_null m n); injection E as <- _; [exact I|auto].
  - exact I.
  - injection E as <- _. intros ->. destruct (Hpre eq_refl) as [Hag _].
    destruct p as [|b o]; [reflexivity|]. destruct Hok as [Hb|[=]]. cbn. rewrite (Hag b); auto.
  - destruct (T_read e) as [t|] eqn:Et; [|discriminate]. injection E as <- _.
    exact (T_read_byte _ _ Et).
Qed.

(** Before the allocation the result of an action on the memory is its
    result on [m0]. *)
Lemma op_ret_pre {B} (o : op B) x x' m' :
  is_malloc o = false -> is_lookup o = false ->
  op_ret m0 Pre o x -> run_op o m0 = Ok (x', m') -> x' = x.
Proof.
  intros Hm Hl Hx E. destruct o; cbn [run_op op_ret] in E, Hx; try discriminate.
  - destruct Hx as [_ Hx]. specialize (Hx eq_refl). unfold eval in Hx. rewrite E in Hx.
    now injection Hx.
  - now destruct x, x'.
  - now destruct x, x'.
  - injection E as <- _. symmetry. now apply Hx.
Qed.

(** ** Programs that keep the discipline *)

Lemma confined_mono {A} (Q Q' : phase -> A -> Prop) ph (t : prog A) :
  (forall ph' a, Q ph' a -> Q' ph' a) -> confined m0 need Q ph t -> confined m0 need Q' ph t.
Proof.
  intros HQ. revert ph. induction t as [a|f|B o k IH]; intros ph; cbn; [apply HQ|auto|].
  intros [Hok Hk]. split; [assumption|]. intros x Hx. apply IH, Hk, Hx.
Qed.

Lemma confined_bind {A B} (Q : phase -> B -> Prop) ph (t : prog A) (f : A -> prog B) :
  confined m0 need (fun ph' a => confined m0 need Q ph' (f a)) ph t -> confined m0 need Q ph (pbind t f).
Proof.
  revert ph. induction t as [a|e|C o k IH]; intros ph; cbn; [auto ..|].
  intros [Hok Hk]. split; [assumption|]. intros x Hx. apply IH, Hk, Hx.
Qed.

Lemma confined_act {B} (Q : phase -> B -> Prop) ph (o : op B) :
  op_ok m0 need ph o -> (forall x, op_ret m0 ph o x -> Q (op_next ph o x) x) -> confined m0 need Q ph (act o).
Proof. intros Hok HQ. split; assumption. Qed.

Lemma confined_lift {A} (Q : phase -> A -> Prop) ph (r : result A) :
  (forall a, r = Ok a -> Q ph a) -> confined m0 need Q ph (t_lift r).
Proof. destruct r; cbn; auto. Qed.

(** What a caller that owns no block is allowed, it is allowed before
    its allocation. *)
Lemma confined_pre {A} (Q : A -> Prop) (t : prog A) :
  confined m0 need (fun _ a => Q a) (Post None) t -> confined m0 need (fun _ a => Q a) Pre t.
Proof.
  induction t as [a|f|B o k IH]; cbn; [auto ..|]. intros [Hok Hk]. split.
  - destruct o; cbn in *; auto. now destruct Hok.
  - intros x Hx. destruct o; cbn in *; try (apply IH, Hk; tauto). now destruct Hok.
Qed.

Lemma post_not_malloc own {B} (o : op B) : op_ok m0 need (Post own) o -> is_malloc o = false.
Proof. destruct o; try reflexivity. now intros [? _]. Qed.

Lemma op_next_post own {B} (o : op B) x :
  op_ok m0 need (Post own) o -> op_next (Post own) o x = Post own.
Proof. destruct o; try reflexivity. now intros [? _]. Qed.

(** The next access of a program that keeps the discipline is to a
    shared block or to its own, and a write is to its own. *)
Lemma confined_access {A} (Q : phase -> A -> Prop) ph (t : prog A) w b :
  confined m0 need Q ph t -> next_access t = Some (w, b) ->
  ((b < length m0)%nat \/ own_of ph = Some b) /\ (w = true -> own_of ph = Some b).
Proof.
  destruct t as [a|f|B o k]; [discriminate ..|]. intros [Hok _] Ha. cbn in Ha.
  destruct o; cbn in Ha, Hok; try discriminate;
    destruct p as [|b' o']; try discriminate; injection Ha as <- <-; cbn in Hok.
  - split; [assumption|discriminate].
  - destruct Hok as [Hok _]. split; [now right|auto].
  - split; [now right|auto].
  - split; [assumption|discriminate].
Qed.

(** A program computes the same on memories that agree on what it sees. *)
Lemma exec_local {A} (Q : phase -> A -> Prop) own (t : prog A) m m2 a m' :
  confined m0 need Q (Post own) t -> mem_wf m -> agree m0 own m m2 ->
  exec t m = Ok (a, m') ->
  exists m2', exec t m2 = Ok (a, m2') /\ agree m0 own m' m2'.
Proof.
  revert m m2. induction t as [x|f|B o k IH]; intros m m2; cbn.
  - intros _ _ Hag [= <- <-]. now exists m2.
  - discriminate.
  - intros [Hok Hk] Hwf Hag E.
    destruct (run_op o m) as [[x m1]|f] eqn:Eo; [|discriminate].
    destruct (op_local (Post own) o m m2 x m1 Hok (post_not_malloc _ _ Hok) Hag Eo)
      as (m21 & -> & Hag1).
    assert (Hx : op_ret m0 (Post own) o x) by (eapply op_value; eauto; discriminate).
    specialize (Hk x Hx). rewrite (op_next_post own o x Hok) in Hk.
    exact (IH x m1 m21 Hk (op_wf _ _ _ _ _ _ _ Hok Hwf Eo) Hag1 E).
Qed.

(** Before its allocation a program that runs on [m0] and does not read
    the table returns what it returns there. *)
Lemma confined_pre_exec {A} (t : prog A) a m' :
  lookup_free t ->
  confined m0 need (fun _ _ => True) (Post None) t -> exec t m0 = Ok (a, m') ->
  confined m0 need (fun ph x => ph = Pre /\ x = a) Pre t.
Proof.
  induction t as [x|f|B o k IH]; cbn; [now intros _ _ [= <- _]|auto|].
  intros [Hl Hf] [Hok Hk] E. destruct (run_op o m0) as [[x m1]|f] eqn:Eo; [|discriminate].
  pose proof (post_not_malloc _ _ Hok) as Hm.
  pose proof (op_readonly (Post None) o m0 x m1 Hok Hm eq_refl Eo) as ->.
  split; [destruct o; try exact Hok; discriminate|]. intros y Hy.
  pose proof (op_ret_pre o y x m0 Hm Hl Hy Eo) as ->.
  replace (op_next Pre o y) with Pre by (destruct o; try reflexivity; discriminate).
  apply IH; [apply Hf| |assumption]. rewrite <- (op_next_post None o y Hok). apply Hk.
  destruct o; cbn in Hy |- *; try tauto; discriminate.
Qed.

End local.
