(* ===== verification/Pool.v ===== *)
(** * Pool: callers that run at the same time

    Several callers on one memory (spec.md, section 5).  A configuration
    is the program each caller has left and the memory they share;
    a step is one action of one caller, chosen freely ([step]), and a
    fault of any caller ends the whole program ([Crash]), as undefined
    behaviour does.  [run] performs the steps a schedule names.

    Every schedule ends, because a program is a finite tree
    ([pool_terminates]).  The main result is about callers that keep the
    discipline of [Task]: when each of them, started alone on any memory
    that begins with the shared blocks and has room for its request,
    returns its value and frees what it allocated ([admissible]), and the
    heap has room for all the requests at once, then no schedule
    crashes, and every schedule ends with the values the callers compute
    alone, the shared blocks as they were and no byte of the heap handed
    out ([pool_results]). *)

From Stdlib Require Import ZArith Lia List.
From stdpp Require Import base tactics option list relations.
From S2P Require Import Prelude Platform CInt Table Memory Outcome Compose Task.

#[local] Open Scope Z_scope.

(** ** Configurations and steps *)

Inductive conf (A : Type) : Type :=
| Pool (ts : list (prog A)) (m : mem)
| Crash (f : fault).

Arguments Pool {A} ts m.
Arguments Crash {A} f.

(** A caller: its program, the bytes of the heap it may ask for, and the
    value it returns when it runs alone. *)
Record caller (A : Type) : Type := Caller {
  c_task : prog A;
  c_need : Z;
  c_value : A
}.

Arguments Caller {A} c_task c_need c_value.
Arguments c_task {A} c.
Arguments c_need {A} c.
Arguments c_value {A} c.

Section pool.
Context {P : Platform} {A : Type}.

(** The next action of caller [i]. *)
Definition fire (i : nat) (c : conf A) : option (conf A) :=
  match c with
  | Crash _ => None
  | Pool ts m =>
      match ts !! i with
      | None => None
      | Some t =>
          match tstep t m with
          | None => None
          | Some (Ok (t', m')) => Some (Pool (<[i := t']> ts) m')
          | Some (Fault f) => Some (Crash f)
          end
      end
  end.

Inductive step : conf A -> conf A -> Prop :=
| step_fire i c c' : fire i c = Some c' -> step c c'.

(** The steps of a schedule, one caller after another; a caller that has
    returned is passed over. *)
Fixpoint run (sched : list nat) (c : conf A) : conf A :=
  match sched with
  | [] => c
  | i :: sched' => run sched' (default c (fire i c))
  end.

(** What callers see of a configuration: the values of those that have
    returned, or the fault. *)
Definition results (c : conf A) : result (list (option A)) :=
  match c with
  | Pool ts _ => Ok ((fun t => match t with Ret a => Some a | _ => None end) <$> ts)
  | Crash f => Fault f
  end.

(** What is left of a program after one of its actions. *)
Definition residual (t' t : prog A) : Prop :=
  exists m m', tstep t m = Some (Ok (t', m')).

(** One caller of a pool has performed an action. *)
Definition shrinks (ts' ts : list (prog A)) : Prop :=
  exists i t t', ts !! i = Some t /\ residual t' t /\ ts' = <[i := t']> ts.

(** ** Callers that keep the discipline *)

Section callers.
Variable m0 : mem.

(** The memories a caller may find when it starts: they begin with the
    shared blocks and have room for its request. *)
Definition good (need : Z) (m : mem) : Prop :=
  take (length m0) m = m0 /\ mem_wf m /\ heap_used m + need <= heap_size.

Definition admissible (c : caller A) : Prop :=
  0 <= c_need c /\
  confined m0 (c_need c) (fun _ _ => True) Pre (c_task c) /\
  forall m, good (c_need c) m ->
    exists m', exec (c_task c) m = Ok (c_value c, m') /\ after m m'.

(** The bytes a caller has announced and not yet asked for. *)
Definition owed (s : phase * caller A) : Z :=
  match s.1 with Pre => c_need s.2 | Post _ => 0 end.

(** The block a caller owns is dead. *)
Definition settled (own : option nat) (m : mem) : Prop :=
  forall b blk, own = Some b -> m !! b = Some blk -> blk_live blk = false.

(** A caller in the middle of its run: it keeps the discipline, and
    alone it would return its value from here. *)
Definition thread_ok (m : mem) (s : phase * caller A) (t : prog A) : Prop :=
  0 <= c_need s.2 /\
  confined m0 (c_need s.2) (fun _ _ => True) s.1 t /\
  match s.1 with
  | Pre => forall m2, good (c_need s.2) m2 ->
             exists m', exec t m2 = Ok (c_value s.2, m') /\ after m2 m'
  | Post own => exists m', exec t m = Ok (c_value s.2, m') /\ settled own m'
  end.

(** Every block past the shared ones is owned by one caller. *)
Definition owners (sts : list (phase * caller A)) (m : mem) : Prop :=
  (forall i b c, sts !! i = Some (Post (Some b), c) -> (length m0 <= b < length m)%nat) /\
  (forall i j b c c', sts !! i = Some (Post (Some b), c) ->
                      sts !! j = Some (Post (Some b), c') -> i = j) /\
  (forall b, (length m0 <= b < length m)%nat ->
             exists i c, sts !! i = Some (Post (Some b), c)).

(** What one action of a caller does to the memory, by the phase it
    leaves the caller in. *)
Definition moves (ph ph' : phase) (need : Z) (m m' : mem) : Prop :=
  mem_wf m' /\
  (forall b, (b < length m)%nat -> own_of ph <> Some b -> m' !! b = m !! b) /\
  (ph' = ph /\ length m' = length m /\ heap_used m' <= heap_used m \/
   ph = Pre /\ ph' = Post None /\ m' = m \/
   ph = Pre /\ ph' = Post (Some (length m)) /\ length m' = S (length m) /\
     heap_used m' <= heap_used m + need).

(** The invariant of a pool. *)
Definition pool_inv (sts : list (phase * caller A)) (ts : list (prog A)) (m : mem) : Prop :=
  mem_wf m /\ take (length m0) m = m0 /\
  heap_used m + zsum (owed <$> sts) <= heap_size /\
  owners sts m /\ Forall2 (thread_ok m) sts ts.

End callers.
End pool.

(** ** Steps *)

Section steps.
Context {P : Platform} {A : Type}.
Implicit Types (c : conf A) (ts : list (prog A)) (t : prog A) (m : mem).

Lemma fire_crash i f : fire i (@Crash A f) = None.
Proof. reflexivity. Qed.

Lemma fire_inv i ts m c' :
  fire i (Pool ts m) = Some c' ->
  exists t r, ts !! i = Some t /\ tstep t m = Some r /\
    c' = match r with Ok (t', m') => Pool (<[i := t']> ts) m' | Fault f => Crash f end.
Proof.
  cbn. destruct (ts !! i) as [t|]; [|discriminate].
  destruct (tstep t m) as [[[t' m']|f]|] eqn:E; [| |discriminate]; intros [= <-]; eauto.
Qed.

Lemma step_inv c c' : step c c' <-> exists i, fire i c = Some c'.
Proof. split; [intros [i ? ? E]; eauto|intros [i E]; exact (step_fire i c c' E)]. Qed.

Lemma run_app s1 s2 c : run (s1 ++ s2) c = run s2 (run s1 c).
Proof. revert c. induction s1 as [|i s1 IH]; intros c; [reflexivity|apply IH]. Qed.

(** A schedule performs steps. *)
Lemma run_steps sched c : rtc step c (run sched c).
Proof.
  revert c. induction sched as [|i sched IH]; intros c; [constructor|]. cbn.
  destruct (fire i c) as [c'|] eqn:E; [|apply IH].
  eapply rtc_l; [exact (step_fire i c c' E)|apply IH].
Qed.

(** Steps are what schedules perform. *)
Lemma steps_run c c' : rtc step c c' -> exists sched, run sched c = c'.
Proof.
  induction 1 as [c|c c1 c' [i E]%step_inv _ [sched IH]]; [now exists []|].
  exists (i :: sched). cbn. now rewrite E.
Qed.

(** A caller that has not returned can move. *)
Lemma fire_red i ts m t r :
  ts !! i = Some t -> tstep t m = Some r -> red step (Pool ts m).
Proof.
  intros Hi Ht. assert (Hf : is_Some (fire i (Pool ts m))).
  { cbn. rewrite Hi, Ht. destruct r as [[]|]; eauto. }
  destruct Hf as [c' Hf]. exists c'. exact (step_fire _ _ _ Hf).
Qed.

(** A pool that cannot move has returned everywhere. *)
Lemma nf_pool ts m : nf step (Pool ts m) -> exists rs, ts = Ret <$> rs.
Proof.
  intros Hnf. induction ts as [|t ts IH] using rev_ind; [now exists []|].
  destruct (tstep t m) as [r|] eqn:E.
  - exfalso. apply Hnf, (fire_red (length ts) _ _ t r); [|assumption].
    now rewrite lookup_app_r, Nat.sub_diag by lia.
  - apply tstep_None in E as [a ->]. destruct IH as [rs ->].
    + intros [c' [i Hf]%step_inv]. apply Hnf.
      apply fire_inv in Hf as (t & r & Hi & Ht & ->).
      apply (fire_red i _ _ t r); [|assumption]. apply lookup_app_l_Some, Hi.
    + exists (rs ++ [a]). now rewrite fmap_app.
Qed.

Lemma crash_nf f : nf step (@Crash A f).
Proof. intros [c' [i E]%step_inv]. discriminate. Qed.

(** A pool of callers that have returned cannot move. *)
Lemma pool_done_nf (rs : list A) m : nf step (Pool (Ret <$> rs) m).
Proof.
  intros [c' [i (t & r & Hi & Ht & _)%fire_inv]%step_inv].
  apply list_lookup_fmap_Some in Hi as (a & -> & _). discriminate.
Qed.

Lemma results_done (rs : list A) m : results (Pool (Ret <$> rs) m) = Ok (Some <$> rs).
Proof. cbn. now rewrite <- list_fmap_compose. Qed.

(** A configuration in which every caller shows a value cannot move. *)
Lemma results_nf c (rs : list A) : results c = Ok (Some <$> rs) -> nf step c.
Proof.
  destruct c as [ts m|f]; [|discriminate]. intros [= H].
  intros [c' [i (t & r & Hi & Ht & _)%fire_inv]%step_inv].
  apply (f_equal (fun l => l !! i)) in H. rewrite !list_lookup_fmap, Hi in H.
  destruct (rs !! i); [|discriminate]. now destruct t.
Qed.

(** A pool of one caller runs the program of the caller. *)
Lemma pool_single t m c :
  rtc step (Pool [t] m) c -> nf step c ->
  c = match exec t m with Ok (a, m') => Pool [Ret a] m' | Fault f => Crash f end.
Proof.
  intros H. remember (Pool [t] m) as c0 eqn:E0. revert t m E0.
  induction H as [c|c c1 c2 [i Hf]%step_inv Hrtc IH]; intros t m -> Hnf.
  - apply nf_pool in Hnf as [[|a [|? ?]] [= ->]]. reflexivity.
  - apply fire_inv in Hf as (t0 & r & Hi & Ht & ->).
    destruct i as [|i]; [injection Hi as <-|destruct i; discriminate].
    destruct r as [[t' m']|f].
    + rewrite (exec_tstep t m t' m' Ht). now apply IH.
    + rewrite (exec_tstep_fault t m f Ht). symmetry.
      exact (rtc_nf _ _ Hrtc (crash_nf f)).
Qed.

(** A caller can perform all its actions without the others moving. *)
Lemma pool_alone ts i t m :
  ts !! i = Some t ->
  rtc step (Pool ts m)
    match exec t m with
    | Ok (a, m') => Pool (<[i := Ret a]> ts) m'
    | Fault f => Crash f
    end.
Proof.
  revert ts m. induction t as [a|f|B o k IH]; intros ts m Hi; cbn [exec].
  - now rewrite list_insert_id.
  - apply rtc_once, (step_fire i). cbn. now rewrite Hi.
  - destruct (run_op o m) as [[x m1]|f] eqn:E.
    + eapply rtc_l; [apply (step_fire i); cbn; rewrite Hi; cbn; rewrite E; reflexivity|].
      assert (Hi' : <[i := k x]> ts !! i = Some (k x)).
      { apply list_lookup_insert_eq. now apply lookup_lt_Some in Hi. }
      specialize (IH x (<[i := k x]> ts) m1 Hi').
      destruct (exec (k x) m1) as [[a m']|f]; [|assumption].
      now rewrite list_insert_insert_eq in IH.
    + apply rtc_once, (step_fire i). cbn. rewrite Hi. cbn. now rewrite E.
Qed.

(** A caller can perform the first part of its program without the
    others moving. *)
Lemma pool_prefix {B} ts i (t : prog B) (k : B -> prog A) m x m' :
  ts !! i = Some (pbind t k) -> exec t m = Ok (x, m') ->
  rtc step (Pool ts m) (Pool (<[i := k x]> ts) m').
Proof.
  revert ts m. induction t as [a|f|C o k' IH]; intros ts m Hi; cbn [exec pbind] in *.
  - intros [= <- <-]. now rewrite list_insert_id.
  - discriminate.
  - destruct (run_op o m) as [[y m1]|f] eqn:E; [|discriminate]. intros Ht.
    eapply rtc_l; [apply (step_fire i); cbn; rewrite Hi; cbn; rewrite E; reflexivity|].
    assert (Hi' : <[i := pbind (k' y) k]> ts !! i = Some (pbind (k' y) k)).
    { apply list_lookup_insert_eq. now apply lookup_lt_Some in Hi. }
    specialize (IH y (<[i := pbind (k' y) k]> ts) m1 Hi' Ht).
    now rewrite list_insert_insert_eq in IH.
Qed.

(** ** Every schedule ends *)

Lemma residual_wf t : Acc (@residual P A) t.
Proof.
  induction t as [a|f|B o k IH]; constructor; intros t' (m & m' & E); cbn in E;
    [discriminate ..|].
  destruct (run_op o m) as [[x m1]|f]; [|discriminate]. injection E as <- _. apply IH.
Qed.

Lemma shrinks_cons t ts :
  Acc (@residual P A) t -> Acc (@shrinks P A) ts -> Acc (@shrinks P A) (t :: ts).
Proof.
  intros Ht. revert ts. induction Ht as [t _ IHt]. intros ts Hts.
  induction Hts as [ts Hts IHts]. constructor.
  intros ts' (i & u & u' & Hi & Hr & ->). destruct i as [|i]; cbn in Hi |- *.
  - injection Hi as <-. apply IHt; [assumption|]. now constructor.
  - apply IHts. now exists i, u, u'.
Qed.

Lemma shrinks_wf ts : Acc (@shrinks P A) ts.
Proof.
  induction ts as [|t ts IH]; [|exact (shrinks_cons t ts (residual_wf t) IH)].
  constructor. intros ts' (i & t & t' & Hi & _). discriminate.
Qed.

(** Whether a configuration can move is decidable. *)
Lemma pool_red_dec c : Decision (red step c).
Proof.
  destruct c as [ts m|f]; [|right; apply crash_nf].
  destruct (decide (Exists (fun t => is_Some (tstep t m)) ts)) as [He|Hn]; [left|right].
  - apply Exists_exists in He as (t & [i Hi]%list_elem_of_lookup & [r Hr]).
    exact (fire_red i ts m t r Hi Hr).
  - intros [c' [i (t & r & Hi & Ht & _)%fire_inv]%step_inv]. apply Hn, Exists_exists.
    exists t. split; [exact (list_elem_of_lookup_2 _ _ _ Hi)|eauto].
Qed.

Lemma pool_sn c : sn step c.
Proof.
  destruct c as [ts m|f]; [|constructor; intros c' [i E]%step_inv; discriminate].
  revert m. induction (shrinks_wf ts) as [ts _ IH]. intros m. constructor.
  intros c' [i E]%step_inv. apply fire_inv in E as (t & r & Hi & Ht & ->).
  destruct r as [[t' m']|f]; [|constructor; intros c' [j E]%step_inv; discriminate].
  apply IH. exists i, t, t'. split; [assumption|]. split; [now exists m, m'|reflexivity].
Qed.

End steps.

(** ** One action of a caller *)

Section action.
Context {P : Platform} `{!PlatformOk P} {A : Type}.
Variable m0 : mem.
Implicit Types (m : mem) (ph : phase) (c : caller A) (t : prog A).

Lemma take_shared m :
  take (length m0) m = m0 -> agree m0 None m m0 /\ (length m0 <= length m)%nat.
Proof.
  intros H. split; [apply agree_take; [assumption|now apply take_ge]|].
  rewrite <- H at 1. rewrite length_take. lia.
Qed.

Lemma op_next_read ph {B} (o : op B) x : is_malloc o = false -> op_next ph o x = ph.
Proof. now destruct o. Qed.

(** The blocks after [m] of a memory that a call on [m] leaves are
    dead. *)
Lemma after_settled m m' : after m m' -> settled (Some (length m)) m'.
Proof.
  intros (_ & _ & dead & -> & Hd) b blk [= <-] Hb.
  rewrite lookup_app_r, Nat.sub_diag in Hb by lia.
  exact (proj1 (Forall_lookup _ _) Hd 0%nat blk Hb).
Qed.

Lemma op_moves need ph {B} (o : op B) m x m' :
  op_ok m0 need ph o -> mem_wf m -> run_op o m = Ok (x, m') ->
  moves ph (op_next ph o x) need m m'.
Proof.
  intros Hok Hwf E. split; [exact (op_wf _ _ _ _ _ _ _ Hok Hwf E)|].
  split; [exact (op_frame _ _ _ _ _ _ _ Hok E)|].
  pose proof (op_effect_ok o m x m' E) as He.
  destruct o; cbn [op_effect op_next] in He |- *; auto.
  destruct Hok as [-> Hn]. right.
  destruct He as [[-> ->]|(_ & -> & ->)]; [left; auto|right].
  rewrite length_app, heap_used_fresh. cbn. repeat split; lia.
Qed.

(** A caller that has allocated performs its next action, and is then a
    caller that has allocated. *)
Lemma thread_step_post m own c {B} (o : op B) k :
  thread_ok m0 m (Post own, c) (Do o k) -> mem_wf m ->
  exists x m', run_op o m = Ok (x, m') /\ op_next (Post own) o x = Post own /\
    thread_ok m0 m' (Post own, c) (k x).
Proof.
  intros (Hn & [Hok Hk] & mf & E & Hs) Hwf. cbn in E.
  destruct (run_op o m) as [[x m']|f] eqn:Eo; [|discriminate]. exists x, m'.
  pose proof (op_next_post m0 _ own o x Hok) as Hnext.
  split; [reflexivity|]. split; [assumption|]. split; [assumption|]. split; [|now exists mf].
  rewrite <- Hnext. apply Hk. eapply op_value; eauto. discriminate.
Qed.

(** A caller that has not allocated performs its next action on any
    memory that is good for it. *)
Lemma thread_step_pre m c {B} (o : op B) k :
  thread_ok m0 m (Pre, c) (Do o k) -> good m0 (c_need c) m ->
  exists x m', run_op o m = Ok (x, m') /\ thread_ok m0 m' (op_next Pre o x, c) (k x).
Proof.
  intros (Hn & [Hok Hk] & Hal) Hg. pose proof Hg as (Ht & Hwf & _).
  destruct (Hal m Hg) as (mf & E & Haf). cbn in E.
  destruct (run_op o m) as [[x m']|f] eqn:Eo; [|discriminate]. exists x, m'.
  split; [reflexivity|]. split; [assumption|]. split.
  { apply Hk. eapply op_value; eauto. intros _. now apply take_shared. }
  destruct (is_malloc o) eqn:Hm.
  - destruct o; try discriminate. cbn [op_next fst snd]. exists mf. split; [assumption|].
    destruct (op_effect_ok _ _ _ _ Eo) as [[-> _]|(_ & -> & _)]; [now intros b blk [=]|].
    now apply after_settled.
  - rewrite (op_next_read Pre o x Hm). cbn [fst snd].
    pose proof (op_readonly m0 _ Pre o m x m' Hok Hm eq_refl Eo) as ->.
    intros m2 Hg2. destruct (Hal m2 Hg2) as (mf2 & E2 & Haf2). exists mf2.
    split; [|assumption]. cbn in E2.
    destruct (op_local m0 _ Pre o m m2 x m Hok Hm) as (m2' & Eo2 & _); [|assumption|].
    { apply agree_take; [assumption|apply Hg2]. }
    rewrite Eo2 in E2. now rewrite (op_readonly m0 _ Pre o m2 x m2' Hok Hm eq_refl Eo2) in E2.
Qed.

(** A caller that has not returned performs an action: it does not fault,
    and is a caller in the middle of its run afterwards. *)
Lemma thread_step m ph c t r :
  thread_ok m0 m (ph, c) t -> good m0 (owed (ph, c)) m -> tstep t m = Some r ->
  exists t' m' ph', r = Ok (t', m') /\ moves ph ph' (c_need c) m m' /\
    thread_ok m0 m' (ph', c) t'.
Proof.
  intros Hok Hg Ht. pose proof Hg as (_ & Hwf & _). destruct t as [a|f|B o k]; cbn in Ht.
  - discriminate.
  - exfalso. destruct Hok as (_ & _ & Hal). destruct ph; cbn in Hal.
    + now destruct (Hal m Hg) as (mf & [=] & _).
    + now destruct Hal as (mf & [=] & _).
  - injection Ht as <-. pose proof Hok as (_ & [Ho _] & _). cbn [fst snd] in Ho.
    destruct ph as [|own].
    + destruct (thread_step_pre m c o k Hok Hg) as (x & m' & E & Hok').
      rewrite E. exists (k x), m', (op_next Pre o x). split; [reflexivity|].
      split; [exact (op_moves _ _ _ _ _ _ Ho Hwf E)|assumption].
    + destruct (thread_step_post m own c o k Hok Hwf) as (x & m' & E & Hnext & Hok').
      rewrite E. exists (k x), m', (Post own). split; [reflexivity|].
      split; [|assumption]. rewrite <- Hnext at 2. exact (op_moves _ _ _ _ _ _ Ho Hwf E).
Qed.

(** What the others do leaves a caller in the middle of its run. *)
Lemma thread_other m m' (s : phase * caller A) t :
  thread_ok m0 m s t -> mem_wf m -> agree m0 (own_of s.1) m m' -> thread_ok m0 m' s t.
Proof.
  intros (Hn & Hc & Hal) Hwf Hag. split; [assumption|]. split; [assumption|].
  destruct s as [[|own] c]; cbn [fst snd own_of] in *; [assumption|].
  destruct Hal as (mf & E & Hs).
  destruct (exec_local m0 _ _ own t m m' _ mf Hc Hwf Hag E) as (mf' & E' & Hag').
  exists mf'. split; [assumption|]. intros b blk -> Hb. apply (Hs b blk eq_refl).
  rewrite (Hag' b); auto.
Qed.

(** A caller that has returned has returned its value. *)
Lemma thread_value m ph c a :
  thread_ok m0 m (ph, c) (Ret a) -> good m0 (owed (ph, c)) m ->
  a = c_value c /\ settled (own_of ph) m.
Proof.
  intros (_ & _ & Hal) Hg. destruct ph as [|own]; cbn in Hal.
  - destruct (Hal m Hg) as (mf & [= -> _] & _). split; [reflexivity|]. now intros b blk [=].
  - now destruct Hal as (mf & [= -> <-] & Hs).
Qed.

End action.

(** ** The invariant *)

Section invariant.
Context {P : Platform} `{!PlatformOk P} {A : Type}.
Variable m0 : mem.
Implicit Types (m : mem) (ph : phase) (c : caller A) (t : prog A).
Implicit Types (sts : list (phase * caller A)) (ts : list (prog A)).

Lemma owed_nonneg sts ts m :
  Forall2 (thread_ok m0 m) sts ts -> Forall (fun z => 0 <= z) (owed <$> sts).
Proof.
  induction 1 as [|[ph c] t sts ts (Hn & _) _ IH]; constructor; [|assumption].
  unfold owed. cbn in *. destruct ph; lia.
Qed.

(** The memory of a pool is good for each of its callers. *)
Lemma pool_good sts ts m i s :
  pool_inv m0 sts ts m -> sts !! i = Some s -> good m0 (owed s) m.
Proof.
  intros (Hwf & Ht & Hh & _ & Hf) Hi. split; [assumption|]. split; [assumption|].
  pose proof (zsum_lookup_le (owed <$> sts) i (owed s) (owed_nonneg _ _ _ Hf)) as Hle.
  rewrite list_lookup_fmap, Hi in Hle. specialize (Hle eq_refl). lia.
Qed.

Lemma moves_length ph ph' need m m' :
  moves ph ph' need m m' -> (length m <= length m')%nat.
Proof. intros (_ & _ & [(_ & -> & _)|[(_ & _ & ->)|(_ & _ & -> & _)]]); lia. Qed.

(** The block a caller owns is none of the shared blocks and none of the
    blocks of the others. *)
Lemma owners_apart sts m i j ph c s b :
  owners m0 sts m -> sts !! i = Some (ph, c) -> sts !! j = Some s -> i <> j ->
  (b < length m0)%nat \/ own_of s.1 = Some b -> own_of ph <> Some b.
Proof.
  intros (Hr & Hi & _) Hi1 Hj Hne Hb Hown.
  destruct ph as [|[b'|]]; cbn in Hown; try discriminate. injection Hown as ->.
  destruct Hb as [Hb|Hb]; [specialize (Hr i b c Hi1); lia|].
  destruct s as [[|[b'|]] cj]; cbn in Hb; try discriminate. injection Hb as ->.
  exact (Hne (Hi i j b c cj Hi1 Hj)).
Qed.

(** An action of one caller changes nothing of what another sees. *)
Lemma moves_agree sts m m' i j ph ph' c s :
  owners m0 sts m -> take (length m0) m = m0 ->
  sts !! i = Some (ph, c) -> sts !! j = Some s -> i <> j ->
  moves ph ph' (c_need c) m m' -> agree m0 (own_of s.1) m m'.
Proof.
  intros Ho Ht Hi Hj Hne (_ & Hfr & _) b Hb. symmetry. apply Hfr.
  - destruct Hb as [Hb|Hb]; [pose proof (proj2 (take_shared m0 m Ht)); lia|].
    destruct s as [[|[b'|]] cj]; cbn in Hb; try discriminate. injection Hb as ->.
    destruct Ho as (Hr & _). specialize (Hr j b cj Hj). lia.
  - exact (owners_apart sts m i j ph c s b Ho Hi Hj Hne Hb).
Qed.

Lemma moves_shared sts m m' i ph ph' c :
  owners m0 sts m -> take (length m0) m = m0 -> sts !! i = Some (ph, c) ->
  moves ph ph' (c_need c) m m' -> take (length m0) m' = m0.
Proof.
  intros (Hr & _) Ht Hi Hmv. pose proof (moves_length _ _ _ _ _ Hmv) as Hl.
  destruct Hmv as (_ & Hfr & _). pose proof (proj2 (take_shared m0 m Ht)) as Hn.
  rewrite <- Ht at 2. apply list_eq. intros b.
  destruct (decide (b < length m0)%nat) as [Hb|Hb].
  - rewrite !lookup_take_lt by assumption. apply Hfr; [lia|].
    intros Hown. destruct ph as [|[b'|]]; cbn in Hown; try discriminate.
    injection Hown as ->. specialize (Hr i b c Hi). lia.
  - now rewrite !lookup_take_ge by lia.
Qed.

Lemma moves_owed sts m m' i ph ph' c :
  sts !! i = Some (ph, c) -> 0 <= c_need c -> moves ph ph' (c_need c) m m' ->
  heap_used m' + zsum (owed <$> <[i := (ph', c)]> sts) <= heap_used m + zsum (owed <$> sts).
Proof.
  intros Hi Hn (_ & _ & Hc). rewrite list_fmap_insert.
  rewrite (zsum_insert _ i (owed (ph, c))) by now rewrite list_lookup_fmap, Hi.
  unfold owed. cbn [fst snd].
  destruct Hc as [(-> & _ & Hh)|[(-> & -> & ->)|(-> & -> & _ & Hh)]]; [destruct ph| |]; lia.
Qed.

(** A caller that allocates becomes the owner of the block it is given,
    which is past every block there was. *)
Lemma owners_alloc sts m m' i c own :
  owners m0 sts m -> (length m0 <= length m)%nat -> sts !! i = Some (Pre, c) ->
  own = None /\ length m' = length m \/
    own = Some (length m) /\ length m' = S (length m) ->
  owners m0 (<[i := (Post own, c)]> sts) m'.
Proof.
  intros (Hr & Hinj & Hcov) Hn Hi Hown.
  assert (Hl : (length m <= length m')%nat) by (destruct Hown as [[_ ->]|[_ ->]]; lia).
  assert (Hold : forall j b cj, <[i := (Post own, c)]> sts !! j = Some (Post (Some b), cj) ->
            j = i /\ own = Some b \/ j <> i /\ sts !! j = Some (Post (Some b), cj)).
  { intros j b cj [(<- & [= -> _] & _)|[Hne Hj]]%list_lookup_insert_Some; auto. }
  split; [|split].
  - intros j b cj [[_ ->]|[_ Hj]]%Hold; [|specialize (Hr j b cj Hj); lia].
    destruct Hown as [[[=] _]|[[= Hb] Hm']]. lia.
  - intros j1 j2 b c1 c2 [[-> Ho1]|[Hn1 H1]]%Hold [[-> Ho2]|[Hn2 H2]]%Hold;
      [reflexivity| | |exact (Hinj _ _ _ _ _ H1 H2)].
    + subst own. destruct Hown as [[[=] _]|[[= Hb] _]]. specialize (Hr j2 _ c2 H2). lia.
    + subst own. destruct Hown as [[[=] _]|[[= Hb] _]]. specialize (Hr j1 _ c1 H1). lia.
  - intros b Hb. destruct (decide (b < length m)%nat) as [Hlt|Hge].
    + destruct (Hcov b (conj (proj1 Hb) Hlt)) as (j & cj & Hj). exists j, cj.
      rewrite list_lookup_insert_ne; [assumption|]. intros ->. congruence.
    + destruct Hown as [[_ Hm]|[-> Hm]]; [lia|]. exists i, c.
      replace b with (length m) by lia. apply list_lookup_insert_eq.
      now apply lookup_lt_Some in Hi.
Qed.

Lemma owners_moves sts m m' i ph ph' c :
  owners m0 sts m -> (length m0 <= length m)%nat -> sts !! i = Some (ph, c) ->
  moves ph ph' (c_need c) m m' -> owners m0 (<[i := (ph', c)]> sts) m'.
Proof.
  intros Ho Hn Hi (_ & _ & [(-> & Hl & _)|[(-> & -> & ->)|(-> & -> & Hl & _)]]).
  - rewrite list_insert_id by assumption. unfold owners in *. now rewrite Hl.
  - apply (owners_alloc sts m); auto.
  - apply (owners_alloc sts m); auto.
Qed.

(** One action of one caller keeps the invariant. *)
Lemma pool_inv_moves sts ts m m' i ph ph' c t' :
  pool_inv m0 sts ts m -> sts !! i = Some (ph, c) ->
  moves ph ph' (c_need c) m m' -> thread_ok m0 m' (ph', c) t' ->
  pool_inv m0 (<[i := (ph', c)]> sts) (<[i := t']> ts) m'.
Proof.
  intros (Hwf & Ht & Hh & Ho & Hf) Hi Hmv Hok'. pose proof Hok' as (Hn & _).
  split; [apply Hmv|]. split; [exact (moves_shared sts m m' i ph ph' c Ho Ht Hi Hmv)|].
  split; [pose proof (moves_owed sts m m' i ph ph' c Hi Hn Hmv); lia|].
  split; [exact (owners_moves sts m m' i ph ph' c Ho (proj2 (take_shared m0 m Ht)) Hi Hmv)|].
  apply Forall2_same_length_lookup_2; [rewrite !length_insert; exact (Forall2_length _ _ _ Hf)|].
  intros j s t [(<- & <- & _)|[Hne Hj]]%list_lookup_insert_Some Hjt.
  - apply list_lookup_insert_Some in Hjt as [(_ & <- & _)|[[] _]]; [assumption|reflexivity].
  - rewrite list_lookup_insert_ne in Hjt by assumption.
    apply (thread_other m0 m); [exact (Forall2_lookup_lr _ _ _ _ _ _ Hf Hj Hjt)|assumption|].
    exact (moves_agree sts m m' i j ph ph' c s Ho Ht Hi Hj Hne Hmv).
Qed.

(** No two callers of a pool are about to race. *)
Lemma pool_inv_race_free sts ts m (i j : nat) t1 t2 :
  pool_inv m0 sts ts m -> i <> j -> ts !! i = Some t1 -> ts !! j = Some t2 ->
  ~ races t1 t2.
Proof.
  intros (_ & _ & _ & Ho & Hf) Hne H1 H2 (w1 & w2 & b & A1 & A2 & Hw).
  destruct (Forall2_lookup_r _ _ _ _ _ Hf H1) as ([ph1 c1] & Hs1 & _ & Hc1 & _).
  destruct (Forall2_lookup_r _ _ _ _ _ Hf H2) as ([ph2 c2] & Hs2 & _ & Hc2 & _).
  destruct (confined_access m0 _ _ _ t1 w1 b Hc1 A1) as [R1 W1].
  destruct (confined_access m0 _ _ _ t2 w2 b Hc2 A2) as [R2 W2].
  destruct w1; [|destruct w2; [|discriminate]].
  - exact (owners_apart sts m i j ph1 c1 (ph2, c2) b Ho Hs1 Hs2 Hne R2 (W1 eq_refl)).
  - exact (owners_apart sts m j i ph2 c2 (ph1, c1) b Ho Hs2 Hs1 (not_eq_sym Hne) R1 (W2 eq_refl)).
Qed.

(** A caller of a pool writes no block that is shared. *)
Lemma pool_inv_writes_own sts ts m (i : nat) t b :
  pool_inv m0 sts ts m -> ts !! i = Some t -> next_access t = Some (true, b) ->
  (length m0 <= b)%nat.
Proof.
  intros (_ & _ & _ & (Hrange & _) & Hf) Hi Ha.
  destruct (Forall2_lookup_r _ _ _ _ _ Hf Hi) as ([ph c] & Hs & _ & Hc & _).
  destruct (confined_access m0 _ _ _ t true b Hc Ha) as [_ Hw]. cbn [fst] in Hw.
  destruct ph as [|[own|]]; try (now specialize (Hw eq_refl)).
  specialize (Hw eq_refl). injection Hw as ->. now apply (Hrange i b c).
Qed.

(** A step of a pool is not a crash, and keeps the invariant. *)
Lemma pool_inv_step sts ts m i (cf : conf A) :
  pool_inv m0 sts ts m -> fire i (Pool ts m) = Some cf ->
  exists sts' ts' m', cf = Pool ts' m' /\ pool_inv m0 sts' ts' m' /\ sts'.*2 = sts.*2.
Proof.
  intros Hinv (t & r & Hi & Ht & ->)%fire_inv. pose proof Hinv as (_ & _ & _ & _ & Hf).
  destruct (Forall2_lookup_r _ _ _ _ _ Hf Hi) as ([ph c] & Hs & Hok).
  destruct (thread_step m0 m ph c t r Hok (pool_good sts ts m i _ Hinv Hs) Ht)
    as (t' & m' & ph' & -> & Hmv & Hok').
  exists (<[i := (ph', c)]> sts), (<[i := t']> ts), m'. split; [reflexivity|].
  split; [exact (pool_inv_moves sts ts m m' i ph ph' c t' Hinv Hs Hmv Hok')|].
  rewrite list_fmap_insert. apply list_insert_id. now rewrite list_lookup_fmap, Hs.
Qed.

End invariant.

(** ** What every schedule computes *)

Section results.
Context {P : Platform} `{!PlatformOk P} {A : Type}.
Variable m0 : mem.
Implicit Types (m : mem) (cs : list (caller A)) (cf : conf A).
Implicit Types (sts : list (phase * caller A)) (ts : list (prog A)).

(** The pool of callers that are about to start. *)
Lemma pool_inv_init cs :
  mem_wf m0 -> Forall (admissible m0) cs ->
  heap_used m0 + zsum (c_need <$> cs) <= heap_size ->
  pool_inv m0 (pair Pre <$> cs) (c_task <$> cs) m0.
Proof.
  intros Hwf Hcs Hroom. split; [assumption|]. split; [now apply take_ge|].
  split; [now rewrite <- list_fmap_compose|]. split.
  - split; [|split].
    + intros i b c H. apply list_lookup_fmap_Some in H as (c' & [=] & _).
    + intros i j b c c' H. apply list_lookup_fmap_Some in H as (c'' & [=] & _).
    + intros b Hb. lia.
  - apply Forall2_fmap, Forall_Forall2_diag. eapply Forall_impl; [exact Hcs|].
    intros c (Hn & Hc & Hal). split; [assumption|]. split; assumption.
Qed.

Lemma pool_inv_rtc cf cf' :
  rtc step cf cf' -> forall sts ts m, cf = Pool ts m -> pool_inv m0 sts ts m ->
  exists sts' ts' m', cf' = Pool ts' m' /\ pool_inv m0 sts' ts' m' /\ sts'.*2 = sts.*2.
Proof.
  induction 1 as [cf|cf cf1 cf' [i Hf]%step_inv _ IH]; intros sts ts m -> Hinv.
  - now exists sts, ts, m.
  - destruct (pool_inv_step m0 sts ts m i cf1 Hinv Hf) as (sts1 & ts1 & m1 & -> & Hinv1 & He).
    destruct (IH sts1 ts1 m1 eq_refl Hinv1) as (sts' & ts' & m' & -> & Hinv' & He').
    exists sts', ts', m'. split; [reflexivity|]. split; [assumption|congruence].
Qed.

(** When every caller has returned, each has returned its value. *)
Lemma pool_inv_values sts ts m :
  pool_inv m0 sts ts m -> nf step (Pool ts m) -> ts = Ret ∘ c_value <$> sts.*2.
Proof.
  intros Hinv [rs ->]%nf_pool. pose proof Hinv as (_ & _ & _ & _ & Hf).
  rewrite <- list_fmap_compose. symmetry. apply list_eq_Forall2, Forall2_fmap_l.
  apply Forall2_same_length_lookup_2; [exact (Forall2_length _ _ _ Hf)|].
  intros i [ph c] t Hs Ht. pose proof (Forall2_lookup_lr _ _ _ _ _ _ Hf Hs Ht) as Hok.
  apply list_lookup_fmap_Some in Ht as (a & -> & _). cbn. f_equal. symmetry.
  exact (proj1 (thread_value m0 m ph c a Hok (pool_good m0 sts _ m i _ Hinv Hs))).
Qed.

(** When every caller has returned, every block that was allocated is
    dead. *)
Lemma pool_inv_after sts ts m :
  pool_inv m0 sts ts m -> nf step (Pool ts m) -> after m0 m.
Proof.
  intros Hinv [rs ->]%nf_pool. pose proof Hinv as (Hwf & Ht & _ & (_ & _ & Hcov) & Hf).
  assert (Hd : Forall (fun blk => blk_live blk = false) (drop (length m0) m)).
  { apply Forall_lookup_2. intros b blk Hb. rewrite lookup_drop in Hb.
    destruct (Hcov (length m0 + b)%nat) as (i & c & Hs).
    { apply lookup_lt_Some in Hb. lia. }
    destruct (Forall2_lookup_l _ _ _ _ _ Hf Hs) as (t & Hit & Hok).
    pose proof Hit as (a & -> & _)%list_lookup_fmap_Some.
    exact (proj2 (thread_value m0 m _ c a Hok (pool_good m0 sts _ m i _ Hinv Hs))
             _ blk eq_refl Hb). }
  assert (Hm : m = m0 ++ drop (length m0) m).
  { rewrite <- (take_drop (length m0) m) at 1. now rewrite Ht. }
  split; [assumption|]. split; [|now exists (drop (length m0) m)].
  rewrite Hm, heap_used_app, (heap_used_dead _ Hd). lia.
Qed.

(** Every configuration the callers reach is a pool on a well-formed
    memory that begins with the shared blocks, and once every caller has
    returned the pool holds their values and a memory with nothing
    allocated. *)
Lemma pool_adequate cs cf :
  mem_wf m0 -> Forall (admissible m0) cs ->
  heap_used m0 + zsum (c_need <$> cs) <= heap_size ->
  rtc step (Pool (c_task <$> cs) m0) cf ->
  (exists ts m, cf = Pool ts m /\ mem_wf m /\ take (length m0) m = m0 /\
                heap_used m <= heap_size) /\
  (nf step cf -> exists m, cf = Pool (Ret ∘ c_value <$> cs) m /\ after m0 m).
Proof.
  intros Hwf Hcs Hroom Hsteps. pose proof (pool_inv_init cs Hwf Hcs Hroom) as Hinv.
  destruct (pool_inv_rtc _ _ Hsteps _ _ _ eq_refl Hinv) as (sts & ts & m & -> & Hinv' & He).
  assert (Hcs' : sts.*2 = cs).
  { rewrite He, <- list_fmap_compose. apply list_fmap_id. }
  split.
  - exists ts, m. pose proof Hinv' as (Hwf' & Ht & Hh & _ & Hf). repeat split; try assumption.
    pose proof (zsum_nonneg _ (owed_nonneg m0 sts ts m Hf)). lia.
  - intros Hnf. exists m. rewrite <- Hcs'.
    split; [f_equal; exact (pool_inv_values sts ts m Hinv' Hnf)|].
    exact (pool_inv_after sts ts m Hinv' Hnf).
Qed.

(** In no configuration the callers reach are two of them about to
    race. *)
Lemma pool_race_free cs ts m (i j : nat) t1 t2 :
  mem_wf m0 -> Forall (admissible m0) cs ->
  heap_used m0 + zsum (c_need <$> cs) <= heap_size ->
  rtc step (Pool (c_task <$> cs) m0) (Pool ts m) ->
  i <> j -> ts !! i = Some t1 -> ts !! j = Some t2 -> ~ races t1 t2.
Proof.
  intros Hwf Hcs Hroom Hsteps. pose proof (pool_inv_init cs Hwf Hcs Hroom) as Hinv.
  destruct (pool_inv_rtc _ _ Hsteps _ _ _ eq_refl Hinv) as (sts & ts' & m' & [= <- <-] & Hinv' & _).
  exact (pool_inv_race_free m0 sts ts m i j t1 t2 Hinv').
Qed.

Lemma pool_writes_own cs ts m (i : nat) t b :
  mem_wf m0 -> Forall (admissible m0) cs ->
  heap_used m0 + zsum (c_need <$> cs) <= heap_size ->
  rtc step (Pool (c_task <$> cs) m0) (Pool ts m) ->
  ts !! i = Some t -> next_access t = Some (true, b) -> (length m0 <= b)%nat.
Proof.
  intros Hwf Hcs Hroom Hsteps. pose proof (pool_inv_init cs Hwf Hcs Hroom) as Hinv.
  destruct (pool_inv_rtc _ _ Hsteps _ _ _ eq_refl Hinv) as (sts & ts' & m' & [= <- <-] & Hinv' & _).
  exact (pool_inv_writes_own m0 sts ts m i t b Hinv').
Qed.

(** Every schedule of the callers can be completed, and however it is
    completed the callers return their values. *)
Lemma pool_complete cs cf :
  mem_wf m0 -> Forall (admissible m0) cs ->
  heap_used m0 + zsum (c_need <$> cs) <= heap_size ->
  rtc step (Pool (c_task <$> cs) m0) cf ->
  exists m, rtc step cf (Pool (Ret ∘ c_value <$> cs) m) /\ after m0 m.
Proof.
  intros Hwf Hcs Hroom Hsteps.
  destruct (@sn_wn _ step pool_red_dec cf (pool_sn cf)) as (cf' & Hrtc & Hnf).
  destruct (pool_adequate cs cf' Hwf Hcs Hroom (transitivity Hsteps Hrtc))
    as [_ Hfin]. destruct (Hfin Hnf) as (m & -> & Haf). now exists m.
Qed.

End results.
