(* ===== verification/Concurrent.v ===== *)
(** * Concurrent: the four functions called at the same time

    spec.md, section 5, lets any number of callers use the functions at
    once without synchronisation.  Here each function of
    [src/pearson-hashing.c] is written once more as a program of [Task],
    action by action as in [Hasher] ([call_task]), with the loops of
    [strlen] and [memcpy] unrolled into their reads and writes so that
    the library calls are not atomic either.  Run alone such a program
    is the function of [Hasher] ([call_task_implements]).

    Callers whose keys are C strings of the memory they start on keep
    the discipline of [Task] and are [admissible] in the sense of
    [Pool].  So, when the heap has room for the buffers of all callers at
    once, every interleaving of their actions is safe, free of data
    races and ends with the digests the calls compute alone
    ([concurrent_callers], [concurrent_race_free]).  When the
    heap has no room for the buffers of two callers that allocate, the
    callers run into each other: one schedule returns both digests,
    another dereferences the null pointer ([heap_race]). *)

From Stdlib Require Import ZArith Lia List.
From stdpp Require Import base tactics option list relations.
From S2P Require Import Prelude Platform CInt Table Spec Memory Outcome Loop Hasher Refine.
From S2P Require Import Machine Total Conform Compose Task Pool.

#[local] Open Scope Z_scope.
#[local] Open Scope task_scope.

Create HintDb task discriminated.

Section tasks.
Context {P : Platform}.

(** ** The library calls, action by action *)

(** The loop of [strlen]. *)
Fixpoint strlen_from_task (fuel : nat) (p : ptr) (n : Z) : prog Z :=
  match fuel with
  | O => Fail OutOfFuel
  | S fuel' =>
      c <- act (Load (ptr_add p n)) ;;
      if c =? 0 then Ret n else strlen_from_task fuel' p (n + 1)
  end.

Definition strlen_task (p : ptr) : prog Z :=
  fuel <- act (Span p) ;; strlen_from_task (S fuel) p 0.

(** The loop of [memcpy]. *)
Fixpoint memcpy_from_task (k : nat) (dst src : ptr) (i : Z) : prog unit :=
  match k with
  | O => Ret tt
  | S k' =>
      c <- act (Load (ptr_add src i)) ;;
      act (Store (ptr_add dst i) c) ;;
      memcpy_from_task k' dst src (i + 1)
  end.

Definition memcpy_task (dst src : ptr) (n : Z) : prog unit :=
  match dst, src with
  | Null, _ | _, Null => Fail NullDeref
  | Ptr _ _, Ptr _ _ =>
      if overlap dst src n then Fail Overlap
      else memcpy_from_task (Z.to_nat n) dst src 0
  end.

(** ** phash_rfc3074 (lines 37-42) *)

Fixpoint rfc3074_task (fuel : nat) (key : ptr) (i hash : Z) : prog Z :=
  if 0 <? i then
    match fuel with
    | O => Fail OutOfFuel
    | S fuel' =>
        let i' := size_wrap (i - 1) in
        c <- t_load_char (ptr_add key i') ;;
        t <- act (Lookup (int_xor hash c)) ;;
        rfc3074_task fuel' key i' t
    end
  else Ret hash.

Definition phash_rfc3074_task (key : ptr) : prog Z :=
  len <- strlen_task key ;;
  let hash := to_uchar len in
  rfc3074_task (Z.to_nat len) key len hash.

(** ** phash_wikipedia (lines 74-78) *)

Fixpoint wikipedia_task (fuel : nat) (key : ptr) (c hash : Z) : prog Z :=
  if c =? 0 then Ret hash
  else
    match fuel with
    | O => Fail OutOfFuel
    | S fuel' =>
        t <- act (Lookup (int_xor hash c)) ;;
        c' <- t_load_char key ;;
        wikipedia_task fuel' (ptr_add key 1) c' t
    end.

Definition phash_wikipedia_task (key : ptr) : prog Z :=
  let hash := 0 in
  c <- t_load_char key ;;
  fuel <- act (Span key) ;;
  wikipedia_task fuel (ptr_add key 1) c hash.

(** ** phash_original (lines 63-69) *)

Fixpoint original_task (fuel : nat) (key hash : ptr) (i len : Z) : prog unit :=
  if i <? len then
    match fuel with
    | O => Fail OutOfFuel
    | S fuel' =>
        h <- act (Load (ptr_add hash (size_wrap (i - 1)))) ;;
        c <- t_load_char (ptr_add key i) ;;
        t <- act (Lookup (int_xor h c)) ;;
        act (Store (ptr_add hash i) t) ;;
        original_task fuel' key hash (size_wrap (i + 1)) len
    end
  else Ret tt.

(** The function from its allocation on. *)
Definition original_rest (key : ptr) (len : Z) (hash : ptr) : prog Z :=
  original_task (Z.to_nat len) key hash 0 len ;;
  result <- act (Load (ptr_add hash (size_wrap (len - 1)))) ;;
  act (Free hash) ;;
  Ret result.

Definition phash_original_task (key : ptr) : prog Z :=
  len <- strlen_task key ;;
  hash <- act (Malloc (size_wrap (1 * len))) ;;
  original_rest key len hash.

(** ** phash16 (lines 97-105) *)

Definition phash16_rest (key : ptr) (length : Z) (buffer : ptr) : prog Z :=
  memcpy_task buffer key length ;;
  act (Store (ptr_add buffer length) (to_char 0)) ;;
  h1 <- phash_wikipedia_task buffer ;;
  c <- t_load_char (ptr_add buffer 0) ;;
  s <- t_lift (int_add c 1) ;;
  r <- t_lift (int_rem s 255) ;;
  act (Store (ptr_add buffer 0) (to_char r)) ;;
  h2 <- phash_wikipedia_task buffer ;;
  act (Free buffer) ;;
  hi <- t_lift (int_shl h1 8) ;;
  sum <- t_lift (int_add hi h2) ;;
  Ret (to_ushort sum).

Definition phash16_task (key : ptr) : prog Z :=
  length <- strlen_task key ;;
  buffer <- act (Malloc (size_wrap (1 * length))) ;;
  phash16_rest key length buffer.

(** ** Callers *)

Definition call_task (v : variant) : ptr -> prog Z :=
  match v with
  | RFC3074 => phash_rfc3074_task
  | Original => phash_original_task
  | Wikipedia => phash_wikipedia_task
  | Hash16 => phash16_task
  end.

(** The bytes of the heap a call asks for: the block for a key of [n]
    bytes, when the function allocates. *)
Definition reserve (v : variant) (n : Z) : Z :=
  if allocates v then blk_cells (fresh_block n) else 0.

(** The length of the key of a call on the memory [m]. *)
Definition key_length (m : mem) (key : ptr) : Z :=
  match eval (strlen key) m with Ok n => n | Fault _ => 0 end.

Definition caller_of (m : mem) (vk : variant * ptr) (r : Z) : caller Z :=
  Caller (call_task vk.1 vk.2) (reserve vk.1 (key_length m vk.2)) r.

(** The programs of the callers of [l], about to start. *)
Definition tasks (l : list (variant * ptr)) : list (prog Z) :=
  (fun vk => call_task vk.1 vk.2) <$> l.

(** The bytes the callers of [l] ask for altogether. *)
Definition reserved (m : mem) (l : list (variant * ptr)) : Z :=
  zsum ((fun vk => reserve vk.1 (key_length m vk.2)) <$> l).

End tasks.

(** ** Run alone, a program is the function *)

Ltac implement :=
  repeat first
    [ solve [auto with cm task]
    | exact (implements_act _)
    | apply implements_bind; [|intros ?] ].

Section implements.
Context {P : Platform}.

Lemma strlen_from_task_implements fuel p n :
  implements (strlen_from_task fuel p n) (strlen_from fuel p n).
Proof.
  revert n. induction fuel as [|fuel IH]; intros n; cbn [strlen_from_task strlen_from];
    [apply implements_fail|].
  implement. destruct (_ =? 0); [apply implements_ret|apply IH].
Qed.

Lemma strlen_task_implements p : implements (strlen_task p) (strlen p).
Proof.
  unfold strlen_task, strlen. apply implements_bind; [exact (implements_act (Span p))|].
  intros fuel. apply strlen_from_task_implements.
Qed.

Lemma memcpy_from_task_implements k dst src i :
  implements (memcpy_from_task k dst src i) (memcpy_from k dst src i).
Proof.
  revert i. induction k as [|k IH]; intros i; cbn [memcpy_from_task memcpy_from];
    [apply implements_ret|].
  implement.
Qed.

Lemma memcpy_task_implements dst src n : implements (memcpy_task dst src n) (memcpy dst src n).
Proof.
  unfold memcpy_task, memcpy. destruct dst, src; try apply implements_fail.
  destruct (overlap _ _ _); [apply implements_fail|apply memcpy_from_task_implements].
Qed.

(** The library calls do not read the table. *)
Lemma strlen_from_lookup_free fuel p n : lookup_free (strlen_from_task fuel p n).
Proof.
  revert n. induction fuel as [|fuel IH]; intros n; [exact I|].
  cbn. split; [reflexivity|]. intros x. destruct (_ =? 0); [exact I|apply IH].
Qed.

Lemma strlen_task_lookup_free p : lookup_free (strlen_task p).
Proof. split; [reflexivity|]. intros fuel. apply strlen_from_lookup_free. Qed.

Lemma memcpy_from_lookup_free k dst src i : lookup_free (memcpy_from_task k dst src i).
Proof.
  revert i. induction k as [|k IH]; intros i; [exact I|].
  cbn. split; [reflexivity|]. intros c. split; [reflexivity|]. intros _. apply IH.
Qed.

Lemma memcpy_task_lookup_free dst src n : lookup_free (memcpy_task dst src n).
Proof.
  unfold memcpy_task. destruct dst, src; try exact I.
  destruct (overlap _ _ _); [exact I|apply memcpy_from_lookup_free].
Qed.

Lemma rfc3074_task_implements fuel key i hash :
  implements (rfc3074_task fuel key i hash) (rfc3074_loop fuel key i hash).
Proof.
  revert i hash. induction fuel as [|fuel IH]; intros i hash;
    cbn [rfc3074_task rfc3074_loop]; destruct (0 <? i); auto with cm.
  cbv zeta. implement.
Qed.

Lemma wikipedia_task_implements fuel key c hash :
  implements (wikipedia_task fuel key c hash) (wikipedia_loop fuel key c hash).
Proof.
  revert key c hash. induction fuel as [|fuel IH]; intros key c hash;
    cbn [wikipedia_task wikipedia_loop]; destruct (c =? 0); auto with cm.
  implement.
Qed.

Lemma original_task_implements fuel key hash i len :
  implements (original_task fuel key hash i len) (original_loop fuel key hash i len).
Proof.
  revert i. induction fuel as [|fuel IH]; intros i;
    cbn [original_task original_loop]; destruct (i <? len); auto with cm.
  implement.
Qed.

Lemma phash_wikipedia_task_implements key :
  implements (phash_wikipedia_task key) (phash_wikipedia key).
Proof.
  unfold phash_wikipedia_task, phash_wikipedia. cbv zeta. implement.
  apply wikipedia_task_implements.
Qed.

Lemma phash_rfc3074_task_implements key :
  implements (phash_rfc3074_task key) (phash_rfc3074 key).
Proof.
  unfold phash_rfc3074_task, phash_rfc3074. cbv zeta.
  apply implements_bind; [apply strlen_task_implements|]. intros len.
  apply rfc3074_task_implements.
Qed.

Lemma phash_original_task_implements key :
  implements (phash_original_task key) (phash_original key).
Proof.
  unfold phash_original_task, phash_original, original_rest.
  pose proof strlen_task_implements. pose proof original_task_implements. implement.
Qed.

Lemma phash16_task_implements key : implements (phash16_task key) (phash16 key).
Proof.
  unfold phash16_task, phash16, phash16_rest.
  pose proof strlen_task_implements. pose proof memcpy_task_implements.
  pose proof phash_wikipedia_task_implements. implement.
Qed.

Lemma call_task_implements v key : implements (call_task v key) (call v key).
Proof.
  destruct v; [apply phash_rfc3074_task_implements|apply phash_original_task_implements
              |apply phash_wikipedia_task_implements|apply phash16_task_implements].
Qed.

End implements.

#[export] Hint Resolve strlen_task_implements memcpy_task_implements
  phash_wikipedia_task_implements phash_rfc3074_task_implements
  phash_original_task_implements phash16_task_implements : task.

(** ** The programs keep the discipline *)

(** One construct of a program at a time. *)
Ltac confine :=
  lazymatch goal with
  | |- confined _ _ _ _ (pbind _ _) => apply confined_bind
  | |- confined _ _ _ _ (act _) =>
      apply confined_act;
        [cbn [op_ok own_of]
        |let H := fresh "Hret" in intros ? H; cbn [op_ret] in H; cbn [op_next]; cbv beta]
  | |- confined _ _ _ _ (t_lift _) => apply confined_lift; intros ? ?; cbv beta
  | |- confined _ _ _ _ (t_load_char _) => unfold t_load_char
  | |- confined _ _ _ _ (Ret _) => cbn [confined]; cbv beta
  | |- confined _ _ _ _ (Fail _) => exact I
  end.

Section discipline.
Context {P : Platform} `{!PlatformOk P}.
Variable m0 : mem.
Variable need : Z.
Implicit Types (own : option nat) (p key : ptr).

Lemma readable_add own p i : readable m0 own p -> readable m0 own (ptr_add p i).
Proof. now destruct p. Qed.

Lemma writable_add own p i : writable own p -> writable own (ptr_add p i).
Proof. now destruct p. Qed.

Lemma writable_readable own p : writable own p -> readable m0 own p.
Proof. destruct p; cbn; auto. Qed.

#[local] Hint Resolve readable_add writable_add writable_readable to_char_byte : task.

Lemma strlen_from_confined (Q : phase -> Z -> Prop) own fuel p n :
  readable m0 own p -> (forall x, Q (Post own) x) ->
  confined m0 need Q (Post own) (strlen_from_task fuel p n).
Proof.
  intros Hp HQ. revert n. induction fuel as [|fuel IH]; intros n; [exact I|].
  cbn [strlen_from_task]. repeat confine; [auto with task|].
  destruct (_ =? 0); [apply HQ|apply IH].
Qed.

Lemma strlen_confined (Q : phase -> Z -> Prop) own p :
  readable m0 own p -> (forall x, Q (Post own) x) ->
  confined m0 need Q (Post own) (strlen_task p).
Proof.
  intros Hp HQ. unfold strlen_task. repeat confine; [assumption|].
  now apply strlen_from_confined.
Qed.

Lemma memcpy_from_confined (Q : phase -> unit -> Prop) own k dst src i :
  readable m0 own src -> writable own dst -> Q (Post own) tt ->
  confined m0 need Q (Post own) (memcpy_from_task k dst src i).
Proof.
  intros Hs Hd HQ. revert i. induction k as [|k IH]; intros i; [exact HQ|].
  cbn [memcpy_from_task]. repeat confine; [auto with task|split; [auto with task|]|apply IH].
  match goal with H : is_byte _ /\ _ |- _ => apply H end.
Qed.

Lemma memcpy_confined (Q : phase -> unit -> Prop) own dst src n :
  readable m0 own src -> writable own dst -> Q (Post own) tt ->
  confined m0 need Q (Post own) (memcpy_task dst src n).
Proof.
  intros Hs Hd HQ. unfold memcpy_task. destruct dst, src; try exact I.
  destruct (overlap _ _ _); [exact I|now apply memcpy_from_confined].
Qed.

Lemma wikipedia_confined (Q : phase -> Z -> Prop) own fuel key c hash :
  readable m0 own key -> (forall x, Q (Post own) x) ->
  confined m0 need Q (Post own) (wikipedia_task fuel key c hash).
Proof.
  intros Hk HQ. revert key c hash Hk.
  induction fuel as [|fuel IH]; intros key c hash Hk; cbn [wikipedia_task];
    destruct (c =? 0); try exact I; try apply HQ.
  repeat confine; [exact I|assumption|]. apply IH. auto with task.
Qed.

Lemma phash_wikipedia_confined (Q : phase -> Z -> Prop) own key :
  readable m0 own key -> (forall x, Q (Post own) x) ->
  confined m0 need Q (Post own) (phash_wikipedia_task key).
Proof.
  intros Hk HQ. unfold phash_wikipedia_task. cbv zeta. repeat confine; [assumption ..|].
  apply wikipedia_confined; auto with task.
Qed.

Lemma rfc3074_confined (Q : phase -> Z -> Prop) own fuel key i hash :
  readable m0 own key -> (forall x, Q (Post own) x) ->
  confined m0 need Q (Post own) (rfc3074_task fuel key i hash).
Proof.
  intros Hk HQ. revert i hash.
  induction fuel as [|fuel IH]; intros i hash; cbn [rfc3074_task];
    destruct (0 <? i); try exact I; try apply HQ.
  cbv zeta. repeat confine; [auto with task|exact I|apply IH].
Qed.

Lemma phash_rfc3074_confined (Q : phase -> Z -> Prop) own key :
  readable m0 own key -> (forall x, Q (Post own) x) ->
  confined m0 need Q (Post own) (phash_rfc3074_task key).
Proof.
  intros Hk HQ. unfold phash_rfc3074_task. confine.
  apply strlen_confined; [assumption|]. intros len. cbv zeta. now apply rfc3074_confined.
Qed.

Lemma original_confined (Q : phase -> unit -> Prop) own fuel key hash i len :
  readable m0 own key -> writable own hash -> Q (Post own) tt ->
  confined m0 need Q (Post own) (original_task fuel key hash i len).
Proof.
  intros Hk Hh HQ. revert i.
  induction fuel as [|fuel IH]; intros i; cbn [original_task];
    destruct (i <? len); try exact I; try apply HQ.
  repeat confine; [auto with task|auto with task|exact I| |apply IH].
  split; [auto with task|assumption].
Qed.

(** What follows the allocation, for the pointer [malloc] returned. *)
Lemma original_rest_confined own key len hash :
  readable m0 own key -> writable own hash ->
  confined m0 need (fun _ _ => True) (Post own) (original_rest key len hash).
Proof.
  intros Hk Hh. unfold original_rest. confine. apply original_confined; try assumption.
  repeat confine; auto with task.
Qed.

Lemma phash16_rest_confined own key len buffer :
  readable m0 own key -> writable own buffer ->
  confined m0 need (fun _ _ => True) (Post own) (phash16_rest key len buffer).
Proof.
  intros Hk Hb. unfold phash16_rest. confine. apply memcpy_confined; try assumption.
  repeat confine; [auto with task|].
  apply phash_wikipedia_confined; [auto with task|]. intros h1.
  repeat confine; [auto with task ..|].
  apply phash_wikipedia_confined; [auto with task|]. intros h2.
  repeat confine; auto with task.
Qed.

End discipline.

(** ** Callers are admissible *)

Section admissible.
Context {P : Platform} `{!PlatformOk P}.
Variable m0 : mem.
Hypothesis m0_wf : mem_wf m0.
Implicit Types (key : ptr) (bs : list Z) (v : variant) (m : mem).

Lemma key_readable own key bs : cstring_at m0 key bs -> readable m0 own key.
Proof.
  destruct key as [|b o]; [easy|]. intros Hs. left.
  exact (proj1 (cstring_length_bound m0 b o bs m0_wf Hs)).
Qed.

Lemma key_length_ok key bs :
  cstring_at m0 key bs -> key_length m0 key = Z.of_nat (length bs).
Proof.
  destruct key as [|b o]; [easy|]. intros Hs. unfold key_length, eval.
  now rewrite (strlen_ok m0 b o bs m0_wf Hs).
Qed.

(** Before the allocation [strlen] returns the length of the key. *)
Lemma strlen_task_pre need key bs :
  cstring_at m0 key bs ->
  confined m0 need (fun ph x => ph = Pre /\ x = Z.of_nat (length bs)) Pre (strlen_task key).
Proof.
  intros Hs. apply (confined_pre_exec m0 need _ _ m0).
  - apply strlen_task_lookup_free.
  - apply strlen_confined; [exact (key_readable None key bs Hs)|auto].
  - rewrite strlen_task_implements. destruct key as [|b o]; [easy|]. now apply strlen_ok.
Qed.

(** The allocation, and what follows it for either result of [malloc]. *)
Lemma malloc_pre need n (rest : ptr -> prog Z) :
  blk_cells (fresh_block n) <= need ->
  (forall own hash, writable own hash ->
     confined m0 need (fun _ _ => True) (Post own) (rest hash)) ->
  confined m0 need (fun _ _ => True) Pre (hash <- act (Malloc n) ;; rest hash).
Proof.
  intros Hn Hrest. repeat confine; [auto|]. apply Hrest.
  destruct x as [|b o]; [exact I|]. reflexivity.
Qed.

Lemma call_task_pre v key bs :
  cstring_at m0 key bs ->
  confined m0 (reserve v (Z.of_nat (length bs))) (fun _ _ => True) Pre (call_task v key).
Proof.
  intros Hs. pose proof (fun own => key_readable own key bs Hs) as Hk.
  assert (Hlen : size_wrap (1 * Z.of_nat (length bs)) = Z.of_nat (length bs)).
  { destruct key as [|b o]; [easy|]. rewrite Z.mul_1_l. apply size_wrap_small.
    pose proof (cstring_length_bound m0 b o bs m0_wf Hs). lia. }
  destruct v; cbn [call_task].
  - apply (confined_pre m0 _ (fun _ => True)), phash_rfc3074_confined; auto.
  - unfold phash_original_task. confine.
    eapply confined_mono; [|exact (strlen_task_pre _ key bs Hs)]. intros ph a [-> ->].
    apply malloc_pre; [rewrite Hlen; reflexivity|].
    intros own hash Hh. now apply original_rest_confined.
  - apply (confined_pre m0 _ (fun _ => True)), phash_wikipedia_confined; auto.
  - unfold phash16_task. confine.
    eapply confined_mono; [|exact (strlen_task_pre _ key bs Hs)]. intros ph a [-> ->].
    apply malloc_pre; [rewrite Hlen; reflexivity|].
    intros own hash Hh. now apply phash16_rest_confined.
Qed.

Lemma good_cstring need m key bs :
  good m0 need m -> cstring_at m0 key bs -> cstring_at m key bs.
Proof.
  intros (Ht & _) Hs. rewrite <- (take_drop (length m0) m), Ht.
  destruct key as [|b o]; [easy|]. destruct Hs as [Hk Hb].
  split; [assumption|now apply bytes_at_grow].
Qed.

(** A call that allocates and returns was given a block. *)
Lemma call_needs_heap v key bs r :
  cstring_at m0 key bs -> eval (call v key) m0 = Ok r -> allocates v = true ->
  malloc_null m0 (Z.of_nat (length bs)) = false.
Proof.
  destruct key as [|b o]; [easy|]. intros Hs E Hv.
  destruct (malloc_null m0 _) eqn:Hn; [exfalso|reflexivity]. unfold eval in E.
  destruct v; try discriminate; cbn [call] in E.
  - rewrite (phash_original_run m0 b o bs m0_wf Hs) in E. cbv zeta in E. now rewrite Hn in E.
  - now rewrite (phash16_null m0 b o bs m0_wf Hs Hn) in E.
Qed.

Lemma good_malloc v n m :
  good m0 (reserve v n) m -> allocates v = true ->
  malloc_null m0 n = false -> malloc_null m n = false.
Proof.
  unfold malloc_null, heap_full, reserve. intros (_ & _ & Hh) Hv H0. rewrite Hv in Hh.
  apply orb_false_iff in H0 as [-> _]. cbn. apply Z.ltb_ge. lia.
Qed.

(** On a memory that is good for it a call returns what it returns on
    [m0]. *)
Lemma call_good v key bs r m :
  cstring_at m0 key bs -> eval (call v key) m0 = Ok r ->
  good m0 (reserve v (Z.of_nat (length bs))) m -> eval (call v key) m = Ok r.
Proof.
  intros Hs E Hg. pose proof (good_cstring _ m key bs Hg Hs) as Hs'.
  pose proof Hg as (_ & Hwf & _). rewrite <- E.
  destruct (digests_agree m m0 key key bs Hwf m0_wf Hs' Hs) as (Hw & Hr & Hm).
  destruct v; cbn [call]; try assumption; apply Hm.
  all: rewrite (call_needs_heap _ key bs r Hs E eq_refl).
  all: now eapply good_malloc; [eassumption|reflexivity|eapply call_needs_heap; eauto].
Qed.

Lemma call_admissible v key bs r :
  cstring_at m0 key bs -> eval (call v key) m0 = Ok r ->
  admissible m0 (caller_of m0 (v, key) r).
Proof.
  intros Hs E. unfold admissible, caller_of. cbn [c_need c_task c_value fst snd].
  rewrite (key_length_ok key bs Hs). split.
  { unfold reserve. destruct (allocates v); [apply blk_cells_nonneg|lia]. }
  split; [now apply call_task_pre|]. intros m Hg.
  pose proof (call_good v key bs r m Hs E Hg) as Em. unfold eval in Em.
  rewrite call_task_implements. destruct (call v key m) as [[r' m']|f] eqn:Ec; [|discriminate].
  injection Em as ->. exists m'. split; [reflexivity|].
  exact (call_after v m key bs r m' (proj1 (proj2 Hg)) (good_cstring _ m key bs Hg Hs) Ec).
Qed.

(** The digests of [each], call by call. *)
Lemma each_Forall2 l rs :
  each m0 l = Ok rs -> Forall2 (fun vk r => eval (call vk.1 vk.2) m0 = Ok r) l rs.
Proof.
  revert rs. induction l as [|[v key] l IH]; cbn [each]; intros rs.
  - intros [= <-]. constructor.
  - destruct (eval (call v key) m0) as [r|] eqn:E; [|discriminate].
    destruct (each m0 l) as [rs'|]; [|discriminate]. intros [= <-]. constructor; auto.
Qed.

Lemma callers_spec l rs :
  Forall2 (fun vk r => eval (call vk.1 vk.2) m0 = Ok r) l rs ->
  c_task <$> zip_with (caller_of m0) l rs = tasks l /\
  c_value <$> zip_with (caller_of m0) l rs = rs /\
  zsum (c_need <$> zip_with (caller_of m0) l rs) = reserved m0 l.
Proof.
  unfold tasks, reserved. induction 1 as [|vk r l rs _ _ (IH1 & IH2 & IH3)]; [easy|].
  cbn. unfold zsum in *. cbn. now rewrite IH1, IH2, IH3.
Qed.

Lemma callers_admissible l rs :
  keys_in m0 l -> Forall2 (fun vk r => eval (call vk.1 vk.2) m0 = Ok r) l rs ->
  Forall (admissible m0) (zip_with (caller_of m0) l rs).
Proof.
  intros Hk H. induction H as [|[v key] r l rs E _ IH]; [constructor|].
  apply Forall_cons in Hk as [[bs Hs] Hk]. constructor; [|auto].
  exact (call_admissible v key bs r Hs E).
Qed.

End admissible.

(** ** Callers at the same time *)

Section concurrent.
Context {P : Platform} `{!PlatformOk P}.
Implicit Types (key : ptr) (v : variant) (m : mem) (l : list (variant * ptr)).

(** The callers of [l] as callers of [Pool]. *)
Lemma callers_pool m0 l rs :
  mem_wf m0 -> keys_in m0 l -> each m0 l = Ok rs ->
  heap_used m0 + reserved m0 l <= heap_size ->
  exists cs, c_task <$> cs = tasks l /\ Ret ∘ c_value <$> cs = Ret <$> rs /\
    Forall (admissible m0) cs /\ heap_used m0 + zsum (c_need <$> cs) <= heap_size.
Proof.
  intros Hwf Hk He%each_Forall2 Hroom. exists (zip_with (caller_of m0) l rs).
  destruct (callers_spec m0 l rs He) as (Ht & Hv & Hn).
  split; [assumption|]. split; [now rewrite list_fmap_compose, Hv|].
  split; [now apply callers_admissible|now rewrite Hn].
Qed.

(** A single caller.  However the actions of one caller are
    scheduled, the pool ends in the value and the memory the function
    returns, or in its fault. *)
Theorem single_caller v key m cf :
  rtc step (Pool [call_task v key] m) cf -> nf step cf ->
  cf = match call v key m with
       | Ok (r, m') => Pool [Ret r] m'
       | Fault f => Crash f
       end.
Proof. intros H Hnf. rewrite <- call_task_implements. now apply pool_single. Qed.

(** C11: callers at the same time.  Let the keys of the calls of [l] be C
    strings of a well-formed memory on which each call alone returns, and
    let the heap have room for the buffers of all of them at once.  Then
    whatever the order in which the actions of the callers alternate, no
    caller faults, the memory stays well formed, the blocks the callers
    started with are never written, and the heap is never overdrawn;
    and when every caller has returned, each has the digest it computes
    alone, every buffer is freed and as much of the heap is handed out
    as before. *)
Theorem concurrent_callers m0 l rs cf :
  mem_wf m0 -> keys_in m0 l -> each m0 l = Ok rs ->
  heap_used m0 + reserved m0 l <= heap_size ->
  rtc step (Pool (tasks l) m0) cf ->
  (exists ts m, cf = Pool ts m /\ mem_wf m /\ take (length m0) m = m0 /\
                heap_used m <= heap_size) /\
  (nf step cf -> exists m, cf = Pool (Ret <$> rs) m /\ after m0 m).
Proof.
  intros Hwf Hk He Hroom.
  destruct (callers_pool m0 l rs Hwf Hk He Hroom) as (cs & <- & <- & Hcs & Hn).
  now apply pool_adequate.
Qed.

(** C27: callers do not race.  Under the conditions of
    [concurrent_callers], in no configuration the callers reach are two
    of them about to access the same block with one of the accesses a
    store or a [free]: each caller writes the block it was given and
    nothing else. *)
Theorem concurrent_race_free m0 l rs ts m (i j : nat) t1 t2 :
  mem_wf m0 -> keys_in m0 l -> each m0 l = Ok rs ->
  heap_used m0 + reserved m0 l <= heap_size ->
  rtc step (Pool (tasks l) m0) (Pool ts m) ->
  i <> j -> ts !! i = Some t1 -> ts !! j = Some t2 -> ~ races t1 t2.
Proof.
  intros Hwf Hk He Hroom.
  destruct (callers_pool m0 l rs Hwf Hk He Hroom) as (cs & <- & _ & Hcs & Hn).
  now apply pool_race_free.
Qed.

(** C26: every schedule can be completed.  Under the conditions of
    [concurrent_callers], from every configuration the callers reach
    there are steps to the configuration in which each caller has
    returned its digest and all buffers are freed. *)
Theorem concurrent_complete m0 l rs cf :
  mem_wf m0 -> keys_in m0 l -> each m0 l = Ok rs ->
  heap_used m0 + reserved m0 l <= heap_size ->
  rtc step (Pool (tasks l) m0) cf ->
  exists m, rtc step cf (Pool (Ret <$> rs) m) /\ after m0 m.
Proof.
  intros Hwf Hk He Hroom.
  destruct (callers_pool m0 l rs Hwf Hk He Hroom) as (cs & <- & <- & Hcs & Hn).
  now apply pool_complete.
Qed.

(** Every schedule ends.  Whatever the callers, the pointers they
    pass and the memory, there is no infinite sequence of steps: each
    caller performs finitely many actions. *)
Theorem concurrent_terminates l m : sn step (Pool (tasks l) m).
Proof. apply pool_sn. Qed.

(** Calls one after another, behind callers that have returned. *)
Lemma calls_pool l (done : list Z) m :
  rtc step (Pool ((Ret <$> done) ++ tasks l) m)
    match calls l m with
    | Ok (rs, m') => Pool (Ret <$> (done ++ rs)) m'
    | Fault f => Crash f
    end.
Proof.
  revert done m. induction l as [|[v key] l IH]; intros done m.
  { cbn. now rewrite !app_nil_r. }
  pose proof (pool_alone ((Ret <$> done) ++ tasks ((v, key) :: l)) (length done)
                (call_task v key) m) as Hrun.
  rewrite call_task_implements in Hrun. cbn [calls]. unfold bind at 1.
  destruct (call v key m) as [[r m1]|f].
  - etransitivity; [apply Hrun|].
    { rewrite lookup_app_r, length_fmap, Nat.sub_diag by (rewrite length_fmap; lia). reflexivity. }
    replace (<[length done := Ret r]> ((Ret <$> done) ++ tasks ((v, key) :: l)))
      with ((Ret <$> (done ++ [r])) ++ tasks l).
    + specialize (IH (done ++ [r]) m1). unfold bind.
      destruct (calls l m1) as [[rs m']|f]; [|assumption]. cbn. now rewrite <- app_assoc in IH.
    + rewrite fmap_app, <- app_assoc. symmetry.
      rewrite insert_app_r_alt by (rewrite length_fmap; lia).
      now rewrite length_fmap, Nat.sub_diag.
  - apply Hrun. rewrite lookup_app_r, length_fmap, Nat.sub_diag by (rewrite length_fmap; lia).
    reflexivity.
Qed.

(** Calls one after another are one of the schedules.  The pool of
    the callers of [l] has steps to the values and the memory that the
    sequence of calls of [Compose] returns, or to its fault. *)
Theorem sequential_schedule l m :
  rtc step (Pool (tasks l) m)
    match calls l m with
    | Ok (rs, m') => Pool (Ret <$> rs) m'
    | Fault f => Crash f
    end.
Proof. exact (calls_pool l [] m). Qed.

(** A call that faults alone makes the callers crash.  When one of
    the calls of [l] faults on the memory the callers start on, the
    schedule that lets its caller run first ends in that fault. *)
Theorem concurrent_fault m l (i : nat) v key f :
  l !! i = Some (v, key) -> call v key m = Fault f ->
  rtc step (Pool (tasks l) m) (Crash f).
Proof.
  intros Hi Hf. pose proof (pool_alone (tasks l) i (call_task v key) m) as Hrun.
  rewrite call_task_implements, Hf in Hrun. apply Hrun.
  unfold tasks. now rewrite list_lookup_fmap, Hi.
Qed.

(** ** Callers compete for the heap *)

(** A caller of a function that allocates, run alone up to the return
    of [malloc]: the block is in the memory, and nothing of it is freed. *)
Lemma allocating_prefix ts (i : nat) v key bs m :
  ts !! i = Some (call_task v key) -> allocates v = true ->
  mem_wf m -> cstring_at m key bs -> malloc_null m (Z.of_nat (length bs)) = false ->
  exists t, rtc step (Pool ts m) (Pool (<[i := t]> ts) (m ++ [fresh_block (Z.of_nat (length bs))])).
Proof.
  intros Hi Hv Hwf Hs Hn. destruct key as [|b o]; [destruct Hs|].
  destruct (cstring_length_bound m b o bs Hwf Hs) as [_ Hlen].
  assert (Hst : exec (strlen_task (Ptr b o)) m = Ok (Z.of_nat (length bs), m))
    by (rewrite strlen_task_implements; now apply strlen_ok).
  assert (Hm : forall rest : Z -> ptr -> prog Z, exists t,
            ts !! i = Some (len <- strlen_task (Ptr b o) ;;
                            hash <- act (Malloc (size_wrap (1 * len))) ;; rest len hash) ->
            rtc step (Pool ts m) (Pool (<[i := t]> ts) (m ++ [fresh_block (Z.of_nat (length bs))]))).
  { intros rest'. set (rest := rest' (Z.of_nat (length bs))).
    exists (rest (Ptr (length m) 0)). intros Hi'.
    etransitivity; [exact (pool_prefix ts i _ _ m _ m Hi' Hst)|]. cbv beta.
    rewrite Z.mul_1_l, size_wrap_small by lia.
    match goal with |- rtc step (Pool ?ts' _) _ =>
      pose proof (pool_prefix ts' i (act (Malloc (Z.of_nat (length bs)))) rest m
                    (Ptr (length m) 0) (m ++ [fresh_block (Z.of_nat (length bs))])) as Hp end.
    rewrite list_insert_insert_eq in Hp. apply Hp.
    - apply list_lookup_insert_eq. now apply lookup_lt_Some in Hi.
    - cbn. now rewrite (malloc_ok _ m Hn). }
  destruct v; try discriminate; cbn [call_task] in Hi;
    [destruct (Hm (original_rest (Ptr b o))) as [t Ht]
    |destruct (Hm (phash16_rest (Ptr b o))) as [t Ht]];
    exists t; apply Ht; exact Hi.
Qed.

(** C28: callers compete for the heap.  Let two calls of functions that
    allocate each return when made alone, on a heap that has no room for
    the buffers of both.  Then the outcome depends on the schedule: when
    the first caller runs to its end before the second starts, both
    return their digests and the heap is as before; when the second
    starts while the first holds its buffer, [malloc] gives the second
    the null pointer, which it dereferences. *)
Theorem heap_race m v1 k1 bs1 v2 k2 bs2 r1 r2 :
  let l := [(v1, k1); (v2, k2)] in
  mem_wf m -> cstring_at m k1 bs1 -> cstring_at m k2 bs2 ->
  allocates v1 = true -> allocates v2 = true ->
  each m l = Ok [r1; r2] ->
  heap_size < heap_used m + reserved m l ->
  (exists m', rtc step (Pool (tasks l) m) (Pool [Ret r1; Ret r2] m') /\ after m m') /\
  rtc step (Pool (tasks l) m) (Crash NullDeref).
Proof.
  intros l Hwf Hs1 Hs2 Hv1 Hv2 He Hfull. split.
  - assert (Hk : keys_in m l) by (repeat constructor; eauto).
    destruct (calls_each m l Hwf Hk) as [Ec Ha]. rewrite He in Ec. unfold eval in Ec.
    pose proof (calls_pool l [] m) as Hrun.
    destruct (calls l m) as [[rs m']|f]; [|discriminate]. injection Ec as ->.
    exists m'. split; [exact Hrun|exact (Ha _ _ eq_refl)].
  - pose proof (each_Forall2 m l _ He) as [E1 _]%Forall2_cons_1. cbn [fst snd] in E1.
    pose proof (call_needs_heap m Hwf v1 k1 bs1 r1 Hs1 E1 Hv1) as Hn.
    destruct (allocating_prefix (tasks l) 0 v1 k1 bs1 m eq_refl Hv1 Hwf Hs1 Hn) as [t Ht].
    etransitivity; [exact Ht|]. set (m1 := m ++ [fresh_block (Z.of_nat (length bs1))]).
    pose proof (pool_alone (<[0%nat := t]> (tasks l)) 1 (call_task v2 k2) m1 eq_refl) as Hrun.
    rewrite call_task_implements, (call_heap_full v2 m1 k2 bs2) in Hrun; try assumption.
    + apply mem_wf_app; [assumption|]. now apply fresh_block_wf, (malloc_null_false m).
    + destruct k2 as [|b o]; [destruct Hs2|]. destruct Hs2. split; [assumption|now apply bytes_at_grow].
    + unfold heap_full, m1. rewrite heap_used_fresh. apply Z.ltb_lt. revert Hfull.
      unfold reserved, reserve, l, zsum. cbn [fmap list_fmap foldr fst snd].
      rewrite Hv1, Hv2, (key_length_ok m Hwf k1 bs1 Hs1), (key_length_ok m Hwf k2 bs2 Hs2). lia.
Qed.

End concurrent.

(** ** Witnesses *)

(** On a heap of 2048 bytes of which 2043 are handed out, two callers
    of [phash_original] on the key "a". *)
Lemma heap_race_witness :
  let m := [string_block [97]; @fresh_block micro8 2041] in
  let l := [(Original, Ptr 0 0); (Original, Ptr 0 0)] in
  (exists m', rtc (@step micro8 Z) (Pool (@tasks micro8 l) m) (Pool [Ret 113; Ret 113] m') /\
              @after micro8 m m') /\
  rtc (@step micro8 Z) (Pool (@tasks micro8 l) m) (Crash NullDeref).
Proof.
  intros m l.
  apply (@heap_race micro8 _ m Original (Ptr 0 0) [97] Original (Ptr 0 0) [97] 113 113);
    [by_compute|by_compute|by_compute|reflexivity|reflexivity|reflexivity|vm_compute; reflexivity].
Defined.

(** The two schedules of the witness, action by action. *)
Example heap_race_schedules :
  let m := [string_block [97]; @fresh_block micro8 2041] in
  let l := [(Original, Ptr 0 0); (Original, Ptr 0 0)] in
  results (@run micro8 Z (replicate 12 0%nat ++ replicate 12 1%nat) (Pool (@tasks micro8 l) m))
    = Ok [Some 113; Some 113] /\
  results (@run micro8 Z (replicate 4 0%nat ++ replicate 5 1%nat) (Pool (@tasks micro8 l) m))
    = Fault NullDeref.
Proof. vm_compute. auto. Qed.

(** One caller that hashes "abc" with [phash16], its actions performed
    one after another. *)
Lemma single_caller_witness :
  let m := [string_block [97; 98; 99]] in
  let cf := @run x86_64 Z (replicate 60 0%nat) (Pool [@call_task x86_64 Hash16 (Ptr 0 0)] m) in
  cf = match @call x86_64 Hash16 (Ptr 0 0) m with
       | Ok (r, m') => Pool [Ret r] m'
       | Fault f => Crash f
       end.
Proof.
  intros m cf. apply (@single_caller x86_64 Hash16 (Ptr 0 0) m cf); [apply run_steps|].
  apply (results_nf cf [1520]). vm_compute. reflexivity.
Defined.

(** Where no byte below a block is readable, a caller of
    [phash_original] beside a caller of [phash_wikipedia]. *)
Lemma concurrent_fault_witness :
  rtc (@step (strict_machine false) Z)
      (Pool (@tasks (strict_machine false) [(Wikipedia, Ptr 0 0); (Original, Ptr 0 0)])
            [string_block [97]])
      (Crash OutOfBounds).
Proof.
  apply (@concurrent_fault (strict_machine false) [string_block [97]]
           [(Wikipedia, Ptr 0 0); (Original, Ptr 0 0)] 1 Original (Ptr 0 0) OutOfBounds);
    reflexivity.
Defined.

(** Four callers on a memory that holds "abc" and "a", in the middle of
    a schedule that lets them alternate. *)
Lemma concurrent_callers_witness :
  let m0 := [string_block [97; 98; 99]; string_block [97]] in
  let l := [(Hash16, Ptr 0 0); (Original, Ptr 1 0); (RFC3074, Ptr 0 0); (Wikipedia, Ptr 1 0)] in
  let cf := @run x86_64 Z (concat (replicate 12 [3; 0; 0; 1; 2]%nat)) (Pool (@tasks x86_64 l) m0) in
  (exists ts m, cf = Pool ts m /\ @mem_wf x86_64 m /\ take (length m0) m = m0 /\
                heap_used m <= @heap_size x86_64) /\
  (nf (@step x86_64 Z) cf ->
   exists m, cf = Pool (Ret <$> [1520; 113; 170; 113]) m /\ @after x86_64 m0 m).
Proof.
  intros m0 l cf.
  apply (@concurrent_callers x86_64 _ m0 l [1520; 113; 170; 113] cf);
    [by_compute| |vm_compute; reflexivity|vm_compute; discriminate|apply run_steps].
  unfold keys_in, l.
  repeat (apply List.Forall_cons;
            [first [exists [97; 98; 99]; by_compute | exists [97]; by_compute]|]).
  apply List.Forall_nil.
Defined.

(** Two callers of [phash_original], each about to write the block it
    was given. *)
Lemma concurrent_race_free_witness :
  let m0 := [string_block [97; 98; 99]; string_block [97]] in
  let l := [(Original, Ptr 0 0); (Original, Ptr 1 0)] in
  match @run x86_64 Z [0; 0; 0; 0; 0; 0; 0; 0; 0; 1; 1; 1; 1; 1; 1; 1]%nat
          (Pool (@tasks x86_64 l) m0) with
  | Pool [t1; t2] m =>
      next_access t1 = Some (true, 2%nat) /\ next_access t2 = Some (true, 3%nat) /\
      ~ races t1 t2
  | _ => False
  end.
Proof.
  intros m0 l.
  pose proof (fun ts m => @concurrent_race_free x86_64 _ m0 l [5; 113] ts m 0 1) as H.
  pose proof (@run_steps x86_64 Z [0; 0; 0; 0; 0; 0; 0; 0; 0; 1; 1; 1; 1; 1; 1; 1]%nat
                (Pool (@tasks x86_64 l) m0)) as Hrun.
  pose (shape := fun c : conf Z =>
                   match c with Pool ts _ => Some (next_access <$> ts) | Crash _ => None end).
  destruct (run _ _) as [ts m|f] eqn:E; apply (f_equal shape) in E; vm_compute in E;
    [|discriminate].
  destruct ts as [|t1 [|t2 [|? ?]]]; try discriminate. injection E as A1 A2.
  assert (Hk : keys_in m0 l).
  { unfold keys_in, l.
    repeat (apply List.Forall_cons;
              [first [exists [97; 98; 99]; by_compute | exists [97]; by_compute]|]).
    apply List.Forall_nil. }
  split; [symmetry; exact A1|]. split; [symmetry; exact A2|].
  apply (H [t1; t2] m t1 t2); [by_compute|exact Hk|vm_compute; reflexivity|vm_compute; discriminate
                       |exact Hrun|discriminate|reflexivity|reflexivity].
Defined.

Lemma concurrent_complete_witness :
  let m0 := [string_block [97; 98; 99]; string_block [97]] in
  let l := [(Hash16, Ptr 0 0); (Original, Ptr 1 0); (RFC3074, Ptr 0 0); (Wikipedia, Ptr 1 0)] in
  let cf := @run x86_64 Z (concat (replicate 12 [3; 0; 0; 1; 2]%nat)) (Pool (@tasks x86_64 l) m0) in
  exists m, rtc (@step x86_64 Z) cf (Pool (Ret <$> [1520; 113; 170; 113]) m) /\
            @after x86_64 m0 m.
Proof.
  intros m0 l cf.
  apply (@concurrent_complete x86_64 _ m0 l [1520; 113; 170; 113] cf);
    [by_compute| |vm_compute; reflexivity|vm_compute; discriminate|apply run_steps].
  unfold keys_in, l.
  repeat (apply List.Forall_cons;
            [first [exists [97; 98; 99]; by_compute | exists [97]; by_compute]|]).
  apply List.Forall_nil.
Defined.
