(* ===== verification/Global.v ===== *)
(** * Global: the table as an object in memory

    [pearson_T] is declared without [const] (line 15): it is an object
    of 256 bytes like any other, which the functions read by
    [pearson_T[e]] and which any code that holds a pointer into it can
    write.  [Hasher] and [Concurrent] take the table as a constant; here
    it is a block of the memory ([table_block], at the index [tb]), and
    [in_memory] turns every read of the table in a program of [Task]
    into a load from that block.

    Main facts:
    - [tstep_in_memory], [fire_in_memory]: while the block holds the
      table, a program that loads from it and the program that reads the
      constant perform the same actions.
    - [in_memory_steps]: from a configuration whose successors all keep
      the table, the two pools reach the same configurations.
    - [in_memory_callers]: the callers of [Concurrent] never write the
      table, so all that [Concurrent] proves of them holds when the table
      lies in memory, freedom of data races included
      ([in_memory_race_free]; [in_memory_exec] for a caller alone).
    This is a property of the four functions and not of the table: the
    example [table_race] runs a call beside a store into the table by
    code that is not of this repository, and the digest changes with the
    schedule.  What the functions compute from a table that was written
    is in [Contents]. *)

From Stdlib Require Import ZArith Lia List.
From stdpp Require Import base tactics option list relations.
From S2P Require Import Prelude Platform CInt Table Spec Memory Outcome Hasher Refine.
From S2P Require Import Compose Task Pool Concurrent.

#[local] Open Scope Z_scope.

(** An array of [unsigned char] with the values [T]: static,
    initialised, and writable. *)
Definition table_object (T : list Z) : block := Block true false 0 (map Some T).

(** The object [unsigned char pearson_T[256] = { ... }]. *)
Definition table_block : block := table_object pearson_T.

(** The block [tb] of the memory holds the table. *)
Definition table_at (tb : nat) (m : mem) : Prop := m !! tb = Some table_block.

#[export] Instance table_at_dec tb m : Decision (table_at tb m).
Proof. unfold table_at. apply _. Defined.

(** [pearson_T[e]] as an access to the object: a load from the cell [e]
    of the block, and the fault [TableIndex] where [e] is no index of
    the array. *)
Definition table_read (tb : nat) {A B} (o : op B) : (B -> prog A) -> prog A :=
  match o in op B return (B -> prog A) -> prog A with
  | Lookup e => fun k =>
      if (0 <=? e) && (e <? 256) then Do (Load (Ptr tb e)) k else Fail TableIndex
  | o' => fun k => Do o' k
  end.

(** A program with its reads of the table taken from memory. *)
Fixpoint in_memory (tb : nat) {A} (t : prog A) : prog A :=
  match t with
  | Ret a => Ret a
  | Fail f => Fail f
  | Do o k => table_read tb o (fun x => in_memory tb (k x))
  end.

(** A pool of such programs. *)
Definition in_memory_pool (tb : nat) {A} (c : conf A) : conf A :=
  match c with
  | Pool ts m => Pool (in_memory tb <$> ts) m
  | Crash f => Crash f
  end.

(** The table is where it was and as it was. *)
Definition intact (tb : nat) {A} (c : conf A) : Prop :=
  match c with
  | Pool _ m => table_at tb m
  | Crash _ => True
  end.

(** A caller that is not one of the four functions: it stores [v] at the
    index [i] of the table and returns [v]. *)
Definition table_writer (tb : nat) (i v : Z) : prog Z :=
  (act (Store (Ptr tb i) v) ;; Ret v)%task.

(** ** One action *)

Section action.
Context {P : Platform} {A : Type}.
Variable tb : nat.

Lemma table_block_wf `{!PlatformOk P} : block_wf table_block.
Proof.
  pose proof size_bits_min. unfold block_wf, blk_hi, table_block, table_object. cbn [blk_lo blk_data].
  assert (2 ^ 15 <= 2 ^ (size_bits - 1)) by (apply Z.pow_le_mono_r; lia).
  rewrite length_map, (perm_length (T := pearson_T)). repeat split; try lia.
  apply Forall_map. eapply Forall_impl; [apply (perm_bytes (T := pearson_T))|]. auto.
Qed.

Lemma cell_object T m e :
  m !! tb = Some (table_object T) -> length T = 256%nat -> is_byte e ->
  cell m tb e = Some (Some (T_at T e)).
Proof.
  intros Ht Hl He. unfold cell. rewrite Ht. cbn [blk_live table_object].
  unfold blk_cell. change (blk_lo (table_object T)) with 0.
  change (blk_data (table_object T)) with (Some <$> T).
  destruct (Z.ltb_spec e 0); [unfold is_byte in He; lia|].
  rewrite Z.sub_0_r, list_lookup_fmap. unfold T_at.
  destruct (lookup_lt_is_Some_2 T (Z.to_nat e)) as [x Hx].
  { rewrite Hl. unfold is_byte in He. lia. }
  now rewrite Hx, (nth_lookup_Some _ _ 0 _ Hx).
Qed.

Lemma load_table m e :
  table_at tb m -> is_byte e -> load (Ptr tb e) m = Ok (T_at pearson_T e, m).
Proof.
  intros Ht He. apply load_ok, cell_object; [exact Ht| |exact He].
  apply (perm_length (T := pearson_T)).
Qed.

Lemma tstep_in_memory (t : prog A) m :
  table_at tb m ->
  tstep (in_memory tb t) m = result_map (prod_map (in_memory tb) id) <$> tstep t m.
Proof.
  intros Ht. destruct t as [a|f|B o k]; [reflexivity ..|]. cbn [in_memory].
  destruct o; cbn [table_read tstep fmap option_fmap option_map];
    try (now destruct (run_op _ m) as [[x m']|f]).
  cbn [run_op]. unfold lift, T_read. destruct (_ && _) eqn:He; [|reflexivity].
  cbn [tstep run_op fmap option_fmap option_map]. rewrite load_table; [reflexivity|assumption|].
  unfold is_byte. lia.
Qed.

Lemma fire_in_memory i (c : conf A) :
  intact tb c -> fire i (in_memory_pool tb c) = in_memory_pool tb <$> fire i c.
Proof.
  destruct c as [ts m|f]; [|reflexivity]. intros Ht. cbn [in_memory_pool fire].
  rewrite list_lookup_fmap. destruct (ts !! i) as [t|]; [|reflexivity]. cbn [fmap option_fmap option_map].
  rewrite (tstep_in_memory t m Ht). destruct (tstep t m) as [[[t' m']|f]|]; [|reflexivity ..].
  cbn. now rewrite list_fmap_insert.
Qed.

(** The two pools move in step. *)
Lemma step_in_memory (c d : conf A) :
  intact tb c -> step c d -> step (in_memory_pool tb c) (in_memory_pool tb d).
Proof.
  intros Ht [i Hf]%step_inv. apply step_inv. exists i. now rewrite fire_in_memory, Hf.
Qed.

Lemma step_from_memory (c : conf A) d' :
  intact tb c -> step (in_memory_pool tb c) d' ->
  exists d, step c d /\ d' = in_memory_pool tb d.
Proof.
  intros Ht [i Hf]%step_inv. rewrite fire_in_memory in Hf by assumption.
  destruct (fire i c) as [d|] eqn:Hd; [|discriminate]. injection Hf as <-.
  exists d. split; [|reflexivity]. apply step_inv. now exists i.
Qed.

Lemma nf_in_memory (c : conf A) :
  intact tb c -> nf step (in_memory_pool tb c) <-> nf step c.
Proof.
  intros Ht. split; intros Hnf [d Hd]; apply Hnf.
  - eexists. apply step_in_memory; eassumption.
  - destruct (step_from_memory c d Ht Hd) as (d0 & Hd0 & _). now exists d0.
Qed.

(** The accesses of a program that loads from the table: those it had,
    and reads of the table. *)
Lemma next_access_in_memory (t : prog A) w b :
  next_access (in_memory tb t) = Some (w, b) ->
  next_access t = Some (w, b) \/ (w = false /\ b = tb).
Proof.
  destruct t as [a|f|B o k]; [discriminate ..|]. cbn [in_memory].
  destruct o; cbn [table_read]; try (now left).
  destruct (_ && _); [|discriminate]. intros [= <- <-]. now right.
Qed.

Lemma races_in_memory (t1 t2 : prog A) :
  races (in_memory tb t1) (in_memory tb t2) ->
  races t1 t2 \/ next_access t1 = Some (true, tb) \/ next_access t2 = Some (true, tb).
Proof.
  intros (w1 & w2 & b & [A1|[-> ->]]%next_access_in_memory
                      & [A2|[-> E]]%next_access_in_memory & Hw).
  - left. now exists w1, w2, b.
  - subst b. rewrite orb_false_r in Hw. subst w1. auto.
  - cbn in Hw. subst w2. auto.
  - discriminate.
Qed.

Lemma in_memory_done (rs : list A) : in_memory tb <$> (Ret <$> rs) = Ret <$> rs.
Proof. now rewrite <- list_fmap_compose. Qed.

End action.

(** ** Runs *)

Section runs.
Context {P : Platform} {A : Type}.
Variables (tb : nat) (c0 : conf A).
Hypothesis keeps : forall c, rtc step c0 c -> intact tb c.

(** The pool that loads from the table reaches the configurations of
    the pool that reads the constant, and no others. *)
Lemma in_memory_steps d' :
  rtc step (in_memory_pool tb c0) d' <->
  exists d, rtc step c0 d /\ d' = in_memory_pool tb d.
Proof.
  split.
  - revert d'. apply rtc_ind_r; [now exists c0|]. intros d1' d' _ Hs (d1 & H1 & ->).
    destruct (step_from_memory tb d1 d' (keeps d1 H1) Hs) as (d & Hd & ->).
    exists d. split; [|reflexivity]. eapply rtc_r; eassumption.
  - intros (d & H & ->). revert d H. apply rtc_ind_r; [constructor|]. intros d1 d H1 Hs IH.
    eapply rtc_r; [exact IH|]. apply step_in_memory; [|assumption]. now apply keeps.
Qed.

End runs.

(** ** The callers of the four functions *)

Section callers.
Context {P : Platform} `{!PlatformOk P} {A : Type}.
Variables (tb : nat) (m0 : mem).
Hypothesis m0_wf : mem_wf m0.
Hypothesis m0_table : table_at tb m0.

Lemma table_at_take m : take (length m0) m = m0 -> table_at tb m.
Proof.
  intros Hm. unfold table_at in *. rewrite <- Hm in m0_table.
  now apply lookup_take_Some in m0_table as [? _].
Qed.

Section admissible.
Variable cs : list (caller A).
Hypothesis cs_ok : Forall (admissible m0) cs.
Hypothesis cs_room : heap_used m0 + zsum (c_need <$> cs) <= heap_size.

(** Callers that keep the discipline leave the table alone. *)
Lemma admissible_keeps c : rtc step (Pool (c_task <$> cs) m0) c -> intact tb c.
Proof.
  intros H. destruct (pool_adequate m0 cs c m0_wf cs_ok cs_room H) as [(ts & m & -> & _ & Hm & _) _].
  now apply table_at_take.
Qed.

(** What [pool_adequate] says of the callers, for the callers that load
    from the table. *)
Lemma in_memory_adequate cf :
  rtc step (Pool (in_memory tb <$> (c_task <$> cs)) m0) cf ->
  (exists ts m, cf = Pool ts m /\ mem_wf m /\ take (length m0) m = m0 /\
                table_at tb m /\ heap_used m <= heap_size) /\
  (nf step cf -> exists m, cf = Pool (Ret ∘ c_value <$> cs) m /\ after m0 m).
Proof.
  intros H. apply (in_memory_steps tb (Pool (c_task <$> cs) m0) admissible_keeps) in H
    as (d & Hd & ->).
  pose proof (admissible_keeps d Hd) as Hi.
  destruct (pool_adequate m0 cs d m0_wf cs_ok cs_room Hd) as [(ts & m & -> & Hwf & Hm & Hh) Hfin].
  split; [now exists (in_memory tb <$> ts), m|].
  intros (m' & [= -> ->] & Haf)%(nf_in_memory tb _ Hi)%Hfin. exists m'. split; [|assumption].
  cbn [in_memory_pool]. now rewrite list_fmap_compose, in_memory_done.
Qed.

(** They do not race, on the table or elsewhere: all they do to the
    table is read it. *)
Lemma in_memory_race_free ts m (i j : nat) t1 t2 :
  rtc step (Pool (in_memory tb <$> (c_task <$> cs)) m0) (Pool ts m) ->
  i <> j -> ts !! i = Some t1 -> ts !! j = Some t2 -> ~ races t1 t2.
Proof.
  intros H Hne H1 H2 Hr.
  apply (in_memory_steps tb (Pool (c_task <$> cs) m0) admissible_keeps) in H as (d & Hd & E).
  destruct d as [us m'|f]; [|discriminate]. injection E as -> ->.
  apply list_lookup_fmap_Some in H1 as (u1 & -> & H1), H2 as (u2 & -> & H2).
  assert (Htb : (tb < length m0)%nat) by (eapply lookup_lt_Some, m0_table).
  destruct (races_in_memory tb u1 u2 Hr) as [Hr'|[Ha|Ha]].
  - exact (pool_race_free m0 cs us m' i j u1 u2 m0_wf cs_ok cs_room Hd Hne H1 H2 Hr').
  - pose proof (pool_writes_own m0 cs us m' i u1 tb m0_wf cs_ok cs_room Hd H1 Ha). lia.
  - pose proof (pool_writes_own m0 cs us m' j u2 tb m0_wf cs_ok cs_room Hd H2 Ha). lia.
Qed.

End admissible.

(** A caller alone computes the same from the table in memory. *)
Lemma in_memory_exec (c : caller A) :
  admissible m0 c -> heap_used m0 + c_need c <= heap_size ->
  exec (in_memory tb (c_task c)) m0 = exec (c_task c) m0.
Proof.
  intros Hc Hroom.
  assert (Hcs : Forall (admissible m0) [c]) by now constructor.
  assert (Hr : heap_used m0 + zsum (c_need <$> [c]) <= heap_size) by (cbn; lia).
  set (t := in_memory tb (c_task c)).
  destruct (@sn_wn _ step pool_red_dec _ (pool_sn (Pool [t] m0))) as (d' & Hrtc & Hnf).
  pose proof (pool_single t m0 d' Hrtc Hnf) as E'.
  apply (in_memory_steps tb (Pool [c_task c] m0) (admissible_keeps [c] Hcs Hr)) in Hrtc
    as (d & Hd & ->).
  apply (nf_in_memory tb _ (admissible_keeps [c] Hcs Hr d Hd)) in Hnf.
  rewrite (pool_single _ m0 d Hd Hnf) in E'.
  destruct (exec (c_task c) m0) as [[a m]|f], (exec t m0) as [[a' m']|f']; cbn in E'; congruence.
Qed.

End callers.

(** ** The four functions with the table in memory *)

Section table.
Context {P : Platform} `{!PlatformOk P}.
Variable tb : nat.

(** C12: the table in memory, callers at the same time.  Let the table
    be a block of the memory, and the callers as in [concurrent_callers],
    each reading [pearson_T[e]] by a load from that block.  Then under
    every interleaving of their actions no caller faults, the table holds
    its 256 values at every moment, the blocks the callers started with
    are never written, no two callers are about to access the same block
    with one of them writing, and when every caller has returned each has
    the digest of its call. *)
Theorem in_memory_callers m0 l rs cf :
  mem_wf m0 -> keys_in m0 l -> each m0 l = Ok rs ->
  heap_used m0 + reserved m0 l <= heap_size ->
  table_at tb m0 ->
  rtc step (Pool (in_memory tb <$> tasks l) m0) cf ->
  (exists ts m, cf = Pool ts m /\ mem_wf m /\ take (length m0) m = m0 /\
                table_at tb m /\ heap_used m <= heap_size /\
                forall (i j : nat) t1 t2,
                  i <> j -> ts !! i = Some t1 -> ts !! j = Some t2 -> ~ races t1 t2) /\
  (nf step cf -> exists m, cf = Pool (Ret <$> rs) m /\ after m0 m).
Proof.
  intros Hwf Hk He Hroom Ht.
  destruct (callers_pool m0 l rs Hwf Hk He Hroom) as (cs & <- & <- & Hcs & Hn). intros H.
  destruct (in_memory_adequate tb m0 Hwf Ht cs Hcs Hn cf H) as [(ts & m & -> & Hm) Hfin].
  split; [|assumption]. exists ts, m. repeat (split; [tauto|]).
  intros i j t1 t2. now apply (in_memory_race_free tb m0 Hwf Ht cs Hcs Hn ts m i j).
Qed.

(** C13: the constant table is a sound abstraction.  From the same
    start, the callers that load from the table in memory reach exactly
    the configurations of the callers that read the constant table,
    action for action: what [Concurrent] proves of the latter holds of
    the former. *)
Theorem table_in_memory m0 l rs cf :
  mem_wf m0 -> keys_in m0 l -> each m0 l = Ok rs ->
  heap_used m0 + reserved m0 l <= heap_size ->
  table_at tb m0 ->
  rtc step (Pool (in_memory tb <$> tasks l) m0) cf <->
  exists c, rtc step (Pool (tasks l) m0) c /\ cf = in_memory_pool tb c.
Proof.
  intros Hwf Hk He Hroom Ht.
  destruct (callers_pool m0 l rs Hwf Hk He Hroom) as (cs & <- & _ & Hcs & Hn).
  apply (in_memory_steps tb (Pool (c_task <$> cs) m0)).
  now apply admissible_keeps.
Qed.

(** The table in memory, one call.  A call on a C string that
    returns when the table is a constant returns the same value and
    leaves the same memory when the table is read from memory. *)
Theorem in_memory_call m v key bs r :
  mem_wf m -> cstring_at m key bs -> eval (call v key) m = Ok r ->
  heap_used m + reserve v (Z.of_nat (length bs)) <= heap_size ->
  table_at tb m ->
  exec (in_memory tb (call_task v key)) m = call v key m.
Proof.
  intros Hwf Hs E Hroom Ht. rewrite <- call_task_implements.
  apply (in_memory_exec tb m Hwf Ht (caller_of m (v, key) r)).
  - exact (call_admissible m Hwf v key bs r Hs E).
  - cbn [caller_of c_need fst snd]. now rewrite (key_length_ok m Hwf key bs Hs).
Qed.

End table.

(** The table can be written.  The table is the block 0 and the key
    "a" the block 1.  A caller that stores 0 into [pearson_T[97]] runs
    beside a call of [phash_wikipedia]: the call returns 113 when it has
    read the table before the store and 0 when it reads it after.  No
    action faults, for the array is not [const]. *)
Example table_race :
  let m := [table_block; string_block [97]] in
  let ts := [table_writer 0 97 0; in_memory 0 (@phash_wikipedia_task aarch64 (Ptr 1 0))] in
  eval (@phash_wikipedia aarch64 (Ptr 1 0)) m = Ok 113 /\
  results (@run aarch64 Z (replicate 8 1%nat ++ [0%nat]) (Pool ts m)) = Ok [Some 0; Some 113] /\
  results (@run aarch64 Z (0%nat :: replicate 8 1%nat) (Pool ts m)) = Ok [Some 0; Some 0].
Proof. vm_compute. auto. Qed.

(** The key may lie in the table: [phash_wikipedia(pearson_T)] hashes
    the 14 bytes before the first 0 of the table. *)
Example table_as_key :
  eval (@phash_wikipedia aarch64 (Ptr 0 0)) [table_block]
  = Ok (hashWikipedia pearson_T (take 14 pearson_T)).
Proof. vm_compute. reflexivity. Qed.

(** ** Witnesses *)

Lemma in_memory_call_witness :
  @exec x86_64 Z (in_memory 0 (@call_task x86_64 Hash16 (Ptr 1 0)))
    [table_block; string_block [97; 98; 99]]
  = @call x86_64 Hash16 (Ptr 1 0) [table_block; string_block [97; 98; 99]].
Proof.
  apply (@in_memory_call x86_64 _ 0 _ Hash16 (Ptr 1 0) [97; 98; 99] 1520); by_compute.
Defined.

(** Two callers beside the table, in the middle of a schedule. *)
Lemma in_memory_callers_witness :
  let m0 := [table_block; string_block [97; 98; 99]] in
  let l := [(Hash16, Ptr 1 0); (Original, Ptr 1 0)] in
  let cf := @run x86_64 Z (concat (replicate 9 [0; 1; 0]%nat))
              (Pool (in_memory 0 <$> @tasks x86_64 l) m0) in
  (exists ts m, cf = Pool ts m /\ @mem_wf x86_64 m /\ take (length m0) m = m0 /\
                table_at 0 m /\ heap_used m <= @heap_size x86_64 /\
                forall (i j : nat) t1 t2,
                  i <> j -> ts !! i = Some t1 -> ts !! j = Some t2 -> ~ races t1 t2) /\
  (nf (@step x86_64 Z) cf ->
   exists m, cf = Pool (Ret <$> [1520; 5]) m /\ @after x86_64 m0 m).
Proof.
  intros m0 l cf.
  apply (@in_memory_callers x86_64 _ 0 m0 l [1520; 5] cf);
    [by_compute| |vm_compute; reflexivity|vm_compute; discriminate|reflexivity|apply run_steps].
  unfold keys_in, l.
  repeat (apply List.Forall_cons; [exists [97; 98; 99]; by_compute|]).
  apply List.Forall_nil.
Defined.

Lemma table_in_memory_witness :
  let m0 := [table_block; string_block [97]] in
  let l := [(Wikipedia, Ptr 1 0); (RFC3074, Ptr 1 0)] in
  let cf := @run aarch64 Z [0; 1; 1; 0]%nat (Pool (in_memory 0 <$> @tasks aarch64 l) m0) in
  rtc (@step aarch64 Z) (Pool (in_memory 0 <$> @tasks aarch64 l) m0) cf <->
  exists c, rtc (@step aarch64 Z) (Pool (@tasks aarch64 l) m0) c /\ cf = in_memory_pool 0 c.
Proof.
  intros m0 l cf.
  apply (@table_in_memory aarch64 _ 0 m0 l [113; 20] cf);
    [by_compute| |vm_compute; reflexivity|vm_compute; discriminate|reflexivity].
  unfold keys_in, l.
  repeat (apply List.Forall_cons; [exists [97]; by_compute|]).
  apply List.Forall_nil.
Defined.
