(* ===== verification/Contents.v ===== *)
(** * Contents: the digest is a function of the table in memory

    [Global] shows that the four functions leave [pearson_T] alone.
    Nothing else does: the array is writable, and the functions read it
    at every step.  Here the block of the table holds any 256 bytes [T]
    ([holds]), and the programs of [Concurrent] with their reads of the
    table taken from memory ([in_memory]) are run on it.  The proofs
    follow those of [Refine] stage by stage; what does not mention the
    table (the buffer of [phash16], the perturbed key, the fresh block)
    is taken from there.

    Main facts:
    - [exec_in_memory_bind], [exec_lookup], [exec_segment], [exec_act]:
      a run is the run of its parts; a part that does not read the
      table is the computation of [Hasher] it implements, a read of the
      table returns [T[e]].
    - [phash_wikipedia_table], [phash_rfc3074_table],
      [phash_original_table], [phash16_table]: the digests are the folds
      [h = T[h ^ b]] of [Refine] with [T] for [pearson_T], for every [T].
    - [store_table], [phash_wikipedia_written]: after a store into the
      table the functions hash with the table as the store left it. *)

From Stdlib Require Import ZArith Lia List.
From stdpp Require Import base tactics option list relations.
From S2P Require Import Prelude Platform CInt Table Spec Memory Outcome Hasher Refine.
From S2P Require Import Compose Task Pool Concurrent Global.

#[local] Open Scope Z_scope.
#[local] Open Scope task_scope.

(** The block [tb] of the memory holds the values [T], and the table. *)
Definition holds (tb : nat) (T : list Z) (m : mem) : Prop :=
  m !! tb = Some (table_object T).

(** [T[e]] for an [int] index [e] and an array [T] of 256 bytes. *)
Definition T_get (T : list Z) (e : Z) : result Z :=
  if (0 <=? e) && (e <? 256) then Ok (T_at T e) else Fault TableIndex.

(** The table after a store of [v] at the index [i]. *)
Definition T_set (T : list Z) (i v : Z) : list Z := <[Z.to_nat i := v]> T.

(** The stages of [phash16] as in [Refine]: after the second hash (lines
    103-104) and after the first (lines 102-104). *)
#[local] Abbreviation phash16_finish_task buffer h1 h2 :=
  (act (Free buffer) ;;
   hi <- t_lift (int_shl h1 8) ;;
   sum <- t_lift (int_add hi h2) ;;
   Ret (to_ushort sum)).

#[local] Abbreviation phash16_second_task buffer h1 :=
  (c <- t_load_char (ptr_add buffer 0) ;;
   s <- t_lift (int_add c 1) ;;
   r <- t_lift (int_rem s 255) ;;
   act (Store (ptr_add buffer 0) (to_char r)) ;;
   h2 <- phash_wikipedia_task buffer ;;
   phash16_finish_task buffer h1 h2).

(** ** Whatever the table holds

    The digest of [phash_wikipedia] and of [phash_rfc3074] is the Pearson
    hash over the 256 bytes that the table holds when the function
    runs. *)

Section contents.
Context {P : Platform} `{!PlatformOk P}.
Context (tb : nat) (T : list Z) `{!ByteTable T}.

Lemma exec_in_memory_bind {A B} (t : prog A) (f : A -> prog B) m :
  exec (in_memory tb (pbind t f)) m =
  match exec (in_memory tb t) m with
  | Ok (x, m') => exec (in_memory tb (f x)) m'
  | Fault e => Fault e
  end.
Proof.
  revert m. induction t as [a|e|C o k IH]; intros m; [reflexivity ..|].
  cbn [pbind in_memory].
  destruct o; cbn [table_read]; try destruct (_ && _); cbn [exec]; try reflexivity;
    (destruct (run_op _ m) as [[x m']|flt]; [apply IH|reflexivity]).
Qed.

Lemma exec_lookup {A} e (k : Z -> prog A) m :
  holds tb T m ->
  exec (in_memory tb (x <- act (Lookup e) ;; k x)%task) m =
  match T_get T e with
  | Ok x => exec (in_memory tb (k x)) m
  | Fault f => Fault f
  end.
Proof.
  intros Ht. cbn [act pbind in_memory table_read]. unfold T_get.
  destruct (_ && _) eqn:He; [|reflexivity]. cbn [exec run_op].
  rewrite (load_ok m tb e (T_at T e)); [reflexivity|].
  apply cell_object; [assumption|apply table_length|]. unfold is_byte. lia.
Qed.

Lemma exec_load_char {A} p (k : Z -> prog A) m :
  exec (in_memory tb (c <- t_load_char p ;; k c)%task) m =
  match load_char p m with
  | Ok (c, m') => exec (in_memory tb (k c)) m'
  | Fault f => Fault f
  end.
Proof.
  rewrite exec_in_memory_bind. unfold load_char, bind, ret. cbn.
  now destruct (load p m) as [[x m']|f].
Qed.

(** A program that does not read the table is as it was. *)
Lemma exec_lookup_free {A} (t : prog A) m :
  lookup_free t -> exec (in_memory tb t) m = exec t m.
Proof.
  revert m. induction t as [a|e|C o k IH]; intros m Hf; [reflexivity ..|].
  destruct Hf as [Ho Hk]. cbn [in_memory].
  destruct o; try discriminate; cbn [table_read exec];
    (destruct (run_op _ m) as [[x m']|flt]; [now apply IH|reflexivity]).
Qed.

Lemma exec_strlen {A} p (k : Z -> prog A) m :
  exec (in_memory tb (n <- strlen_task p ;; k n)%task) m =
  match strlen p m with
  | Ok (n, m') => exec (in_memory tb (k n)) m'
  | Fault f => Fault f
  end.
Proof.
  rewrite exec_in_memory_bind, exec_lookup_free, strlen_task_implements; [reflexivity|].
  apply strlen_task_lookup_free.
Qed.

(** A part that does not read the table is the computation it
    implements. *)
Lemma exec_segment {A B} (t : prog A) c (k : A -> prog B) m :
  lookup_free t -> implements t c ->
  exec (in_memory tb (x <- t ;; k x)%task) m =
  match c m with
  | Ok (x, m') => exec (in_memory tb (k x)) m'
  | Fault f => Fault f
  end.
Proof. intros Hf Hi. now rewrite exec_in_memory_bind, exec_lookup_free, Hi. Qed.

Lemma exec_act {B C} (o : op B) (k : B -> prog C) m :
  is_lookup o = false ->
  exec (in_memory tb (x <- act o ;; k x)%task) m =
  match run_op o m with
  | Ok (x, m') => exec (in_memory tb (k x)) m'
  | Fault f => Fault f
  end.
Proof. intros Ho. now destruct o. Qed.

Lemma exec_lift {A B} (r : result A) (k : A -> prog B) m :
  exec (in_memory tb (x <- t_lift r ;; k x)%task) m =
  match r with
  | Ok x => exec (in_memory tb (k x)) m
  | Fault f => Fault f
  end.
Proof. now destruct r. Qed.

Lemma exec_memcpy {A} dst src n (k : unit -> prog A) m :
  exec (in_memory tb (x <- memcpy_task dst src n ;; k x)%task) m =
  match memcpy dst src n m with
  | Ok (x, m') => exec (in_memory tb (k x)) m'
  | Fault f => Fault f
  end.
Proof. apply exec_segment; [apply memcpy_task_lookup_free|apply memcpy_task_implements]. Qed.

(** The table is where it was when another block has changed. *)
Lemma holds_other m m' : m' !! tb = m !! tb -> holds tb T m -> holds tb T m'.
Proof. unfold holds. congruence. Qed.

Lemma holds_grow m blk : holds tb T m -> holds tb T (m ++ [blk]).
Proof. intros Ht. unfold holds. now apply lookup_app_l_Some. Qed.

Lemma T_get_step h y :
  is_byte h -> is_byte y -> plain y = true ->
  T_get T (int_xor h (char_val y)) = Ok (pearson_step T h y).
Proof.
  intros Hh Hy Hp. destruct (xor_char_plain h y Hh Hy Hp) as [-> Hb]. unfold T_get, pearson_step.
  unfold is_byte in Hb. now rewrite (proj2 (Z.leb_le _ _)), (proj2 (Z.ltb_lt _ _)) by lia.
Qed.

Lemma T_get_not_plain h y :
  is_byte h -> is_byte y -> plain y = false ->
  T_get T (int_xor h (char_val y)) = Fault TableIndex.
Proof.
  intros Hh Hy Hp. pose proof (xor_char_not_plain h y Hh Hy Hp). unfold T_get.
  now rewrite (proj2 (Z.leb_gt _ _)) by lia.
Qed.

(** The loop of line 76, as [wikipedia_loop_run] has it for the
    constant table. *)
Lemma wikipedia_task_table m b o s x tl h fuel :
  mem_wf m -> holds tb T m -> is_byte h -> is_key s ->
  s ++ [0] = x :: tl -> bytes_at m b o tl -> (length s <= fuel)%nat ->
  exec (in_memory tb (wikipedia_task fuel (Ptr b o) (char_val x) h)) m =
  if all_plain s then Ok (pearson_fold T h s, m) else Fault TableIndex.
Proof.
  intros Hwf Ht. revert x tl o h fuel.
  induction s as [|y s IH]; intros x tl o h fuel Hh Hk E Hb Hf; injection E as <- <-.
  - rewrite char_val_ascii by lia. destruct fuel; reflexivity.
  - apply is_key_cons in Hk as [Hy Hk]. rewrite all_plain_cons.
    destruct fuel as [|fuel]; [simpl in Hf; lia|]. cbn [wikipedia_task].
    assert (Hc : char_val y <> 0).
    { destruct (plain y) eqn:Hp; [rewrite plain_char_val by assumption; lia|].
      destruct (not_plain_char_val y Hp); [byte_lia|lia]. }
    rewrite (proj2 (Z.eqb_neq _ _) Hc), exec_lookup by assumption.
    destruct (plain y) eqn:Hpy; [|now rewrite T_get_not_plain by (assumption || byte_lia)].
    rewrite T_get_step by (assumption || byte_lia).
    destruct (s ++ [0]) as [|x' tl'] eqn:E'; [destruct s; discriminate|].
    destruct Hb as [Hx' Hb]. rewrite exec_load_char, (load_char_ok _ _ _ _ Hx').
    erewrite ptr_add_succ by eassumption. cbn [andb]. rewrite pearson_fold_cons.
    apply (IH x' tl' (o + 1) _ fuel); try assumption; try reflexivity.
    + apply (T_at_byte T), lxor_byte; [assumption|byte_lia].
    + simpl in Hf. lia.
Qed.

Lemma phash_wikipedia_table m key bs :
  mem_wf m -> holds tb T m -> cstring_at m key bs ->
  exec (in_memory tb (phash_wikipedia_task key)) m =
  if all_plain bs then Ok (pearson_fold T 0 bs, m) else Fault TableIndex.
Proof.
  intros Hwf Ht Hs. destruct key as [|b o]; [destruct Hs|]. destruct Hs as [Hk Hb].
  pose proof (span_bytes_at _ _ _ _ Hb) as Hspan.
  rewrite length_app in Hspan. cbn [length] in Hspan.
  destruct (bs ++ [0]) as [|x tl] eqn:E; [destruct bs; discriminate|].
  destruct Hb as [Hc Hb]. unfold phash_wikipedia_task. cbv zeta.
  rewrite exec_load_char, (load_char_ok _ _ _ _ Hc). cbn [act pbind in_memory table_read exec run_op].
  unfold gets. erewrite ptr_add_succ by eassumption.
  apply (wikipedia_task_table m b (o + 1) bs x tl); try assumption; [byte_lia|lia].
Qed.

(** The loop of line 40, as [rfc3074_loop_run] has it for the constant
    table. *)
Lemma rfc3074_task_unfold m b o pre x h fuel :
  mem_wf m -> bytes_at m b o (pre ++ [x]) -> holds tb T m ->
  exec (in_memory tb (rfc3074_task (S fuel) (Ptr b o) (Z.of_nat (length (pre ++ [x]))) h)) m =
  match T_get T (int_xor h (char_val x)) with
  | Ok t => exec (in_memory tb (rfc3074_task fuel (Ptr b o) (Z.of_nat (length pre)) t)) m
  | Fault f => Fault f
  end.
Proof.
  intros Hwf Hb Ht. cbn [rfc3074_task]. rewrite length_app. cbn [length].
  destruct (Z.ltb_spec 0 (Z.of_nat (length pre + 1))); [|lia].
  pose proof (bytes_at_lookup _ _ _ _ (length pre) x Hb) as Hc.
  rewrite list_lookup_middle in Hc by reflexivity. specialize (Hc eq_refl).
  assert (H0 : is_Some (cell m b o)) by (destruct pre; destruct Hb as [H0 _]; eauto).
  destruct H0 as [c0 H0].
  replace (Z.of_nat (length pre + 1)%nat - 1) with (Z.of_nat (length pre)) by lia.
  apply (cell_wf_range _ _ _ _ Hwf) in H0 as Ho.
  apply (cell_wf_range _ _ _ _ Hwf) in Hc as Hx.
  pose proof size_bits_min.
  pose proof size_pow_half as E2.
  rewrite size_wrap_small by lia. cbv zeta.
  rewrite exec_load_char. erewrite ptr_add_cell by eassumption.
  rewrite (load_char_ok _ _ _ _ Hc). now apply exec_lookup.
Qed.

Lemma rfc3074_task_table m b o bs h fuel :
  mem_wf m -> holds tb T m -> is_byte h -> Forall is_byte bs -> bytes_at m b o bs ->
  (length bs <= fuel)%nat ->
  exec (in_memory tb (rfc3074_task fuel (Ptr b o) (Z.of_nat (length bs)) h)) m =
  if all_plain bs then Ok (pearson_fold T h (rev bs), m) else Fault TableIndex.
Proof.
  intros Hwf Ht. revert h fuel. induction bs as [|x bs IH] using rev_ind;
    intros h fuel Hh Hby Hb Hf.
  - destruct fuel; reflexivity.
  - rewrite length_app in Hf. cbn [length] in Hf.
    destruct fuel as [|fuel]; [lia|].
    apply Forall_app in Hby as [Hby Hx]. apply Forall_inv in Hx.
    rewrite rfc3074_task_unfold by assumption.
    rewrite all_plain_snoc, rev_unit, pearson_fold_cons.
    destruct (plain x) eqn:Hp.
    + rewrite T_get_step by assumption. rewrite andb_true_r. apply IH; try assumption.
      * apply (T_at_byte T). now apply lxor_byte.
      * now apply bytes_at_app in Hb as [Hb _].
      * lia.
    + rewrite T_get_not_plain by assumption. now rewrite andb_false_r.
Qed.

Lemma phash_rfc3074_table m key bs :
  mem_wf m -> holds tb T m -> cstring_at m key bs ->
  exec (in_memory tb (phash_rfc3074_task key)) m =
  if all_plain bs
  then Ok (pearson_fold T (to_uchar (Z.of_nat (length bs))) (rev bs), m)
  else Fault TableIndex.
Proof.
  intros Hwf Ht Hs. destruct key as [|b o]; [destruct Hs|]. unfold phash_rfc3074_task.
  rewrite exec_strlen, (strlen_ok m b o bs Hwf Hs). cbv zeta.
  destruct Hs as [Hk Hb]. rewrite Nat2Z.id.
  apply rfc3074_task_table; try assumption.
  - apply to_uchar_byte.
  - now apply is_key_bytes.
  - now apply bytes_at_app in Hb as [Hb _].
  - lia.
Qed.

(** ** phash_original (lines 63-69) *)

(** One iteration of the loop of line 66. *)
Lemma original_task_step m kb ko hb i len x h fuel :
  mem_wf m -> holds tb T m -> 0 <= i < len ->
  cell m hb (i - 1) = Some (Some h) -> cell m kb (ko + i) = Some (Some x) ->
  is_Some (cell m hb i) ->
  exec (in_memory tb (original_task (S fuel) (Ptr kb ko) (Ptr hb 0) i len)) m =
  if plain x
  then exec (in_memory tb (original_task fuel (Ptr kb ko) (Ptr hb 0) (i + 1) len))
         (mem_set m hb i (pearson_step T h x))
  else Fault TableIndex.
Proof.
  intros Hwf Ht Hi Hh Hx [c Hc]. cbn [original_task].
  destruct (Z.ltb_spec i len); [|lia].
  pose proof (cell_wf_range _ _ _ _ Hwf Hc) as Hr. pose proof size_bits_min.
  pose proof size_pow_half as E2.
  pose proof (cell_wf_byte _ _ _ _ Hwf Hh). pose proof (cell_wf_byte _ _ _ _ Hwf Hx).
  rewrite ptr_add_pred by lia. rewrite exec_act by reflexivity. cbn [run_op].
  rewrite (load_ok _ _ _ _ Hh). erewrite ptr_add_cell by eassumption.
  rewrite exec_load_char, (load_char_ok _ _ _ _ Hx), exec_lookup by assumption.
  destruct (plain x) eqn:Hp; [|now rewrite T_get_not_plain].
  rewrite T_get_step, ptr_add_base by (assumption || lia).
  rewrite exec_act by reflexivity. cbn [run_op]. erewrite store_ok by eauto.
  now rewrite size_wrap_small by lia.
Qed.

Lemma original_task_table m kb ko hb i suf h fuel :
  mem_wf m -> holds tb T m -> hb <> tb -> kb <> hb -> 0 <= i ->
  bytes_at m kb (ko + i) suf ->
  cell m hb (i - 1) = Some (Some h) ->
  (forall k : nat, (k < length suf)%nat -> is_Some (cell m hb (i + Z.of_nat k))) ->
  (length suf <= fuel)%nat ->
  exec (in_memory tb (original_task fuel (Ptr kb ko) (Ptr hb 0) i (i + Z.of_nat (length suf)))) m =
  if all_plain suf
  then Ok (tt, mem_write m hb i (hash_array T h suf))
  else Fault TableIndex.
Proof.
  intros Hwf Ht Hnt Hne. revert m i h fuel Hwf Ht.
  induction suf as [|x suf IH]; intros m i h fuel Hwf Ht Hi Hb Hh Hs Hf.
  - cbn [length]. rewrite Z.add_0_r. destruct fuel; cbn [original_task];
      (destruct (Z.ltb_spec i i); [lia | reflexivity]).
  - destruct fuel as [|fuel]; [simpl in Hf; lia|]. destruct Hb as [Hx Hb].
    assert (H0 : is_Some (cell m hb i)).
    { specialize (Hs O). rewrite Z.add_0_r in Hs. apply Hs. simpl. lia. }
    pose proof (cell_wf_byte _ _ _ _ Hwf Hh) as Hhb.
    pose proof (cell_wf_byte _ _ _ _ Hwf Hx) as Hxb.
    rewrite all_plain_cons. cbn [length].
    rewrite (original_task_step m kb ko hb i _ x h) by (eauto; lia).
    destruct (plain x); [|reflexivity]. cbn [andb hash_array mem_write].
    replace (i + Z.of_nat (S (length suf))) with (i + 1 + Z.of_nat (length suf)) by lia.
    apply IH; [| |lia| | | |simpl in Hf; lia].
    + apply mem_wf_set; [assumption|]. apply (T_at_byte T). now apply lxor_byte.
    + revert Ht. apply holds_other, lookup_mem_set_ne, Hnt.
    + apply bytes_at_set_other; [assumption | eauto |].
      now replace (ko + (i + 1)) with (ko + i + 1) by lia.
    + replace (i + 1 - 1) with i by lia. apply cell_mem_set_eq. eauto.
    + intros k Hk. rewrite cell_mem_set_ne; [|eauto|intros [= ?]; lia].
      replace (i + 1 + Z.of_nat k) with (i + Z.of_nat (S k)) by lia. apply Hs. simpl. lia.
Qed.

Lemma original_rest_table m kb ko hb blk bs s :
  mem_wf m -> holds tb T m -> hb <> tb -> kb <> hb -> bytes_at m kb ko bs ->
  m !! hb = Some blk -> blk_live blk = true -> blk_heap blk = true ->
  cell m hb (-1) = Some (Some s) ->
  (forall k : nat, (k < length bs)%nat -> is_Some (cell m hb (Z.of_nat k))) ->
  Z.of_nat (length bs) < 2 ^ (size_bits - 1) ->
  exec (in_memory tb (original_rest (Ptr kb ko) (Z.of_nat (length bs)) (Ptr hb 0))) m =
  if all_plain bs
  then Ok (pearson_fold T s bs, mem_kill (mem_write m hb 0 (hash_array T s bs)) hb)
  else Fault TableIndex.
Proof.
  intros Hwf Ht Hnt Hne Hb Hblk Hl Hh Hs Hcells Hlen. unfold original_rest.
  rewrite Nat2Z.id, <- (Z.add_0_l (Z.of_nat (length bs))) at 1.
  rewrite exec_in_memory_bind, (original_task_table m kb ko hb 0 bs s);
    try assumption; try lia; [|now rewrite Z.add_0_r].
  destruct (all_plain bs); [|reflexivity].
  pose proof (hash_array_last_cell T m hb s bs Hs Hcells) as Hlast.
  rewrite ptr_add_pred by lia. rewrite exec_act by reflexivity. cbn [run_op].
  rewrite (load_ok _ _ _ _ Hlast), exec_act by reflexivity. cbn [run_op].
  destruct (lookup_mem_write_live m hb 0 (hash_array T s bs) blk Hblk)
    as (blk' & Hb' & Hl' & Hh').
  erewrite free_ok by (try exact Hb'; congruence). reflexivity.
Qed.

Lemma phash_original_table m key bs s :
  let n := Z.of_nat (length bs) in
  mem_wf m -> holds tb T m -> cstring_at m key bs ->
  malloc_null m n = false -> last (malloc_header n) = Some s ->
  exec (in_memory tb (phash_original_task key)) m =
  if all_plain bs
  then Ok (pearson_fold T s bs,
           mem_kill (mem_write (m ++ [fresh_block n]) (length m) 0 (hash_array T s bs))
                    (length m))
  else Fault TableIndex.
Proof.
  intros n Hwf Ht Hs Hnull Hhd. destruct key as [|b o]; [destruct Hs|].
  destruct (cstring_length_bound m b o bs Hwf Hs) as [Hlt Hn].
  pose proof (lookup_lt_Some _ _ _ Ht) as Htb.
  unfold phash_original_task. rewrite exec_strlen, (strlen_ok m b o bs Hwf Hs).
  rewrite Z.mul_1_l, size_wrap_small by lia. fold n.
  rewrite exec_act by reflexivity. cbn [run_op]. rewrite (malloc_ok n m Hnull).
  destruct (fresh_buffer m n (length bs) Hnull eq_refl) as (Hb1 & Hn1 & Hwf1 & Hcells).
  pose proof (fresh_block_cell_pred n) as Hpred. fold n in Hpred. rewrite Hhd in Hpred.
  apply (original_rest_table _ b o (length m) (fresh_block n) bs s);
    try reflexivity; try lia; auto.
  - now apply holds_grow.
  - destruct Hs as [_ Hb]. apply bytes_at_app in Hb as [Hb _]. now apply bytes_at_grow.
  - now rewrite cell_fresh.
  - intros k Hk. apply Hcells. pose proof (malloc_slack_nonneg n). lia.
Qed.

(** ** phash16 (lines 97-105) *)

Lemma phash16_finish_table m hb blk h1 h2 :
  m !! hb = Some blk -> blk_live blk = true -> blk_heap blk = true ->
  is_byte h1 -> is_byte h2 ->
  exec (in_memory tb (phash16_finish_task (Ptr hb 0) h1 h2)) m =
  if in_int (h1 * 256 + h2) then Ok (h1 * 256 + h2, mem_kill m hb)
  else Fault IntOverflow.
Proof.
  intros Hb Hl Hh H1 H2. rewrite exec_act by reflexivity. cbn [run_op].
  rewrite (free_ok m hb blk Hb Hl Hh), exec_lift.
  pose proof (int_shl_add_bytes h1 h2 H1 H2) as E.
  destruct (int_shl h1 8) as [hi|f]; [rewrite exec_lift, E|].
  - destruct (in_int _); [|reflexivity].
    cbn [in_memory exec]. rewrite to_ushort_id; [reflexivity|byte_lia].
  - destruct (in_int _); [discriminate|now injection E as ->].
Qed.

Lemma phash16_second_table m hb blk b rest h1 :
  mem_wf m -> holds tb T m -> hb <> tb ->
  m !! hb = Some blk -> blk_live blk = true -> blk_heap blk = true ->
  cstring_at m (Ptr hb 0) (b :: rest) -> is_byte h1 ->
  exec (in_memory tb (phash16_second_task (Ptr hb 0) h1)) m =
  if all_plain (second_key (b :: rest)) then
    let h2 := hashWikipedia T (second_key (b :: rest)) in
    if in_int (h1 * 256 + h2)
    then Ok (h1 * 256 + h2, mem_kill (mem_set m hb 0 (c_bump b)) hb)
    else Fault IntOverflow
  else Fault TableIndex.
Proof.
  intros Hwf Ht Hne Hb Hl Hh Hs H1. pose proof (cstring_at_second_key _ _ _ _ Hs) as Hs2.
  destruct Hs as [Hk [Hc _]]. apply is_key_cons in Hk as [Hbb Hk].
  destruct (c_bump_run b) as [Ea Er]; [byte_lia|].
  erewrite (ptr_add_0 m hb 0) by eassumption.
  rewrite exec_load_char, (load_char_ok _ _ _ _ Hc), exec_lift, Ea, exec_lift, Er.
  fold (c_bump b). rewrite exec_act by reflexivity. cbn [run_op].
  erewrite store_ok by eauto.
  assert (Hwf2 : mem_wf (mem_set m hb 0 (c_bump b))) by (apply mem_wf_set, c_bump_byte; assumption).
  assert (Ht2 : holds tb T (mem_set m hb 0 (c_bump b)))
    by (revert Ht; apply holds_other, lookup_mem_set_ne, Hne).
  rewrite exec_in_memory_bind, (phash_wikipedia_table _ _ _ Hwf2 Ht2 Hs2).
  destruct (all_plain (second_key (b :: rest))); [|reflexivity].
  apply (phash16_finish_table _ hb (blk_set blk 0 (Some (c_bump b)))); try assumption.
  - now apply lookup_mem_set_eq.
  - apply (pearson_fold_byte T); [byte_lia|]. apply is_key_bytes. now destruct Hs2.
Qed.

Lemma phash16_rest_table m kb ko hb blk bs :
  mem_wf m -> holds tb T m -> hb <> tb -> kb <> hb -> cstring_at m (Ptr kb ko) bs ->
  m !! hb = Some blk -> blk_live blk = true -> blk_heap blk = true ->
  (forall k : nat, (k <= length bs)%nat -> is_Some (cell m hb (Z.of_nat k))) ->
  exec (in_memory tb (phash16_rest (Ptr kb ko) (Z.of_nat (length bs)) (Ptr hb 0))) m =
  if all_plain bs
  then exec (in_memory tb (phash16_second_task (Ptr hb 0) (hashWikipedia T bs)))
         (mem_write m hb 0 (bs ++ [0]))
  else Fault TableIndex.
Proof.
  intros Hwf Ht Hnt Hne [Hk Hkb] Hb Hl Hh Hcells.
  destruct (phash16_buffer m hb blk bs Hwf Hk Hb Hl Hh Hcells) as (Hwf3 & Hs3 & _).
  apply bytes_at_app in Hkb as [Hkb _]. unfold phash16_rest.
  rewrite exec_memcpy, (memcpy_ok m kb ko hb 0 bs Hwf Hne (is_key_bytes _ Hk)
             Hkb ltac:(intros k Hk'; apply Hcells; lia)).
  destruct (Hcells (length bs) (le_n _)) as [c Hc].
  pose proof (cell_wf_range _ _ _ _ Hwf Hc) as Hr.
  rewrite ptr_add_base by lia. change (to_char 0) with 0.
  rewrite exec_act by reflexivity. cbn [run_op].
  erewrite store_ok by
    (rewrite cell_mem_write_other; [eauto | intros k Hk'; apply Hcells; lia | lia]).
  replace (mem_set (mem_write m hb 0 bs) hb (Z.of_nat (length bs)) 0)
    with (mem_write m hb 0 (bs ++ [0])) by (now rewrite mem_write_app).
  assert (Ht3 : holds tb T (mem_write m hb 0 (bs ++ [0])))
    by (revert Ht; apply holds_other, lookup_mem_write_ne, Hnt).
  rewrite exec_in_memory_bind, (phash_wikipedia_table _ _ _ Hwf3 Ht3 Hs3).
  destruct (all_plain bs); reflexivity.
Qed.

Lemma phash16_table m key b0 rest :
  let bs := b0 :: rest in
  let n := Z.of_nat (length bs) in
  let hb := length m in
  mem_wf m -> holds tb T m -> cstring_at m key bs ->
  malloc_null m n = false -> 0 < malloc_slack n ->
  exec (in_memory tb (phash16_task key)) m =
  if all_plain bs && all_plain (second_key bs) then
    let h1 := hashWikipedia T bs in
    let h2 := hashWikipedia T (second_key bs) in
    if in_int (h1 * 256 + h2)
    then Ok (h1 * 256 + h2,
             mem_kill (mem_set (mem_write (m ++ [fresh_block n]) hb 0 (bs ++ [0]))
                               hb 0 (c_bump b0)) hb)
    else Fault IntOverflow
  else Fault TableIndex.
Proof.
  intros bs n hb Hwf Ht Hs Hnull Hslack. destruct key as [|b o]; [destruct Hs|].
  destruct (cstring_length_bound m b o bs Hwf Hs) as [Hlt Hn].
  pose proof (lookup_lt_Some _ _ _ Ht) as Htb.
  unfold phash16_task. rewrite exec_strlen, (strlen_ok m b o bs Hwf Hs).
  rewrite Z.mul_1_l, size_wrap_small by lia. fold n.
  rewrite exec_act by reflexivity. cbn [run_op]. rewrite (malloc_ok n m Hnull).
  destruct (fresh_buffer m n (length bs) Hnull eq_refl) as (Hb1 & Hn1 & Hwf1 & Hcells).
  specialize (Hwf1 Hwf). apply (holds_grow _ (fresh_block n)) in Ht.
  assert (Hs1 : cstring_at (m ++ [fresh_block n]) (Ptr b o) bs).
  { destruct Hs as [Hk Hb]. split; [assumption | now apply bytes_at_grow]. }
  assert (Hcells' : forall k : nat, (k <= length bs)%nat ->
            is_Some (cell (m ++ [fresh_block n]) hb (Z.of_nat k))) by (intros; apply Hcells; lia).
  rewrite (phash16_rest_table _ b o hb (fresh_block n) bs)
    by (try assumption; try reflexivity; unfold hb; lia).
  destruct (all_plain bs); [|reflexivity]. cbn [andb].
  destruct (phash16_buffer _ hb (fresh_block n) bs Hwf1 (proj1 Hs) Hb1 eq_refl eq_refl Hcells')
    as (Hwf3 & Hs3 & blk3 & Hb3 & Hl3 & Hh3).
  apply (phash16_second_table _ hb blk3 b0 rest); try assumption.
  - revert Ht. apply holds_other, lookup_mem_write_ne. unfold hb. lia.
  - unfold hb. lia.
  - apply (pearson_fold_byte T); [byte_lia|]. apply is_key_bytes, Hs.
Qed.

(** A store into the table. *)
Lemma T_set_table i v : is_byte v -> ByteTable (T_set T i v).
Proof.
  intros Hv. unfold T_set. split; [rewrite length_insert; apply table_length|].
  apply Forall_insert; [apply table_bytes|assumption].
Qed.

Lemma store_table m i v :
  holds tb T m -> is_byte i ->
  store (Ptr tb i) v m = Ok (tt, mem_set m tb i v) /\ holds tb (T_set T i v) (mem_set m tb i v).
Proof.
  intros Ht Hi. split.
  - apply store_ok. rewrite (cell_object tb T m i Ht table_length Hi). eauto.
  - unfold holds. rewrite (lookup_mem_set_eq m tb i v _ Ht).
    unfold blk_set, table_object, T_set. cbn [blk_live blk_heap blk_lo blk_data].
    rewrite Z.sub_0_r. change (map Some T) with (Some <$> T). now rewrite list_fmap_insert.
Qed.

End contents.

(** A call after a store into the table hashes over the table as the
    store left it. *)
Lemma phash_wikipedia_written {P : Platform} `{!PlatformOk P} tb m b o bs i v :
  mem_wf m -> table_at tb m -> cstring_at m (Ptr b o) bs -> b <> tb ->
  is_byte i -> is_byte v ->
  exec (table_writer tb i v ;; in_memory tb (phash_wikipedia_task (Ptr b o)))%task m =
  if all_plain bs then Ok (pearson_fold (T_set pearson_T i v) 0 bs, mem_set m tb i v)
  else Fault TableIndex.
Proof.
  intros Hwf Ht [Hk Hb] Hne Hi Hv.
  destruct (store_table tb pearson_T m i v Ht Hi) as [Est Ht'].
  pose proof (T_set_table pearson_T i v Hv) as HT.
  unfold table_writer. rewrite exec_bind. unfold bind. cbn [act pbind exec run_op]. rewrite Est.
  cbn [exec]. apply (phash_wikipedia_table tb _); [now apply mem_wf_set|assumption|].
  split; [assumption|]. apply bytes_at_set_other; [assumption| |assumption].
  rewrite (cell_object tb pearson_T m i Ht table_length Hi). eauto.
Qed.

(** ** The functions on a table that was written *)

Section table.
Context {P : Platform} `{!PlatformOk P}.
Variable tb : nat.

(** C14: the digest is a function of the table in memory.  Whatever 256
    bytes [T] the array holds when one of the four functions runs on a C
    string, the function computes with these bytes what it computes with
    [pearson_T] as long as nobody has written the array: the fold
    [h = T[h ^ b]] over the key from 0 ([phash_wikipedia]), over the key
    from its end and from its length ([phash_rfc3074]), over the key from
    the byte [s] below the block [malloc] returned ([phash_original]),
    and the two folds over the key and over the key with its first byte
    perturbed ([phash16]); each faults on a byte that is not plain, and
    the two that allocate leave their block freed. *)
Theorem phash_reads_table T m key bs :
  length T = 256%nat -> Forall is_byte T ->
  mem_wf m -> holds tb T m -> cstring_at m key bs ->
  let n := Z.of_nat (length bs) in
  let m1 := m ++ [fresh_block n] in
  let hb := length m in
  exec (in_memory tb (phash_wikipedia_task key)) m =
    (if all_plain bs then Ok (pearson_fold T 0 bs, m) else Fault TableIndex) /\
  exec (in_memory tb (phash_rfc3074_task key)) m =
    (if all_plain bs
     then Ok (pearson_fold T (to_uchar n) (rev bs), m)
     else Fault TableIndex) /\
  (forall s, malloc_null m n = false -> last (malloc_header n) = Some s ->
   exec (in_memory tb (phash_original_task key)) m =
     if all_plain bs
     then Ok (pearson_fold T s bs, mem_kill (mem_write m1 hb 0 (hash_array T s bs)) hb)
     else Fault TableIndex) /\
  (forall b0 rest, bs = b0 :: rest -> malloc_null m n = false -> 0 < malloc_slack n ->
   exec (in_memory tb (phash16_task key)) m =
     if all_plain bs && all_plain (second_key bs) then
       let h1 := hashWikipedia T bs in
       let h2 := hashWikipedia T (second_key bs) in
       if in_int (h1 * 256 + h2)
       then Ok (h1 * 256 + h2, mem_kill (mem_set (mem_write m1 hb 0 (bs ++ [0])) hb 0 (c_bump b0)) hb)
       else Fault IntOverflow
     else Fault TableIndex).
Proof.
  intros Hl Hb Hwf Ht Hs n m1 hb. pose proof (Build_ByteTable T Hl Hb) as HT. repeat split.
  - now apply phash_wikipedia_table.
  - now apply phash_rfc3074_table.
  - intros s Hnull Hhd. now apply phash_original_table.
  - intros b0 rest -> Hnull Hsl. now apply phash16_table.
Qed.

End table.

(** ** Witnesses *)

(** The key "a" beside a table whose entry 97 was overwritten with 0.
    With [pearson_T] the four digests are 113, 20, 113 and 28999. *)
Lemma phash_reads_table_witness :
  let T := T_set pearson_T 97 0 in
  let m := [table_object T; string_block [97]] in
  let run t := eval (@exec x86_64 Z (in_memory 0 t)) m in
  run (@phash_wikipedia_task x86_64 (Ptr 1 0)) = Ok 0 /\
  run (@phash_rfc3074_task x86_64 (Ptr 1 0)) = Ok 20 /\
  run (@phash_original_task x86_64 (Ptr 1 0)) = Ok 0 /\
  run (@phash16_task x86_64 (Ptr 1 0)) = Ok 71.
Proof.
  intros T m run.
  destruct (@phash_reads_table x86_64 _ 0 T m (Ptr 1 0) [97]) as (Hw & Hr & Ho & Hh);
    [reflexivity|by_compute|by_compute|reflexivity|by_compute|].
  unfold run, eval. rewrite Hw, Hr, (Ho 0), (Hh 97 []) by reflexivity.
  repeat split; reflexivity.
Defined.
