(* ===== verification/Written.v ===== *)
(** * Written: callers at the same time on a table that was written

    [Concurrent] and [Global] treat callers on the table as the program
    initialises it.  Here the array holds any 256 bytes [T], as after a
    store by other code, and any number of callers run on it at the same
    time.

    The programs with their reads of the table taken from memory keep
    the discipline of [Task] ([confined_in_memory]): the array is one of
    the blocks the callers share, and what a read of it returns is of no
    concern to the discipline.  A call that returns with the table [T]
    returns the digest [table_digest] on every memory that begins with
    the blocks of the callers ([call_table]), so the callers are
    [admissible] in the sense of [Pool], and its theorems apply as they
    are: no schedule crashes, no two callers race, and each returns the
    digest over [T] ([written_table_callers]). *)

From Stdlib Require Import ZArith Lia List.
From stdpp Require Import base tactics option list relations.
From S2P Require Import Prelude Platform CInt Table Spec Memory Outcome Hasher Refine Conform.
From S2P Require Import Compose Task Pool Concurrent Global Contents.

#[local] Open Scope Z_scope.

Section written.
Context {P : Platform}.

(** The value of a call on the key [bs] with the table [T] on the memory
    [m], where the call returns one: the folds of [Refine] over [T]. *)
Definition table_digest (T : list Z) (m : mem) (v : variant) (bs : list Z) : option Z :=
  let n := Z.of_nat (length bs) in
  if all_plain bs && negb (allocates v && malloc_null m n) then
    match v with
    | Wikipedia => Some (pearson_fold T 0 bs)
    | RFC3074 => Some (pearson_fold T (to_uchar n) (rev bs))
    | Original => s ← last (malloc_header n); Some (pearson_fold T s bs)
    | Hash16 =>
        let h1 := hashWikipedia T bs in
        let h2 := hashWikipedia T (second_key bs) in
        match bs with
        | [] => None
        | _ :: _ =>
            if (0 <? malloc_slack n) && all_plain (second_key bs) && in_int (h1 * 256 + h2)
            then Some (h1 * 256 + h2) else None
        end
    end
  else None.

(** The call [vk] on a key of the memory [m] returns [r] with the table
    [T]. *)
Definition returns_on (T : list Z) (m : mem) (vk : variant * ptr) (r : Z) : Prop :=
  exists bs, cstring_at m vk.2 bs /\ table_digest T m vk.1 bs = Some r.

(** The caller of [vk] that reads the table from the block [tb]. *)
Definition written_caller (tb : nat) (m : mem) (vk : variant * ptr) (r : Z) : caller Z :=
  Caller (in_memory tb (call_task vk.1 vk.2)) (reserve vk.1 (key_length m vk.2)) r.

End written.

(** ** The discipline *)

Section discipline.
Context {P : Platform}.
Variables (m0 : mem) (need : Z) (tb : nat).
Hypothesis tb_shared : (tb < length m0)%nat.

(** A program that keeps the discipline keeps it when it loads the
    table from a block the callers share. *)
Lemma confined_in_memory {A} (Q : phase -> A -> Prop) ph (t : prog A) :
  confined m0 need Q ph t -> confined m0 need Q ph (in_memory tb t).
Proof.
  revert ph. induction t as [a|f|B o k IH]; intros ph; [auto ..|].
  intros [Hok Hk]. cbn [in_memory].
  destruct o; cbn [table_read];
    try (split; [exact Hok|intros x Hx; apply IH, Hk, Hx]).
  destruct (_ && _); [|exact I]. split; [now left|]. intros x [Hx _]. apply IH, Hk, Hx.
Qed.

End discipline.

(** ** A call alone *)

Section alone.
Context {P : Platform} `{!PlatformOk P}.
Context (tb : nat) (T : list Z) `{!ByteTable T}.
Implicit Types (key : ptr) (bs : list Z) (v : variant) (m : mem).

(** The run of a call that returns: its digest over [T], and the memory
    as it was but for a freed block. *)
Lemma call_table m v key bs r :
  mem_wf m -> holds tb T m -> cstring_at m key bs ->
  table_digest T m v bs = Some r ->
  exists m', exec (in_memory tb (call_task v key)) m = Ok (r, m') /\ after m m'.
Proof.
  intros Hwf Ht Hs. unfold table_digest. cbv zeta.
  destruct (all_plain bs) eqn:Hp; [|discriminate]. cbn [andb].
  pose proof (cstring_bytes _ _ _ Hs) as Hbs. pose proof (cstring_is_key _ _ _ Hs) as Hk.
  destruct v; cbn [allocates call_task andb negb].
  - intros [= <-]. exists m. rewrite (phash_rfc3074_table tb T m key bs), Hp by assumption.
    split; [reflexivity|now apply after_refl].
  - destruct (malloc_null m _) eqn:Hn; [discriminate|]. cbn [negb].
    destruct (last _) as [s|] eqn:Hl; [|discriminate]. intros [= <-].
    rewrite (phash_original_table tb T m key bs s), Hp by assumption.
    eexists. split; [reflexivity|].
    destruct (original_scratch T m _ s bs Hwf Hn (malloc_header_last _ _ Hl) Hbs).
    now apply scratch_freed_after.
  - intros [= <-]. exists m. rewrite (phash_wikipedia_table tb T m key bs), Hp by assumption.
    split; [reflexivity|now apply after_refl].
  - destruct (malloc_null m _) eqn:Hn; [discriminate|]. cbn [negb].
    destruct bs as [|b0 rest]; [discriminate|].
    destruct (0 <? _) eqn:Hsl; [|discriminate]. apply Z.ltb_lt in Hsl.
    destruct (all_plain (second_key _)) eqn:Hp2; [|discriminate].
    destruct (in_int _) eqn:Hi; [|discriminate]. intros [= <-].
    pose proof (phash16_table tb T m key b0 rest Hwf Ht Hs Hn Hsl) as E. cbv zeta in E.
    rewrite Hp, Hp2, Hi in E. rewrite E. eexists. split; [reflexivity|].
    destruct (phash16_scratch m _ _ (c_bump b0) Hwf Hn Hk (c_bump_byte b0)).
    now apply scratch_freed_after.
Qed.

End alone.

(** ** Callers are admissible *)

Section callers.
Context {P : Platform} `{!PlatformOk P}.
Context (tb : nat) (T : list Z) `{!ByteTable T}.
Variable m0 : mem.
Hypothesis m0_wf : mem_wf m0.
Hypothesis m0_holds : holds tb T m0.
Implicit Types (key : ptr) (bs : list Z) (v : variant) (m : mem) (l : list (variant * ptr)).

Lemma holds_good need m : good m0 need m -> holds tb T m.
Proof.
  intros (Ht & _). unfold holds. rewrite <- (take_drop (length m0) m), Ht.
  now apply lookup_app_l_Some.
Qed.

(** On a memory that is good for it a call returns what it returns on
    [m0]. *)
Lemma table_digest_good v bs r m :
  good m0 (reserve v (Z.of_nat (length bs))) m ->
  table_digest T m0 v bs = Some r -> table_digest T m v bs = Some r.
Proof.
  intros Hg. unfold table_digest. cbv zeta. destruct (allocates v) eqn:Hv; [|easy].
  destruct (malloc_null m0 _) eqn:Hn; [now rewrite andb_false_r|].
  now rewrite (good_malloc m0 v _ m Hg Hv Hn).
Qed.

Lemma written_admissible v key r :
  returns_on T m0 (v, key) r -> admissible m0 (written_caller tb m0 (v, key) r).
Proof.
  intros (bs & Hs & E). unfold admissible, written_caller. cbn [c_need c_task c_value fst snd] in *.
  rewrite (key_length_ok m0 m0_wf key bs Hs). split.
  { unfold reserve. destruct (allocates v); [apply blk_cells_nonneg|lia]. }
  split.
  - apply confined_in_memory; [exact (lookup_lt_Some _ _ _ m0_holds)|].
    now apply call_task_pre.
  - intros m Hg. apply (call_table tb T m v key bs r).
    + apply Hg.
    + exact (holds_good _ m Hg).
    + exact (good_cstring m0 _ m key bs Hg Hs).
    + now apply table_digest_good.
Qed.

Lemma written_callers_spec l rs :
  Forall2 (returns_on T m0) l rs ->
  c_task <$> zip_with (written_caller tb m0) l rs = in_memory tb <$> tasks l /\
  c_value <$> zip_with (written_caller tb m0) l rs = rs /\
  zsum (c_need <$> zip_with (written_caller tb m0) l rs) = reserved m0 l /\
  Forall (admissible m0) (zip_with (written_caller tb m0) l rs).
Proof.
  unfold tasks, reserved.
  induction 1 as [|[v key] r l rs Hr _ (IH1 & IH2 & IH3 & IH4)]; [now repeat split|].
  cbn. unfold zsum in *. cbn. rewrite IH1, IH2, IH3. repeat split.
  constructor; [now apply written_admissible|assumption].
Qed.

(** C15: callers at the same time on a table that was written.  Let
    the array hold the 256 bytes [T], let each call of [l] return its
    digest over [T] when made alone, and let the heap have room for the
    buffers of all of them at once.  Then under every interleaving of their actions
    no caller faults, the memory stays well formed, the blocks the
    callers started with, the array among them, are never written, no
    two callers are about to access the same block with one of them
    writing, and when all have returned each has its digest over [T]. *)
Theorem written_table_callers l rs cf :
  Forall2 (returns_on T m0) l rs ->
  heap_used m0 + reserved m0 l <= heap_size ->
  rtc step (Pool (in_memory tb <$> tasks l) m0) cf ->
  (exists ts m, cf = Pool ts m /\ mem_wf m /\ take (length m0) m = m0 /\
                heap_used m <= heap_size /\
                forall (i j : nat) t1 t2, i <> j -> ts !! i = Some t1 -> ts !! j = Some t2 ->
                  ~ races t1 t2) /\
  (nf step cf -> exists m, cf = Pool (Ret <$> rs) m /\ after m0 m).
Proof.
  intros Hr Hroom. destruct (written_callers_spec l rs Hr) as (<- & Hv & Hn & Hcs).
  rewrite <- Hn in Hroom. intros Hsteps.
  destruct (pool_adequate m0 _ cf m0_wf Hcs Hroom Hsteps) as [(ts & m & -> & Hwf & Ht & Hh) Hfin].
  split.
  - exists ts, m. repeat split; try assumption. intros i j t1 t2.
    exact (pool_race_free m0 _ ts m i j t1 t2 m0_wf Hcs Hroom Hsteps).
  - intros Hnf. destruct (Hfin Hnf) as (m' & -> & Ha). exists m'. split; [|assumption].
    now rewrite list_fmap_compose, Hv.
Qed.

End callers.

(** ** Witnesses *)

(** Two callers on the key "a" beside a table whose entry 97 was
    overwritten with 0, in the middle of a schedule: with [pearson_T]
    the digests are 28999 and 113. *)
Lemma written_table_callers_witness :
  let T := T_set pearson_T 97 0 in
  let m0 := [table_object T; string_block [97]] in
  let l := [(Hash16, Ptr 1 0); (Original, Ptr 1 0)] in
  let cf := @run x86_64 Z (concat (replicate 9 [0; 1; 0]%nat))
              (Pool (in_memory 0 <$> @tasks x86_64 l) m0) in
  (exists ts m, cf = Pool ts m /\ @mem_wf x86_64 m /\ take (length m0) m = m0 /\
                heap_used m <= @heap_size x86_64 /\
                forall (i j : nat) t1 t2,
                  i <> j -> ts !! i = Some t1 -> ts !! j = Some t2 -> ~ races t1 t2) /\
  (nf (@step x86_64 Z) cf ->
   exists m, cf = Pool (Ret <$> [71; 0]) m /\ @after x86_64 m0 m).
Proof.
  intros T m0 l cf. pose proof (T_set_table pearson_T 97 0 ltac:(by_compute)) as HT.
  apply (@written_table_callers x86_64 _ 0 T HT m0 ltac:(by_compute) eq_refl l [71; 0] cf);
    [|vm_compute; discriminate|apply run_steps].
  repeat (apply List.Forall2_cons; [exists [97]; split; [by_compute|reflexivity]|]).
  apply List.Forall2_nil.
Defined.

(** The same callers, to the end of a schedule that alternates them. *)
Example written_table_schedule :
  let T := T_set pearson_T 97 0 in
  let m0 := [table_object T; string_block [97]] in
  let l := [(Hash16, Ptr 1 0); (Original, Ptr 1 0)] in
  results (@run x86_64 Z (concat (replicate 40 [0; 1]%nat))
             (Pool (in_memory 0 <$> @tasks x86_64 l) m0)) = Ok [Some 71; Some 0].
Proof. vm_compute. reflexivity. Qed.
