(* ===== verification/Reference.v ===== *)
(** * Reference: the Ruby and Go renditions quoted in the source

    The comments of lines 44-58 and 80-93 of [src/pearson-hashing.c] give
    [phash_rfc3074] and [phash_original] again in Ruby and in Go.  They are
    modelled here on lists of bytes, with what each language does where C
    has undefined behaviour: a Ruby [Integer] is unbounded and an array
    read outside the array yields [nil], a Go [byte] wraps and indexes
    [T] always inside it.  The theorems compare them with the C functions:
    on keys of at most 255 plain bytes all three languages agree; on longer
    keys Ruby raises, Go hashes a prefix of the key, C hashes all of it.
    A Ruby string whose characters take more than one byte has fewer
    characters than bytes ([rb_string]): [key.length] is then smaller
    than what [strlen] returns, and the Ruby rendition hashes a prefix of
    the key ([ruby_rfc3074_multibyte]). *)

From Stdlib Require Import ZArith Lia List.
From stdpp Require Import base tactics option list.
From S2P Require Import Prelude Platform CInt Table Spec Memory Hasher Refine.

#[local] Open Scope Z_scope.

(** The memory of the examples: one static object holding "abc". *)
#[local] Abbreviation abc := [string_block [97; 98; 99]].

#[local] Abbreviation fold := (pearson_fold pearson_T).

(** ** Ruby *)

(** The values the variable [h] takes in Ruby. *)
Inductive rb_value : Type :=
| RbInt (z : Z)
| RbNil.

#[export] Instance rb_value_eq_dec : EqDecision rb_value.
Proof. solve_decision. Defined.

(** [T[i]]: an index from [-256] to [-1] counts from the end of the array,
    an index outside the array yields [nil]. *)
Definition rb_aref (i : Z) : rb_value :=
  if (0 <=? i) && (i <? 256) then RbInt (T_at pearson_T i)
  else if (-256 <=? i) && (i <? 0) then RbInt (T_at pearson_T (256 + i))
  else RbNil.

(** One call of the block [h = T[h ^ c]], where [c] is what [getbyte]
    returned ([nil] outside the string).  [None] is a raised [TypeError]:
    [nil ^ c] is [true], which is no index, and an [Integer] cannot be
    combined with [nil]. *)
Definition rb_step (h : rb_value) (c : option Z) : option rb_value :=
  match h, c with
  | RbInt x, Some b => Some (rb_aref (Z.lxor x b))
  | _, _ => None
  end.

(** [(i - 1).downto(0) { |i| h = T[h ^ key.getbyte(i)] }] (line 48). *)
Fixpoint rb_downto (key : list Z) (i : nat) (h : rb_value) : option rb_value :=
  match i with
  | O => Some h
  | S i' =>
      match rb_step h (key !! i') with
      | Some h' => rb_downto key i' h'
      | None => None
      end
  end.

(** Lines 46-50. *)
Definition ruby_phash_rfc3074 (key : list Z) : option rb_value :=
  let h := RbInt (Z.of_nat (length key)) in
  rb_downto key (length key) h.

(** A Ruby string in an encoding with characters of more than one byte
    (UTF-8, the default): its characters, each with the bytes that encode
    it.  [key.length] counts the characters, [key.getbyte(i)] and
    [key.each_byte] go by the bytes. *)
Definition rb_string : Type := list (list Z).

Definition rb_bytes (s : rb_string) : list Z := concat s.

Definition rb_length (s : rb_string) : nat := length s.

(** Every character has a byte at least. *)
Definition rb_valid (s : rb_string) : Prop :=
  Forall (fun c => c <> [] /\ Forall is_byte c) s.

(** Lines 46-50 on such a string. *)
Definition ruby_phash_rfc3074_chars (s : rb_string) : option rb_value :=
  let h := RbInt (Z.of_nat (rb_length s)) in
  rb_downto (rb_bytes s) (rb_length s) h.

(** [key.each_byte { |c| h = T[h ^ c] }] (line 84). *)
Fixpoint rb_each_byte (key : list Z) (h : rb_value) : option rb_value :=
  match key with
  | [] => Some h
  | c :: key' =>
      match rb_step h (Some c) with
      | Some h' => rb_each_byte key' h'
      | None => None
      end
  end.

(** Lines 82-86. *)
Definition ruby_phash_original (key : list Z) : option rb_value :=
  let h := RbInt 0 in
  rb_each_byte key h.

(** ** Go *)

(** The conversion [byte(n)]. *)
Definition go_byte (n : Z) : Z := n mod 256.

(** [for i := h; i > 0; i-- { h = T[h^key[i-1]] }] (line 55); [None] is
    the run-time panic of an index outside the string. *)
Fixpoint go_rfc3074_loop (key : list Z) (i : nat) (h : Z) : option Z :=
  match i with
  | O => Some h
  | S i' =>
      match key !! i' with
      | Some c => go_rfc3074_loop key i' (T_at pearson_T (Z.lxor h c))
      | None => None
      end
  end.

(** Lines 53-57. *)
Definition go_phash_rfc3074 (key : list Z) : option Z :=
  let h := go_byte (Z.of_nat (length key)) in
  go_rfc3074_loop key (Z.to_nat h) h.

(** [for _, c := range []byte(key) { h = T[h^c] }] (line 90). *)
Fixpoint go_range (key : list Z) (h : Z) : Z :=
  match key with
  | [] => h
  | c :: key' => go_range key' (T_at pearson_T (Z.lxor h c))
  end.

(** Lines 89-92; the named result [h] starts at 0. *)
Definition go_phash_original (key : list Z) : Z :=
  let h := 0 in
  go_range key h.

(** ** The loops as folds *)

Lemma rev_take_S (key : list Z) (i : nat) c :
  key !! i = Some c -> rev (take (S i) key) = c :: rev (take i key).
Proof. intros H. rewrite (take_S_r _ _ _ H). apply rev_unit. Qed.

Lemma rb_aref_byte i : is_byte i -> rb_aref i = RbInt (T_at pearson_T i).
Proof.
  unfold rb_aref, is_byte. intros Hi.
  destruct (Z.leb_spec 0 i); [|lia]. destruct (Z.ltb_spec i 256); [reflexivity|lia].
Qed.

Lemma rb_aref_high i : 256 <= i -> rb_aref i = RbNil.
Proof.
  unfold rb_aref. intros Hi.
  rewrite (proj2 (Z.ltb_ge i 256)), (proj2 (Z.ltb_ge i 0)) by lia.
  now rewrite !andb_false_r.
Qed.

Lemma rb_downto_fold key (i : nat) h :
  Forall is_byte key -> is_byte h -> (i <= length key)%nat ->
  rb_downto key i (RbInt h) = Some (RbInt (fold h (rev (take i key)))).
Proof.
  intros Hk. revert h. induction i as [|i IH]; intros h Hh Hi; [reflexivity|].
  destruct (lookup_lt_is_Some_2 key i) as [c Hc]; [lia|].
  assert (is_byte c) by (rewrite Forall_forall in Hk; eapply Hk, list_elem_of_lookup_2, Hc).
  cbn [rb_downto]. rewrite Hc. cbn [rb_step]. rewrite rb_aref_byte by auto with byte.
  rewrite (rev_take_S _ _ _ Hc), IH; [reflexivity| |lia].
  apply (pearson_step_byte pearson_T); assumption.
Qed.

Lemma rb_each_byte_fold key h :
  Forall is_byte key -> is_byte h -> rb_each_byte key (RbInt h) = Some (RbInt (fold h key)).
Proof.
  intros Hk. revert h. induction Hk as [|c key Hc _ IH]; intros h Hh; [reflexivity|].
  cbn [rb_each_byte rb_step]. rewrite rb_aref_byte by auto with byte.
  apply IH, (pearson_step_byte pearson_T); assumption.
Qed.

Lemma go_rfc3074_loop_fold key (i : nat) h :
  (i <= length key)%nat ->
  go_rfc3074_loop key i h = Some (fold h (rev (take i key))).
Proof.
  revert h. induction i as [|i IH]; intros h Hi; [reflexivity|].
  destruct (lookup_lt_is_Some_2 key i) as [c Hc]; [lia|].
  cbn [go_rfc3074_loop]. rewrite Hc, (rev_take_S _ _ _ Hc). apply IH. lia.
Qed.

Lemma go_range_fold key h : go_range key h = fold h key.
Proof. revert h. induction key as [|c key IH]; intros h; [reflexivity|apply IH]. Qed.

(** ** Long keys in Ruby *)

Lemma lxor_high x c : 256 <= x -> is_byte c -> 256 <= Z.lxor x c.
Proof.
  intros Hx Hc. assert (E : Z.lxor x c / 2 ^ 8 = x / 2 ^ 8).
  { rewrite <- !Z.shiftr_div_pow2, Z.shiftr_lxor by lia.
    rewrite (Z.shiftr_div_pow2 c), Z.div_small, Z.lxor_0_r by (unfold is_byte in Hc; lia).
    reflexivity. }
  change (2 ^ 8) with 256 in E. revert E. Z.div_mod_to_equations. lia.
Qed.

Lemma rb_downto_nil key (i : nat) :
  (0 < i <= length key)%nat -> rb_downto key i RbNil = None.
Proof.
  intros Hi. destruct i as [|i]; [lia|].
  destruct (lookup_lt_is_Some_2 key i) as [c Hc]; [lia|].
  cbn [rb_downto]. now rewrite Hc.
Qed.

Lemma ruby_rfc3074_long key :
  Forall is_byte key -> (255 < length key)%nat -> ruby_phash_rfc3074 key = None.
Proof.
  intros Hk Hl. unfold ruby_phash_rfc3074. cbv zeta.
  destruct (length key) as [|i] eqn:El; [lia|].
  destruct (lookup_lt_is_Some_2 key i) as [c Hc]; [lia|].
  assert (is_byte c) by (rewrite Forall_forall in Hk; eapply Hk, list_elem_of_lookup_2, Hc).
  cbn [rb_downto]. rewrite Hc. cbn [rb_step].
  rewrite rb_aref_high by (apply lxor_high; [lia|assumption]).
  apply rb_downto_nil. lia.
Qed.

(** ** Characters of more than one byte in Ruby *)

Lemma rb_valid_bytes s : rb_valid s -> Forall is_byte (rb_bytes s).
Proof.
  unfold rb_bytes. induction 1 as [|c s [_ Hc] _ IH]; [constructor|].
  cbn [concat]. apply Forall_app. now split.
Qed.

Lemma rb_length_bytes s : rb_valid s -> (rb_length s <= length (rb_bytes s))%nat.
Proof.
  unfold rb_length, rb_bytes. induction 1 as [|c s [Hc _] _ IH]; [reflexivity|].
  cbn [concat length]. rewrite length_app. destruct c; [contradiction|cbn [length]; lia].
Qed.

(** A string of characters of one byte each is the list of its bytes. *)
Lemma ruby_chars_single key :
  ruby_phash_rfc3074_chars ((fun b => [b]) <$> key) = ruby_phash_rfc3074 key.
Proof.
  unfold ruby_phash_rfc3074_chars, ruby_phash_rfc3074, rb_length, rb_bytes. cbv zeta.
  rewrite length_fmap. f_equal. induction key as [|b key IH]; [reflexivity|].
  cbn. now rewrite IH.
Qed.

(** Ruby hashes as many bytes as the string has characters, seeded with
    the number of characters. *)
Lemma ruby_chars_value s :
  rb_valid s -> (rb_length s <= 255)%nat ->
  ruby_phash_rfc3074_chars s =
  Some (RbInt (fold (Z.of_nat (rb_length s)) (rev (take (rb_length s) (rb_bytes s))))).
Proof.
  intros Hv Hl. unfold ruby_phash_rfc3074_chars. cbv zeta.
  apply rb_downto_fold; [now apply rb_valid_bytes|byte_lia|now apply rb_length_bytes].
Qed.

(** ** The renditions against the specification *)

Lemma ruby_rfc3074_spec key :
  Forall is_byte key ->
  ruby_phash_rfc3074 key = RbInt <$> hashRFC3074 pearson_T key.
Proof.
  intros Hk. unfold hashRFC3074. destruct (decide _) as [Hle|Hgt].
  - unfold ruby_phash_rfc3074. cbv zeta.
    rewrite rb_downto_fold, take_ge by (assumption || byte_lia || lia). reflexivity.
  - rewrite ruby_rfc3074_long by (assumption || lia). reflexivity.
Qed.

Lemma go_rfc3074_value key :
  let h := Z.of_nat (length key) mod 256 in
  go_phash_rfc3074 key = Some (fold h (rev (take (Z.to_nat h) key))).
Proof.
  cbv zeta. unfold go_phash_rfc3074, go_byte. cbv zeta.
  apply go_rfc3074_loop_fold.
  pose proof (Z.mod_le (Z.of_nat (length key)) 256). lia.
Qed.

Lemma go_rfc3074_spec key h :
  hashRFC3074 pearson_T key = Some h -> go_phash_rfc3074 key = Some h.
Proof.
  unfold hashRFC3074. destruct (decide _) as [Hle|]; [|discriminate]. intros [= <-].
  rewrite go_rfc3074_value. cbv zeta.
  rewrite Z.mod_small, Nat2Z.id, take_ge by lia. reflexivity.
Qed.

Section reference.
Context {P : Platform} `{!PlatformOk P}.

(** C38: for a key of at most 255 plain bytes the C function
    [phash_rfc3074] returns the value the Ruby and the Go rendition
    return. *)
Theorem rfc3074_renditions_agree m key bs :
  mem_wf m -> cstring_at m key bs -> all_plain bs = true -> (length bs <= 255)%nat ->
  exists h, phash_rfc3074 key m = Ok (h, m) /\
            ruby_phash_rfc3074 bs = Some (RbInt h) /\
            go_phash_rfc3074 bs = Some h.
Proof.
  intros Hwf Hs Hp Hl. destruct key as [|b o]; [destruct Hs|].
  assert (Hh : hashRFC3074 pearson_T bs = Some (fold (Z.of_nat (length bs)) (rev bs))).
  { unfold hashRFC3074. destruct (decide _); [reflexivity|lia]. }
  exists (fold (Z.of_nat (length bs)) (rev bs)). split; [|split].
  - rewrite (phash_rfc3074_run m b o bs Hwf Hs), Hp, to_uchar_id by byte_lia. reflexivity.
  - rewrite ruby_rfc3074_spec, Hh; [reflexivity|]. destruct Hs as [Hk _].
    now apply is_key_bytes.
  - now apply go_rfc3074_spec.
Qed.

(** C39: for a key longer than 255 bytes the three languages part: Ruby
    raises, Go hashes only the first [len mod 256] bytes, C hashes all of
    them; Go and C seed with [len mod 256]. *)
Theorem rfc3074_renditions_part m key bs :
  mem_wf m -> cstring_at m key bs -> all_plain bs = true -> (255 < length bs)%nat ->
  let h := Z.of_nat (length bs) mod 256 in
  ruby_phash_rfc3074 bs = None /\
  go_phash_rfc3074 bs = Some (fold h (rev (take (Z.to_nat h) bs))) /\
  phash_rfc3074 key m = Ok (fold h (rev bs), m).
Proof.
  intros Hwf Hs Hp Hl. cbv zeta. destruct key as [|b o]; [destruct Hs|]. split; [|split].
  - apply ruby_rfc3074_long; [|assumption]. destruct Hs as [Hk _]. now apply is_key_bytes.
  - apply go_rfc3074_value.
  - now rewrite (phash_rfc3074_run m b o bs Hwf Hs), Hp.
Qed.

(** C40: on a key of plain bytes the C function [phash_wikipedia]
    returns the value of the Ruby and of the Go rendition of
    [phash_original], as the comment of line 71 says of the three. *)
Theorem original_renditions_agree m key bs :
  mem_wf m -> cstring_at m key bs -> all_plain bs = true ->
  phash_wikipedia key m = Ok (go_phash_original bs, m) /\
  ruby_phash_original bs = Some (RbInt (go_phash_original bs)).
Proof.
  intros Hwf Hs Hp. destruct key as [|b o]; [destruct Hs|].
  unfold go_phash_original, ruby_phash_original. cbv zeta. rewrite go_range_fold. split.
  - now rewrite (phash_wikipedia_run m b o bs Hwf Hs), Hp.
  - apply rb_each_byte_fold; [|byte_lia]. destruct Hs as [Hk _]. now apply is_key_bytes.
Qed.

(** The Ruby rendition of [phash_rfc3074] is the C function on strings
    of one-byte characters only.  On a key with a character of more than
    one byte, C hashes all the bytes and seeds with their number, Ruby
    hashes as many bytes as there are characters and seeds with that. *)
Theorem ruby_rfc3074_multibyte m key s :
  mem_wf m -> cstring_at m key (rb_bytes s) -> all_plain (rb_bytes s) = true ->
  rb_valid s -> (length (rb_bytes s) <= 255)%nat ->
  let n := rb_length s in
  phash_rfc3074 key m = Ok (fold (Z.of_nat (length (rb_bytes s))) (rev (rb_bytes s)), m) /\
  ruby_phash_rfc3074_chars s = Some (RbInt (fold (Z.of_nat n) (rev (take n (rb_bytes s))))).
Proof.
  intros Hwf Hs Hp Hv Hl. cbv zeta. pose proof (rb_length_bytes s Hv). split.
  - destruct key as [|b o]; [destruct Hs|].
    rewrite (phash_rfc3074_run m b o _ Hwf Hs), Hp, to_uchar_id by byte_lia. reflexivity.
  - apply ruby_chars_value; [assumption|lia].
Qed.

End reference.

Lemma rfc3074_renditions_agree_witness :
  exists h, @phash_rfc3074 x86_64 (Ptr 0 0) abc = Ok (h, abc) /\
            ruby_phash_rfc3074 [97; 98; 99] = Some (RbInt h) /\
            go_phash_rfc3074 [97; 98; 99] = Some h.
Proof.
  apply (@rfc3074_renditions_agree x86_64 _ abc (Ptr 0 0) [97; 98; 99]); by_compute.
Defined.

Lemma rfc3074_renditions_part_witness :
  let bs := replicate 256 97 in
  let h := Z.of_nat (length bs) mod 256 in
  ruby_phash_rfc3074 bs = None /\
  go_phash_rfc3074 bs = Some (fold h (rev (take (Z.to_nat h) bs))) /\
  @phash_rfc3074 aarch64 (Ptr 0 0) [string_block bs] = Ok (fold h (rev bs), [string_block bs]).
Proof.
  apply (@rfc3074_renditions_part aarch64 _ [string_block (replicate 256 97)] (Ptr 0 0)
           (replicate 256 97)); by_compute.
Defined.

Lemma original_renditions_agree_witness :
  @phash_wikipedia x86_64 (Ptr 0 0) abc = Ok (go_phash_original [97; 98; 99], abc) /\
  ruby_phash_original [97; 98; 99] = Some (RbInt (go_phash_original [97; 98; 99])).
Proof.
  apply (@original_renditions_agree x86_64 _ abc (Ptr 0 0) [97; 98; 99]); by_compute.
Defined.

(** The key "é", one character of two bytes in UTF-8: Ruby hashes the
    first byte with the seed 1, C both bytes with the seed 2. *)
Example ruby_e_acute :
  exists x y, ruby_phash_rfc3074_chars [[195; 169]] = Some (RbInt x) /\
              eval (@phash_rfc3074 aarch64 (Ptr 0 0)) [string_block [195; 169]] = Ok y /\
              x <> y.
Proof. eexists _, _. split; [|split]; [vm_compute; reflexivity ..|discriminate]. Qed.
